(** * Frank-Number: a shallow embedding of findFrankNumber.c

    The development follows the layout of the C sources:
    - [Bitset]: the vertex / arc bitsets of bitset.h,
    - digraphs, the strong-connectivity check and the deletable-edge engine,
    - the exact algorithm (pool of bitsets, constraint solver, orientation
      enumeration),
    - the perfect-matching enumeration of the heuristic,
    - the graph6 reader and the per-graph step of the driver.

    C [int]s are modelled as [Z] (no arithmetic of the program gets near the
    [int] range: every value is bounded by the number of vertices, at most
    128), C arrays as lists read and written by index, structs as records.
    Functions that mutate an argument through a pointer return the new value
    next to their result. *)

From Stdlib Require Import ZArith Lia Bool List String Sorted.
From stdpp Require Import base list.
Import ListNotations.

#[local] Open Scope Z_scope.
#[local] Unset Default Proof Using.

(** ** Results of C computations *)

(** A call either runs out of the fuel that bounds the recursion of the model,
    ends the process with [exit(code)], or returns. *)
Inductive result (A : Type) : Type :=
| OutOfFuel : result A
| Exit (code : Z) : result A
| Ret (a : A) : result A.

Arguments OutOfFuel {A}.
Arguments Exit {A} code.
Arguments Ret {A} a.

Definition bind {A B : Type} (r : result A) (k : A -> result B) : result B :=
  match r with
  | OutOfFuel => OutOfFuel
  | Exit c => Exit c
  | Ret a => k a
  end.

Notation "'let*' x ':=' c 'in' k" := (bind c (fun x => k))
  (at level 10, x pattern, c at level 200, k at level 200).

(** ** C arrays *)

(** [aget d a i] is [a[i]], [aset a i v] is [a[i] = v]. An index outside the
    array is undefined behaviour in C; the model reads the default [d] and
    drops the write. *)
Definition aget {A : Type} (d : A) (a : list A) (i : Z) : A :=
  if i <? 0 then d else default d (a !! Z.to_nat i).

Definition aset {A : Type} (a : list A) (i : Z) (v : A) : list A :=
  if i <? 0 then a else <[Z.to_nat i := v]> a.

(** ** Bitsets *)

Module Bitset.

(** Modelled from the spec: the headers bitset64Vertices.h,
    bitset128Vertices.h and bitset128VerticesArray.h that bitset.h includes
    are missing. A bitset is the integer whose binary digits are the
    membership bits; the operations are those the spec lists: EMPTY,
    singleton, add, remove, contains, union, intersection, difference,
    complement up to N, size (popcount), next-after (or -1), iteration in
    ascending order, equality. *)
Definition bitset : Type := Z.

Definition EMPTY : bitset := 0.
Definition singleton (i : Z) : bitset := Z.shiftl 1 i.
Definition contains (s : bitset) (i : Z) : bool := Z.testbit s i.
Definition add (s : bitset) (i : Z) : bitset := Z.lor s (singleton i).
Definition removeElement (s : bitset) (i : Z) : bitset := Z.ldiff s (singleton i).
Definition union (s t : bitset) : bitset := Z.lor s t.
Definition intersection (s t : bitset) : bitset := Z.land s t.
Definition difference (s t : bitset) : bitset := Z.ldiff s t.
Definition complement (s : bitset) (n : Z) : bitset := Z.ldiff (Z.ones n) s.
Definition isEmpty (s : bitset) : bool := s =? 0.
Definition equals (s t : bitset) : bool := s =? t.

(** The positions of the set bits of a positive number, from position [k]
    on, in ascending order. *)
Fixpoint pos_elements (p : positive) (k : Z) : list Z :=
  match p with
  | xH => [k]
  | xO p' => pos_elements p' (k + 1)
  | xI p' => k :: pos_elements p' (k + 1)
  end.

(** The elements of a bitset in ascending order: the order in which
    [forEach] visits them. *)
Definition elements (s : bitset) : list Z :=
  match s with
  | Zpos p => pos_elements p 0
  | _ => []
  end.

Definition size (s : bitset) : Z := Z.of_nat (length (elements s)).

(** [next s i]: the smallest element of [s] strictly greater than [i], or
    [-1]. *)
Definition next (s : bitset) (i : Z) : Z :=
  match List.filter (fun x => i <? x) (elements s) with
  | x :: _ => x
  | [] => -1
  end.

(** [forEachAfterIndex(x, s, i)] visits the elements of [s] greater than
    [i], in ascending order. *)
Definition elementsAfter (s : bitset) (i : Z) : list Z :=
  List.filter (fun x => i <? x) (elements s).

End Bitset.
Import Bitset.

(** [isSubset(set1, set2)] of findFrankNumber.c. *)
Definition isSubset (set1 set2 : bitset) : bool :=
  equals set1 (intersection set1 set2).

(** ** Digraphs *)

Record diGraph : Type := mkDiGraph {
  numberOfVertices : Z;
  adjacencyList : list bitset;
  reverseAdjacencyList : list bitset;
  numberOfArcs : Z
}.

Definition outNbrs (g : diGraph) (i : Z) : bitset := aget EMPTY (adjacencyList g) i.
Definition inNbrs (g : diGraph) (i : Z) : bitset := aget EMPTY (reverseAdjacencyList g) i.

(** [struct diGraph g = {.numberOfVertices = n}; malloc; emptyGraph(&g)] *)
Definition emptyGraph (n : Z) : diGraph :=
  {| numberOfVertices := n;
     adjacencyList := replicate (Z.to_nat n) EMPTY;
     reverseAdjacencyList := replicate (Z.to_nat n) EMPTY;
     numberOfArcs := 0 |}.

Definition addArc (g : diGraph) (i j : Z) : diGraph :=
  {| numberOfVertices := numberOfVertices g;
     adjacencyList := aset (adjacencyList g) i (add (outNbrs g i) j);
     reverseAdjacencyList := aset (reverseAdjacencyList g) j (add (inNbrs g j) i);
     numberOfArcs := numberOfArcs g + 1 |}.

Definition removeArc (g : diGraph) (i j : Z) : diGraph :=
  {| numberOfVertices := numberOfVertices g;
     adjacencyList := aset (adjacencyList g) i (removeElement (outNbrs g i) j);
     reverseAdjacencyList :=
       aset (reverseAdjacencyList g) j (removeElement (inNbrs g j) i);
     numberOfArcs := numberOfArcs g - 1 |}.

(** ** Strong connectivity check *)

(** [visit]: the state is the pair of [*unvisitedVertices] and the list
    [L[0..lengthOfL)]. One unit of fuel per nested call. *)
Fixpoint visit (fuel : nat) (g : diGraph) (vertexToVisit : Z)
    (st : bitset * list Z) : result (bitset * list Z) :=
  match fuel with
  | O => OutOfFuel
  | S f =>
    let '(unvisitedVertices, L) := st in
    if negb (contains unvisitedVertices vertexToVisit) then Ret st
    else
      let* st' :=
        fold_left
          (fun (acc : result (bitset * list Z)) outNeighbour =>
             let* s := acc in visit f g outNeighbour s)
          (elements (outNbrs g vertexToVisit))
          (Ret (removeElement unvisitedVertices vertexToVisit, L)) in
      Ret (fst st', snd st' ++ [vertexToVisit])
  end.

Fixpoint assign (fuel : nat) (g : diGraph) (vertex : Z)
    (assignedVertices : bitset) : result bitset :=
  match fuel with
  | O => OutOfFuel
  | S f =>
    if contains assignedVertices vertex then Ret assignedVertices
    else
      fold_left
        (fun (acc : result bitset) inNeighbour =>
           let* s := acc in assign f g inNeighbour s)
        (elements (inNbrs g vertex))
        (Ret (add assignedVertices vertex))
  end.

(** The recursion of [visit] and [assign] is at most one level deeper than
    the number of vertices. *)
Definition dfsFuel (n : Z) : nat := S (S (Z.to_nat n)).

Definition isStronglyConnected (g : diGraph) : result bool :=
  let n := numberOfVertices g in
  let* st :=
    fold_left
      (fun (acc : result (bitset * list Z)) i =>
         let* s := acc in visit (dfsFuel n) g i s)
      (map Z.of_nat (seq 0 (Z.to_nat n)))
      (Ret (complement EMPTY n, [])) in
  let L := snd st in
  let* assignedVertices :=
    assign (dfsFuel n) g (aget 0 L (Z.of_nat (length L) - 1)) EMPTY in
  Ret (size assignedVertices =? n).

(** ** Deletable edges *)

Definition matrix : Type := list (list Z).

Definition mget (m : matrix) (i j : Z) : Z := aget 0 (aget [] m i) j.
Definition mset (m : matrix) (i j v : Z) : matrix :=
  aset m i (aset (aget [] m i) j v).

(** [int edgeNumbering[numberOfVertices][numberOfVertices]] is declared
    without initialiser; the model starts from zeros. *)
Definition newMatrix (n : Z) : matrix :=
  replicate (Z.to_nat n) (replicate (Z.to_nat n) 0).

Definition vertices (n : Z) : list Z := map Z.of_nat (seq 0 (Z.to_nat n)).

Definition numberEdges (adjacencyList : list bitset) (n : Z)
    (edgeIndices : matrix) : matrix :=
  fst (fold_left
         (fun (st : matrix * Z) i =>
            fold_left
              (fun (st : matrix * Z) nbr =>
                 let '(m, counter) := st in
                 (mset (mset m i nbr counter) nbr i counter, counter + 1))
              (elementsAfter (aget EMPTY adjacencyList i) i) st)
         (vertices n) (edgeIndices, 0)).

(** A [forEach] whose body may [return true]. *)
Fixpoint existsR (body : Z -> result bool) (l : list Z) : result bool :=
  match l with
  | [] => Ret false
  | x :: l' => let* b := body x in if b then Ret true else existsR body l'
  end.

(** [unvisitedVertices] is passed by value: a callee's removals are not seen
    by its caller. *)
Fixpoint containsDirectedPathBetween (fuel : nat) (orientation : diGraph)
    (unvisitedVertices : bitset) (i end_ : Z) : result bool :=
  match fuel with
  | O => OutOfFuel
  | S f =>
    if contains (outNbrs orientation i) end_ then Ret true
    else
      let unvisitedVertices := removeElement unvisitedVertices i in
      existsR
        (fun element =>
           containsDirectedPathBetween f orientation unvisitedVertices element end_)
        (elements (intersection (outNbrs orientation i) unvisitedVertices))
  end.

(** The body of the inner loop of [getDeletableEdges]. The loop runs over
    the out-neighbours of [i]; every pass removes the arc and adds it again,
    so the set is the same whenever the loop header reads it. *)
Definition deletableStep (n : Z) (edgeNumbering : matrix) (i nbr : Z)
    (st : bitset * diGraph) : result (bitset * diGraph) :=
  let '(deletableEdges, orientation) := st in
  let orientation := removeArc orientation i nbr in
  let* b := containsDirectedPathBetween (dfsFuel n) orientation
              (complement EMPTY n) i nbr in
  let deletableEdges :=
    if b then add deletableEdges (mget edgeNumbering i nbr) else deletableEdges in
  Ret (deletableEdges, addArc orientation i nbr).

Definition getDeletableEdges (orientation : diGraph) (n : Z)
    (edgeNumbering : matrix) : result (bitset * diGraph) :=
  fold_left
    (fun (acc : result (bitset * diGraph)) i =>
       let* st := acc in
       fold_left
         (fun (acc : result (bitset * diGraph)) nbr =>
            let* st := acc in deletableStep n edgeNumbering i nbr st)
         (elements (outNbrs (snd st) i)) (Ret st))
    (vertices n) (Ret (EMPTY, orientation)).

(** ** Options and counters *)

Record options : Type := mkOptions {
  bruteForceFlag : bool;
  complementFlag : bool;
  doublecheckFlag : bool;
  exhaustiveCheckFlag : bool;
  oddCyclesHeuristicFlag : bool;
  verboseFlag : bool;
  printFlag : bool;
  singleGraphFlag : bool;
  modulo : Z;
  remainder : Z;
  sizeOfArray : Z
}.

(** The counters are [long long unsigned int]: they wrap at 2^64. *)
Definition ull (z : Z) : Z := z mod 2 ^ 64.

Record counters : Type := mkCounters {
  generatedOrientations : Z;
  mostGeneratedOrientations : Z;
  storedBitsets : Z;
  mostStoredBitsets : Z;
  orientationsGivingSubset : Z;
  orientationsGivingSuperset : Z;
  emptyBitsetsStored : Z;
  complementaryBitsets : Z;
  graphsSatisfyingOddnessCondition : Z;
  graphsNotSatisfyingOddnessCondition : Z;
  graphsSatisfyingFirstOddness : Z;
  graphsSatisfyingSecondOddness : Z;
  totalOrientationsGenerated : Z
}.

Definition zeroCounters : counters :=
  mkCounters 0 0 0 0 0 0 0 0 0 0 0 0 0.

Definition set_generatedOrientations (c : counters) (v : Z) : counters :=
  mkCounters v (mostGeneratedOrientations c) (storedBitsets c)
    (mostStoredBitsets c) (orientationsGivingSubset c)
    (orientationsGivingSuperset c) (emptyBitsetsStored c)
    (complementaryBitsets c) (graphsSatisfyingOddnessCondition c)
    (graphsNotSatisfyingOddnessCondition c) (graphsSatisfyingFirstOddness c)
    (graphsSatisfyingSecondOddness c) (totalOrientationsGenerated c).

Definition set_storedBitsets (c : counters) (v : Z) : counters :=
  mkCounters (generatedOrientations c) (mostGeneratedOrientations c) v
    (mostStoredBitsets c) (orientationsGivingSubset c)
    (orientationsGivingSuperset c) (emptyBitsetsStored c)
    (complementaryBitsets c) (graphsSatisfyingOddnessCondition c)
    (graphsNotSatisfyingOddnessCondition c) (graphsSatisfyingFirstOddness c)
    (graphsSatisfyingSecondOddness c) (totalOrientationsGenerated c).

Definition set_orientationsGivingSubset (c : counters) (v : Z) : counters :=
  mkCounters (generatedOrientations c) (mostGeneratedOrientations c)
    (storedBitsets c) (mostStoredBitsets c) v
    (orientationsGivingSuperset c) (emptyBitsetsStored c)
    (complementaryBitsets c) (graphsSatisfyingOddnessCondition c)
    (graphsNotSatisfyingOddnessCondition c) (graphsSatisfyingFirstOddness c)
    (graphsSatisfyingSecondOddness c) (totalOrientationsGenerated c).

Definition set_orientationsGivingSuperset (c : counters) (v : Z) : counters :=
  mkCounters (generatedOrientations c) (mostGeneratedOrientations c)
    (storedBitsets c) (mostStoredBitsets c) (orientationsGivingSubset c) v
    (emptyBitsetsStored c)
    (complementaryBitsets c) (graphsSatisfyingOddnessCondition c)
    (graphsNotSatisfyingOddnessCondition c) (graphsSatisfyingFirstOddness c)
    (graphsSatisfyingSecondOddness c) (totalOrientationsGenerated c).

Definition set_emptyBitsetsStored (c : counters) (v : Z) : counters :=
  mkCounters (generatedOrientations c) (mostGeneratedOrientations c)
    (storedBitsets c) (mostStoredBitsets c) (orientationsGivingSubset c)
    (orientationsGivingSuperset c) v
    (complementaryBitsets c) (graphsSatisfyingOddnessCondition c)
    (graphsNotSatisfyingOddnessCondition c) (graphsSatisfyingFirstOddness c)
    (graphsSatisfyingSecondOddness c) (totalOrientationsGenerated c).

Definition set_complementaryBitsets (c : counters) (v : Z) : counters :=
  mkCounters (generatedOrientations c) (mostGeneratedOrientations c)
    (storedBitsets c) (mostStoredBitsets c) (orientationsGivingSubset c)
    (orientationsGivingSuperset c) (emptyBitsetsStored c) v
    (graphsSatisfyingOddnessCondition c)
    (graphsNotSatisfyingOddnessCondition c) (graphsSatisfyingFirstOddness c)
    (graphsSatisfyingSecondOddness c) (totalOrientationsGenerated c).

Definition set_totalOrientationsGenerated (c : counters) (v : Z) : counters :=
  mkCounters (generatedOrientations c) (mostGeneratedOrientations c)
    (storedBitsets c) (mostStoredBitsets c) (orientationsGivingSubset c)
    (orientationsGivingSuperset c) (emptyBitsetsStored c)
    (complementaryBitsets c) (graphsSatisfyingOddnessCondition c)
    (graphsNotSatisfyingOddnessCondition c) (graphsSatisfyingFirstOddness c)
    (graphsSatisfyingSecondOddness c) v.

Definition set_mostGeneratedOrientations (c : counters) (v : Z) : counters :=
  mkCounters (generatedOrientations c) v (storedBitsets c)
    (mostStoredBitsets c) (orientationsGivingSubset c)
    (orientationsGivingSuperset c) (emptyBitsetsStored c)
    (complementaryBitsets c) (graphsSatisfyingOddnessCondition c)
    (graphsNotSatisfyingOddnessCondition c) (graphsSatisfyingFirstOddness c)
    (graphsSatisfyingSecondOddness c) (totalOrientationsGenerated c).

Definition set_mostStoredBitsets (c : counters) (v : Z) : counters :=
  mkCounters (generatedOrientations c) (mostGeneratedOrientations c)
    (storedBitsets c) v (orientationsGivingSubset c)
    (orientationsGivingSuperset c) (emptyBitsetsStored c)
    (complementaryBitsets c) (graphsSatisfyingOddnessCondition c)
    (graphsNotSatisfyingOddnessCondition c) (graphsSatisfyingFirstOddness c)
    (graphsSatisfyingSecondOddness c) (totalOrientationsGenerated c).

Definition set_graphsSatisfyingOddnessCondition (c : counters) (v : Z) : counters :=
  mkCounters (generatedOrientations c) (mostGeneratedOrientations c)
    (storedBitsets c) (mostStoredBitsets c) (orientationsGivingSubset c)
    (orientationsGivingSuperset c) (emptyBitsetsStored c)
    (complementaryBitsets c) v
    (graphsNotSatisfyingOddnessCondition c) (graphsSatisfyingFirstOddness c)
    (graphsSatisfyingSecondOddness c) (totalOrientationsGenerated c).

Definition set_graphsNotSatisfyingOddnessCondition (c : counters) (v : Z) : counters :=
  mkCounters (generatedOrientations c) (mostGeneratedOrientations c)
    (storedBitsets c) (mostStoredBitsets c) (orientationsGivingSubset c)
    (orientationsGivingSuperset c) (emptyBitsetsStored c)
    (complementaryBitsets c) (graphsSatisfyingOddnessCondition c) v
    (graphsSatisfyingFirstOddness c)
    (graphsSatisfyingSecondOddness c) (totalOrientationsGenerated c).

(** ** Dynamic arrays *)

(** [array] holds the [size] allocated cells; the cells from [used] on are
    never read. Allocation does not fail in the model. *)
Record Array : Type := mkArray {
  array : list bitset;
  used : Z;
  size_ : Z
}.

Definition initArray (initialSize : Z) : Array :=
  {| array := replicate (Z.to_nat initialSize) EMPTY; used := 0;
     size_ := initialSize |}.

Definition insertArray (a : Array) (element : bitset) : Array :=
  let a :=
    if used a =? size_ a
    then {| array := array a ++ replicate (Z.to_nat (size_ a)) EMPTY;
            used := used a; size_ := size_ a * 2 |}
    else a in
  {| array := aset (array a) (used a) element; used := used a + 1;
     size_ := size_ a |}.

Definition insertArrayAtPos (a : Array) (element : bitset) (index : Z)
    : result Array :=
  if size_ a <? index then Exit 1
  else Ret {| array := aset (array a) index element; used := used a;
              size_ := size_ a |}.

(** ** Exact algorithm: the brute force pool *)

(** The state of the scanning loop of [getIntermediateFrankNumber]: either
    the function has returned, or the loop goes on. *)
Inductive scan : Type :=
| ScanReturn (r : Z) (numberOf : counters) (pool : Array)
| ScanDone (insertPosition : Z) (numberOf : counters) (pool : Array).

Fixpoint scanPool (indices : list Z) (bitsetContainingAllEdges deletableEdges : bitset)
    (insertPosition : Z) (numberOf : counters) (pool : Array) : scan :=
  match indices with
  | [] => ScanDone insertPosition numberOf pool
  | i :: rest =>
    if negb (isEmpty (aget EMPTY (array pool) i)) then
      if isSubset deletableEdges (aget EMPTY (array pool) i) then
        ScanReturn 0
          (set_orientationsGivingSubset numberOf
             (ull (orientationsGivingSubset numberOf + 1))) pool
      else
        let '(numberOf, pool) :=
          if isSubset (aget EMPTY (array pool) i) deletableEdges then
            ((if insertPosition =? used pool
              then set_orientationsGivingSuperset numberOf
                     (ull (orientationsGivingSuperset numberOf + 1))
              else numberOf),
             {| array := aset (array pool) i EMPTY; used := used pool;
                size_ := size_ pool |})
          else (numberOf, pool) in
        if equals (union deletableEdges (aget EMPTY (array pool) i))
             bitsetContainingAllEdges
        then
          ScanReturn 2
            (set_complementaryBitsets numberOf
               (ull (complementaryBitsets numberOf + 1)))
            (insertArray pool deletableEdges)
        else
          scanPool rest bitsetContainingAllEdges deletableEdges insertPosition
            numberOf pool
    else
      scanPool rest bitsetContainingAllEdges deletableEdges
        (if insertPosition =? used pool then i else insertPosition)
        numberOf pool
  end.

Definition getIntermediateFrankNumber (numberOf : counters) (n : Z)
    (bitsetsOfDeletableEdges : Array) (deletableEdges : bitset)
    : result (Z * counters * Array) :=
  let insertPosition := used bitsetsOfDeletableEdges in
  let bitsetContainingAllEdges := complement EMPTY (3 * n ÷ 2) in
  match scanPool (vertices (used bitsetsOfDeletableEdges))
          bitsetContainingAllEdges deletableEdges insertPosition numberOf
          bitsetsOfDeletableEdges with
  | ScanReturn r numberOf pool => Ret (r, numberOf, pool)
  | ScanDone insertPosition numberOf pool =>
    if negb (insertPosition =? used pool) then
      let* pool := insertArrayAtPos pool deletableEdges insertPosition in
      Ret (0, numberOf, pool)
    else Ret (0, numberOf, insertArray pool deletableEdges)
  end.

(** ** Exact algorithm: the complementary-orientation solver *)

Definition otherEdgesAreNonDeletable (adjacencyList : list bitset) (x y : Z)
    (deletableEdges : bitset) (edgeNumbering : matrix) : bool :=
  forallb
    (fun element =>
       (element =? y) || negb (contains deletableEdges (mget edgeNumbering x element)))
    (elements (aget EMPTY adjacencyList x)).

(** [if(!f(...)) return false;] on a mutable orientation. *)
Definition andThen (r : result (bool * diGraph))
    (k : diGraph -> result (bool * diGraph)) : result (bool * diGraph) :=
  match r with
  | Ret (true, o) => k o
  | _ => r
  end.

(** A [forEach] whose body may [return false]. *)
Fixpoint forEachArc (l : list Z) (body : Z -> diGraph -> result (bool * diGraph))
    (o : diGraph) : result (bool * diGraph) :=
  match l with
  | [] => Ret (true, o)
  | element :: l' => andThen (body element o) (forEachArc l' body)
  end.

(** The first neighbour of [x] other than [y] whose edge to [x] is not in
    [deletableEdges]: where the loops that end in [break] stop. *)
Definition otherNonDeletable (adjacencyList : list bitset) (x y : Z)
    (deletableEdges : bitset) (edgeNumbering : matrix) : option Z :=
  List.find
    (fun element =>
       negb (element =? y)
       && negb (contains deletableEdges (mget edgeNumbering x element)))
    (elements (aget EMPTY adjacencyList x)).

(** The tests of [canAddNewArc] between the degree tests and [addArc]:
    [false] when the function returns false there. *)
Definition arcIsAdmissible (adjacencyList : list bitset) (orientation : diGraph)
    (x y : Z) (deletableEdges : bitset) (edgeNumbering : matrix) : bool :=
  if contains deletableEdges (mget edgeNumbering x y) then
    forallb
      (fun element =>
         (element =? y)
         || negb (contains deletableEdges (mget edgeNumbering x element)
                  && contains (outNbrs orientation x) element))
      (elements (aget EMPTY adjacencyList x))
    && forallb
      (fun element =>
         (element =? x)
         || negb (contains deletableEdges (mget edgeNumbering y element)
                  && contains (inNbrs orientation y) element))
      (elements (aget EMPTY adjacencyList y))
  else
    negb ((size (outNbrs orientation x) >=? 2) || (size (inNbrs orientation x) >=? 2))
    && negb ((size (outNbrs orientation y) >=? 2) || (size (inNbrs orientation y) >=? 2))
    && match otherNonDeletable adjacencyList x y deletableEdges edgeNumbering with
       | Some _ => negb (contains (inNbrs orientation x) y)
       | None => true
       end
    && match otherNonDeletable adjacencyList y x deletableEdges edgeNumbering with
       | Some _ => negb (contains (outNbrs orientation y) x)
       | None => true
       end.

Fixpoint canAddNewArc (fuel : nat) (adjacencyList : list bitset) (n : Z)
    (orientation : diGraph) (x y : Z) (deletableEdges : bitset)
    (edgeNumbering : matrix) : result (bool * diGraph) :=
  match fuel with
  | O => OutOfFuel
  | S f =>
    let recurse o a b :=
      canAddNewArc f adjacencyList n o a b deletableEdges edgeNumbering in
    if contains (outNbrs orientation x) y then Ret (true, orientation)
    else if contains (outNbrs orientation y) x then Ret (false, orientation)
    else if size (outNbrs orientation x) >=? 2 then Ret (false, orientation)
    else if size (inNbrs orientation y) >=? 2 then Ret (false, orientation)
    else if negb (arcIsAdmissible adjacencyList orientation x y deletableEdges
                    edgeNumbering)
    then Ret (false, orientation)
    else
      let orientation := addArc orientation x y in
      (* If x has two outgoing and no incoming, add the final incoming. *)
      andThen
        (if (size (outNbrs orientation x) =? 2)
            && (size (inNbrs orientation x) <? 1)
         then
           let lastNeighbour :=
             next (difference (aget EMPTY adjacencyList x) (outNbrs orientation x))
               (-1) in
           recurse orientation lastNeighbour x
         else Ret (true, orientation))
      (fun orientation =>
      (* If y has no outgoing and two incoming, add the final outgoing. *)
      andThen
        (if (size (outNbrs orientation y) =? 0)
            && (size (inNbrs orientation y) =? 2)
         then
           let lastNeighbour :=
             next (difference (aget EMPTY adjacencyList y) (inNbrs orientation y))
               (-1) in
           recurse orientation y lastNeighbour
         else Ret (true, orientation))
      (fun orientation =>
      if contains deletableEdges (mget edgeNumbering x y) then
        andThen
          (forEachArc (elements (aget EMPTY adjacencyList x))
             (fun element o =>
                if element =? y then Ret (true, o)
                else if contains deletableEdges (mget edgeNumbering x element)
                then recurse o element x
                else Ret (true, o))
             orientation)
        (fun orientation =>
        andThen
          (forEachArc (elements (aget EMPTY adjacencyList y))
             (fun element o =>
                if element =? x then Ret (true, o)
                else if contains deletableEdges (mget edgeNumbering y element)
                then recurse o y element
                else Ret (true, o))
             orientation)
        (fun orientation =>
        andThen
          (if otherEdgesAreNonDeletable adjacencyList x y deletableEdges
                edgeNumbering
           then
             forEachArc (elements (aget EMPTY adjacencyList x))
               (fun element o =>
                  if element =? y then Ret (true, o) else recurse o element x)
               orientation
           else Ret (true, orientation))
        (fun orientation =>
          if otherEdgesAreNonDeletable adjacencyList y x deletableEdges
               edgeNumbering
          then
            forEachArc (elements (aget EMPTY adjacencyList y))
              (fun element o =>
                 if element =? x then Ret (true, o) else recurse o y element)
              orientation
          else Ret (true, orientation))))
      else
        andThen
          (if (size (outNbrs orientation y) =? 0)
              && (size (inNbrs orientation y) =? 2)
           then
             let lastNeighbour :=
               next (difference (aget EMPTY adjacencyList y)
                       (outNbrs orientation y)) (-1) in
             recurse orientation y lastNeighbour
           else Ret (true, orientation))
        (fun orientation =>
        andThen
          (if (size (outNbrs orientation y) =? 1)
              && (size (inNbrs orientation y) =? 1)
           then
             let lastNeighbour :=
               next (difference (aget EMPTY adjacencyList y)
                       (union (outNbrs orientation y) (inNbrs orientation y)))
                 (-1) in
             recurse orientation lastNeighbour y
           else Ret (true, orientation))
        (fun orientation =>
        andThen
          (match otherNonDeletable adjacencyList x y deletableEdges
                   edgeNumbering with
           | Some element => recurse orientation x element
           | None => Ret (true, orientation)
           end)
        (fun orientation =>
          match otherNonDeletable adjacencyList y x deletableEdges
                  edgeNumbering with
          | Some element => recurse orientation element y
          | None => Ret (true, orientation)
          end)))))
  end.

(** Every call of [canAddNewArc] that recurses has added an arc, and no
    vertex gets a third outgoing arc. *)
Definition arcFuel (n : Z) : nat := S (S (Z.to_nat (2 * n))).

(** The recursion of the two searches advances by one edge or one vertex. *)
Definition searchFuel (n : Z) : nat := S (S (Z.to_nat (n * n + n))).

(** The branch "We have oriented all edges" of
    [canCompleteCompOrientation]. A wrong arc count only writes a line to
    stderr; the lines written are the first component. *)
Definition compOrientationCheck (n : Z) (orientation : diGraph)
    (deletableEdges : bitset) (edgeNumbering : matrix)
    : list string * result (bool * diGraph) :=
  (if negb (numberOfArcs orientation =? 3 * n ÷ 2)
   then ["Something went wrong"%string] else [],
   let* r0 :=
     getDeletableEdges orientation n edgeNumbering in
      let '(complementDeletableEdges, orientation) := r0 in
   Ret (equals (union deletableEdges complementDeletableEdges)
          (complement EMPTY (3 * n ÷ 2)), orientation)).

Fixpoint canCompleteCompOrientation (fuel : nat) (adjacencyList : list bitset)
    (n : Z) (orientation : diGraph) (deletableEdges : bitset)
    (edgeNumbering : matrix) (endpoint1 endpoint2 : Z)
    : result (bool * diGraph) :=
  match fuel with
  | O => OutOfFuel
  | S f =>
    if (endpoint2 =? -1) && (endpoint1 <? n - 1) then
      canCompleteCompOrientation f adjacencyList n orientation deletableEdges
        edgeNumbering (endpoint1 + 1)
        (next (aget EMPTY adjacencyList (endpoint1 + 1)) (endpoint1 + 1))
    else if (endpoint2 =? -1) && (endpoint1 =? n - 1) then
      snd (compOrientationCheck n orientation deletableEdges edgeNumbering)
    else if contains (outNbrs orientation endpoint1) endpoint2
            || contains (outNbrs orientation endpoint2) endpoint1 then
      canCompleteCompOrientation f adjacencyList n orientation deletableEdges
        edgeNumbering endpoint1
        (next (aget EMPTY adjacencyList endpoint1) endpoint2)
    else
      let orientationCopy := orientation in
      let continue o :=
        canCompleteCompOrientation f adjacencyList n o deletableEdges
          edgeNumbering endpoint1
          (next (aget EMPTY adjacencyList endpoint1) endpoint2) in
      (* Try adding endpoint1->endpoint2 *)
      let* r1 :=
        andThen
          (canAddNewArc (arcFuel n) adjacencyList n orientation endpoint1
             endpoint2 deletableEdges edgeNumbering)
          continue in
      let '(found, orientation) := r1 in
      if found then Ret (true, orientation)
      else
        (* Put orientation back to before we added endpoint1->endpoint2. *)
        let orientation := orientationCopy in
        (* Try adding endpoint2->endpoint1. *)
        andThen
          (canAddNewArc (arcFuel n) adjacencyList n orientation endpoint2
             endpoint1 deletableEdges edgeNumbering)
          continue
  end.

Definition hasComplementaryOrientation (adjacencyList : list bitset) (n : Z)
    (deletableEdgesOfOrientationTocomplement : bitset) (edgeNumbering : matrix)
    : result bool :=
  let orientation := emptyGraph n in
  let* r2 :=
    canAddNewArc (arcFuel n) adjacencyList n orientation 0
      (next (aget EMPTY adjacencyList 0) (-1))
      deletableEdgesOfOrientationTocomplement edgeNumbering in
      let '(ok, orientation) := r2 in
  if negb ok then Ret false
  else
    let* r3 :=
      canCompleteCompOrientation (searchFuel n) adjacencyList n orientation
        deletableEdgesOfOrientationTocomplement edgeNumbering 0
        (next (aget EMPTY adjacencyList 0) (-1)) in
      let '(hasCompOrientation, _) := r3 in
    Ret hasCompOrientation.

(** ** Exact algorithm: the orientation enumeration *)

(** What the calls of [generateAllOrientations] thread: the counters, the
    pool and the orientation under construction. *)
Record genState : Type := mkGenState {
  gsNumberOf : counters;
  gsPool : Array;
  gsOrientation : diGraph
}.

(** The test for a vertex with three non-deletable incident edges. *)
Definition hasVertexWithoutDeletableEdge (adjacencyList : list bitset) (n : Z)
    (deletableEdges : bitset) (edgeNumbering : matrix) : bool :=
  existsb
    (fun i =>
       forallb
         (fun nbr => negb (contains deletableEdges (mget edgeNumbering i nbr)))
         (elements (aget EMPTY adjacencyList i)))
    (vertices n).

(** The branch "All edges are oriented" of [generateAllOrientations], from
    the test of strong connectivity on. *)
Definition examineOrientation (adjacencyList : list bitset) (opts : options)
    (n : Z) (edgeNumbering : matrix) (st : genState) : result (Z * genState) :=
  let numberOf := gsNumberOf st in
  let* strong := isStronglyConnected (gsOrientation st) in
  if negb strong then Ret (0, st)
  else
    let* r := getDeletableEdges (gsOrientation st) n edgeNumbering in
    let '(deletableEdges, orientation) := r in
    let st := mkGenState numberOf (gsPool st) orientation in
    (* Check if there is a vertex with three non-deletable incident edges. *)
    if hasVertexWithoutDeletableEdge adjacencyList n deletableEdges
         edgeNumbering
    then Ret (0, st)
    else
      let numberOf :=
        set_generatedOrientations numberOf
          (ull (generatedOrientations numberOf + 1)) in
      let st := mkGenState numberOf (gsPool st) orientation in
      if negb (bruteForceFlag opts) then
        let* b := hasComplementaryOrientation adjacencyList n deletableEdges
                    edgeNumbering in
        Ret (if b then 2 else 0, st)
      else
        let* r :=
          getIntermediateFrankNumber numberOf n (gsPool st) deletableEdges in
        let '(r, numberOf, pool) := r in
        Ret (r, mkGenState numberOf pool orientation).

(** The branch "All edges are oriented" of [generateAllOrientations]: the
    orientation gets the next index, and under [-s] only the indices with
    the right remainder go on. *)
Definition processOrientation (adjacencyList : list bitset) (opts : options)
    (n : Z) (edgeNumbering : matrix) (st : genState) : result (Z * genState) :=
  let numberOf :=
    set_totalOrientationsGenerated (gsNumberOf st)
      (ull (totalOrientationsGenerated (gsNumberOf st) + 1)) in
  let st := mkGenState numberOf (gsPool st) (gsOrientation st) in
  if singleGraphFlag opts
     && negb (totalOrientationsGenerated numberOf mod ull (modulo opts)
              =? ull (remainder opts))
  then Ret (0, st)
  else examineOrientation adjacencyList opts n edgeNumbering st.

Definition withOrientation (st : genState) (o : diGraph) : genState :=
  mkGenState (gsNumberOf st) (gsPool st) o.

Fixpoint generateAllOrientations (fuel : nat) (adjacencyList : list bitset)
    (opts : options) (n : Z) (edgeNumbering : matrix) (st : genState)
    (endpoint1 endpoint2 : Z) : result (Z * genState) :=
  match fuel with
  | O => OutOfFuel
  | S f =>
    if (endpoint2 =? -1) && (endpoint1 <? n - 1) then
      generateAllOrientations f adjacencyList opts n edgeNumbering st
        (endpoint1 + 1)
        (next (aget EMPTY adjacencyList (endpoint1 + 1)) (endpoint1 + 1))
    else if (endpoint2 =? -1) && (endpoint1 =? n - 1) then
      processOrientation adjacencyList opts n edgeNumbering st
    else
      let continue st :=
        generateAllOrientations f adjacencyList opts n edgeNumbering st
          endpoint1 (next (aget EMPTY adjacencyList endpoint1) endpoint2) in
      (* Orient edge and continue with next edge. *)
      let st := withOrientation st (addArc (gsOrientation st) endpoint1 endpoint2) in
      let* r :=
        if negb (size (outNbrs (gsOrientation st) endpoint1) =? 3)
           && negb (size (inNbrs (gsOrientation st) endpoint2) =? 3)
        then continue st
        else Ret (0, st) in
      let '(frankNumberUpperBound, st) := r in
      let st := withOrientation st (removeArc (gsOrientation st) endpoint1 endpoint2) in
      if negb (frankNumberUpperBound =? 0) then Ret (frankNumberUpperBound, st)
      else
        (* Orient edge in other way and continue. *)
        let st := withOrientation st (addArc (gsOrientation st) endpoint2 endpoint1) in
        let* r :=
          if negb (size (inNbrs (gsOrientation st) endpoint1) =? 3)
             && negb (size (outNbrs (gsOrientation st) endpoint2) =? 3)
          then continue st
          else Ret (0, st) in
        let '(frankNumberUpperBound, st) := r in
        let st := withOrientation st (removeArc (gsOrientation st) endpoint2 endpoint1) in
        if negb (frankNumberUpperBound =? 0) then Ret (frankNumberUpperBound, st)
        else Ret (0, st)
  end.

(** [findFrankNumber] also updates [options->sizeOfArray] and the counters;
    the messages it writes to stderr are left out. *)
Definition findFrankNumber (adjacencyList : list bitset) (n : Z)
    (opts : options) (numberOf : counters) : result (Z * options * counters) :=
  let bitsetsOfDeletableEdges := initArray (sizeOfArray opts) in
  let edgeNumbering := numberEdges adjacencyList n (newMatrix n) in
  let orientation := emptyGraph n in
  let* r :=
    generateAllOrientations (searchFuel n) adjacencyList opts n edgeNumbering
      (mkGenState numberOf bitsetsOfDeletableEdges orientation) (-1) (-1) in
  let '(frankNumber, st) := r in
  let numberOf := gsNumberOf st in
  let pool := gsPool st in
  if bruteForceFlag opts then
    let numberOf := set_storedBitsets numberOf (ull (used pool)) in
    let opts :=
      if sizeOfArray opts <? storedBitsets numberOf
      then mkOptions (bruteForceFlag opts) (complementFlag opts)
             (doublecheckFlag opts) (exhaustiveCheckFlag opts)
             (oddCyclesHeuristicFlag opts) (verboseFlag opts) (printFlag opts)
             (singleGraphFlag opts) (modulo opts) (remainder opts) (size_ pool)
      else opts in
    let numberOf :=
      fold_left
        (fun numberOf i =>
           if isEmpty (aget EMPTY (array pool) i)
           then set_emptyBitsetsStored numberOf
                  (ull (emptyBitsetsStored numberOf + 1))
           else numberOf)
        (vertices (used pool)) numberOf in
    Ret (frankNumber, opts, numberOf)
  else Ret (frankNumber, opts, numberOf).

(** ** Sample graphs *)

(** Adjacency lists from lists of neighbours. *)
Definition ofNeighbours (l : list (list Z)) : list bitset :=
  map (fun nbrs => fold_left add nbrs EMPTY) l.

Definition K4 : list bitset :=
  ofNeighbours [[1;2;3]; [0;2;3]; [0;1;3]; [0;1;2]].

Definition defaultOptions : options :=
  mkOptions false false false true true false false false 1 0 100000.

(** ** Heuristic algorithm: the enumeration of perfect matchings *)

Section Heuristic.

(** The branch of [hasSufficientCondition] taken when [F] is a perfect
    matching (the search for the two configurations in the 2-factor that is
    the complement of [F], lines 1210-1359) is a parameter. It reads [F] and
    the graph, updates the counters, and under [-d] or [-p] may end the
    process; it writes neither [F] nor, once it returns, the adjacency
    list. *)
Variable configurationTest :
  list bitset -> Z -> options -> counters -> list Z -> result (bool * counters).

(** A [forEach] over the neighbours that can be matched to [nextVertex];
    [attempt] is the recursive call. The state is the counters and [F]. *)
Fixpoint tryNeighbours
    (attempt : bitset -> counters -> list Z -> result (bool * counters * list Z))
    (remainingVertices : bitset) (nextVertex : Z) (neighbours : list Z)
    (numberOf : counters) (F : list Z) : result (bool * counters * list Z) :=
  match neighbours with
  | [] => Ret (false, numberOf, F)
  | neighbor :: rest =>
    let F := aset F neighbor nextVertex in
    let F := aset F nextVertex neighbor in
    let newRemainingVertices :=
      difference remainingVertices
        (union (singleton nextVertex) (singleton neighbor)) in
    let* r := attempt newRemainingVertices numberOf F in
    let '(found, numberOf, F) := r in
    if found then Ret (true, numberOf, F)
    else tryNeighbours attempt remainingVertices nextVertex rest numberOf F
  end.

Fixpoint hasSufficientCondition (fuel : nat) (adjacencyList : list bitset)
    (n : Z) (opts : options) (numberOf : counters) (remainingVertices : bitset)
    (F : list Z) : result (bool * counters * list Z) :=
  match fuel with
  | O => OutOfFuel
  | S f =>
    let nextVertex := next remainingVertices (-1) in
    if nextVertex =? -1 then
      let* r := configurationTest adjacencyList n opts numberOf F in
      Ret (fst r, snd r, F)
    else
      tryNeighbours
        (fun newRemainingVertices numberOf F =>
           hasSufficientCondition f adjacencyList n opts numberOf
             newRemainingVertices F)
        remainingVertices nextVertex
        (elements (intersection (aget EMPTY adjacencyList nextVertex)
                     remainingVertices))
        numberOf F
  end.

End Heuristic.

(** The checks that end [verifyOddnessHeuristicOrientations] (lines
    1485-1513), on the two orientations the function has built. *)
Definition verifyOrientations (adjacencyList : list bitset) (n : Z)
    (orientation1 orientation2 : diGraph) : result unit :=
  let* strong1 := isStronglyConnected orientation1 in
  let* strong2 :=
    if strong1 then isStronglyConnected orientation2 else Ret false in
  if negb strong1 || negb strong2 then Exit 1
  else
    let edgeNumbering := numberEdges adjacencyList n (newMatrix n) in
    let* r1 := getDeletableEdges orientation1 n edgeNumbering in
    let* r2 := getDeletableEdges orientation2 n edgeNumbering in
    if negb (equals (union (fst r1) (fst r2)) (complement EMPTY (3 * n ÷ 2)))
    then Exit 1
    else Ret tt.

(** ** readGraph6.c *)

(** A C string: the [char]s before the terminating NUL. Reading at the
    length gives the NUL; the model gives 0 beyond it as well. *)
Definition cstring : Type := list Z.

Definition chars (s : string) : cstring :=
  map (fun c => Z.of_nat (Ascii.nat_of_ascii c)) (list_ascii_of_string s).

Definition charAt (s : cstring) (i : Z) : Z := aget 0 s i.

(** [while(graphString[index] != '<') index++;] The scan stops at the end
    of the string in the model. *)
Fixpoint skipToLess (s : cstring) (index : Z) : Z :=
  match s with
  | [] => index
  | c :: rest => if c =? 60 then index else skipToLess rest (index + 1)
  end.

(** [number |= (graphString[index++] - 63) << i*6] for [i] from [k-1] down
    to 0. *)
Fixpoint readNumber (k : nat) (graphString : cstring) (index : Z) (number : Z) : Z :=
  match k with
  | O => number
  | S i =>
    readNumber i graphString (index + 1)
      (Z.lor number (Z.shiftl (charAt graphString index - 63) (Z.of_nat i * 6)))
  end.

(** [getNumberOfVertices] reports two of its errors with [printf]: the
    first component is what it writes to stdout. *)
Definition getNumberOfVertices (graphString : cstring) : list cstring * Z :=
  if (Z.of_nat (length graphString) =? 0) then
    ([chars "Error: String is empty.
"], -1)
  else if ((charAt graphString 0 <? 63) || (126 <? charAt graphString 0))
          && negb (charAt graphString 0 =? 62)
          && negb (charAt graphString 0 =? 38) then
    ([chars "Error: Invalid start of graphstring.
"], -1)
  else
    let index := 0 in
    (* Skip >>graph6<< header. *)
    let index :=
      if charAt graphString index =? 62
      then skipToLess graphString 0 + 1 else index in
    (* DiGraph6 format. *)
    let index := if charAt graphString index =? 38 then index + 1 else index in
    if charAt graphString index <? 126 then
      ([], charAt graphString index - 63)
    else if charAt graphString (index + 1) <? 126 then
      ([], readNumber 3 graphString (index + 1) 0)
    else if charAt graphString (index + 2) <? 126 then
      ([], readNumber 6 graphString (index + 2) 0)
    else ([], -1).

(** [prev(character, current)]: the highest set bit of [character] below
    position [current], or -1. *)
Fixpoint prevBit (fuel : nat) (character : Z) : Z :=
  match fuel with
  | O => -1
  | S f => if Z.testbit character (Z.of_nat f) then Z.of_nat f
           else prevBit f character
  end.

Definition prev (character current : Z) : Z :=
  if character =? 0 then -1 else prevBit (Z.to_nat current) character.

(** [while(position - sum >= 0) { sum += currentVertex; currentVertex++; }] *)
Fixpoint advanceColumn (fuel : nat) (position sum currentVertex : Z) : Z * Z :=
  match fuel with
  | O => (sum, currentVertex)
  | S f =>
    if 0 <=? position - sum
    then advanceColumn f position (sum + currentVertex) (currentVertex + 1)
    else (sum, currentVertex)
  end.

Record loadState : Type := mkLoadState {
  lsAdjacencyList : list bitset;
  lsCurrentVertex : Z;
  lsSum : Z
}.

(** The body of the inner [for] of [loadGraph], for the set bit [i] of the
    character at offset [index - startIndex]. *)
Definition loadBit (offset i : Z) (st : loadState) : loadState :=
  let position := 5 - i + offset * 6 in
  let '(sum, currentVertex) :=
    advanceColumn (S (S (Z.to_nat position))) position (lsSum st)
      (lsCurrentVertex st) in
  let currentVertex := currentVertex - 1 in
  let sum := sum - currentVertex in
  let neighbour := position - sum in
  let adj := lsAdjacencyList st in
  let adj := aset adj currentVertex (add (aget EMPTY adj currentVertex) neighbour) in
  let adj := aset adj neighbour (add (aget EMPTY adj neighbour) currentVertex) in
  mkLoadState adj currentVertex sum.

(** The inner [for]: the set bits of the character from bit 5 down. *)
Fixpoint loadChar (fuel : nat) (character offset i : Z) (st : loadState) : loadState :=
  match fuel with
  | O => st
  | S f =>
    if i =? -1 then st
    else loadChar f character offset (prev character i) (loadBit offset i st)
  end.

(** The outer [for]: returns the state and [finalChar]. *)
Fixpoint loadChars (s : cstring) (offset : Z) (finalChar : Z) (st : loadState)
    : loadState * Z :=
  match s with
  | [] => (st, 0)
  | c :: rest =>
    if c =? 10 then (st, finalChar)
    else if c =? 0 then (st, 0)
    else loadChars rest (offset + 1) c
           (loadChar 7 (c - 63) offset (prev (c - 63) 6) st)
  end.

Section Driver.

(** The build-time constant of bitset.h: 64 or 128. *)
Variable MAXVERTICES : Z.

(** [loadGraph] returns its status and the filled [adjacencyList]. *)
Definition loadGraph (graphString : cstring) (n : Z) : Z * list bitset :=
  let startIndex := 0 in
  let startIndex :=
    if charAt graphString 0 =? 62 then startIndex + 10 else startIndex in
  if n <=? 62 then
    let startIndex := startIndex + 1 in
    let '(st, finalChar) :=
      loadChars (drop (Z.to_nat startIndex) graphString) 0 10
        (mkLoadState (replicate (Z.to_nat n) EMPTY) 1 0) in
    if finalChar =? 0 then (-1, lsAdjacencyList st)
    else (0, lsAdjacencyList st)
  else if n <=? MAXVERTICES then
    let startIndex := startIndex + 4 in
    let '(st, finalChar) :=
      loadChars (drop (Z.to_nat startIndex) graphString) 0 10
        (mkLoadState (replicate (Z.to_nat n) EMPTY) 1 0) in
    if finalChar =? 0 then (-1, lsAdjacencyList st)
    else (0, lsAdjacencyList st)
  else (-1, replicate (Z.to_nat n) EMPTY).

(** The configurations test of the heuristic, as in [Heuristic]. *)
Variable configurationTest :
  list bitset -> Z -> options -> counters -> list Z -> result (bool * counters).

(** The local variables of [main] that live across input lines, with what
    has been written to stdout. *)
Record driverState : Type := mkDriverState {
  dsOptions : options;
  dsNumberOf : counters;
  totalGraphs : Z;
  counter : Z;
  skippedGraphs : Z;
  passedGraphs : Z;
  stdout : list cstring
}.

(** How one pass through the body of the [while] over the input lines
    ends: [break], [continue] before the graph is accepted, or the end of the
    body with the computed [frankNumber]. *)
Inductive lineOutcome : Type :=
| LoopBreak
| NotInClass
| Skipped
| Processed (adjacencyList : list bitset) (frankNumber : Z).

(** Lines 1709-1742: the heuristic, then the exact algorithm. [int F[n]] is
    not initialised; the model starts it from zeros. *)
Definition computeFrankNumber (adjacencyList : list bitset) (n : Z)
    (opts : options) (numberOf : counters) : result (Z * options * counters) :=
  let* r :=
    if oddCyclesHeuristicFlag opts then
      let F := replicate (Z.to_nat n) 0 in
      let* h := hasSufficientCondition configurationTest (S (Z.to_nat n))
                  adjacencyList n opts numberOf (complement EMPTY n) F in
      let '(found, numberOf, _) := h in
      if found then
        Ret (2, set_graphsSatisfyingOddnessCondition numberOf
                  (ull (graphsSatisfyingOddnessCondition numberOf + 1)))
      else
        Ret (0, set_graphsNotSatisfyingOddnessCondition numberOf
                  (ull (graphsNotSatisfyingOddnessCondition numberOf + 1)))
    else Ret (0, numberOf) in
  let '(frankNumber, numberOf) := r in
  if exhaustiveCheckFlag opts && (frankNumber =? 0)
  then findFrankNumber adjacencyList n opts numberOf
  else Ret (frankNumber, opts, numberOf).

(** Lines 1743-1762: whether [printf("%s", graphString)] is reached. *)
Definition emitsGraph (opts : options) (frankNumber : Z) : bool :=
  ((frankNumber =? 0) && negb (complementFlag opts))
  || ((frankNumber =? 2) && complementFlag opts).

(** The body of the [while] loop of [main] for one input line. *)
Definition processLine (st : driverState) (graphString : cstring)
    : result (lineOutcome * driverState) :=
  let opts := dsOptions st in
  let totalGraphs := ull (totalGraphs st + 1) in
  let numberOf := dsNumberOf st in
  let numberOf := set_generatedOrientations numberOf 0 in
  let numberOf := set_orientationsGivingSubset numberOf 0 in
  let numberOf := set_complementaryBitsets numberOf 0 in
  let numberOf := set_emptyBitsetsStored numberOf 0 in
  if singleGraphFlag opts && (2 <=? totalGraphs) then
    Ret (LoopBreak,
         mkDriverState opts numberOf (ull (totalGraphs - 1)) (counter st)
           (skippedGraphs st) (passedGraphs st) (stdout st))
  else if negb (singleGraphFlag opts)
          && negb (ull (totalGraphs - 1) mod ull (modulo opts)
                   =? ull (remainder opts))
  then
    Ret (NotInClass,
         mkDriverState opts numberOf totalGraphs (counter st)
           (skippedGraphs st) (passedGraphs st) (stdout st))
  else
    let '(written, n) := getNumberOfVertices graphString in
    let out := stdout st ++ written in
    let skip :=
      Ret (Skipped,
           mkDriverState opts numberOf totalGraphs (counter st)
             (ull (skippedGraphs st + 1)) (passedGraphs st) out) in
    if (n =? -1) || (MAXVERTICES <? n) then skip
    else if MAXVERTICES <? n * 3 ÷ 2 then skip
    else
      let '(status, adjacencyList) := loadGraph graphString n in
      if status =? -1 then skip
      else
        let counter := ull (counter st + 1) in
        let* r := computeFrankNumber adjacencyList n opts numberOf in
        let '(frankNumber, opts, numberOf) := r in
        let '(passedGraphs, out) :=
          if emitsGraph opts frankNumber
          then (ull (passedGraphs st + 1), out ++ [graphString])
          else (passedGraphs st, out) in
        let numberOf :=
          if mostGeneratedOrientations numberOf <? generatedOrientations numberOf
          then set_mostGeneratedOrientations numberOf
                 (generatedOrientations numberOf)
          else numberOf in
        let numberOf :=
          if mostStoredBitsets numberOf <? storedBitsets numberOf
          then set_mostStoredBitsets numberOf (storedBitsets numberOf)
          else numberOf in
        Ret (Processed adjacencyList frankNumber,
             mkDriverState opts numberOf totalGraphs counter
               (skippedGraphs st) passedGraphs out).

End Driver.

(** * Specification predicates *)

(** ** The pool of deletable-edge sets *)

(** Set inclusion of bitsets. *)
Definition subsetOf (s t : bitset) : Prop :=
  forall i, contains s i = true -> contains t i = true.

(** No stored non-empty set is a subset of another stored non-empty set. *)
Definition pairwiseIncomparable (pool : Array) : Prop :=
  forall i j, 0 <= i < used pool -> 0 <= j < used pool -> i <> j ->
    aget EMPTY (array pool) i <> EMPTY ->
    aget EMPTY (array pool) j <> EMPTY ->
    ~ subsetOf (aget EMPTY (array pool) i) (aget EMPTY (array pool) j).

(** The used cells are allocated. *)
Definition poolWellFormed (pool : Array) : Prop :=
  0 <= used pool <= size_ pool
  /\ Z.of_nat (length (array pool)) = size_ pool
  /\ 0 < size_ pool.

(** A sequence of calls of [getIntermediateFrankNumber] that all return 0. *)
Fixpoint feedPool (numberOf : counters) (n : Z) (pool : Array)
    (sets : list bitset) : option (counters * Array) :=
  match sets with
  | [] => Some (numberOf, pool)
  | deletableEdges :: rest =>
    match getIntermediateFrankNumber numberOf n pool deletableEdges with
    | Ret (0, numberOf, pool) => feedPool numberOf n pool rest
    | _ => None
    end
  end.

(** ** Digraphs and orientations *)

Definition arc (o : diGraph) (i j : Z) : Prop :=
  contains (outNbrs o i) j = true.

(** The digraphs the program builds: both arrays have one cell per vertex,
    the neighbours are vertices, and the reverse adjacency list mirrors the
    adjacency list. *)
Definition wfDiGraph (o : diGraph) : Prop :=
  0 <= numberOfVertices o
  /\ length (adjacencyList o) = Z.to_nat (numberOfVertices o)
  /\ length (reverseAdjacencyList o) = Z.to_nat (numberOfVertices o)
  /\ (forall u, 0 <= outNbrs o u)
  /\ (forall u, 0 <= inNbrs o u)
  /\ (forall u v, arc o u v -> 0 <= v < numberOfVertices o)
  /\ (forall u v, contains (inNbrs o v) u = contains (outNbrs o u) v).

(** An undirected graph on the vertices [0..n): the adjacency list is
    symmetric, has no loops and only holds vertices. *)
Definition wfGraph (adjacencyList : list bitset) (n : Z) : Prop :=
  0 <= n
  /\ length adjacencyList = Z.to_nat n
  /\ (forall u, 0 <= aget EMPTY adjacencyList u)
  /\ (forall u v, contains (aget EMPTY adjacencyList u) v = true -> 0 <= v < n)
  /\ (forall u v, contains (aget EMPTY adjacencyList u) v
                  = contains (aget EMPTY adjacencyList v) u)
  /\ (forall u, contains (aget EMPTY adjacencyList u) u = false).

Definition cubic (adjacencyList : list bitset) (n : Z) : Prop :=
  forall v, 0 <= v < n -> size (aget EMPTY adjacencyList v) = 3.

(** [o] orients every edge of the graph in exactly one direction and has no
    other arc. *)
Definition orientationOf (adjacencyList : list bitset) (n : Z) (o : diGraph)
    : Prop :=
  numberOfVertices o = n
  /\ wfDiGraph o
  /\ (forall u v, arc o u v -> contains (aget EMPTY adjacencyList u) v = true)
  /\ (forall u v, contains (aget EMPTY adjacencyList u) v = true ->
                  arc o u v \/ arc o v u)
  /\ (forall u v, arc o u v -> ~ arc o v u).

(** The digraph with every arc reversed. *)
Definition reverseDiGraph (o : diGraph) : diGraph :=
  {| numberOfVertices := numberOfVertices o;
     adjacencyList := reverseAdjacencyList o;
     reverseAdjacencyList := adjacencyList o;
     numberOfArcs := numberOfArcs o |}.

(** A directed walk with at least one arc whose inner vertices lie in
    [allowed]. *)
Inductive walk (o : diGraph) (allowed : bitset) : Z -> Z -> Prop :=
| walk_arc (i e : Z) : arc o i e -> walk o allowed i e
| walk_step (i j e : Z) :
    arc o i j -> contains allowed j = true -> walk o allowed j e ->
    walk o allowed i e.

(** The arc [i -> nbr] can be deleted: without it there still is a walk
    from [i] to [nbr]. *)
Definition deletableArc (o : diGraph) (i nbr : Z) : Prop :=
  arc o i nbr
  /\ walk (removeArc o i nbr) (complement EMPTY (numberOfVertices o)) i nbr.

(** The edge numbers of the deletable arcs. *)
Definition isDeletableSet (o : diGraph) (edgeNumbering : matrix)
    (s : bitset) : Prop :=
  forall e, contains s e = true <->
            0 <= e /\ exists i nbr, deletableArc o i nbr
                                    /\ mget edgeNumbering i nbr = e.

(** An [n] by [n] matrix. *)
Definition squareMatrix (m : matrix) (n : Z) : Prop :=
  length m = Z.to_nat n
  /\ forall i, 0 <= i < n -> length (aget [] m i) = Z.to_nat n.

Definition symmetricMatrix (m : matrix) : Prop :=
  forall a b, mget m a b = mget m b a.

(** Boolean versions of the well-formedness predicates, to run on concrete
    graphs. *)
Definition inRange (n : Z) (s : bitset) : bool := (0 <=? s) && (s <? 2 ^ n).

Definition checkGraph (adjacencyList : list bitset) (n : Z) : bool :=
  (0 <=? n)
  && (Z.of_nat (length adjacencyList) =? n)
  && forallb
       (fun u =>
          inRange n (aget EMPTY adjacencyList u)
          && negb (contains (aget EMPTY adjacencyList u) u)
          && forallb
               (fun v =>
                  Bool.eqb (contains (aget EMPTY adjacencyList u) v)
                    (contains (aget EMPTY adjacencyList v) u))
               (vertices n))
       (vertices n).

Definition checkCubic (adjacencyList : list bitset) (n : Z) : bool :=
  forallb (fun v => size (aget EMPTY adjacencyList v) =? 3) (vertices n).

Definition checkDiGraph (o : diGraph) : bool :=
  let n := numberOfVertices o in
  (0 <=? n)
  && (Z.of_nat (length (adjacencyList o)) =? n)
  && (Z.of_nat (length (reverseAdjacencyList o)) =? n)
  && forallb
       (fun u =>
          inRange n (outNbrs o u) && inRange n (inNbrs o u)
          && forallb
               (fun v =>
                  Bool.eqb (contains (inNbrs o v) u) (contains (outNbrs o u) v))
               (vertices n))
       (vertices n).

Definition checkOrientation (adjacencyList : list bitset) (n : Z)
    (o : diGraph) : bool :=
  (numberOfVertices o =? n)
  && checkDiGraph o
  && forallb
       (fun u =>
          forallb
            (fun v =>
               Bool.eqb (contains (aget EMPTY adjacencyList u) v)
                 (contains (outNbrs o u) v || contains (outNbrs o v) u)
               && negb (contains (outNbrs o u) v && contains (outNbrs o v) u))
            (vertices n))
       (vertices n).

(** ** The order of the edges *)

(** The edges [(u, v)] with [u < v], in the order in which the two searches
    visit them. *)
Definition edgeRow (adjacencyList : list bitset) (u : Z) : list (Z * Z) :=
  map (pair u) (elementsAfter (aget EMPTY adjacencyList u) u).

Definition edgeList (adjacencyList : list bitset) (n : Z) : list (Z * Z) :=
  flat_map (edgeRow adjacencyList) (vertices n).

(** The edges that are still to be visited when a search is at
    [(endpoint1, endpoint2)]. *)
Definition edgesFrom (adjacencyList : list bitset) (n : Z)
    (endpoint1 endpoint2 : Z) : list (Z * Z) :=
  (if endpoint2 =? -1 then []
   else map (pair endpoint1)
          (List.filter (fun v => endpoint2 <=? v)
             (elements (aget EMPTY adjacencyList endpoint1))))
  ++ flat_map (edgeRow adjacencyList)
       (List.filter (fun u => endpoint1 <? u) (vertices n)).

Section Enumeration.

Variable leaf : genState -> result (Z * genState).

(** [generateAllOrientations] as a recursion on the list of the edges that
    are still to be oriented; [leaf] is the branch "All edges are
    oriented". *)
Fixpoint enumerateOrientations (edges : list (Z * Z)) (st : genState)
    : result (Z * genState) :=
  match edges with
  | [] => leaf st
  | (endpoint1, endpoint2) :: rest =>
    let st := withOrientation st (addArc (gsOrientation st) endpoint1 endpoint2) in
    let* r :=
      if negb (size (outNbrs (gsOrientation st) endpoint1) =? 3)
         && negb (size (inNbrs (gsOrientation st) endpoint2) =? 3)
      then enumerateOrientations rest st
      else Ret (0, st) in
    let '(frankNumberUpperBound, st) := r in
    let st := withOrientation st (removeArc (gsOrientation st) endpoint1 endpoint2) in
    if negb (frankNumberUpperBound =? 0) then Ret (frankNumberUpperBound, st)
    else
      let st := withOrientation st (addArc (gsOrientation st) endpoint2 endpoint1) in
      let* r :=
        if negb (size (inNbrs (gsOrientation st) endpoint1) =? 3)
           && negb (size (outNbrs (gsOrientation st) endpoint2) =? 3)
        then enumerateOrientations rest st
        else Ret (0, st) in
      let '(frankNumberUpperBound, st) := r in
      let st := withOrientation st (removeArc (gsOrientation st) endpoint2 endpoint1) in
      if negb (frankNumberUpperBound =? 0) then Ret (frankNumberUpperBound, st)
      else Ret (0, st)
  end.

End Enumeration.

(** The orientations at which the enumeration arrives when every edge has
    its direction: for every edge of the list first the direction
    [endpoint1 -> endpoint2], then [endpoint2 -> endpoint1], and a branch is
    cut when a vertex gets a third outgoing or a third incoming arc. *)
Fixpoint leafOrientations (edges : list (Z * Z)) (o : diGraph) : list diGraph :=
  match edges with
  | [] => [o]
  | (endpoint1, endpoint2) :: rest =>
    (let o := addArc o endpoint1 endpoint2 in
     if negb (size (outNbrs o endpoint1) =? 3)
        && negb (size (inNbrs o endpoint2) =? 3)
     then leafOrientations rest o else [])
    ++
    (let o := addArc o endpoint2 endpoint1 in
     if negb (size (inNbrs o endpoint1) =? 3)
        && negb (size (outNbrs o endpoint2) =? 3)
     then leafOrientations rest o else [])
  end.

(** The branch "All edges are oriented" run on a list of orientations in
    turn, until it returns a value other than 0. *)
Fixpoint processOrientations (leaf : genState -> result (Z * genState))
    (orientations : list diGraph) (st : genState) : result (Z * genState) :=
  match orientations with
  | [] => Ret (0, st)
  | o :: rest =>
    let* r := leaf (withOrientation st o) in
    let '(frankNumber, st) := r in
    if negb (frankNumber =? 0) then Ret (frankNumber, st)
    else processOrientations leaf rest st
  end.

(** The edges of the list lie between vertices and are not yet oriented in
    [o]. *)
Definition edgesFresh (n : Z) (o : diGraph) (edges : list (Z * Z)) : Prop :=
  forall u v, In (u, v) edges ->
    0 <= u < n /\ 0 <= v < n /\ u <> v /\ ~ arc o u v /\ ~ arc o v u.

(** No edge occurs twice in the list, in either order of its ends. *)
Definition edgesDistinct (edges : list (Z * Z)) : Prop :=
  List.NoDup edges /\ forall u v, In (u, v) edges -> ~ In (v, u) edges.

(** The triangular prism. *)
Definition prism : list bitset :=
  ofNeighbours [[1;2;3]; [0;2;4]; [0;1;5]; [0;4;5]; [1;3;5]; [2;3;4]].

(** [-e -s 0/1000]: the exact algorithm only, split over 1000 runs of which
    this is run 0. On graphs with fewer than 1000 candidate orientations no
    candidate falls in the class of this run. *)
Definition shardOptions : options :=
  mkOptions false false false true false false false true 1000 0 4.

Definition stronglyConnectedb (o : diGraph) : bool :=
  match isStronglyConnected o with
  | Ret true => true
  | _ => false
  end.


(** The configuration test that accepts no perfect matching: with it
    [hasSufficientCondition] is the bare enumeration of perfect matchings. *)
Definition rejectConfiguration
    (adjacencyList : list bitset) (n : Z) (opts : options)
    (numberOf : counters) (F : list Z) : result (bool * counters) :=
  Ret (false, numberOf).

(** ** The solver *)

(** What a step of the solver guarantees: it does not end the process, and
    when it returns true the orientation it leaves satisfies [J]. *)
Definition holdsOnSuccess (J : diGraph -> Prop) (r : result (bool * diGraph))
    : Prop :=
  match r with
  | Ret (true, o) => J o
  | Ret (false, _) => True
  | OutOfFuel => True
  | Exit _ => False
  end.

(** [o] orients some of the edges of the graph, each in one direction. *)
Definition partialOrientationOf (adjacencyList : list bitset) (n : Z)
    (o : diGraph) : Prop :=
  numberOfVertices o = n
  /\ wfDiGraph o
  /\ (forall u v, arc o u v -> contains (aget EMPTY adjacencyList u) v = true)
  /\ (forall u v, arc o u v -> ~ arc o v u).

(** Every arc of [o] is an arc of [o']. *)
Definition extends (o o' : diGraph) : Prop :=
  forall u v, arc o u v -> arc o' u v.

(** A vertex, or the [-1] that [next] gives at the end of a set. *)
Definition vertexOrNone (n x : Z) : Prop := -1 <= x < n.

(** Every stored set that is not empty satisfies [P]. The cells from [used]
    on are empty. *)
Definition cellsSatisfy (P : bitset -> Prop) (a : list bitset) : Prop :=
  forall i, aget EMPTY a i <> EMPTY -> P (aget EMPTY a i).

(** [s] is the set of the deletable edges of an orientation of the graph. *)
Definition deletableSetOf (adjacencyList : list bitset) (n : Z)
    (edgeNumbering : matrix) (s : bitset) : Prop :=
  exists o, orientationOf adjacencyList n o /\ isDeletableSet o edgeNumbering s.

(** Two orientations of the graph whose deletable edges are all the edges
    [0 .. 3n/2 - 1]. *)
Definition coveredByTwo (adjacencyList : list bitset) (n : Z)
    (edgeNumbering : matrix) : Prop :=
  exists S1 S2,
    deletableSetOf adjacencyList n edgeNumbering S1
    /\ deletableSetOf adjacencyList n edgeNumbering S2
    /\ forall e, contains (union S1 S2) e = true <-> 0 <= e < 3 * n ÷ 2.

(** A call does not end the process. *)
Definition noExit {A : Type} (r : result A) : Prop :=
  forall code, r <> Exit code.

(** The orientation [0->1->2->0, 1->3, 2->3, 3->0] of K4 with a wrong count
    of arcs. *)
Definition K4_miscounted : diGraph :=
  {| numberOfVertices := 4;
     adjacencyList := ofNeighbours [[1]; [2; 3]; [0; 3]; [0]];
     reverseAdjacencyList := ofNeighbours [[2; 3]; [0]; [1]; [1; 2]];
     numberOfArcs := 7 |}.

(** The orientation of K4 with all arcs from the smaller to the larger
    vertex: it is not strongly connected. *)
Definition K4_acyclic : diGraph :=
  {| numberOfVertices := 4;
     adjacencyList := ofNeighbours [[1; 2; 3]; [2; 3]; [3]; []];
     reverseAdjacencyList := ofNeighbours [[]; [0]; [0; 1]; [0; 1; 2]];
     numberOfArcs := 6 |}.

(** ** The driver *)

(** The options with the complement flag [-c] set to [b]. *)
Definition withComplementFlag (b : bool) (opts : options) : options :=
  mkOptions (bruteForceFlag opts) b (doublecheckFlag opts)
    (exhaustiveCheckFlag opts) (oddCyclesHeuristicFlag opts) (verboseFlag opts)
    (printFlag opts) (singleGraphFlag opts) (modulo opts) (remainder opts)
    (sizeOfArray opts).

(** The same state of [main] in the run with the complement flag [b]. *)
Definition inMode (b : bool) (st : driverState) : driverState :=
  mkDriverState (withComplementFlag b (dsOptions st)) (dsNumberOf st)
    (totalGraphs st) (counter st) (skippedGraphs st) (passedGraphs st)
    (stdout st).

(** The state of [main] before the first line is read. *)
Definition startState (opts : options) : driverState :=
  mkDriverState opts zeroCounters 0 0 0 0 [].

(** The result of a search is 0 or 2. *)
Definition zeroOrTwo {A : Type} (r : result (Z * A)) : Prop :=
  match r with
  | Ret (v, _) => v = 0 \/ v = 2
  | _ => True
  end.

(** The graph6 line of K4: [C~] and a newline. *)
Definition K4_line : cstring := [67; 126; 10].


(** The tests of [main] before a line is looked at: with [-s] only the
    first line is read, and without it only the lines of the class
    [remainder] modulo [modulo]. *)
Definition lineIsRead (st : driverState) : bool :=
  let opts := dsOptions st in
  let totalGraphs := ull (totalGraphs st + 1) in
  negb (singleGraphFlag opts && (2 <=? totalGraphs))
  && negb (negb (singleGraphFlag opts)
           && negb (ull (totalGraphs - 1) mod ull (modulo opts)
                    =? ull (remainder opts))).


(** The pool invariant, with the inclusion test of the program. *)
Definition noStoredSubset (u : Z) (a : list bitset) : Prop :=
  forall i j, 0 <= i < u -> 0 <= j < u -> i <> j ->
    aget EMPTY a i <> EMPTY -> aget EMPTY a j <> EMPTY ->
    isSubset (aget EMPTY a i) (aget EMPTY a j) = false.

(** What the scan has established after the cells below [k]. *)
Definition scanned (deletableEdges : bitset) (u : Z) (k : Z) (a : list bitset)
    (insertPosition : Z) : Prop :=
  (forall i, 0 <= i < k -> aget EMPTY a i <> EMPTY ->
     isSubset deletableEdges (aget EMPTY a i) = false
     /\ isSubset (aget EMPTY a i) deletableEdges = false)
  /\ (insertPosition = u
      \/ (0 <= insertPosition < k /\ aget EMPTY a insertPosition = EMPTY)).

(** A strongly connected orientation of K4. *)
Definition K4_cyclic : diGraph :=
  {| numberOfVertices := 4;
     adjacencyList := ofNeighbours [[1]; [2; 3]; [0; 3]; [0]];
     reverseAdjacencyList := ofNeighbours [[2; 3]; [0]; [1]; [1; 2]];
     numberOfArcs := 6 |}.

(** An orientation of the prism that is not strongly connected: the two
    triangles are directed cycles and the three other edges all point from
    the first triangle to the second. *)
Definition prism_not_strong : diGraph :=
  {| numberOfVertices := 6;
     adjacencyList := [10; 20; 33; 16; 32; 8];
     reverseAdjacencyList := [4; 1; 2; 33; 10; 20];
     numberOfArcs := 9 |}.

(** The run over a list of leaves, with the orientation put back to [o] at
    the end. *)
Definition runLeaves (leaf : genState -> result (Z * genState))
    (leaves : list diGraph) (o : diGraph) (st : genState)
    : result (Z * genState) :=
  let* r := processOrientations leaf leaves st in
  Ret (fst r, withOrientation (snd r) o).

(** [F] and [F'] agree outside the set [rem]. *)
Definition agreeOutside (rem : bitset) (F F' : list Z) : Prop :=
  length F' = length F
  /\ forall i, contains rem i = false -> aget 0 F' i = aget 0 F i.

(** What [canAddNewArc] guarantees when it returns true. *)
Definition arcAdded (adjacencyList : list bitset) (n : Z) (o : diGraph)
    (x y : Z) (o' : diGraph) : Prop :=
  partialOrientationOf adjacencyList n o'
  /\ extends o o'
  /\ (0 <= x -> 0 <= y -> arc o' x y).

(** What the solver has found when it returns true: an orientation of the
    graph whose deletable edges, with [deletableEdges], are all the edges. *)
Definition complementaryTo (adjacencyList : list bitset) (n : Z)
    (deletableEdges : bitset) (edgeNumbering : matrix) (o' : diGraph) : Prop :=
  orientationOf adjacencyList n o'
  /\ exists T, isDeletableSet o' edgeNumbering T
               /\ union deletableEdges T = complement EMPTY (3 * n ÷ 2).

(** The edges before the position of the search are oriented in [o]. *)
Definition orientedBefore (adjacencyList : list bitset) (n : Z) (o : diGraph)
    (e1 e2 : Z) : Prop :=
  forall u v, In (u, v) (edgeList adjacencyList n) ->
    In (u, v) (edgesFrom adjacencyList n e1 e2) \/ arc o u v \/ arc o v u.

(** What holds after a leaf of the enumeration: the pool holds sets of
    deletable edges of orientations of the graph, and a result 2 comes with
    two orientations that cover the edges. *)
Definition leafSound (adjacencyList : list bitset) (n : Z) (r : Z)
    (st' : genState) : Prop :=
  let edgeNumbering := numberEdges adjacencyList n (newMatrix n) in
  cellsSatisfy (deletableSetOf adjacencyList n edgeNumbering)
    (array (gsPool st'))
  /\ (r = 0 \/ r = 2)
  /\ (r = 2 -> coveredByTwo adjacencyList n edgeNumbering).

(** The counters with which a line is processed. *)
Definition freshCounters (numberOf : counters) : counters :=
  set_emptyBitsetsStored
    (set_complementaryBitsets
       (set_orientationsGivingSubset (set_generatedOrientations numberOf 0) 0)
       0)
    0.

(** ** Strong connectivity *)

(** From every vertex there is a walk to every other vertex. *)
Definition stronglyConnected (o : diGraph) : Prop :=
  forall u v,
    0 <= u < numberOfVertices o -> 0 <= v < numberOfVertices o -> u <> v ->
    walk o (complement EMPTY (numberOfVertices o)) u v.

(** The test of strong connectivity by a search from every vertex to every
    other vertex. *)
Definition checkStronglyConnected (o : diGraph) : bool :=
  let n := numberOfVertices o in
  forallb
    (fun u =>
       forallb
         (fun v =>
            (u =? v)
            || match containsDirectedPathBetween (dfsFuel n) o
                       (complement EMPTY n) u v with
               | Ret true => true
               | _ => false
               end)
         (vertices n))
    (vertices n).

(** No vertex has three outgoing or three incoming arcs. *)
Definition noThirdArc (o : diGraph) : Prop :=
  forall v, size (outNbrs o v) <= 2 /\ size (inNbrs o v) <= 2.





(** ** The numbering of the edges *)

(** What [numberEdges] does for one edge: both entries of the edge get the
    value of the counter. *)
Definition numberStep (st : matrix * Z) (e : Z * Z) : matrix * Z :=
  (mset (mset (fst st) (fst e) (snd e) (snd st)) (snd e) (fst e) (snd st),
   snd st + 1).

(** ** Complementary orientations *)

(** A call returns; when it returns true the orientation satisfies [J], and
    under the condition [C] it returns true. *)
Definition returnsOk (J : diGraph -> Prop) (C : Prop)
    (r : result (bool * diGraph)) : Prop :=
  exists b o', r = Ret (b, o') /\ (b = true -> J o') /\ (C -> b = true).

(** The edges that [o] does not orient. *)
Definition unoriented (adjacencyList : list bitset) (n : Z) (o : diGraph)
    : list (Z * Z) :=
  List.filter
    (fun e =>
       negb (contains (outNbrs o (fst e)) (snd e)
             || contains (outNbrs o (snd e)) (fst e)))
    (edgeList adjacencyList n).

(** What the solver keeps: a partial orientation in which no vertex has
    three outgoing or three incoming arcs. *)
Definition solverInv (adjacencyList : list bitset) (n : Z) (o : diGraph)
    : Prop :=
  partialOrientationOf adjacencyList n o /\ noThirdArc o.

(** The conditions at the vertices on an orientation that complements
    [deletableEdges]: no vertex has three outgoing or three incoming arcs,
    and an arc whose edge is not in [deletableEdges] is neither the only
    outgoing arc of its tail nor the only incoming arc of its head. *)
Definition locallyComplementary (adjacencyList : list bitset) (n : Z)
    (deletableEdges : bitset) (edgeNumbering : matrix) (D : diGraph) : Prop :=
  orientationOf adjacencyList n D
  /\ noThirdArc D
  /\ (forall u v, arc D u v ->
        contains deletableEdges (mget edgeNumbering u v) = false ->
        size (outNbrs D u) = 2 /\ size (inNbrs D v) = 2).

(** Every vertex has an edge that is not in [deletableEdges]. *)
Definition leavesEdgeAtEveryVertex (adjacencyList : list bitset) (n : Z)
    (deletableEdges : bitset) (edgeNumbering : matrix) : Prop :=
  forall v, 0 <= v < n ->
    exists w, contains (aget EMPTY adjacencyList v) w = true
              /\ contains deletableEdges (mget edgeNumbering v w) = false.

(** [D] with the set of its deletable edges complements [deletableEdges]. *)
Definition complements (n : Z) (deletableEdges : bitset)
    (edgeNumbering : matrix) (D : diGraph) : Prop :=
  exists T, isDeletableSet D edgeNumbering T
            /\ union deletableEdges T = complement EMPTY (3 * n ÷ 2).

(** ** The pool keeps the maximal sets *)

(** [s] is a subset of a set stored in the pool. *)
Definition dominated (pool : Array) (s : bitset) : Prop :=
  exists i, 0 <= i < used pool /\ subsetOf s (aget EMPTY (array pool) i).

(** What the scan of [getIntermediateFrankNumber] does to the cells: a cell
    keeps its set, or its set was a subset of [deletableEdges] and the cell
    is emptied. *)
Definition cellsDismissed (deletableEdges : bitset) (a a' : list bitset)
    : Prop :=
  forall i,
    aget EMPTY a' i = aget EMPTY a i
    \/ (aget EMPTY a' i = EMPTY /\ subsetOf (aget EMPTY a i) deletableEdges).

(** ** The graph6 data *)

(** Bit [p] of the data of a graph6 string: the characters minus 63, six
    bits each, the high bit first. *)
Definition graph6Bit (body : cstring) (p : Z) : bool :=
  (0 <=? p) && (p <? 6 * Z.of_nat (length body))
  && Z.testbit (charAt body (p / 6) - 63) (5 - p mod 6).

(** Bit [p] of the data stands for the edge between [a] and [b], [a < b],
    with [p = b(b-1)/2 + a]: the upper triangle of the adjacency matrix,
    column by column. *)
Definition edgeAt (p u v : Z) : Prop :=
  exists a b,
    0 <= a < b /\ 2 * p = b * (b - 1) + 2 * a
    /\ ((u = a /\ v = b) \/ (u = b /\ v = a)).

(** The state of [loadGraph] when the bits below position [q] have been
    handled: the edges of the set bits are in the adjacency list, and [sum]
    is the position of the first bit of the column of [currentVertex]. *)
Definition decoded (n : Z) (body : cstring) (q : Z) (st : loadState) : Prop :=
  length (lsAdjacencyList st) = Z.to_nat n
  /\ 1 <= lsCurrentVertex st
  /\ 2 * lsSum st = lsCurrentVertex st * (lsCurrentVertex st - 1)
  /\ lsSum st <= q
  /\ (forall v, 0 <= aget EMPTY (lsAdjacencyList st) v)
  /\ forall u v,
       contains (aget EMPTY (lsAdjacencyList st) v) u = true
       <-> exists p, 0 <= p < q /\ graph6Bit body p = true /\ edgeAt p u v.

(** The size field of the graph6 format for a graph on [n] vertices: the one
    character [n + 63] up to 62 vertices, otherwise the character 126 and
    the 18-bit form of [n] in three characters of six bits, high bits
    first, each with 63 added. *)
Definition graph6Size (n : Z) : cstring :=
  if n <=? 62 then [n + 63]
  else [126; 63 + n / 4096; 63 + (n / 64) mod 64; 63 + n mod 64].

(** [F] is a perfect matching of the graph: [F[v]] is a neighbour of [v],
    and [F[F[v]]] is [v], for every vertex [v]. *)
Definition perfectMatching (adjacencyList : list bitset) (n : Z)
    (F : list Z) : Prop :=
  Z.of_nat (length F) = n
  /\ forall v, 0 <= v < n ->
       contains (aget EMPTY adjacencyList v) (aget 0 F v) = true
       /\ aget 0 F (aget 0 F v) = v.

(** The entries of [F] of the vertices outside [remainingVertices] match
    these vertices among themselves, along edges of the graph. *)
Definition matchedOutside (adjacencyList : list bitset) (n : Z)
    (remainingVertices : bitset) (F : list Z) : Prop :=
  Z.of_nat (length F) = n
  /\ forall v, 0 <= v < n -> contains remainingVertices v = false ->
       contains (aget EMPTY adjacencyList v) (aget 0 F v) = true
       /\ contains remainingVertices (aget 0 F v) = false
       /\ aget 0 F (aget 0 F v) = v.

(** [M] has the entries of [F] at the vertices outside
    [remainingVertices]. *)
Definition extendsMatching (n : Z) (remainingVertices : bitset)
    (F M : list Z) : Prop :=
  forall v, 0 <= v < n -> contains remainingVertices v = false ->
    aget 0 M v = aget 0 F v.

(** No stored non-empty set and stored set together make up [allEdges]. *)
Definition coverFree (allEdges : bitset) (pool : Array) : Prop :=
  forall i j, 0 <= i < used pool -> 0 <= j < used pool ->
    aget EMPTY (array pool) i <> EMPTY ->
    union (aget EMPTY (array pool) i) (aget EMPTY (array pool) j) <> allEdges.

(** The stored sets are sets of edges. *)
Definition cellsWithin (allEdges : bitset) (pool : Array) : Prop :=
  forall i, 0 <= i < used pool ->
    subsetOf (aget EMPTY (array pool) i) allEdges.

(** ** Heuristic algorithm: the suppressed edges *)

(** The macros [removeEdgeFromAdjList] and [addEdgeToAdjList]. *)
Definition removeEdgeFromAdjList (adjacencyList : list bitset)
    (endpoint1 endpoint2 : Z) : list bitset :=
  let adjacencyList :=
    aset adjacencyList endpoint1
      (removeElement (aget EMPTY adjacencyList endpoint1) endpoint2) in
  aset adjacencyList endpoint2
    (removeElement (aget EMPTY adjacencyList endpoint2) endpoint1).

Definition addEdgeToAdjList (adjacencyList : list bitset)
    (endpoint1 endpoint2 : Z) : list bitset :=
  let adjacencyList :=
    aset adjacencyList endpoint1
      (add (aget EMPTY adjacencyList endpoint1) endpoint2) in
  aset adjacencyList endpoint2
    (add (aget EMPTY adjacencyList endpoint2) endpoint1).

Section StrongEdges.

(** [isCyclicallyConnected] reads the adjacency list and returns a boolean.
    It is a parameter: its [forEach] runs over a set that the body of the
    loop changes, and the macro is in a header that is missing. *)
Variable isCyclicallyConnected : list bitset -> Z -> bool.

(** The inner [for] of [edgeIsStrong2Edge], over the vertices [j] after [i];
    returns the adjacency list and [hasCyclic211cut]. *)
Fixpoint secondEdges (js : list Z) (n : Z) (circuitOrientation : list Z)
    (adjacencyList : list bitset) : list bitset * bool :=
  match js with
  | [] => (adjacencyList, false)
  | j :: rest =>
    if aget 0 circuitOrientation j =? -1
    then secondEdges rest n circuitOrientation adjacencyList
    else
      let adjacencyList :=
        removeEdgeFromAdjList adjacencyList j (aget 0 circuitOrientation j) in
      let hasCyclic211cut := negb (isCyclicallyConnected adjacencyList n) in
      let adjacencyList :=
        addEdgeToAdjList adjacencyList j (aget 0 circuitOrientation j) in
      if hasCyclic211cut then (adjacencyList, true)
      else secondEdges rest n circuitOrientation adjacencyList
  end.

(** The outer [for] of [edgeIsStrong2Edge]. *)
Fixpoint firstEdges (indices : list Z) (n : Z) (circuitOrientation : list Z)
    (adjacencyList : list bitset) : list bitset * bool :=
  match indices with
  | [] => (adjacencyList, false)
  | i :: rest =>
    if aget 0 circuitOrientation i =? -1
    then firstEdges rest n circuitOrientation adjacencyList
    else
      let adjacencyList :=
        removeEdgeFromAdjList adjacencyList i (aget 0 circuitOrientation i) in
      let '(adjacencyList, hasCyclic211cut) :=
        secondEdges (List.filter (fun j => i <? j) (vertices n)) n
          circuitOrientation adjacencyList in
      let adjacencyList :=
        addEdgeToAdjList adjacencyList i (aget 0 circuitOrientation i) in
      if hasCyclic211cut then (adjacencyList, true)
      else firstEdges rest n circuitOrientation adjacencyList
  end.

(** [edgeIsStrong2Edge] returns the adjacency list that it leaves and its
    result. *)
Definition edgeIsStrong2Edge (adjacencyList : list bitset) (n : Z)
    (endpoint1 endpoint2 : Z) (circuitOrientation : list Z)
    : list bitset * bool :=
  let adjacencyList :=
    removeEdgeFromAdjList adjacencyList endpoint1 endpoint2 in
  let '(adjacencyList, hasCyclic211cut) :=
    firstEdges (vertices n) n circuitOrientation adjacencyList in
  let adjacencyList := addEdgeToAdjList adjacencyList endpoint1 endpoint2 in
  (adjacencyList, negb hasCyclic211cut).

(** The second [for] of [suppressedEdgesAreDeletable]; returns the adjacency
    list and [edgesAreDeletable]. *)
Fixpoint checkSuppressedEdges (indices : list Z) (n : Z)
    (circuitOrientation edgesBetweenCycles : list Z)
    (adjacencyList : list bitset) : list bitset * bool :=
  match indices with
  | [] => (adjacencyList, true)
  | i :: rest =>
    let '(adjacencyList, strong) :=
      edgeIsStrong2Edge adjacencyList n (aget 0 edgesBetweenCycles (2 * i))
        (next (aget EMPTY adjacencyList (aget 0 edgesBetweenCycles (2 * i)))
           (-1))
        circuitOrientation in
    if negb strong then (adjacencyList, false)
    else
      let '(adjacencyList, strong) :=
        edgeIsStrong2Edge adjacencyList n
          (aget 0 edgesBetweenCycles (2 * i + 1))
          (next (aget EMPTY adjacencyList
                   (aget 0 edgesBetweenCycles (2 * i + 1))) (-1))
          circuitOrientation in
      if negb strong then (adjacencyList, false)
      else checkSuppressedEdges rest n circuitOrientation edgesBetweenCycles
             adjacencyList
  end.

Definition suppressedEdgesAreDeletable (adjacencyList : list bitset) (n : Z)
    (circuitOrientation edgesBetweenCycles : list Z)
    (numberOfEdgesBetweenCycles : Z) : list bitset * bool :=
  let adjacencyList :=
    fold_left
      (fun adjacencyList i =>
         removeEdgeFromAdjList adjacencyList
           (aget 0 edgesBetweenCycles (2 * i))
           (aget 0 edgesBetweenCycles (2 * i + 1)))
      (vertices numberOfEdgesBetweenCycles) adjacencyList in
  let '(adjacencyList, edgesAreDeletable) :=
    checkSuppressedEdges (vertices numberOfEdgesBetweenCycles) n
      circuitOrientation edgesBetweenCycles adjacencyList in
  let adjacencyList :=
    fold_left
      (fun adjacencyList i =>
         addEdgeToAdjList adjacencyList
           (aget 0 edgesBetweenCycles (2 * i))
           (aget 0 edgesBetweenCycles (2 * i + 1)))
      (vertices numberOfEdgesBetweenCycles) adjacencyList in
  (adjacencyList, edgesAreDeletable).

End StrongEdges.

(** [findInArray]: the index of the first cell among the first [arrLength]
    that holds [u], or -1. *)
Fixpoint findInArrayFrom (u : Z) (arr : list Z) (indices : list Z) : Z :=
  match indices with
  | [] => -1
  | i :: rest => if aget 0 arr i =? u then i else findInArrayFrom u arr rest
  end.

Definition findInArray (u : Z) (arr : list Z) (arrLength : Z) : Z :=
  findInArrayFrom u arr (vertices arrLength).

(** Whether [adjacencyList[u]] holds [v]. *)
Definition hasEdge (adjacencyList : list bitset) (u v : Z) : bool :=
  contains (aget EMPTY adjacencyList u) v.

(** [u]-[v] is the pair [a]-[b], in one order or the other. *)
Definition samePair (u v a b : Z) : bool :=
  ((u =? a) && (v =? b)) || ((u =? b) && (v =? a)).

(** A second strongly connected orientation of K4; its deletable edges are
    those that are not deletable in [K4_cyclic]. *)
Definition K4_complementary : diGraph :=
  {| numberOfVertices := 4;
     adjacencyList := ofNeighbours [[1; 3]; [3]; [0; 1]; [2]];
     reverseAdjacencyList := ofNeighbours [[2]; [0; 2]; [3]; [0; 1]];
     numberOfArcs := 6 |}.

(** Two strongly connected orientations of the graph whose deletable edges
    are all the edges [0 .. 3n/2 - 1]. *)
Definition coveredByStrongPair (adjacencyList : list bitset) (n : Z)
    (edgeNumbering : matrix) : Prop :=
  exists D1 D2 S1 S2,
    orientationOf adjacencyList n D1 /\ stronglyConnected D1
    /\ isDeletableSet D1 edgeNumbering S1
    /\ orientationOf adjacencyList n D2 /\ stronglyConnected D2
    /\ isDeletableSet D2 edgeNumbering S2
    /\ union S1 S2 = complement EMPTY (3 * n ÷ 2).

(** A strongly connected orientation of the graph and an orientation of the
    graph without a vertex of in- or out-degree three whose deletable edges
    are all the edges [0 .. 3n/2 - 1]. *)
Definition coveredBySolverPair (adjacencyList : list bitset) (n : Z)
    (edgeNumbering : matrix) : Prop :=
  exists D1 D2 S1 S2,
    orientationOf adjacencyList n D1 /\ stronglyConnected D1
    /\ isDeletableSet D1 edgeNumbering S1
    /\ orientationOf adjacencyList n D2 /\ noThirdArc D2
    /\ isDeletableSet D2 edgeNumbering S2
    /\ union S1 S2 = complement EMPTY (3 * n ÷ 2).

(** ** readGraph6.c: the digraph6 reader *)

(** The body of the inner [for] of [loadDiGraph], for the set bit [i] of the
    character at offset [index - startIndex]. *)
Definition loadDiBit (n offset i : Z) (adjacencyList : list bitset)
    : list bitset :=
  let position := 5 - i + offset * 6 in
  let currentVertex := position ÷ n in
  let neighbour := Z.rem position n in
  aset adjacencyList currentVertex
    (add (aget EMPTY adjacencyList currentVertex) neighbour).

(** The inner [for]: the set bits of the character from bit 5 down. *)
Fixpoint loadDiChar (fuel : nat) (n character offset i : Z)
    (adjacencyList : list bitset) : list bitset :=
  match fuel with
  | O => adjacencyList
  | S f =>
    if i =? -1 then adjacencyList
    else loadDiChar f n character offset (prev character i)
           (loadDiBit n offset i adjacencyList)
  end.

(** The outer [for]: returns the adjacency list and [finalChar]. *)
Fixpoint loadDiChars (n : Z) (s : cstring) (offset : Z) (finalChar : Z)
    (adjacencyList : list bitset) : list bitset * Z :=
  match s with
  | [] => (adjacencyList, 0)
  | c :: rest =>
    if c =? 10 then (adjacencyList, finalChar)
    else if c =? 0 then (adjacencyList, 0)
    else loadDiChars n rest (offset + 1) c
           (loadDiChar 7 n (c - 63) offset (prev (c - 63) 6) adjacencyList)
  end.

Section DiGraphReader.

Variable MAXVERTICES : Z.

(** [loadDiGraph] returns its status and the filled [adjacencyList]. *)
Definition loadDiGraph (graphString : cstring) (n : Z) : Z * list bitset :=
  let startIndex := 1 in
  let startIndex :=
    if charAt graphString startIndex =? 62 then startIndex + 12
    else startIndex in
  if n <=? 62 then
    let startIndex := startIndex + 1 in
    let '(adjacencyList, finalChar) :=
      loadDiChars n (drop (Z.to_nat startIndex) graphString) 0 10
        (replicate (Z.to_nat n) EMPTY) in
    if finalChar =? 0 then (-1, adjacencyList) else (0, adjacencyList)
  else if n <=? MAXVERTICES then
    let startIndex := startIndex + 4 in
    let '(adjacencyList, finalChar) :=
      loadDiChars n (drop (Z.to_nat startIndex) graphString) 0 10
        (replicate (Z.to_nat n) EMPTY) in
    if finalChar =? 0 then (-1, adjacencyList) else (0, adjacencyList)
  else (-1, replicate (Z.to_nat n) EMPTY).

End DiGraphReader.

(** The adjacency list of [loadDiGraph] when the bits below position [q]
    have been handled: bit [p] stands for the arc from [p / n] to
    [p mod n]. *)
Definition decodedArcs (n : Z) (body : cstring) (q : Z)
    (adjacencyList : list bitset) : Prop :=
  length adjacencyList = Z.to_nat n
  /\ (forall v, 0 <= aget EMPTY adjacencyList v)
  /\ forall u v,
       contains (aget EMPTY adjacencyList u) v = true
       <-> exists p, 0 <= p < q /\ graph6Bit body p = true
                     /\ u = p / n /\ v = p mod n.

(** * Properties *)

(** ** Arrays *)

Lemma aget_aset_eq {A : Type} (d : A) (a : list A) (i : Z) (v : A) :
  0 <= i < Z.of_nat (length a) -> aget d (aset a i v) i = v.
Proof.
  intros Hi. unfold aget, aset.
  destruct (i <? 0) eqn:E; [lia|].
  rewrite list_lookup_insert_eq; [reflexivity | lia].
Qed.

Lemma aget_aset_ne {A : Type} (d : A) (a : list A) (i j : Z) (v : A) :
  i <> j -> aget d (aset a i v) j = aget d a j.
Proof.
  intros Hne. unfold aget, aset.
  destruct (j <? 0) eqn:Ej; [reflexivity|].
  destruct (i <? 0) eqn:Ei; [reflexivity|].
  rewrite list_lookup_insert_ne; [reflexivity | lia].
Qed.

Lemma length_aset {A : Type} (a : list A) (i : Z) (v : A) :
  length (aset a i v) = length a.
Proof. unfold aset. destruct (i <? 0); [reflexivity | apply length_insert]. Qed.

Lemma aget_app_l {A : Type} (d : A) (a b : list A) (i : Z) :
  i < Z.of_nat (length a) -> aget d (a ++ b) i = aget d a i.
Proof.
  intros Hi. unfold aget. destruct (i <? 0) eqn:E; [reflexivity|].
  rewrite lookup_app_l; [reflexivity | lia].
Qed.

Lemma aget_outside {A : Type} (d : A) (a : list A) (i : Z) :
  i < 0 \/ Z.of_nat (length a) <= i -> aget d a i = d.
Proof.
  intros Hi. unfold aget. destruct (i <? 0) eqn:E; [reflexivity|].
  rewrite lookup_ge_None_2; [reflexivity | lia].
Qed.

Lemma aget_replicate {A : Type} (d : A) (k : nat) (i : Z) :
  aget d (replicate k d) i = d.
Proof.
  unfold aget. destruct (i <? 0); [reflexivity|].
  destruct (replicate k d !! Z.to_nat i) eqn:E; [|reflexivity].
  apply lookup_replicate in E. simpl. tauto.
Qed.

Lemma aset_aget_same {A : Type} (d : A) (a : list A) (i : Z) :
  0 <= i < Z.of_nat (length a) -> aset a i (aget d a i) = a.
Proof.
  intros Hi. unfold aget, aset. destruct (i <? 0) eqn:E; [lia|].
  destruct (a !! Z.to_nat i) eqn:El.
  - simpl. apply list_insert_id. exact El.
  - apply lookup_ge_None in El. lia.
Qed.

Lemma aset_aset_same {A : Type} (a : list A) (i : Z) (v w : A) :
  aset (aset a i v) i w = aset a i w.
Proof.
  unfold aset. destruct (i <? 0); [reflexivity|].
  apply list_insert_insert_eq.
Qed.

Lemma vertices_spec (n i : Z) : In i (vertices n) <-> 0 <= i < n.
Proof.
  unfold vertices. rewrite in_map_iff. split.
  - intros (k & <- & Hk). apply in_seq in Hk. lia.
  - intros Hi. exists (Z.to_nat i). split; [lia|]. apply in_seq. lia.
Qed.

(** ** Bitsets *)

Lemma contains_EMPTY (i : Z) : contains EMPTY i = false.
Proof. apply Z.bits_0. Qed.

Lemma contains_singleton (i j : Z) :
  0 <= i -> contains (singleton i) j = (j =? i).
Proof.
  intros Hi. unfold contains, singleton.
  destruct (Z.ltb_spec j 0) as [Hj|Hj].
  - rewrite Z.testbit_neg_r by lia. symmetry. apply Z.eqb_neq. lia.
  - rewrite Z.shiftl_spec by lia.
    destruct (Z.eqb_spec j i) as [->|Hne].
    + rewrite Z.sub_diag. reflexivity.
    + destruct (Z.ltb_spec (j - i) 0).
      * apply Z.testbit_neg_r. lia.
      * replace 1 with (2 ^ 0) by reflexivity.
        apply Z.pow2_bits_false. lia.
Qed.

Lemma singleton_neg (i : Z) : i < 0 -> singleton i = 0.
Proof.
  intros Hi. unfold singleton. rewrite Z.shiftl_1_l.
  apply Z.pow_neg_r. lia.
Qed.

Lemma contains_add (s : bitset) (i j : Z) :
  0 <= i -> contains (add s i) j = contains s j || (j =? i).
Proof.
  intros Hi. unfold add. unfold contains at 1.
  rewrite Z.lor_spec. fold (contains s j). fold (contains (singleton i) j).
  rewrite contains_singleton by lia. reflexivity.
Qed.

Lemma contains_removeElement (s : bitset) (i j : Z) :
  0 <= i -> contains (removeElement s i) j = contains s j && negb (j =? i).
Proof.
  intros Hi. unfold removeElement. unfold contains at 1.
  rewrite Z.ldiff_spec. fold (contains s j). fold (contains (singleton i) j).
  rewrite contains_singleton by lia. reflexivity.
Qed.

Lemma contains_union (s t : bitset) (i : Z) :
  contains (union s t) i = contains s i || contains t i.
Proof. apply Z.lor_spec. Qed.

Lemma contains_intersection (s t : bitset) (i : Z) :
  contains (intersection s t) i = contains s i && contains t i.
Proof. apply Z.land_spec. Qed.

Lemma contains_difference (s t : bitset) (i : Z) :
  contains (difference s t) i = contains s i && negb (contains t i).
Proof. apply Z.ldiff_spec. Qed.

Lemma contains_complement_EMPTY (n i : Z) :
  0 <= n -> contains (complement EMPTY n) i = (0 <=? i) && (i <? n).
Proof.
  intros Hn. unfold complement, contains, EMPTY.
  rewrite Z.ldiff_0_r.
  destruct (Z.leb_spec 0 i) as [H0|H0]; simpl.
  - destruct (Z.ltb_spec i n).
    + apply Z.ones_spec_low. lia.
    + apply Z.ones_spec_high. lia.
  - apply Z.testbit_neg_r. lia.
Qed.

Lemma bitset_ext (s t : bitset) :
  (forall i, contains s i = contains t i) -> s = t.
Proof. intros H. apply Z.bits_inj. exact H. Qed.

Lemma contains_nonneg (s : bitset) (i : Z) : contains s i = true -> 0 <= i.
Proof.
  intros H. destruct (Z.ltb_spec i 0); [|assumption].
  unfold contains in H. rewrite Z.testbit_neg_r in H by assumption.
  discriminate.
Qed.

Lemma add_nonneg (s : bitset) (i : Z) : 0 <= s -> 0 <= add s i.
Proof.
  intros Hs. unfold add. apply Z.lor_nonneg. split; [assumption|].
  unfold singleton. apply Z.shiftl_nonneg. lia.
Qed.

Lemma removeElement_nonneg (s : bitset) (i : Z) : 0 <= s -> 0 <= removeElement s i.
Proof. intros Hs. unfold removeElement. apply Z.ldiff_nonneg. auto. Qed.

Lemma complement_EMPTY_nonneg (n : Z) : 0 <= n -> 0 <= complement EMPTY n.
Proof.
  intros Hn. unfold complement, EMPTY. rewrite Z.ldiff_0_r.
  rewrite Z.ones_equiv. pose proof (Z.pow_pos_nonneg 2 n ltac:(lia) ltac:(lia)).
  lia.
Qed.

(** The elements of a bitset are its members, in strictly ascending
    order. *)
Lemma pos_elements_spec (p : positive) (k i : Z) :
  In i (pos_elements p k) <-> k <= i /\ Z.testbit (Zpos p) (i - k) = true.
Proof.
  revert k. induction p as [p IH|p IH|]; intros k; simpl.
  - rewrite IH. split.
    + intros [<-|[Hk Hb]].
      * rewrite Z.sub_diag. split; [lia | reflexivity].
      * split; [lia|].
        replace (i - k) with (Z.succ (i - (k + 1))) by lia.
        change (Zpos p~1) with (2 * Zpos p + 1).
        rewrite Z.testbit_odd_succ by lia. exact Hb.
    + intros [Hk Hb].
      destruct (Z.eq_dec i k) as [->|Hne]; [left; reflexivity|].
      right. split; [lia|].
      replace (i - k) with (Z.succ (i - (k + 1))) in Hb by lia.
      change (Zpos p~1) with (2 * Zpos p + 1) in Hb.
      rewrite Z.testbit_odd_succ in Hb by lia. exact Hb.
  - rewrite IH. split.
    + intros [Hk Hb]. split; [lia|].
      replace (i - k) with (Z.succ (i - (k + 1))) by lia.
      change (Zpos p~0) with (2 * Zpos p).
      rewrite Z.testbit_even_succ by lia. exact Hb.
    + intros [Hk Hb].
      destruct (Z.eq_dec i k) as [->|Hne].
      * rewrite Z.sub_diag in Hb. discriminate.
      * split; [lia|].
        replace (i - k) with (Z.succ (i - (k + 1))) in Hb by lia.
        change (Zpos p~0) with (2 * Zpos p) in Hb.
        rewrite Z.testbit_even_succ in Hb by lia. exact Hb.
  - split.
    + intros [<-|[]]. rewrite Z.sub_diag. split; [lia | reflexivity].
    + intros [Hk Hb].
      destruct (Z.eq_dec i k) as [->|Hne]; [left; reflexivity|].
      exfalso. replace 1 with (2 ^ 0) in Hb by reflexivity.
      rewrite Z.pow2_bits_false in Hb by lia. discriminate.
Qed.

Lemma elements_spec (s : bitset) (i : Z) :
  0 <= s -> (In i (elements s) <-> contains s i = true).
Proof.
  intros Hs. unfold elements, contains. destruct s as [|p|p]; [| |lia].
  - rewrite Z.bits_0. simpl. split; [tauto | discriminate].
  - rewrite pos_elements_spec. rewrite Z.sub_0_r. split; [tauto|].
    intros H. split; [|exact H]. apply (contains_nonneg (Zpos p)). exact H.
Qed.

Lemma pos_elements_sorted (p : positive) (k : Z) :
  StronglySorted Z.lt (pos_elements p k)
  /\ Forall (fun i => k <= i) (pos_elements p k).
Proof.
  revert k. induction p as [p IH|p IH|]; intros k; simpl.
  - destruct (IH (k + 1)) as [Hs Hf]. split.
    + constructor; [exact Hs|].
      eapply List.Forall_impl; [|exact Hf]. simpl. intros; lia.
    + constructor; [lia|]. eapply List.Forall_impl; [|exact Hf]. simpl. intros; lia.
  - destruct (IH (k + 1)) as [Hs Hf]. split; [exact Hs|].
    eapply List.Forall_impl; [|exact Hf]. simpl. intros; lia.
  - split; repeat constructor. lia.
Qed.

Lemma elements_sorted (s : bitset) : StronglySorted Z.lt (elements s).
Proof.
  unfold elements. destruct s; try constructor. apply pos_elements_sorted.
Qed.

Lemma elements_NoDup (s : bitset) : List.NoDup (elements s).
Proof.
  pose proof (elements_sorted s) as H.
  induction H as [|x l Hs IH Hf]; constructor; [|exact IH].
  intros Hin. rewrite List.Forall_forall in Hf. specialize (Hf _ Hin). lia.
Qed.

(** ** The pool of deletable-edge sets *)

Lemma isSubset_spec (s t : bitset) : isSubset s t = true <-> subsetOf s t.
Proof.
  unfold isSubset, equals, subsetOf. rewrite Z.eqb_eq. split.
  - intros H i Hi. rewrite H in Hi. rewrite contains_intersection in Hi.
    apply andb_true_iff in Hi. tauto.
  - intros H. apply bitset_ext. intros i. rewrite contains_intersection.
    destruct (contains s i) eqn:E; [|reflexivity].
    rewrite (H i E). reflexivity.
Qed.

Section PoolScan.

Variables (allEdges deletableEdges : bitset) (u : Z).

Lemma noStoredSubset_tombstone (a : list bitset) (i : Z) :
  0 <= i < Z.of_nat (length a) ->
  noStoredSubset u a -> noStoredSubset u (aset a i EMPTY).
Proof.
  intros Hi Hinv p q Hp Hq Hpq Hpe Hqe.
  destruct (Z.eq_dec p i) as [->|Hpi].
  { rewrite aget_aset_eq in Hpe by assumption. congruence. }
  destruct (Z.eq_dec q i) as [->|Hqi].
  { rewrite aget_aset_eq in Hqe by assumption. congruence. }
  rewrite !aget_aset_ne in * by congruence. auto.
Qed.

Lemma scanPool_spec (m : nat) :
  forall (k : nat) (insertPosition : Z) (numberOf : counters) (pool : Array),
    used pool = u ->
    Z.of_nat k + Z.of_nat m = u ->
    u <= Z.of_nat (length (array pool)) ->
    noStoredSubset u (array pool) ->
    scanned deletableEdges u (Z.of_nat k) (array pool) insertPosition ->
    match scanPool (map Z.of_nat (seq k m)) allEdges deletableEdges
            insertPosition numberOf pool with
    | ScanReturn r _ pool' =>
      r = 0 ->
      used pool' = u /\ size_ pool' = size_ pool
      /\ length (array pool') = length (array pool)
      /\ noStoredSubset u (array pool')
    | ScanDone insertPosition' _ pool' =>
      used pool' = u /\ size_ pool' = size_ pool
      /\ length (array pool') = length (array pool)
      /\ noStoredSubset u (array pool')
      /\ scanned deletableEdges u u (array pool') insertPosition'
    end.
Proof.
  induction m as [|m IH]; intros k ip numberOf pool Hu Hk Hlen Hinv Hsc.
  - simpl.
    replace (scanned deletableEdges u u (array pool) ip)
      with (scanned deletableEdges u (Z.of_nat k) (array pool) ip) by (f_equal; lia).
    auto.
  - simpl.
    destruct (isEmpty (aget EMPTY (array pool) (Z.of_nat k))) eqn:Eempty; simpl.
    + (* an empty cell *)
      unfold isEmpty in Eempty. apply Z.eqb_eq in Eempty.
      apply IH; auto; [lia|].
      destruct Hsc as [Hseen Hip]. split.
      * intros i Hi Hne. destruct (Z.eq_dec i (Z.of_nat k)) as [->|Hik].
        -- exfalso. apply Hne. exact Eempty.
        -- apply Hseen; [lia | assumption].
      * destruct (Z.eqb_spec ip (used pool)) as [Hiu|Hiu].
        -- right. split; [lia | exact Eempty].
        -- right. destruct Hip as [Hip|[Hip1 Hip2]]; [congruence|].
           split; [lia | assumption].
    + unfold isEmpty in Eempty. apply Z.eqb_neq in Eempty.
      destruct (isSubset deletableEdges (aget EMPTY (array pool) (Z.of_nat k)))
        eqn:Esub.
      { intros _. auto. }
      destruct (isSubset (aget EMPTY (array pool) (Z.of_nat k)) deletableEdges)
        eqn:Esup.
      * (* the stored set is dismissed *)
        match goal with
        | |- context [equals ?a ?b] => destruct (equals a b)
        end.
        { intros Hr. discriminate. }
        assert (Hk' : 0 <= Z.of_nat k < Z.of_nat (length (array pool))) by lia.
        match goal with
        | |- match scanPool _ _ _ _ _ ?p with _ => _ end =>
          specialize (IH (S k) ip
            (if ip =? used pool
             then set_orientationsGivingSuperset numberOf
                    (ull (orientationsGivingSuperset numberOf + 1))
             else numberOf) p)
        end.
        simpl in IH. rewrite length_aset in IH.
        destruct (ip =? used pool);
          (lapply IH; [clear IH; intros IH|assumption];
           lapply IH; [clear IH; intros IH|lia];
           lapply IH; [clear IH; intros IH|assumption];
           lapply IH; [clear IH; intros IH
                      |apply noStoredSubset_tombstone; assumption];
           lapply IH; [clear IH; intros IH|]).
        1,3: exact IH.
        all: destruct Hsc as [Hseen Hip]; split.
        all: try (intros i Hi Hne; destruct (Z.eq_dec i (Z.of_nat k)) as [->|Hik];
                  [rewrite aget_aset_eq in Hne by assumption; congruence
                  |rewrite aget_aset_ne in * by congruence; apply Hseen;
                   [lia|assumption]]).
        all: destruct Hip as [Hip|[Hip1 Hip2]]; [left; assumption|right].
        all: split; [lia|]; rewrite aget_aset_ne by lia; assumption.
      * match goal with
        | |- context [equals ?a ?b] => destruct (equals a b)
        end.
        { intros Hr. discriminate. }
        apply IH; auto; [lia|].
        destruct Hsc as [Hseen Hip]. split.
        -- intros i Hi Hne. destruct (Z.eq_dec i (Z.of_nat k)) as [->|Hik].
           ++ auto.
           ++ apply Hseen; [lia | assumption].
        -- destruct Hip as [Hip|[Hip1 Hip2]]; [left; assumption|right].
           split; [lia | assumption].
Qed.

End PoolScan.

Lemma noStoredSubset_incomparable (pool : Array) :
  noStoredSubset (used pool) (array pool) -> pairwiseIncomparable pool.
Proof.
  intros H i j Hi Hj Hij Hie Hje Hsub.
  apply isSubset_spec in Hsub. rewrite (H i j) in Hsub by assumption.
  discriminate.
Qed.

Lemma incomparable_noStoredSubset (pool : Array) :
  pairwiseIncomparable pool -> noStoredSubset (used pool) (array pool).
Proof.
  intros H i j Hi Hj Hij Hie Hje.
  destruct (isSubset (aget EMPTY (array pool) i) (aget EMPTY (array pool) j))
    eqn:E; [|reflexivity].
  exfalso. apply (H i j); auto. apply isSubset_spec. exact E.
Qed.

(** One call that returns 0 keeps the pool well formed and its stored sets
    pairwise incomparable. *)
Lemma getIntermediateFrankNumber_preserves (numberOf : counters) (n : Z)
    (pool : Array) (deletableEdges : bitset) (numberOf' : counters)
    (pool' : Array) :
  poolWellFormed pool ->
  pairwiseIncomparable pool ->
  getIntermediateFrankNumber numberOf n pool deletableEdges
    = Ret (0, numberOf', pool') ->
  poolWellFormed pool' /\ pairwiseIncomparable pool'.
Proof.
  intros (Hused & Hlen & Hsize) Hinc. unfold getIntermediateFrankNumber.
  pose proof (scanPool_spec (complement EMPTY (3 * n ÷ 2)) deletableEdges
                (used pool) (Z.to_nat (used pool)) 0 (used pool) numberOf pool
                eq_refl ltac:(lia) ltac:(lia)
                (incomparable_noStoredSubset pool Hinc)) as Hscan.
  lapply Hscan; [clear Hscan; intros Hscan|].
  2:{ split; [intros i Hi; simpl in Hi; lia | left; reflexivity]. }
  unfold vertices.
  destruct (scanPool _ _ _ _ _ _) as [r c p|ip c p].
  - intros Heq. injection Heq as -> -> ->.
    destruct (Hscan eq_refl) as (Hu & Hs & Hl & Hno).
    split.
    + unfold poolWellFormed. rewrite Hu, Hs, Hl. auto.
    + apply noStoredSubset_incomparable. rewrite Hu. exact Hno.
  - destruct Hscan as (Hu & Hs & Hl & Hno & Hseen & Hip).
    destruct (Z.eqb_spec ip (used p)) as [Hend|Hmid]; simpl.
    + (* appended *)
      intros Heq. injection Heq as <- <-.
      unfold insertArray.
      set (p2 := if used p =? size_ p then _ else p).
      assert (Hp2 : used p2 = used pool /\ used pool < Z.of_nat (length (array p2))
                    /\ Z.of_nat (length (array p2)) = size_ p2
                    /\ 0 < size_ p2
                    /\ forall i, 0 <= i < used pool ->
                         aget EMPTY (array p2) i = aget EMPTY (array p) i).
      { subst p2. destruct (Z.eqb_spec (used p) (size_ p)) as [Hfull|Hroom]; simpl.
        - rewrite length_app, length_replicate.
          repeat split; try lia.
          intros i Hi. apply aget_app_l. lia.
        - repeat split; try lia. }
      destruct Hp2 as (Hu2 & Hl2 & Hs2 & Hpos2 & Hsame).
      split.
      * unfold poolWellFormed; simpl. rewrite length_aset. lia.
      * apply noStoredSubset_incomparable. simpl.
        intros i j Hi Hj Hij. rewrite Hu2 in *.
        destruct (Z.eq_dec i (used pool)) as [->|Hi'];
          destruct (Z.eq_dec j (used pool)) as [->|Hj']; try lia.
        -- rewrite aget_aset_eq by lia. rewrite aget_aset_ne by lia.
           rewrite Hsame by lia. intros _ Hje.
           apply (Hseen j); [lia | assumption].
        -- rewrite aget_aset_eq by lia. rewrite aget_aset_ne by lia.
           rewrite Hsame by lia. intros Hie _.
           apply (Hseen i); [lia | assumption].
        -- rewrite !aget_aset_ne by lia. rewrite !Hsame by lia.
           apply Hno; lia.
    + (* stored in the first empty cell *)
      unfold insertArrayAtPos.
      destruct Hip as [Hip|[Hip Hipe]]; [congruence|].
      destruct (Z.ltb_spec (size_ p) ip); [lia|]. simpl.
      intros Heq. injection Heq as <- <-.
      split.
      * unfold poolWellFormed; simpl. rewrite length_aset. lia.
      * apply noStoredSubset_incomparable. simpl.
        intros i j Hi Hj Hij. rewrite Hu in *.
        destruct (Z.eq_dec i ip) as [->|Hi'];
          destruct (Z.eq_dec j ip) as [->|Hj']; try lia.
        -- rewrite aget_aset_eq by lia. rewrite aget_aset_ne by lia.
           intros _ Hje. apply (Hseen j); [lia | assumption].
        -- rewrite aget_aset_eq by lia. rewrite aget_aset_ne by lia.
           intros Hie _. apply (Hseen i); [lia | assumption].
        -- rewrite !aget_aset_ne by lia. apply Hno; lia.
Qed.

Lemma feedPool_invariant (sets : list bitset) :
  forall (numberOf : counters) (n : Z) (pool : Array) (numberOf' : counters)
         (pool' : Array),
    poolWellFormed pool ->
    pairwiseIncomparable pool ->
    feedPool numberOf n pool sets = Some (numberOf', pool') ->
    poolWellFormed pool' /\ pairwiseIncomparable pool'.
Proof.
  induction sets as [|T sets IH]; intros numberOf n pool numberOf' pool' Hwf Hinc;
    simpl.
  - intros Heq. injection Heq as <- <-. auto.
  - destruct (getIntermediateFrankNumber numberOf n pool T)
      as [| |[[r c] p]] eqn:Ecall; try discriminate.
    destruct r; try discriminate.
    destruct (getIntermediateFrankNumber_preserves _ _ _ _ _ _ Hwf Hinc Ecall).
    apply IH; assumption.
Qed.

(** C10. Starting from the empty pool made by [initArray], after any
    sequence of calls of [getIntermediateFrankNumber] that all returned 0
    the stored non-empty bitsets are pairwise incomparable under inclusion,
    and one more call that returns 0 keeps them so. *)
Theorem pool_sets_pairwise_incomparable (initialSize n : Z)
    (numberOf numberOf' : counters) (sets : list bitset) (pool' : Array) :
  0 < initialSize ->
  feedPool numberOf n (initArray initialSize) sets = Some (numberOf', pool') ->
  pairwiseIncomparable pool'
  /\ forall deletableEdges numberOf'' pool'',
       getIntermediateFrankNumber numberOf' n pool' deletableEdges
         = Ret (0, numberOf'', pool'') ->
       pairwiseIncomparable pool''.
Proof.
  intros Hsize Hfeed.
  assert (Hwf0 : poolWellFormed (initArray initialSize)).
  { unfold poolWellFormed, initArray; simpl. rewrite length_replicate. lia. }
  assert (Hinc0 : pairwiseIncomparable (initArray initialSize)).
  { intros i j Hi. simpl in Hi. lia. }
  destruct (feedPool_invariant _ _ _ _ _ _ Hwf0 Hinc0 Hfeed) as [Hwf Hinc].
  split; [exact Hinc|].
  intros T c p Hcall.
  apply (getIntermediateFrankNumber_preserves _ _ _ _ _ _ Hwf Hinc Hcall).
Qed.

Lemma pool_sets_pairwise_incomparable_witness :
  pairwiseIncomparable
    {| array := [3; 12; 0; 0]; used := 2; size_ := 4 |}.
Proof.
  refine (proj1 (pool_sets_pairwise_incomparable 4 4 zeroCounters
                   (set_orientationsGivingSubset zeroCounters 1)
                   [3; 12; 1] _ _ _)).
  - lia.
  - vm_compute. reflexivity.
Defined.

(** ** Sizes of bitsets *)

Lemma elements_length_le (s t : bitset) :
  0 <= s -> 0 <= t -> subsetOf s t ->
  (length (elements s) <= length (elements t))%nat.
Proof.
  intros Hs Ht Hsub. apply List.NoDup_incl_length; [apply elements_NoDup|].
  intros x Hx. apply elements_spec; [assumption|].
  apply Hsub. apply elements_spec in Hx; assumption.
Qed.

Lemma elements_length_lt (s t : bitset) (y : Z) :
  0 <= s -> 0 <= t -> subsetOf s t ->
  contains t y = true -> contains s y = false ->
  (length (elements s) < length (elements t))%nat.
Proof.
  intros Hs Ht Hsub Hty Hsy.
  assert (H : (length (y :: elements s) <= length (elements t))%nat).
  { apply List.NoDup_incl_length.
    - constructor; [|apply elements_NoDup].
      intros Hin. apply elements_spec in Hin; [|assumption]. congruence.
    - intros x [<-|Hx].
      + apply elements_spec; assumption.
      + apply elements_spec; [assumption|]. apply Hsub.
        apply elements_spec in Hx; assumption. }
  simpl in H. lia.
Qed.

Lemma elements_complement_length (n : Z) :
  0 <= n -> length (elements (complement EMPTY n)) = Z.to_nat n.
Proof.
  intros Hn. apply Nat.le_antisymm.
  - replace (Z.to_nat n) with (length (vertices n))
      by (unfold vertices; rewrite length_map, length_seq; reflexivity).
    apply List.NoDup_incl_length; [apply elements_NoDup|].
    intros x Hx. apply elements_spec in Hx; [|apply complement_EMPTY_nonneg; lia].
    rewrite contains_complement_EMPTY in Hx by lia. apply vertices_spec. lia.
  - replace (Z.to_nat n) with (length (vertices n))
      by (unfold vertices; rewrite length_map, length_seq; reflexivity).
    apply List.NoDup_incl_length.
    + unfold vertices. apply Finite.Injective_map_NoDup; [|apply List.seq_NoDup].
      intros a b. lia.
    + intros x Hx. apply vertices_spec in Hx.
      apply elements_spec; [apply complement_EMPTY_nonneg; lia|].
      rewrite contains_complement_EMPTY by lia. lia.
Qed.

Lemma size_complement (n : Z) : 0 <= n -> size (complement EMPTY n) = n.
Proof.
  intros Hn. unfold size. rewrite elements_complement_length by lia. lia.
Qed.

(** ** The path search of the deletable-edge engine *)

Lemma existsR_spec (body : Z -> result bool) (l : list Z) :
  (forall x, In x l -> exists b, body x = Ret b) ->
  exists b, existsR body l = Ret b
            /\ (b = true <-> exists x, In x l /\ body x = Ret true).
Proof.
  induction l as [|x l IH]; intros Hret; simpl.
  - exists false. split; [reflexivity|]. split; [discriminate|].
    intros (x & [] & _).
  - destruct (Hret x (or_introl eq_refl)) as [b Hb]. rewrite Hb. simpl.
    destruct b.
    + exists true. split; [reflexivity|]. split; [|reflexivity].
      intros _. exists x. auto.
    + destruct IH as (b & Hb' & Hiff).
      { intros y Hy. apply Hret. right. exact Hy. }
      exists b. split; [exact Hb'|]. rewrite Hiff. split.
      * intros (y & Hy & Hby). exists y. auto.
      * intros (y & [<-|Hy] & Hby); [congruence|]. exists y. auto.
Qed.

Section Walks.

Variable o : diGraph.
Hypothesis out_nonneg : forall u, 0 <= outNbrs o u.

Lemma walk_mono (U V : bitset) (i e : Z) :
  subsetOf U V -> walk o U i e -> walk o V i e.
Proof.
  intros Hsub Hw. induction Hw as [i e Ha|i j e Ha Hj Hw IH].
  - apply walk_arc. exact Ha.
  - eapply walk_step; eauto.
Qed.

(** A walk from [i] can be cut at its last visit of [i]. *)
Lemma walk_last_visit (U : bitset) (x e : Z) :
  walk o U x e ->
  forall i, 0 <= i ->
    walk o (removeElement U i) x e
    \/ arc o i e
    \/ exists j, arc o i j /\ contains (removeElement U i) j = true
                 /\ walk o (removeElement U i) j e.
Proof.
  intros Hw. induction Hw as [x e Ha|x j e Ha Hj Hw IH]; intros i Hi.
  - left. apply walk_arc. exact Ha.
  - destruct (IH i Hi) as [Hrest|Hcut]; [|right; exact Hcut].
    destruct (Z.eq_dec j i) as [->|Hne].
    + right. inversion Hrest as [? ? Ha'|? j' ? Ha' Hj' Hw']; subst.
      * left. exact Ha'.
      * right. exists j'. auto.
    + left. eapply walk_step; [exact Ha| |exact Hrest].
      rewrite contains_removeElement by lia. rewrite Hj. simpl.
      apply negb_true_iff. apply Z.eqb_neq. exact Hne.
Qed.

Lemma walk_unfold (U : bitset) (i e : Z) :
  0 <= i ->
  walk o U i e <->
  arc o i e
  \/ exists j, arc o i j /\ contains (removeElement U i) j = true
               /\ walk o (removeElement U i) j e.
Proof.
  intros Hi. split.
  - intros Hw. destruct (walk_last_visit U i e Hw i Hi) as [Hrest|Hcut];
      [|exact Hcut].
    inversion Hrest as [? ? Ha'|? j' ? Ha' Hj' Hw']; subst.
    + left. exact Ha'.
    + right. exists j'. auto.
  - assert (Hsub : subsetOf (removeElement U i) U).
    { intros x Hx. rewrite contains_removeElement in Hx by lia.
      apply andb_true_iff in Hx. tauto. }
    intros [Ha|(j & Ha & Hj & Hw)].
    + apply walk_arc. exact Ha.
    + eapply walk_step; [exact Ha|apply Hsub; exact Hj|].
      eapply walk_mono; eauto.
Qed.

(** With one unit of fuel more than the number of vertices that may still be
    visited, the search returns, and it returns true exactly when there is a
    walk. *)
Lemma containsDirectedPathBetween_spec (fuel : nat) :
  forall (U : bitset) (i e : Z),
    0 <= U -> 0 <= i ->
    (length (elements (removeElement U i)) < fuel)%nat ->
    exists b, containsDirectedPathBetween fuel o U i e = Ret b
              /\ (b = true <-> walk o U i e).
Proof.
  induction fuel as [|f IH]; intros U i e HU Hi Hfuel; [lia|].
  simpl. destruct (contains (outNbrs o i) e) eqn:Earc.
  - exists true. split; [reflexivity|]. split; [|reflexivity].
    intros _. apply walk_arc. exact Earc.
  - set (U' := removeElement U i) in *.
    assert (HU' : 0 <= U') by (apply removeElement_nonneg; exact HU).
    assert (Hnn : 0 <= intersection (outNbrs o i) U').
    { apply Z.land_nonneg. left. apply out_nonneg. }
    destruct (existsR_spec
                (fun element => containsDirectedPathBetween f o U' element e)
                (elements (intersection (outNbrs o i) U'))) as (b & Hb & Hiff).
    { intros x Hx. apply elements_spec in Hx; [|exact Hnn].
      rewrite contains_intersection in Hx. apply andb_true_iff in Hx.
      destruct Hx as [Hx1 Hx2].
      pose proof (contains_nonneg _ _ Hx2) as Hx0.
      destruct (IH U' x e HU' Hx0) as (b & Hb & _).
      - assert ((length (elements (removeElement U' x))
                 < length (elements U'))%nat); [|lia].
        apply (elements_length_lt _ _ x); auto.
        + apply removeElement_nonneg. exact HU'.
        + intros y Hy. rewrite contains_removeElement in Hy by lia.
          apply andb_true_iff in Hy. tauto.
        + rewrite contains_removeElement by lia. rewrite Z.eqb_refl.
          apply andb_false_r.
      - exists b. exact Hb. }
    exists b. split; [exact Hb|]. rewrite Hiff. rewrite (walk_unfold U i e Hi).
    split.
    + intros (x & Hx & Hbx). right. exists x.
      apply elements_spec in Hx; [|exact Hnn].
      rewrite contains_intersection in Hx. apply andb_true_iff in Hx.
      destruct Hx as [Hx1 Hx2].
      pose proof (contains_nonneg _ _ Hx2) as Hx0.
      split; [exact Hx1|]. split; [exact Hx2|].
      destruct (IH U' x e HU' Hx0) as (b' & Hb' & Hiff').
      * assert ((length (elements (removeElement U' x))
                 < length (elements U'))%nat); [|lia].
        apply (elements_length_lt _ _ x); auto.
        -- apply removeElement_nonneg. exact HU'.
        -- intros y Hy. rewrite contains_removeElement in Hy by lia.
           apply andb_true_iff in Hy. tauto.
        -- rewrite contains_removeElement by lia. rewrite Z.eqb_refl.
           apply andb_false_r.
      * apply Hiff'. congruence.
    + intros [Ha|(j & Ha & Hj & Hw)].
      { unfold arc in Ha. congruence. }
      exists j.
      pose proof (contains_nonneg _ _ Hj) as Hj0.
      split.
      * apply elements_spec; [exact Hnn|]. rewrite contains_intersection.
        unfold arc in Ha. rewrite Ha. simpl. exact Hj.
      * destruct (IH U' j e HU' Hj0) as (b' & Hb' & Hiff').
        -- assert ((length (elements (removeElement U' j))
                    < length (elements U'))%nat); [|lia].
           apply (elements_length_lt _ _ j); auto.
           ++ apply removeElement_nonneg. exact HU'.
           ++ intros y Hy. rewrite contains_removeElement in Hy by lia.
              apply andb_true_iff in Hy. tauto.
           ++ rewrite contains_removeElement by lia. rewrite Z.eqb_refl.
              apply andb_false_r.
        -- rewrite Hb'. f_equal. apply Hiff'. exact Hw.
Qed.

End Walks.

(** ** Adding and removing arcs *)

Lemma contains_add_gen (s : bitset) (i j : Z) :
  contains (add s i) j = contains s j || ((j =? i) && (0 <=? i)).
Proof.
  destruct (Z.leb_spec 0 i) as [Hi|Hi].
  - rewrite contains_add by lia. rewrite andb_true_r. reflexivity.
  - unfold add. rewrite singleton_neg by lia. rewrite Z.lor_0_r.
    rewrite andb_false_r, orb_false_r. reflexivity.
Qed.

Lemma contains_removeElement_gen (s : bitset) (i j : Z) :
  contains (removeElement s i) j = contains s j && negb ((j =? i) && (0 <=? i)).
Proof.
  destruct (Z.leb_spec 0 i) as [Hi|Hi].
  - rewrite contains_removeElement by lia. rewrite andb_true_r. reflexivity.
  - unfold removeElement. rewrite singleton_neg by lia. rewrite Z.ldiff_0_r.
    rewrite andb_false_r. simpl. rewrite andb_true_r. reflexivity.
Qed.

Lemma add_removeElement (s : bitset) (i : Z) :
  contains s i = true -> add (removeElement s i) i = s.
Proof.
  intros Hi. apply bitset_ext. intros j.
  rewrite contains_add_gen, contains_removeElement_gen.
  destruct (Z.eqb_spec j i) as [->|Hne]; simpl.
  - rewrite Hi. pose proof (contains_nonneg _ _ Hi).
    destruct (Z.leb_spec 0 i); [reflexivity | lia].
  - rewrite andb_true_r, orb_false_r. reflexivity.
Qed.

Lemma outNbrs_removeArc (o : diGraph) (i j u : Z) :
  outNbrs (removeArc o i j) u
  = if u =? i then removeElement (outNbrs o i) j else outNbrs o u.
Proof.
  unfold outNbrs, removeArc; simpl.
  destruct (Z.eqb_spec u i) as [->|Hne].
  - destruct (Z.ltb_spec i 0) as [Hneg|Hpos].
    + rewrite !aget_outside by lia. reflexivity.
    + destruct (Z.ltb_spec i (Z.of_nat (length (adjacencyList o)))).
      * rewrite aget_aset_eq by lia. reflexivity.
      * rewrite !aget_outside by (rewrite ?length_aset; lia). reflexivity.
  - apply aget_aset_ne. congruence.
Qed.

Lemma inNbrs_removeArc (o : diGraph) (i j v : Z) :
  inNbrs (removeArc o i j) v
  = if v =? j then removeElement (inNbrs o j) i else inNbrs o v.
Proof.
  unfold inNbrs, removeArc; simpl.
  destruct (Z.eqb_spec v j) as [->|Hne].
  - destruct (Z.ltb_spec j 0) as [Hneg|Hpos].
    + rewrite !aget_outside by lia. reflexivity.
    + destruct (Z.ltb_spec j (Z.of_nat (length (reverseAdjacencyList o)))).
      * rewrite aget_aset_eq by lia. reflexivity.
      * rewrite !aget_outside by (rewrite ?length_aset; lia). reflexivity.
  - apply aget_aset_ne. congruence.
Qed.

Lemma outNbrs_addArc (o : diGraph) (i j u : Z) :
  0 <= i < Z.of_nat (length (adjacencyList o)) ->
  outNbrs (addArc o i j) u
  = if u =? i then add (outNbrs o i) j else outNbrs o u.
Proof.
  intros Hi. unfold outNbrs, addArc; simpl.
  destruct (Z.eqb_spec u i) as [->|Hne].
  - rewrite aget_aset_eq by lia. reflexivity.
  - apply aget_aset_ne. congruence.
Qed.

Lemma inNbrs_addArc (o : diGraph) (i j v : Z) :
  0 <= j < Z.of_nat (length (reverseAdjacencyList o)) ->
  inNbrs (addArc o i j) v
  = if v =? j then add (inNbrs o j) i else inNbrs o v.
Proof.
  intros Hj. unfold inNbrs, addArc; simpl.
  destruct (Z.eqb_spec v j) as [->|Hne].
  - rewrite aget_aset_eq by lia. reflexivity.
  - apply aget_aset_ne. congruence.
Qed.

Lemma arc_removeArc (o : diGraph) (i j u v : Z) :
  arc (removeArc o i j) u v <-> arc o u v /\ ~ (u = i /\ v = j).
Proof.
  unfold arc. rewrite outNbrs_removeArc.
  destruct (Z.eqb_spec u i) as [->|Hne].
  - rewrite contains_removeElement_gen. rewrite andb_true_iff, negb_true_iff.
    split.
    + intros [Ha Hv]. split; [exact Ha|]. intros [_ ->].
      rewrite Z.eqb_refl in Hv. simpl in Hv.
      pose proof (contains_nonneg _ _ Ha). lia.
    + intros [Ha Hv]. split; [exact Ha|].
      destruct (Z.eqb_spec v j) as [->|]; [|reflexivity]. tauto.
  - tauto.
Qed.

Lemma wfDiGraph_range (o : diGraph) (u v : Z) :
  wfDiGraph o -> arc o u v ->
  0 <= u < numberOfVertices o /\ 0 <= v < numberOfVertices o.
Proof.
  intros (Hn & Hlo & Hli & Hon & Hin & Hrange & Hmirror) Ha.
  split; [|apply (Hrange u v Ha)].
  destruct (Z.ltb_spec u 0) as [Hneg|Hpos].
  - unfold arc, outNbrs in Ha. rewrite aget_outside in Ha by lia.
    rewrite contains_EMPTY in Ha. discriminate.
  - destruct (Z.ltb_spec u (numberOfVertices o)); [lia|].
    unfold arc, outNbrs in Ha. rewrite aget_outside in Ha by lia.
    rewrite contains_EMPTY in Ha. discriminate.
Qed.

Lemma wfDiGraph_removeArc (o : diGraph) (i j : Z) :
  wfDiGraph o -> wfDiGraph (removeArc o i j).
Proof.
  intros Hwf. pose proof Hwf as (Hn & Hlo & Hli & Hon & Hin & Hrange & Hmirror).
  unfold wfDiGraph. simpl. rewrite !length_aset.
  split; [assumption|]. split; [assumption|]. split; [assumption|].
  split; [|split; [|split]].
  - intros u. rewrite outNbrs_removeArc.
    destruct (u =? i); [apply removeElement_nonneg|]; apply Hon.
  - intros u. rewrite inNbrs_removeArc.
    destruct (u =? j); [apply removeElement_nonneg|]; apply Hin.
  - intros u v H. apply arc_removeArc in H. apply (Hrange u v). tauto.
  - intros u v. rewrite outNbrs_removeArc, inNbrs_removeArc.
    destruct (Z.eqb_spec v j) as [->|Hv]; destruct (Z.eqb_spec u i) as [->|Hu].
    + rewrite !contains_removeElement_gen. rewrite Hmirror.
      rewrite !Z.eqb_refl. simpl.
      destruct (contains (outNbrs o i) j) eqn:E; simpl; [|reflexivity].
      destruct (wfDiGraph_range o i j Hwf E).
      destruct (Z.leb_spec 0 i); destruct (Z.leb_spec 0 j);
        first [reflexivity | lia].
    + rewrite contains_removeElement_gen. rewrite Hmirror.
      destruct (Z.eqb_spec u i); [congruence|]. simpl.
      apply andb_true_r.
    + rewrite contains_removeElement_gen. rewrite Hmirror.
      destruct (Z.eqb_spec v j); [congruence|]. simpl.
      symmetry. apply andb_true_r.
    + apply Hmirror.
Qed.

(** Removing an arc that is there and adding it again gives the digraph
    back. *)
Lemma addArc_removeArc (o : diGraph) (i j : Z) :
  wfDiGraph o -> arc o i j -> addArc (removeArc o i j) i j = o.
Proof.
  intros Hwf Ha. pose proof Hwf as (Hn & Hlo & Hli & Hon & Hin & Hrange & Hmirror).
  destruct (wfDiGraph_range o i j Hwf Ha) as [Hi Hj].
  unfold addArc. rewrite outNbrs_removeArc, inNbrs_removeArc, !Z.eqb_refl.
  unfold removeArc; simpl. rewrite !aset_aset_same.
  rewrite add_removeElement by exact Ha.
  rewrite add_removeElement by (rewrite Hmirror; exact Ha).
  unfold outNbrs, inNbrs. rewrite !aset_aget_same by lia.
  destruct o; simpl. f_equal. lia.
Qed.

(** ** The deletable-edge engine *)

Section DeletableEdges.

Variables (o : diGraph) (edgeNumbering : matrix).
Hypothesis o_wf : wfDiGraph o.

Let n := numberOfVertices o.

Lemma deletableStep_spec (i nbr : Z) (s : bitset) :
  arc o i nbr ->
  exists b : bool,
    deletableStep n edgeNumbering i nbr (s, o)
    = Ret (if b then add s (mget edgeNumbering i nbr) else s, o)
    /\ (b = true <-> deletableArc o i nbr).
Proof.
  intros Ha. unfold deletableStep.
  pose proof (wfDiGraph_removeArc o i nbr o_wf) as Hwf'.
  destruct (wfDiGraph_range o i nbr o_wf Ha) as [Hi Hnbr].
  pose proof o_wf as (Hn & _).
  pose proof Hwf' as (_ & _ & _ & Hon' & _).
  destruct (containsDirectedPathBetween_spec (removeArc o i nbr)
              Hon' (dfsFuel n) (complement EMPTY n) i nbr)
    as (b & Hb & Hiff).
  - apply complement_EMPTY_nonneg. exact Hn.
  - lia.
  - assert ((length (elements (removeElement (complement EMPTY n) i))
             <= length (elements (complement EMPTY n)))%nat).
    { apply elements_length_le.
      - apply removeElement_nonneg, complement_EMPTY_nonneg. exact Hn.
      - apply complement_EMPTY_nonneg. exact Hn.
      - intros x Hx. rewrite contains_removeElement_gen in Hx.
        apply andb_true_iff in Hx. tauto. }
    rewrite elements_complement_length in H by exact Hn.
    unfold dfsFuel. lia.
  - exists b. rewrite Hb. simpl. rewrite addArc_removeArc by assumption.
    split; [reflexivity|]. rewrite Hiff. unfold deletableArc. fold n. tauto.
Qed.

Lemma deletableLoop_spec (i : Z) (l : list Z) :
  forall s,
    (forall nbr, In nbr l -> arc o i nbr) ->
    exists s',
      fold_left
        (fun (acc : result (bitset * diGraph)) nbr =>
           let* st := acc in deletableStep n edgeNumbering i nbr st)
        l (Ret (s, o)) = Ret (s', o)
      /\ forall e, contains s' e = true <->
                   contains s e = true
                   \/ (0 <= e /\ exists nbr, In nbr l /\ deletableArc o i nbr
                                             /\ mget edgeNumbering i nbr = e).
Proof.
  induction l as [|nbr l IH]; intros s Harcs; cbn [fold_left bind In].
  - exists s. split; [reflexivity|]. intros e. split; [tauto|].
    intros [H|(_ & x & [] & _)]. exact H.
  - destruct (deletableStep_spec i nbr s (Harcs nbr (or_introl eq_refl)))
      as (b & Hstep & Hb).
    rewrite Hstep.
    destruct (IH (if b then add s (mget edgeNumbering i nbr) else s))
      as (s' & Hfold & Hs').
    { intros x Hx. apply Harcs. right. exact Hx. }
    exists s'. split; [exact Hfold|]. intros e. rewrite Hs'. split.
    + intros [He|(He0 & x & Hx & Hd & Hm)].
      * destruct b.
        -- rewrite contains_add_gen in He. apply orb_true_iff in He.
           destruct He as [He|He]; [left; exact He|].
           apply andb_true_iff in He. destruct He as [He1 He2].
           apply Z.eqb_eq in He1. apply Z.leb_le in He2. subst e.
           right. split; [exact He2|]. exists nbr.
           split; [left; reflexivity|]. split; [|reflexivity].
           apply Hb. reflexivity.
        -- left. exact He.
      * right. split; [exact He0|]. exists x. auto.
    + intros [He|(He0 & x & [<-|Hx] & Hd & Hm)].
      * left. destruct b; [|exact He]. rewrite contains_add_gen, He.
        reflexivity.
      * left. apply Hb in Hd. subst b. rewrite contains_add_gen.
        rewrite Hm, Z.eqb_refl. destruct (Z.leb_spec 0 e); [|lia].
        apply orb_true_r.
      * right. split; [exact He0|]. exists x. auto.
Qed.

Lemma deletableOuterLoop_spec (vs : list Z) :
  forall s,
    exists s',
      fold_left
        (fun (acc : result (bitset * diGraph)) i =>
           let* st := acc in
           fold_left
             (fun (acc : result (bitset * diGraph)) nbr =>
                let* st := acc in deletableStep n edgeNumbering i nbr st)
             (elements (outNbrs (snd st) i)) (Ret st))
        vs (Ret (s, o)) = Ret (s', o)
      /\ forall e, contains s' e = true <->
                   contains s e = true
                   \/ (0 <= e /\ exists i nbr, In i vs /\ deletableArc o i nbr
                                               /\ mget edgeNumbering i nbr = e).
Proof.
  induction vs as [|i vs IH]; intros s; cbn [fold_left bind In snd].
  - exists s. split; [reflexivity|]. intros e. split; [tauto|].
    intros [H|(_ & x & y & [] & _)]. exact H.
  - pose proof o_wf as (_ & _ & _ & Hon & _).
    destruct (deletableLoop_spec i (elements (outNbrs o i)) s) as (s1 & H1 & Hs1).
    { intros nbr Hin. apply elements_spec in Hin; [exact Hin | apply Hon]. }
    rewrite H1. destruct (IH s1) as (s' & Hfold & Hs').
    exists s'. split; [exact Hfold|]. intros e. rewrite Hs', Hs1. split.
    + intros [[He|(He0 & x & Hx & Hd & Hm)]|(He0 & j & x & Hj & Hd & Hm)].
      * left. exact He.
      * right. split; [exact He0|]. exists i, x. auto.
      * right. split; [exact He0|]. exists j, x. auto.
    + intros [He|(He0 & j & x & [<-|Hj] & Hd & Hm)].
      * left. left. exact He.
      * left. right. split; [exact He0|]. exists x. split; [|auto].
        apply elements_spec; [apply Hon|]. apply Hd.
      * right. split; [exact He0|]. exists j, x. auto.
Qed.

(** [getDeletableEdges] returns, leaves the orientation as it found it, and
    computes the edge numbers of the deletable arcs. *)
Lemma getDeletableEdges_spec :
  exists s, getDeletableEdges o n edgeNumbering = Ret (s, o)
            /\ isDeletableSet o edgeNumbering s.
Proof.
  destruct (deletableOuterLoop_spec (vertices n) EMPTY) as (s & Hs & Hiff).
  exists s. split; [exact Hs|]. intros e. rewrite Hiff.
  rewrite contains_EMPTY. split.
  - intros [H|(He0 & i & nbr & Hi & Hd & Hm)]; [discriminate|].
    split; [exact He0|]. exists i, nbr. auto.
  - intros (He0 & i & nbr & Hd & Hm). right. split; [exact He0|].
    exists i, nbr. split; [|auto]. apply vertices_spec.
    apply (wfDiGraph_range o i nbr o_wf). apply Hd.
Qed.

End DeletableEdges.

(** ** The edge numbering *)

Lemma aset_outside {A : Type} (a : list A) (i : Z) (v : A) :
  i < 0 \/ Z.of_nat (length a) <= i -> aset a i v = a.
Proof.
  intros Hi. unfold aset. destruct (Z.ltb_spec i 0); [reflexivity|].
  apply list_insert_ge. lia.
Qed.

Lemma mget_mset (m : matrix) (n i j v a b : Z) :
  squareMatrix m n ->
  mget (mset m i j v) a b
  = if (a =? i) && (b =? j) && ((0 <=? i) && (i <? n)) && ((0 <=? j) && (j <? n))
    then v else mget m a b.
Proof.
  intros [Hlen Hrows]. unfold mget, mset.
  destruct (Z.eqb_spec a i) as [->|Hai]; simpl.
  2:{ rewrite aget_aset_ne by congruence. reflexivity. }
  destruct (Z.leb_spec 0 i) as [Hi0|Hi0]; simpl.
  2:{ rewrite aset_outside by lia. rewrite andb_false_r. reflexivity. }
  destruct (Z.ltb_spec i n) as [Hin|Hin]; simpl.
  2:{ rewrite aset_outside by lia. rewrite andb_false_r. reflexivity. }
  rewrite aget_aset_eq by lia. rewrite andb_true_r.
  destruct (Z.eqb_spec b j) as [->|Hbj]; simpl.
  2:{ rewrite aget_aset_ne by congruence. reflexivity. }
  destruct (Z.leb_spec 0 j) as [Hj0|Hj0]; simpl.
  2:{ rewrite aset_outside by lia. reflexivity. }
  destruct (Z.ltb_spec j n) as [Hjn|Hjn]; simpl.
  2:{ rewrite aset_outside by (rewrite Hrows; lia). reflexivity. }
  apply aget_aset_eq. rewrite Hrows; lia.
Qed.

Lemma squareMatrix_mset (m : matrix) (n i j v : Z) :
  squareMatrix m n -> squareMatrix (mset m i j v) n.
Proof.
  intros [Hlen Hrows]. unfold mset. split.
  - rewrite length_aset. exact Hlen.
  - intros a Ha. destruct (Z.eq_dec a i) as [->|Hne].
    + rewrite aget_aset_eq by lia. rewrite length_aset. apply Hrows. exact Ha.
    + rewrite aget_aset_ne by congruence. apply Hrows. exact Ha.
Qed.

Lemma squareMatrix_newMatrix (n : Z) : squareMatrix (newMatrix n) n.
Proof.
  unfold newMatrix. split.
  - apply length_replicate.
  - intros i Hi. unfold aget. destruct (Z.ltb_spec i 0); [lia|].
    rewrite lookup_replicate_2 by lia. simpl. apply length_replicate.
Qed.

Lemma symmetricMatrix_newMatrix (n : Z) : symmetricMatrix (newMatrix n).
Proof.
  assert (H : forall a b, mget (newMatrix n) a b = 0).
  { intros a b. unfold mget, newMatrix, aget.
    destruct (a <? 0); [destruct (b <? 0); reflexivity|].
    destruct (replicate (Z.to_nat n) (replicate (Z.to_nat n) 0) !! Z.to_nat a)
      as [row|] eqn:E; simpl.
    - apply lookup_replicate in E. destruct E as [-> _].
      destruct (b <? 0); [reflexivity|].
      destruct (replicate (Z.to_nat n) 0 !! Z.to_nat b) as [x|] eqn:E';
        [|reflexivity].
      apply lookup_replicate in E'. simpl. tauto.
    - destruct (b <? 0); reflexivity. }
  intros a b. rewrite !H. reflexivity.
Qed.

Lemma numberEdges_invariant (adjacencyList : list bitset) (n : Z) :
  squareMatrix (numberEdges adjacencyList n (newMatrix n)) n
  /\ symmetricMatrix (numberEdges adjacencyList n (newMatrix n)).
Proof.
  unfold numberEdges.
  set (P := fun st : matrix * Z =>
              squareMatrix (fst st) n /\ symmetricMatrix (fst st)).
  assert (Hinner : forall i l st, P st ->
            P (fold_left
                 (fun (st : matrix * Z) nbr =>
                    let '(m, counter) := st in
                    (mset (mset m i nbr counter) nbr i counter, counter + 1))
                 l st)).
  { intros i l. induction l as [|nbr l IH]; intros st Hst; [exact Hst|].
    simpl. apply IH. destruct st as [m c]. unfold P in Hst. simpl in Hst.
    destruct Hst as [Hsq Hsym]. unfold P; simpl. split.
    - apply squareMatrix_mset, squareMatrix_mset. exact Hsq.
    - intros a b.
      rewrite !(mget_mset _ n) by (try apply squareMatrix_mset; exact Hsq).
      rewrite (Hsym a b).
      destruct (Z.eqb_spec a nbr); destruct (Z.eqb_spec b i);
        destruct (Z.eqb_spec a i); destruct (Z.eqb_spec b nbr);
        destruct ((0 <=? nbr) && (nbr <? n)); destruct ((0 <=? i) && (i <? n));
        simpl; reflexivity. }
  assert (Houter : forall vs st, P st ->
            P (fold_left
                 (fun (st : matrix * Z) i =>
                    fold_left
                      (fun (st : matrix * Z) nbr =>
                         let '(m, counter) := st in
                         (mset (mset m i nbr counter) nbr i counter, counter + 1))
                      (elementsAfter (aget EMPTY adjacencyList i) i) st)
                 vs st)).
  { induction vs as [|i vs IH]; intros st Hst; [exact Hst|].
    simpl. apply IH. apply Hinner. exact Hst. }
  apply (Houter (vertices n) (newMatrix n, 0)). split.
  - apply squareMatrix_newMatrix.
  - apply symmetricMatrix_newMatrix.
Qed.

(** ** Reversing every arc *)

Lemma reverseDiGraph_involutive (o : diGraph) :
  reverseDiGraph (reverseDiGraph o) = o.
Proof. destruct o. reflexivity. Qed.

Lemma arc_reverseDiGraph (o : diGraph) (i j : Z) :
  wfDiGraph o -> (arc (reverseDiGraph o) j i <-> arc o i j).
Proof.
  intros (_ & _ & _ & _ & _ & _ & Hmirror). unfold arc.
  change (outNbrs (reverseDiGraph o) j) with (inNbrs o j).
  rewrite Hmirror. tauto.
Qed.

Lemma wfDiGraph_reverseDiGraph (o : diGraph) :
  wfDiGraph o -> wfDiGraph (reverseDiGraph o).
Proof.
  intros Hwf. pose proof Hwf as (Hn & Hlo & Hli & Hon & Hin & Hrange & Hmirror).
  unfold wfDiGraph. simpl.
  split; [assumption|]. split; [assumption|]. split; [assumption|].
  split; [exact Hin|]. split; [exact Hon|]. split.
  - intros u v Ha. apply (proj1 (arc_reverseDiGraph o v u Hwf)) in Ha.
    apply (wfDiGraph_range o v u Hwf Ha).
  - intros u v. symmetry. apply Hmirror.
Qed.

Lemma walk_snoc (o : diGraph) (U : bitset) (i j e : Z) :
  walk o U i j -> contains U j = true -> arc o j e -> walk o U i e.
Proof.
  intros Hw. induction Hw as [i j Ha|i k j Ha Hk Hw IH]; intros Hj Hje.
  - eapply walk_step; [exact Ha|exact Hj|]. apply walk_arc. exact Hje.
  - eapply walk_step; [exact Ha|exact Hk|]. apply IH; assumption.
Qed.

Lemma walk_reverseDiGraph (o : diGraph) (U : bitset) (i e : Z) :
  wfDiGraph o -> walk o U i e -> walk (reverseDiGraph o) U e i.
Proof.
  intros Hwf Hw. induction Hw as [i e Ha|i j e Ha Hj Hw IH].
  - apply walk_arc. apply arc_reverseDiGraph; assumption.
  - eapply walk_snoc; [exact IH|exact Hj|].
    apply arc_reverseDiGraph; assumption.
Qed.

Lemma deletableArc_reverseDiGraph (o : diGraph) (i nbr : Z) :
  wfDiGraph o -> deletableArc o i nbr -> deletableArc (reverseDiGraph o) nbr i.
Proof.
  intros Hwf [Ha Hw]. split.
  - apply arc_reverseDiGraph; assumption.
  - change (removeArc (reverseDiGraph o) nbr i)
      with (reverseDiGraph (removeArc o i nbr)).
    apply walk_reverseDiGraph; [|exact Hw].
    apply wfDiGraph_removeArc. exact Hwf.
Qed.

Lemma isDeletableSet_reverseDiGraph (o : diGraph) (edgeNumbering : matrix)
    (s : bitset) :
  wfDiGraph o -> symmetricMatrix edgeNumbering ->
  isDeletableSet o edgeNumbering s ->
  isDeletableSet (reverseDiGraph o) edgeNumbering s.
Proof.
  intros Hwf Hsym Hs e. rewrite (Hs e). split.
  - intros (He & i & nbr & Hd & Hm). split; [exact He|]. exists nbr, i.
    split; [apply deletableArc_reverseDiGraph; assumption|].
    rewrite Hsym. exact Hm.
  - intros (He & i & nbr & Hd & Hm). split; [exact He|]. exists nbr, i.
    split.
    + rewrite <- (reverseDiGraph_involutive o).
      apply deletableArc_reverseDiGraph;
        [apply wfDiGraph_reverseDiGraph|]; assumption.
    + rewrite Hsym. exact Hm.
Qed.

Lemma isDeletableSet_unique (o : diGraph) (edgeNumbering : matrix)
    (s t : bitset) :
  isDeletableSet o edgeNumbering s -> isDeletableSet o edgeNumbering t -> s = t.
Proof.
  intros Hs Ht. apply bitset_ext. intros e.
  destruct (contains s e) eqn:Es.
  - symmetry. apply Ht. apply Hs. exact Es.
  - destruct (contains t e) eqn:Et; [|reflexivity].
    apply Ht in Et. apply Hs in Et. congruence.
Qed.

(** ** The boolean checks are sound *)

Lemma inRange_contains (n : Z) (s : bitset) (v : Z) :
  0 <= n -> inRange n s = true -> contains s v = true -> 0 <= v < n.
Proof.
  intros Hn Hr Hv. unfold inRange in Hr. apply andb_true_iff in Hr.
  destruct Hr as [H0 Hlt]. apply Z.leb_le in H0. apply Z.ltb_lt in Hlt.
  split; [apply (contains_nonneg s v Hv)|].
  destruct (Z.ltb_spec v n) as [|Hge]; [assumption|exfalso].
  unfold contains in Hv.
  destruct (Z.eq_dec s 0) as [->|Hs0].
  - rewrite Z.bits_0 in Hv. discriminate.
  - rewrite Z.bits_above_log2 in Hv; [discriminate|lia|].
    assert (Z.log2 s < n) by (apply Z.log2_lt_pow2; lia). lia.
Qed.

Lemma forallb_vertices (n : Z) (f : Z -> bool) :
  forallb f (vertices n) = true <-> forall u, 0 <= u < n -> f u = true.
Proof.
  rewrite List.forallb_forall. split.
  - intros H u Hu. apply H. apply vertices_spec. exact Hu.
  - intros H u Hu. apply H. apply vertices_spec. exact Hu.
Qed.

Lemma aget_EMPTY_outside (a : list bitset) (n u : Z) :
  Z.of_nat (length a) = n -> ~ (0 <= u < n) -> aget EMPTY a u = EMPTY.
Proof. intros Hlen Hu. apply aget_outside. lia. Qed.

Lemma checkGraph_sound (adjacencyList : list bitset) (n : Z) :
  checkGraph adjacencyList n = true -> wfGraph adjacencyList n.
Proof.
  unfold checkGraph. rewrite !andb_true_iff, forallb_vertices.
  intros [[Hn Hlen] Hall]. apply Z.leb_le in Hn. apply Z.eqb_eq in Hlen.
  assert (Hout : forall u, ~ (0 <= u < n) -> aget EMPTY adjacencyList u = EMPTY)
    by (intros; eapply aget_EMPTY_outside; eauto).
  assert (Hin : forall u, 0 <= u < n ->
            inRange n (aget EMPTY adjacencyList u) = true
            /\ contains (aget EMPTY adjacencyList u) u = false
            /\ forall v, 0 <= v < n ->
                 contains (aget EMPTY adjacencyList u) v
                 = contains (aget EMPTY adjacencyList v) u).
  { intros u Hu. specialize (Hall u Hu). rewrite !andb_true_iff in Hall.
    destruct Hall as [[Hr Hloop] Hsym]. split; [exact Hr|].
    split; [apply negb_true_iff; exact Hloop|].
    intros v Hv. rewrite forallb_vertices in Hsym.
    apply Bool.eqb_prop. apply Hsym. exact Hv. }
  assert (Hrange : forall u v, contains (aget EMPTY adjacencyList u) v = true ->
                               0 <= u < n /\ 0 <= v < n).
  { intros u v Huv.
    assert (Hu : 0 <= u < n).
    { destruct (Z.leb_spec 0 u); [destruct (Z.ltb_spec u n); [lia|]|];
        rewrite Hout in Huv by lia; rewrite contains_EMPTY in Huv;
        discriminate. }
    split; [exact Hu|].
    eapply inRange_contains; [exact Hn|apply (proj1 (Hin u Hu))|exact Huv]. }
  unfold wfGraph. split; [exact Hn|]. split; [lia|].
  split; [|split; [|split]].
  - intros u. destruct (Z.leb_spec 0 u); [destruct (Z.ltb_spec u n)|].
    + destruct (Hin u ltac:(lia)) as [Hr _]. unfold inRange in Hr.
      apply andb_true_iff in Hr. destruct Hr as [Hr _].
      apply Z.leb_le in Hr. exact Hr.
    + rewrite Hout by lia. unfold EMPTY. lia.
    + rewrite Hout by lia. unfold EMPTY. lia.
  - intros u v Huv. apply (Hrange u v Huv).
  - intros u v.
    destruct (contains (aget EMPTY adjacencyList u) v) eqn:E1.
    + destruct (Hrange u v E1) as [Hu Hv].
      rewrite <- (proj2 (proj2 (Hin u Hu)) v Hv). exact (eq_sym E1).
    + destruct (contains (aget EMPTY adjacencyList v) u) eqn:E2; [|reflexivity].
      destruct (Hrange v u E2) as [Hv Hu].
      rewrite (proj2 (proj2 (Hin u Hu)) v Hv) in E1. congruence.
  - intros u. destruct (contains (aget EMPTY adjacencyList u) u) eqn:E;
      [|reflexivity].
    destruct (Hrange u u E) as [Hu _].
    rewrite (proj1 (proj2 (Hin u Hu))) in E. discriminate.
Qed.

Lemma checkCubic_sound (adjacencyList : list bitset) (n : Z) :
  checkCubic adjacencyList n = true -> cubic adjacencyList n.
Proof.
  unfold checkCubic. rewrite forallb_vertices. intros H v Hv.
  apply Z.eqb_eq. apply H. exact Hv.
Qed.

Lemma checkDiGraph_sound (o : diGraph) :
  checkDiGraph o = true -> wfDiGraph o.
Proof.
  unfold checkDiGraph. set (n := numberOfVertices o).
  rewrite !andb_true_iff, forallb_vertices.
  intros [[[Hn Hlo] Hli] Hall].
  apply Z.leb_le in Hn. apply Z.eqb_eq in Hlo. apply Z.eqb_eq in Hli.
  assert (Hin : forall u, 0 <= u < n ->
            inRange n (outNbrs o u) = true /\ inRange n (inNbrs o u) = true
            /\ forall v, 0 <= v < n ->
                 contains (inNbrs o v) u = contains (outNbrs o u) v).
  { intros u Hu. specialize (Hall u Hu). rewrite !andb_true_iff in Hall.
    destruct Hall as [[Hr1 Hr2] Hsym]. split; [exact Hr1|]. split; [exact Hr2|].
    intros v Hv. rewrite forallb_vertices in Hsym.
    apply Bool.eqb_prop. apply Hsym. exact Hv. }
  assert (Hoo : forall u, ~ (0 <= u < n) -> outNbrs o u = EMPTY)
    by (intros; eapply aget_EMPTY_outside; eauto).
  assert (Hio : forall u, ~ (0 <= u < n) -> inNbrs o u = EMPTY)
    by (intros; eapply aget_EMPTY_outside; eauto).
  assert (Hnonneg : forall s, inRange n s = true -> 0 <= s).
  { intros s Hs. unfold inRange in Hs. apply andb_true_iff in Hs.
    destruct Hs as [Hs _]. apply Z.leb_le in Hs. exact Hs. }
  assert (Hcases : forall u, 0 <= u < n \/ ~ (0 <= u < n)) by (intros; lia).
  unfold wfDiGraph. fold n.
  split; [exact Hn|]. split; [lia|]. split; [lia|].
  split; [|split; [|split]].
  - intros u. destruct (Hcases u) as [Hu|Hu].
    + apply Hnonneg, (proj1 (Hin u Hu)).
    + rewrite Hoo by exact Hu. unfold EMPTY. lia.
  - intros u. destruct (Hcases u) as [Hu|Hu].
    + apply Hnonneg, (proj1 (proj2 (Hin u Hu))).
    + rewrite Hio by exact Hu. unfold EMPTY. lia.
  - intros u v Ha. unfold arc in Ha. destruct (Hcases u) as [Hu|Hu].
    + eapply inRange_contains; [exact Hn|apply (proj1 (Hin u Hu))|exact Ha].
    + rewrite Hoo in Ha by exact Hu. rewrite contains_EMPTY in Ha.
      discriminate.
  - intros u v. destruct (Hcases u) as [Hu|Hu]; destruct (Hcases v) as [Hv|Hv].
    + apply (Hin u Hu). exact Hv.
    + rewrite Hio by exact Hv. rewrite contains_EMPTY.
      destruct (contains (outNbrs o u) v) eqn:E; [|reflexivity].
      exfalso. apply Hv.
      eapply inRange_contains; [exact Hn|apply (proj1 (Hin u Hu))|exact E].
    + rewrite Hoo by exact Hu. rewrite contains_EMPTY.
      destruct (contains (inNbrs o v) u) eqn:E; [|reflexivity].
      exfalso. apply Hu.
      eapply inRange_contains;
        [exact Hn|apply (proj1 (proj2 (Hin v Hv)))|exact E].
    + rewrite Hoo by exact Hu. rewrite Hio by exact Hv.
      rewrite !contains_EMPTY. reflexivity.
Qed.

Lemma checkOrientation_sound (adjacencyList : list bitset) (n : Z)
    (o : diGraph) :
  wfGraph adjacencyList n ->
  checkOrientation adjacencyList n o = true ->
  orientationOf adjacencyList n o.
Proof.
  intros (Hn & Hlen & Hnn & Hrange & Hsym & Hloop).
  unfold checkOrientation. rewrite !andb_true_iff, forallb_vertices.
  intros [[Hnum Hdi] Hall]. apply Z.eqb_eq in Hnum.
  pose proof (checkDiGraph_sound o Hdi) as Hwf.
  assert (Hin : forall u v, 0 <= u < n -> 0 <= v < n ->
            contains (aget EMPTY adjacencyList u) v
            = contains (outNbrs o u) v || contains (outNbrs o v) u
            /\ ~ (arc o u v /\ arc o v u)).
  { intros u v Hu Hv. specialize (Hall u Hu). rewrite forallb_vertices in Hall.
    specialize (Hall v Hv). apply andb_true_iff in Hall.
    destruct Hall as [H1 H2]. split; [apply Bool.eqb_prop; exact H1|].
    apply negb_true_iff in H2. unfold arc. intros [Ha Hb].
    rewrite Ha, Hb in H2. discriminate. }
  unfold orientationOf. split; [exact Hnum|]. split; [exact Hwf|].
  split; [|split].
  - intros u v Ha. destruct (wfDiGraph_range o u v Hwf Ha) as [Hu Hv].
    rewrite Hnum in *. rewrite (proj1 (Hin u v Hu Hv)).
    unfold arc in Ha. rewrite Ha. reflexivity.
  - intros u v Hadj.
    assert (Hv : 0 <= v < n) by (apply (Hrange u v Hadj)).
    assert (Hu : 0 <= u < n) by (rewrite Hsym in Hadj; apply (Hrange v u Hadj)).
    rewrite (proj1 (Hin u v Hu Hv)) in Hadj. apply orb_true_iff in Hadj.
    exact Hadj.
  - intros u v Ha Hb. destruct (wfDiGraph_range o u v Hwf Ha) as [Hu Hv].
    rewrite Hnum in *. apply (proj2 (Hin u v Hu Hv)). auto.
Qed.

(** ** Deletable-set symmetry *)

(** C9. For every strongly connected orientation [D] of a graph, with the
    edge numbering of the graph, the deletable-edge set of [D] equals the
    deletable-edge set of the digraph obtained by reversing every arc of
    [D]: both calls of [getDeletableEdges] return the same bitset. *)
Theorem deletable_edges_of_reversal (adjacencyList : list bitset) (n : Z)
    (D : diGraph) :
  orientationOf adjacencyList n D ->
  isStronglyConnected D = Ret true ->
  exists s,
    getDeletableEdges D n (numberEdges adjacencyList n (newMatrix n))
    = Ret (s, D)
    /\ getDeletableEdges (reverseDiGraph D) n
         (numberEdges adjacencyList n (newMatrix n))
       = Ret (s, reverseDiGraph D).
Proof.
  intros (Hnum & Hwf & _) _.
  set (en := numberEdges adjacencyList n (newMatrix n)).
  destruct (getDeletableEdges_spec D en Hwf) as (s & Hs & Hds).
  destruct (getDeletableEdges_spec (reverseDiGraph D) en
              (wfDiGraph_reverseDiGraph D Hwf)) as (t & Ht & Hdt).
  simpl in Ht. rewrite Hnum in Hs, Ht.
  exists s. split; [exact Hs|]. rewrite Ht. do 2 f_equal.
  apply (isDeletableSet_unique (reverseDiGraph D) en); [exact Hdt|].
  apply isDeletableSet_reverseDiGraph; [exact Hwf| |exact Hds].
  apply numberEdges_invariant.
Qed.

Lemma deletable_edges_of_reversal_witness :
  exists s,
    getDeletableEdges K4_cyclic 4 (numberEdges K4 4 (newMatrix 4))
    = Ret (s, K4_cyclic)
    /\ getDeletableEdges (reverseDiGraph K4_cyclic) 4
         (numberEdges K4 4 (newMatrix 4))
       = Ret (s, reverseDiGraph K4_cyclic).
Proof.
  apply (deletable_edges_of_reversal K4 4 K4_cyclic).
  - apply checkOrientation_sound.
    + apply checkGraph_sound. vm_compute. reflexivity.
    + vm_compute. reflexivity.
  - vm_compute. reflexivity.
Defined.

(** ** Walking through the elements of a bitset with [next] *)

Lemma filter_none {A : Type} (f : A -> bool) (l : list A) :
  (forall x, In x l -> f x = false) -> List.filter f l = [].
Proof.
  induction l as [|a l IH]; intros H; simpl; [reflexivity|].
  rewrite (H a (or_introl eq_refl)). apply IH. intros x Hx. apply H.
  right. exact Hx.
Qed.

Lemma elements_nonneg (s : bitset) (x : Z) : In x (elements s) -> 0 <= x.
Proof.
  unfold elements. destruct s as [|p|p]; simpl; try tauto.
  intros Hx. destruct (pos_elements_sorted p 0) as [_ Hf].
  rewrite List.Forall_forall in Hf. apply Hf. exact Hx.
Qed.

Lemma sorted_filter_head (l : list Z) (x y : Z) (rest : list Z) :
  StronglySorted Z.lt l ->
  List.filter (fun v => x <? v) l = y :: rest ->
  In y l /\ x < y /\ forall z, In z l -> (x <? z) = (y <=? z).
Proof.
  intros Hs. induction Hs as [|a l Hs IH Hf]; simpl; [discriminate|].
  rewrite List.Forall_forall in Hf.
  destruct (Z.ltb_spec x a) as [Hxa|Hxa].
  - intros Heq. injection Heq as <- _. split; [left; reflexivity|].
    split; [exact Hxa|]. intros z [<-|Hz].
    + destruct (Z.ltb_spec x a); destruct (Z.leb_spec a a); lia || reflexivity.
    + specialize (Hf z Hz).
      destruct (Z.ltb_spec x z); destruct (Z.leb_spec a z); lia || reflexivity.
  - intros Heq. destruct (IH Heq) as (Hy & Hxy & Hall).
    split; [right; exact Hy|]. split; [exact Hxy|]. intros z [<-|Hz].
    + specialize (Hf y Hy).
      destruct (Z.ltb_spec x a); destruct (Z.leb_spec y a); lia || reflexivity.
    + apply Hall. exact Hz.
Qed.

Lemma sorted_filter_le (l : list Z) (y : Z) :
  StronglySorted Z.lt l -> In y l ->
  List.filter (fun v => y <=? v) l = y :: List.filter (fun v => y <? v) l.
Proof.
  intros Hs. induction Hs as [|a l Hs IH Hf]; simpl; [tauto|].
  rewrite List.Forall_forall in Hf. intros [->|Hy].
  - rewrite Z.leb_refl, Z.ltb_irrefl. f_equal.
    apply List.filter_ext_in. intros z Hz. specialize (Hf z Hz).
    destruct (Z.ltb_spec y z); destruct (Z.leb_spec y z); lia || reflexivity.
  - specialize (Hf y Hy).
    destruct (Z.leb_spec y a); [lia|]. destruct (Z.ltb_spec y a); [lia|].
    apply IH. exact Hy.
Qed.

Lemma next_none (s : bitset) (x : Z) :
  next s x = -1 -> List.filter (fun v => x <? v) (elements s) = [].
Proof.
  unfold next. destruct (List.filter _ _) as [|y rest] eqn:E; [reflexivity|].
  intros ->. exfalso.
  assert (Hin : In (-1) (List.filter (fun v => x <? v) (elements s)))
    by (rewrite E; left; reflexivity).
  apply List.filter_In in Hin. destruct Hin as [Hin _].
  apply elements_nonneg in Hin. lia.
Qed.

Lemma next_some (s : bitset) (x y : Z) :
  next s x = y -> y <> -1 ->
  In y (elements s) /\ x < y
  /\ List.filter (fun v => x <? v) (elements s)
     = List.filter (fun v => y <=? v) (elements s).
Proof.
  unfold next. destruct (List.filter _ _) as [|y' rest] eqn:E; [congruence|].
  intros -> _.
  destruct (sorted_filter_head _ _ _ _ (elements_sorted s) E) as (Hy & Hxy & Hall).
  split; [exact Hy|]. split; [exact Hxy|].
  rewrite <- E. apply List.filter_ext_in. exact Hall.
Qed.

(** ** The enumeration as a recursion on the list of edges *)

Section Positions.

Variables (adjacencyList : list bitset) (n : Z).

Lemma edgesFrom_start : edgesFrom adjacencyList n (-1) (-1) = edgeList adjacencyList n.
Proof.
  unfold edgesFrom, edgeList. simpl. f_equal.
  rewrite List.forallb_filter_id; [reflexivity|].
  apply List.forallb_forall. intros u Hu. apply vertices_spec in Hu.
  apply Z.ltb_lt. lia.
Qed.

Lemma filter_vertices_after (e1 : Z) :
  -1 <= e1 < n - 1 ->
  List.filter (fun u => e1 <? u) (vertices n)
  = (e1 + 1) :: List.filter (fun u => e1 + 1 <? u) (vertices n).
Proof.
  intros He. unfold vertices.
  replace (Z.to_nat n) with (Z.to_nat (e1 + 1) + S (Z.to_nat (n - e1 - 2)))%nat
    by lia.
  rewrite List.seq_app, List.map_app, !List.filter_app. simpl.
  replace (Z.of_nat (Z.to_nat (e1 + 1))) with (e1 + 1) by lia.
  destruct (Z.ltb_spec e1 (e1 + 1)); [|lia]. rewrite Z.ltb_irrefl.
  assert (H1 : forall f, (forall k, (k < Z.to_nat (e1 + 1))%nat ->
                            f (Z.of_nat k) = false) ->
            List.filter f (map Z.of_nat (seq 0 (Z.to_nat (e1 + 1)))) = []).
  { intros f Hf. apply filter_none. intros x Hx. apply in_map_iff in Hx.
    destruct Hx as (k & <- & Hk). apply in_seq in Hk. apply Hf. lia. }
  rewrite !H1 by (intros k Hk; apply Z.ltb_ge; lia). simpl. f_equal.
  apply List.filter_ext_in. intros x Hx. apply in_map_iff in Hx.
  destruct Hx as (k & <- & Hk). apply in_seq in Hk.
  destruct (Z.ltb_spec e1 (Z.of_nat k));
    destruct (Z.ltb_spec (e1 + 1) (Z.of_nat k)); lia || reflexivity.
Qed.

Lemma filter_vertices_last (e1 : Z) :
  n - 1 <= e1 -> List.filter (fun u => e1 <? u) (vertices n) = [].
Proof.
  intros He. apply filter_none. intros x Hx. apply vertices_spec in Hx.
  apply Z.ltb_ge. lia.
Qed.

(** From the end of a row to the first edge of the next vertex. *)
Lemma edgesFrom_next_vertex (e1 : Z) :
  -1 <= e1 < n - 1 ->
  edgesFrom adjacencyList n e1 (-1)
  = edgesFrom adjacencyList n (e1 + 1)
      (next (aget EMPTY adjacencyList (e1 + 1)) (e1 + 1)).
Proof.
  intros He. unfold edgesFrom at 1. simpl.
  rewrite filter_vertices_after by exact He. simpl.
  unfold edgesFrom. f_equal. unfold edgeRow, elementsAfter.
  destruct (Z.eqb_spec (next (aget EMPTY adjacencyList (e1 + 1)) (e1 + 1)) (-1))
    as [Hnone|Hsome].
  - rewrite next_none by exact Hnone. reflexivity.
  - destruct (next_some _ _ _ eq_refl Hsome) as (_ & _ & ->). reflexivity.
Qed.

(** From an edge to the next edge of the same vertex. *)
Lemma edgesFrom_next_edge (e1 e2 : Z) :
  e2 <> -1 -> In e2 (elements (aget EMPTY adjacencyList e1)) ->
  edgesFrom adjacencyList n e1 e2
  = (e1, e2)
    :: edgesFrom adjacencyList n e1 (next (aget EMPTY adjacencyList e1) e2).
Proof.
  intros He2 Hin. unfold edgesFrom.
  destruct (Z.eqb_spec e2 (-1)); [congruence|].
  rewrite sorted_filter_le by (try apply elements_sorted; exact Hin).
  simpl. f_equal. f_equal.
  destruct (Z.eqb_spec (next (aget EMPTY adjacencyList e1) e2) (-1))
    as [Hnone|Hsome].
  - rewrite next_none by exact Hnone. reflexivity.
  - destruct (next_some _ _ _ eq_refl Hsome) as (_ & _ & ->). reflexivity.
Qed.

Lemma edgesFrom_end : edgesFrom adjacencyList n (n - 1) (-1) = [].
Proof.
  unfold edgesFrom. simpl. rewrite filter_vertices_last by lia. reflexivity.
Qed.

Lemma next_position (s : bitset) (x : Z) :
  next s x = -1 \/ (next s x <> -1 /\ In (next s x) (elements s)).
Proof.
  destruct (Z.eq_dec (next s x) (-1)) as [H|H]; [left; exact H|right].
  split; [exact H|]. apply (next_some s x _ eq_refl H).
Qed.

Variables (opts : options) (edgeNumbering : matrix).

(** With enough fuel [generateAllOrientations] is the recursion on the list
    of the edges that are left. *)
Lemma generateAllOrientations_enumerate (fuel : nat) :
  forall (st : genState) (e1 e2 : Z),
    -1 <= e1 <= n - 1 ->
    e2 = -1 \/ (e2 <> -1 /\ In e2 (elements (aget EMPTY adjacencyList e1))) ->
    (length (edgesFrom adjacencyList n e1 e2) + Z.to_nat (n - 1 - e1) < fuel)%nat ->
    generateAllOrientations fuel adjacencyList opts n edgeNumbering st e1 e2
    = enumerateOrientations
        (processOrientation adjacencyList opts n edgeNumbering)
        (edgesFrom adjacencyList n e1 e2) st.
Proof.
  induction fuel as [|f IH]; intros st e1 e2 He1 He2 Hfuel; [lia|].
  cbn [generateAllOrientations].
  destruct He2 as [->|[Hne Hin]].
  - rewrite Z.eqb_refl. simpl.
    destruct (Z.ltb_spec e1 (n - 1)) as [Hlt|Hge].
    + rewrite edgesFrom_next_vertex in * by lia.
      apply IH; [lia|apply next_position|lia].
    + replace e1 with (n - 1) by lia. rewrite Z.eqb_refl.
      rewrite edgesFrom_end. reflexivity.
  - destruct (Z.eqb_spec e2 (-1)); [congruence|]. simpl.
    rewrite edgesFrom_next_edge in * by assumption.
    cbn [enumerateOrientations]. simpl in Hfuel.
    rewrite IH by (try apply next_position; lia).
    cbn [gsOrientation withOrientation].
    match goal with
    | |- bind ?c _ = _ => destruct c as [| |[r st0]]
    end; cbn [bind]; try reflexivity.
    destruct (negb (r =? 0)); [reflexivity|].
    rewrite IH by (try apply next_position; lia).
    reflexivity.
Qed.

End Positions.

(** ** The enumeration as a run over its leaves *)

Lemma wfDiGraph_addArc (o : diGraph) (i j : Z) :
  wfDiGraph o ->
  0 <= i < numberOfVertices o -> 0 <= j < numberOfVertices o ->
  wfDiGraph (addArc o i j).
Proof.
  intros Hwf Hi Hj.
  pose proof Hwf as (Hn & Hlo & Hli & Hon & Hin & Hrange & Hmirror).
  unfold wfDiGraph. simpl. rewrite !length_aset.
  split; [assumption|]. split; [assumption|]. split; [assumption|].
  split; [|split; [|split]].
  - intros u. rewrite outNbrs_addArc by lia.
    destruct (u =? i); [apply add_nonneg|]; apply Hon.
  - intros u. rewrite inNbrs_addArc by lia.
    destruct (u =? j); [apply add_nonneg|]; apply Hin.
  - intros u v. unfold arc. rewrite outNbrs_addArc by lia.
    destruct (Z.eqb_spec u i) as [->|Hne].
    + rewrite contains_add by lia. intros H. apply orb_true_iff in H.
      destruct H as [H|H]; [apply (Hrange i v H)|].
      apply Z.eqb_eq in H. lia.
    + apply Hrange.
  - intros u v. rewrite outNbrs_addArc, inNbrs_addArc by lia.
    destruct (Z.eqb_spec v j) as [->|Hv]; destruct (Z.eqb_spec u i) as [->|Hu].
    + rewrite !contains_add by lia. rewrite Hmirror, !Z.eqb_refl. reflexivity.
    + rewrite contains_add by lia. rewrite Hmirror.
      destruct (Z.eqb_spec u i); [congruence|]. apply orb_false_r.
    + rewrite contains_add by lia. rewrite Hmirror.
      destruct (Z.eqb_spec v j); [congruence|]. symmetry. apply orb_false_r.
    + apply Hmirror.
Qed.

Lemma arc_addArc (o : diGraph) (i j u v : Z) :
  0 <= i < Z.of_nat (length (adjacencyList o)) -> 0 <= j ->
  arc (addArc o i j) u v <-> arc o u v \/ (u = i /\ v = j).
Proof.
  intros Hi Hj. unfold arc. rewrite outNbrs_addArc by lia.
  destruct (Z.eqb_spec u i) as [->|Hne].
  - rewrite contains_add by lia. rewrite orb_true_iff, Z.eqb_eq. tauto.
  - tauto.
Qed.

Lemma removeElement_add (s : bitset) (i : Z) :
  contains s i = false -> removeElement (add s i) i = s.
Proof.
  intros Hi. apply bitset_ext. intros j.
  rewrite contains_removeElement_gen, contains_add_gen.
  destruct (Z.eqb_spec j i) as [->|Hne]; simpl.
  - rewrite Hi. destruct (0 <=? i); reflexivity.
  - rewrite orb_false_r. apply andb_true_r.
Qed.

(** Adding an arc that is not there and removing it again gives the digraph
    back. *)
Lemma removeArc_addArc (o : diGraph) (i j : Z) :
  wfDiGraph o ->
  0 <= i < numberOfVertices o -> 0 <= j < numberOfVertices o ->
  ~ arc o i j -> removeArc (addArc o i j) i j = o.
Proof.
  intros Hwf Hi Hj Ha.
  pose proof Hwf as (Hn & Hlo & Hli & Hon & Hin & Hrange & Hmirror).
  unfold removeArc. rewrite outNbrs_addArc, inNbrs_addArc, !Z.eqb_refl by lia.
  unfold addArc; simpl. rewrite !aset_aset_same.
  rewrite removeElement_add by (unfold arc in Ha; destruct (contains _ _);
                                 [exfalso; auto|reflexivity]).
  rewrite removeElement_add
    by (rewrite Hmirror; unfold arc in Ha; destruct (contains _ _);
        [exfalso; auto|reflexivity]).
  unfold outNbrs, inNbrs. rewrite !aset_aget_same by lia.
  destruct o; simpl. f_equal. lia.
Qed.

Lemma withOrientation_same (st : genState) :
  withOrientation st (gsOrientation st) = st.
Proof. destruct st. reflexivity. Qed.

Lemma withOrientation_twice (st : genState) (o o' : diGraph) :
  withOrientation (withOrientation st o) o' = withOrientation st o'.
Proof. reflexivity. Qed.

Section Leaves.

Variable leaf : genState -> result (Z * genState).
Variable n : Z.

(** The leaf leaves a well-formed orientation as it found it. *)
Hypothesis leaf_restores :
  forall st r st',
    wfDiGraph (gsOrientation st) -> numberOfVertices (gsOrientation st) = n ->
    leaf st = Ret (r, st') ->
    gsOrientation st' = gsOrientation st.

Lemma runLeaves_withOrientation (leaves : list diGraph) (o o' : diGraph)
    (st : genState) :
  runLeaves leaf leaves o (withOrientation st o') = runLeaves leaf leaves o st.
Proof. unfold runLeaves. destruct leaves; reflexivity. Qed.

Lemma runLeaves_app (l1 l2 : list diGraph) (o : diGraph) :
  forall st,
    runLeaves leaf (l1 ++ l2) o st
    = let* r := runLeaves leaf l1 o st in
      if negb (fst r =? 0) then Ret r else runLeaves leaf l2 o (snd r).
Proof.
  induction l1 as [|d l1 IH]; intros st.
  - cbn [app]. rewrite <- (runLeaves_withOrientation l2 o o st). reflexivity.
  - unfold runLeaves in *. simpl.
    destruct (leaf (withOrientation st d)) as [| |[r st1]]; simpl; try reflexivity.
    destruct (negb (r =? 0)) eqn:Er; simpl.
    + rewrite Er. reflexivity.
    + apply IH.
Qed.

Lemma leafOrientations_wf (edges : list (Z * Z)) :
  forall o d,
    wfDiGraph o -> numberOfVertices o = n ->
    (forall u v, In (u, v) edges -> 0 <= u < n /\ 0 <= v < n) ->
    In d (leafOrientations edges o) ->
    wfDiGraph d /\ numberOfVertices d = n.
Proof.
  induction edges as [|[u v] rest IH]; intros o d Hwf Hn Hrange; simpl.
  - intros [<-|[]]. auto.
  - destruct (Hrange u v (or_introl eq_refl)) as [Hu Hv].
    assert (Hrest : forall a b, In (a, b) rest -> 0 <= a < n /\ 0 <= b < n)
      by (intros a b Hab; apply Hrange; right; exact Hab).
    intros Hin. apply in_app_or in Hin. destruct Hin as [Hin|Hin].
    + destruct (_ && _) in Hin; [|destruct Hin].
      apply (IH (addArc o u v)); auto.
      apply wfDiGraph_addArc; [exact Hwf|lia|lia].
    + destruct (_ && _) in Hin; [|destruct Hin].
      apply (IH (addArc o v u)); auto.
      apply wfDiGraph_addArc; [exact Hwf|lia|lia].
Qed.

Lemma edgesFresh_addArc (o : diGraph) (u v : Z) (rest : list (Z * Z)) :
  wfDiGraph o -> numberOfVertices o = n ->
  edgesFresh n o ((u, v) :: rest) -> edgesDistinct ((u, v) :: rest) ->
  edgesFresh n (addArc o u v) rest /\ edgesFresh n (addArc o v u) rest
  /\ edgesDistinct rest.
Proof.
  intros Hwf Hn Hfresh [Hnd Hsym].
  pose proof Hwf as (_ & Hlo & _).
  destruct (Hfresh u v (or_introl eq_refl)) as (Hu & Hv & _).
  apply List.NoDup_cons_iff in Hnd. destruct Hnd as [Hnotin Hnd].
  assert (Hrev : ~ In (v, u) rest).
  { intros Hin. apply (Hsym v u); [right; exact Hin|left; reflexivity]. }
  split; [|split].
  - intros a b Hab.
    destruct (Hfresh a b (or_intror Hab)) as (Ha & Hb & Hab' & H1 & H2).
    split; [exact Ha|]. split; [exact Hb|]. split; [exact Hab'|].
    rewrite !arc_addArc by lia. split.
    + intros [H|[-> ->]]; [auto|]. apply Hnotin. exact Hab.
    + intros [H|[-> ->]]; [auto|]. apply Hrev. exact Hab.
  - intros a b Hab.
    destruct (Hfresh a b (or_intror Hab)) as (Ha & Hb & Hab' & H1 & H2).
    split; [exact Ha|]. split; [exact Hb|]. split; [exact Hab'|].
    rewrite !arc_addArc by lia. split.
    + intros [H|[-> ->]]; [auto|]. apply Hrev. exact Hab.
    + intros [H|[-> ->]]; [auto|]. apply Hnotin. exact Hab.
  - split; [exact Hnd|]. intros a b Hab Hba.
    apply (Hsym a b); right; assumption.
Qed.

(** The recursion on the list of edges runs the leaf on the orientations of
    [leafOrientations], in order, until a result other than 0, and hands the
    orientation back as it got it. *)
Lemma enumerateOrientations_leaves (edges : list (Z * Z)) :
  forall st,
    wfDiGraph (gsOrientation st) -> numberOfVertices (gsOrientation st) = n ->
    edgesFresh n (gsOrientation st) edges -> edgesDistinct edges ->
    enumerateOrientations leaf edges st
    = runLeaves leaf (leafOrientations edges (gsOrientation st)) (gsOrientation st) st.
Proof.
  induction edges as [|[u v] rest IH]; intros st Hwf Hn Hfresh Hdist.
  - simpl. unfold runLeaves. simpl. rewrite withOrientation_same.
    destruct (leaf st) as [| |[r st']] eqn:Eleaf; simpl; try reflexivity.
    rewrite <- (leaf_restores st r st' Hwf Hn Eleaf).
    destruct (Z.eqb_spec r 0) as [->|]; simpl;
      rewrite withOrientation_same; reflexivity.
  - set (o := gsOrientation st) in *.
    destruct (edgesFresh_addArc o u v rest Hwf Hn Hfresh Hdist)
      as (Hf1 & Hf2 & Hdist').
    destruct (Hfresh u v (or_introl eq_refl)) as (Hu & Hv & Huv & Hnuv & Hnvu).
    assert (Hwf1 : wfDiGraph (addArc o u v))
      by (apply wfDiGraph_addArc; [exact Hwf|lia|lia]).
    assert (Hwf2 : wfDiGraph (addArc o v u))
      by (apply wfDiGraph_addArc; [exact Hwf|lia|lia]).
    assert (Hback1 : removeArc (addArc o u v) u v = o)
      by (apply removeArc_addArc; [exact Hwf|lia|lia|exact Hnuv]).
    assert (Hback2 : removeArc (addArc o v u) v u = o)
      by (apply removeArc_addArc; [exact Hwf|lia|lia|exact Hnvu]).
    cbn [enumerateOrientations leafOrientations].
    cbn [gsOrientation withOrientation]. fold o.
    rewrite runLeaves_app.
    (* first direction *)
    assert (Hfirst :
      (if negb (size (outNbrs (addArc o u v) u) =? 3)
          && negb (size (inNbrs (addArc o u v) v) =? 3)
       then enumerateOrientations leaf rest (withOrientation st (addArc o u v))
       else Ret (0, withOrientation st (addArc o u v)))
      = let* r :=
          runLeaves leaf
            (if negb (size (outNbrs (addArc o u v) u) =? 3)
                && negb (size (inNbrs (addArc o u v) v) =? 3)
             then leafOrientations rest (addArc o u v) else []) o st in
        Ret (fst r, withOrientation (snd r) (addArc o u v))).
    { destruct (negb (size (outNbrs (addArc o u v) u) =? 3)
                && negb (size (inNbrs (addArc o u v) v) =? 3)).
      - rewrite IH by assumption. cbn [gsOrientation withOrientation].
        rewrite runLeaves_withOrientation. unfold runLeaves.
        destruct (processOrientations _ _ _) as [| |[r st']]; reflexivity.
      - reflexivity. }
    rewrite Hfirst. clear Hfirst.
    destruct (runLeaves leaf _ o st) as [| |[r st1]] eqn:E1; cbn [bind]; try reflexivity.
    cbn [fst snd gsOrientation withOrientation]. rewrite Hback1.
    assert (Hst1 : withOrientation st1 o = st1).
    { unfold runLeaves in E1.
      destruct (processOrientations _ _ _) as [| |[r' st']]; try discriminate.
      simpl in E1. injection E1 as <- <-. reflexivity. }
    rewrite !withOrientation_twice. rewrite Hst1.
    destruct (negb (r =? 0)) eqn:Er; [reflexivity|].
    (* second direction *)
    assert (Hsecond :
      (if negb (size (inNbrs (addArc o v u) u) =? 3)
          && negb (size (outNbrs (addArc o v u) v) =? 3)
       then enumerateOrientations leaf rest (withOrientation st1 (addArc o v u))
       else Ret (0, withOrientation st1 (addArc o v u)))
      = let* r :=
          runLeaves leaf
            (if negb (size (inNbrs (addArc o v u) u) =? 3)
                && negb (size (outNbrs (addArc o v u) v) =? 3)
             then leafOrientations rest (addArc o v u) else []) o st1 in
        Ret (fst r, withOrientation (snd r) (addArc o v u))).
    { destruct (negb (size (inNbrs (addArc o v u) u) =? 3)
                && negb (size (outNbrs (addArc o v u) v) =? 3)).
      - rewrite IH by assumption. cbn [gsOrientation withOrientation].
        rewrite runLeaves_withOrientation. unfold runLeaves.
        destruct (processOrientations _ _ _) as [| |[r' st']]; reflexivity.
      - unfold runLeaves. simpl. reflexivity. }
    rewrite Hsecond. clear Hsecond.
    destruct (runLeaves leaf _ o st1) as [| |[r2 st2]] eqn:E2; cbn [bind];
      try reflexivity.
    cbn [fst snd gsOrientation withOrientation]. rewrite Hback2.
    assert (Hst2 : withOrientation st2 o = st2).
    { unfold runLeaves in E2.
      destruct (processOrientations _ _ _) as [| |[r' st']]; try discriminate.
      simpl in E2. injection E2 as <- <-. reflexivity. }
    rewrite !withOrientation_twice. rewrite Hst2.
    destruct (Z.eqb_spec r2 0) as [->|]; reflexivity.
Qed.

End Leaves.

(** ** The list of edges of a graph *)

Lemma edgeList_spec (adjacencyList : list bitset) (n u v : Z) :
  In (u, v) (edgeList adjacencyList n)
  <-> 0 <= u < n /\ In v (elements (aget EMPTY adjacencyList u)) /\ u < v.
Proof.
  unfold edgeList, edgeRow, elementsAfter. rewrite in_flat_map. split.
  - intros (u' & Hu' & Hin). apply in_map_iff in Hin.
    destruct Hin as (v' & Heq & Hv'). injection Heq as -> ->.
    apply List.filter_In in Hv'. destruct Hv' as [Hv' Hlt].
    apply Z.ltb_lt in Hlt. apply vertices_spec in Hu'. tauto.
  - intros (Hu & Hv & Hlt). exists u. split; [apply vertices_spec; exact Hu|].
    apply in_map. apply List.filter_In. split; [exact Hv|].
    apply Z.ltb_lt. exact Hlt.
Qed.

Lemma NoDup_flat_map_rows (f : Z -> list Z) (l : list Z) :
  List.NoDup l -> (forall u, List.NoDup (f u)) ->
  List.NoDup (flat_map (fun u => map (pair u) (f u)) l).
Proof.
  intros Hl Hf. induction Hl as [|u l Hu Hl IH]; simpl; [constructor|].
  apply List.NoDup_app.
  - apply Finite.Injective_map_NoDup; [|apply Hf].
    intros a b Hab. congruence.
  - exact IH.
  - intros [a b] Hin1 Hin2. apply in_map_iff in Hin1.
    destruct Hin1 as (b' & Heq & _). injection Heq as <- <-.
    apply in_flat_map in Hin2. destruct Hin2 as (u' & Hu' & Hin2).
    apply in_map_iff in Hin2. destruct Hin2 as (b'' & Heq & _).
    injection Heq as -> _. contradiction.
Qed.

Lemma NoDup_filter {A : Type} (f : A -> bool) (l : list A) :
  List.NoDup l -> List.NoDup (List.filter f l).
Proof.
  intros H. induction H as [|a l Ha Hl IH]; simpl; [constructor|].
  destruct (f a); [|exact IH]. constructor; [|exact IH].
  intros Hin. apply List.filter_In in Hin. tauto.
Qed.

Lemma NoDup_vertices (n : Z) : List.NoDup (vertices n).
Proof.
  unfold vertices. apply Finite.Injective_map_NoDup; [|apply List.seq_NoDup].
  intros a b. lia.
Qed.

Lemma edgesDistinct_edgeList (adjacencyList : list bitset) (n : Z) :
  edgesDistinct (edgeList adjacencyList n).
Proof.
  split.
  - unfold edgeList, edgeRow, elementsAfter.
    apply (NoDup_flat_map_rows
             (fun u => List.filter (fun x => u <? x)
                         (elements (aget EMPTY adjacencyList u)))).
    + apply NoDup_vertices.
    + intros u. apply NoDup_filter, elements_NoDup.
  - intros u v Huv Hvu. apply edgeList_spec in Huv. apply edgeList_spec in Hvu.
    lia.
Qed.

Lemma wfDiGraph_emptyGraph (n : Z) : 0 <= n -> wfDiGraph (emptyGraph n).
Proof.
  intros Hn. apply checkDiGraph_sound. unfold checkDiGraph. simpl.
  rewrite !length_replicate.
  rewrite !andb_true_iff. split; [split; [split|]|].
  - apply Z.leb_le. exact Hn.
  - apply Z.eqb_eq. lia.
  - apply Z.eqb_eq. lia.
  - apply forallb_vertices. intros u Hu. unfold outNbrs, inNbrs. simpl.
    rewrite !aget_replicate. rewrite !andb_true_iff. split; [split|].
    + unfold inRange, EMPTY. apply andb_true_iff. split; [reflexivity|].
      apply Z.ltb_lt. apply Z.pow_pos_nonneg; lia.
    + unfold inRange, EMPTY. apply andb_true_iff. split; [reflexivity|].
      apply Z.ltb_lt. apply Z.pow_pos_nonneg; lia.
    + apply forallb_vertices. intros v Hv. rewrite !aget_replicate.
      rewrite !contains_EMPTY. reflexivity.
Qed.

Lemma arc_emptyGraph (n u v : Z) : ~ arc (emptyGraph n) u v.
Proof.
  unfold arc, outNbrs. simpl. rewrite aget_replicate, contains_EMPTY.
  discriminate.
Qed.

Lemma edgesFresh_edgeList (adjacencyList : list bitset) (n : Z) :
  wfGraph adjacencyList n ->
  edgesFresh n (emptyGraph n) (edgeList adjacencyList n).
Proof.
  intros (Hn & Hlen & Hnn & Hrange & Hsym & Hloop) u v Huv.
  apply edgeList_spec in Huv. destruct Huv as (Hu & Hv & Hlt).
  apply elements_spec in Hv; [|apply Hnn].
  split; [exact Hu|]. split; [apply (Hrange u v Hv)|]. split; [lia|].
  split; apply arc_emptyGraph.
Qed.

Lemma length_flat_map_le {A B : Type} (f : A -> list B) (l : list A) (k : nat) :
  (forall a, In a l -> (length (f a) <= k)%nat) ->
  (length (flat_map f l) <= length l * k)%nat.
Proof.
  induction l as [|a l IH]; intros H; simpl; [lia|].
  rewrite length_app. specialize (H a (or_introl eq_refl)) as Ha.
  assert ((length (flat_map f l) <= length l * k)%nat).
  { apply IH. intros b Hb. apply H. right. exact Hb. }
  lia.
Qed.

Lemma length_edgeList (adjacencyList : list bitset) (n : Z) :
  wfGraph adjacencyList n ->
  (length (edgeList adjacencyList n) <= Z.to_nat n * Z.to_nat n)%nat.
Proof.
  intros (Hn & Hlen & Hnn & Hrange & Hsym & Hloop). unfold edgeList.
  replace (Z.to_nat n) with (length (vertices n)) at 1
    by (unfold vertices; rewrite length_map, length_seq; reflexivity).
  apply length_flat_map_le. intros u Hu. unfold edgeRow, elementsAfter.
  rewrite length_map.
  etransitivity; [apply List.filter_length_le|].
  rewrite <- (elements_complement_length n Hn).
  apply elements_length_le; [apply Hnn|apply complement_EMPTY_nonneg; exact Hn|].
  intros x Hx. rewrite contains_complement_EMPTY by exact Hn.
  pose proof (Hrange u x Hx). lia.
Qed.

(** ** The leaf of the enumeration *)

Lemma examineOrientation_restores (adjacencyList : list bitset)
    (opts : options) (n : Z) (edgeNumbering : matrix) (st : genState) (r : Z)
    (st' : genState) :
  wfDiGraph (gsOrientation st) -> numberOfVertices (gsOrientation st) = n ->
  examineOrientation adjacencyList opts n edgeNumbering st = Ret (r, st') ->
  gsOrientation st' = gsOrientation st.
Proof.
  intros Hwf Hn. unfold examineOrientation.
  destruct (isStronglyConnected (gsOrientation st)) as [| |strong];
    simpl; try discriminate.
  destruct strong; simpl.
  2:{ intros H. injection H as _ <-. reflexivity. }
  destruct (getDeletableEdges_spec (gsOrientation st) edgeNumbering Hwf)
    as (s & Hs & _).
  rewrite Hn in Hs. rewrite Hs. simpl.
  destruct (hasVertexWithoutDeletableEdge _ _ _ _).
  { intros H. injection H as _ <-. reflexivity. }
  destruct (negb (bruteForceFlag opts)).
  - destruct (hasComplementaryOrientation _ _ _ _) as [| |b]; simpl;
      try discriminate.
    intros H. injection H as _ <-. reflexivity.
  - destruct (getIntermediateFrankNumber _ _ _ _) as [| |[[r' c] p]]; simpl;
      try discriminate.
    intros H. injection H as _ <-. reflexivity.
Qed.

Lemma processOrientation_restores (adjacencyList : list bitset)
    (opts : options) (n : Z) (edgeNumbering : matrix) (st : genState) (r : Z)
    (st' : genState) :
  wfDiGraph (gsOrientation st) -> numberOfVertices (gsOrientation st) = n ->
  processOrientation adjacencyList opts n edgeNumbering st = Ret (r, st') ->
  gsOrientation st' = gsOrientation st.
Proof.
  intros Hwf Hn. unfold processOrientation.
  destruct (_ && _).
  - intros H. injection H as _ <-. reflexivity.
  - intros H. apply examineOrientation_restores in H; assumption.
Qed.

(** The enumeration started by [findFrankNumber] runs the leaf over the
    orientations of [leafOrientations] for the list of all edges. *)
Lemma generateAllOrientations_leaves (adjacencyList : list bitset)
    (opts : options) (n : Z) (edgeNumbering : matrix) (st : genState) :
  wfGraph adjacencyList n ->
  gsOrientation st = emptyGraph n ->
  generateAllOrientations (searchFuel n) adjacencyList opts n edgeNumbering st
    (-1) (-1)
  = runLeaves (processOrientation adjacencyList opts n edgeNumbering)
      (leafOrientations (edgeList adjacencyList n) (emptyGraph n))
      (emptyGraph n) st.
Proof.
  intros Hg Ho. pose proof Hg as (Hn & _).
  rewrite generateAllOrientations_enumerate.
  - rewrite edgesFrom_start.
    rewrite (enumerateOrientations_leaves _ n).
    + rewrite Ho. reflexivity.
    + intros st0 r st' Hwf Hnum.
      apply processOrientation_restores; assumption.
    + rewrite Ho. apply wfDiGraph_emptyGraph. exact Hn.
    + rewrite Ho. reflexivity.
    + rewrite Ho. apply edgesFresh_edgeList. exact Hg.
    + apply edgesDistinct_edgeList.
  - lia.
  - left. reflexivity.
  - rewrite edgesFrom_start. pose proof (length_edgeList _ _ Hg).
    unfold searchFuel. nia.
Qed.

(** ** The orientations at the leaves *)

Lemma leafOrientations_arcs (n : Z) (edges : list (Z * Z)) :
  forall o d,
    wfDiGraph o -> numberOfVertices o = n ->
    edgesFresh n o edges -> edgesDistinct edges ->
    In d (leafOrientations edges o) ->
    (forall a b, arc o a b -> arc d a b)
    /\ (forall a b, arc d a b -> arc o a b \/ In (a, b) edges \/ In (b, a) edges)
    /\ (forall u v, In (u, v) edges ->
          (arc d u v \/ arc d v u) /\ ~ (arc d u v /\ arc d v u)).
Proof.
  induction edges as [|[u v] rest IH]; intros o d Hwf Hn Hfresh Hdist; simpl.
  - intros [<-|[]]. split; [auto|]. split; [auto|]. intros u v [].
  - destruct (edgesFresh_addArc n o u v rest Hwf Hn Hfresh Hdist)
      as (Hf1 & Hf2 & Hdist').
    destruct (Hfresh u v (or_introl eq_refl)) as (Hu & Hv & Huv & Hnuv & Hnvu).
    pose proof Hwf as (_ & Hlo & _).
    destruct Hdist as [Hnd Hsym].
    apply List.NoDup_cons_iff in Hnd. destruct Hnd as [Hnotin Hnd].
    assert (Hrev : ~ In (v, u) rest).
    { intros Hin. apply (Hsym v u); [right; exact Hin|left; reflexivity]. }
    assert (Hbranch : forall a b,
              (a = u /\ b = v) \/ (a = v /\ b = u) ->
              In d (leafOrientations rest (addArc o a b)) ->
              (forall x y, arc o x y -> arc d x y)
              /\ (forall x y, arc d x y ->
                    arc o x y \/ In (x, y) ((u, v) :: rest)
                    \/ In (y, x) ((u, v) :: rest))
              /\ (forall x y, In (x, y) ((u, v) :: rest) ->
                    (arc d x y \/ arc d y x) /\ ~ (arc d x y /\ arc d y x))).
    { intros a b Hab Hd.
      assert (Ha : 0 <= a < n) by (destruct Hab as [[-> ->]|[-> ->]]; lia).
      assert (Hb : 0 <= b < n) by (destruct Hab as [[-> ->]|[-> ->]]; lia).
      assert (Hfab : edgesFresh n (addArc o a b) rest)
        by (destruct Hab as [[-> ->]|[-> ->]]; assumption).
      destruct (IH (addArc o a b) d) as (Hmono & Hfrom & Hedges); auto.
      { apply wfDiGraph_addArc; [exact Hwf|lia|lia]. }
      assert (Hab_d : arc d a b).
      { apply Hmono. apply arc_addArc; [lia|lia|]. right. auto. }
      assert (Hba_d : ~ arc d b a).
      { intros Hba. apply Hfrom in Hba.
        rewrite arc_addArc in Hba by lia.
        destruct Hab as [[-> ->]|[-> ->]];
          destruct Hba as [[H|[H1 H2]]|[H|H]]; auto; lia. }
      split; [|split].
      - intros x y Hxy. apply Hmono. apply arc_addArc; [lia|lia|].
        left. exact Hxy.
      - intros x y Hxy. apply Hfrom in Hxy.
        rewrite arc_addArc in Hxy by lia.
        destruct Hxy as [[H|[-> ->]]|[H|H]].
        + left. exact H.
        + right. destruct Hab as [[-> ->]|[-> ->]].
          * left. left. reflexivity.
          * right. left. reflexivity.
        + right. left. right. exact H.
        + right. right. right. exact H.
      - intros x y [Heq|Hxy].
        + injection Heq as <- <-.
          destruct Hab as [[-> ->]|[-> ->]]; tauto.
        + apply Hedges. exact Hxy. }
    intros Hin. apply in_app_or in Hin. destruct Hin as [Hin|Hin].
    + destruct (_ && _) in Hin; [|destruct Hin].
      apply (Hbranch u v); auto.
    + destruct (_ && _) in Hin; [|destruct Hin].
      apply (Hbranch v u); auto.
Qed.

(** Every orientation at which the enumeration arrives is an orientation of
    the graph. *)
Lemma leafOrientations_orientationOf (adjacencyList : list bitset) (n : Z)
    (d : diGraph) :
  wfGraph adjacencyList n ->
  In d (leafOrientations (edgeList adjacencyList n) (emptyGraph n)) ->
  orientationOf adjacencyList n d.
Proof.
  intros Hg Hd. pose proof Hg as (Hn & Hlen & Hnn & Hrange & Hsym & Hloop).
  destruct (leafOrientations_wf n (edgeList adjacencyList n) (emptyGraph n) d)
    as [Hwf Hnum]; auto.
  { apply wfDiGraph_emptyGraph. exact Hn. }
  { intros u v Huv. destruct (edgesFresh_edgeList _ _ Hg u v Huv). tauto. }
  destruct (leafOrientations_arcs n (edgeList adjacencyList n) (emptyGraph n) d)
    as (_ & Hfrom & Hedges); auto.
  { apply wfDiGraph_emptyGraph. exact Hn. }
  { apply edgesFresh_edgeList. exact Hg. }
  { apply edgesDistinct_edgeList. }
  unfold orientationOf. split; [exact Hnum|]. split; [exact Hwf|].
  split; [|split].
  - intros u v Ha. destruct (Hfrom u v Ha) as [H|[H|H]].
    + destruct (arc_emptyGraph n u v H).
    + apply edgeList_spec in H. apply elements_spec; [apply Hnn|tauto].
    + apply edgeList_spec in H. rewrite Hsym.
      apply elements_spec; [apply Hnn|tauto].
  - intros u v Hadj.
    destruct (Z.lt_trichotomy u v) as [Hlt|[->|Hgt]].
    + apply (Hedges u v). apply edgeList_spec.
      split; [|split; [apply elements_spec; [apply Hnn|exact Hadj]|exact Hlt]].
      rewrite Hsym in Hadj. apply (Hrange v u Hadj).
    + rewrite Hloop in Hadj. discriminate.
    + apply or_comm. apply (Hedges v u). apply edgeList_spec.
      split; [apply (Hrange u v Hadj)|].
      split; [|exact Hgt]. apply elements_spec; [apply Hnn|].
      rewrite Hsym. exact Hadj.
  - intros u v Ha Hb. destruct (Hfrom u v Ha) as [H|[H|H]].
    + destruct (arc_emptyGraph n u v H).
    + apply (proj2 (Hedges u v H)). auto.
    + apply (proj2 (Hedges v u H)). auto.
Qed.

(** ** The first edge of the enumeration *)

Lemma elements_singleton (w : Z) : 0 <= w -> elements (add EMPTY w) = [w].
Proof.
  intros Hw.
  assert (Hnn : 0 <= add EMPTY w) by (apply add_nonneg; unfold EMPTY; lia).
  assert (Hspec : forall x, In x (elements (add EMPTY w)) <-> x = w).
  { intros x. rewrite elements_spec by exact Hnn.
    rewrite contains_add by exact Hw. rewrite contains_EMPTY. simpl.
    apply Z.eqb_eq. }
  pose proof (elements_NoDup (add EMPTY w)) as Hnd.
  destruct (elements (add EMPTY w)) as [|a [|b l]].
  - exfalso. apply (proj2 (Hspec w) eq_refl).
  - f_equal. apply Hspec. left. reflexivity.
  - exfalso. apply List.NoDup_cons_iff in Hnd. destruct Hnd as [Hnotin _].
    apply Hnotin. left.
    rewrite (proj1 (Hspec a) (or_introl eq_refl)).
    apply (proj1 (Hspec b)). right. left. reflexivity.
Qed.

Lemma size_singleton (w : Z) : 0 <= w -> size (add EMPTY w) = 1.
Proof. intros Hw. unfold size. rewrite elements_singleton by exact Hw. reflexivity. Qed.

Lemma leafOrientations_first_edge (n w u : Z) (rest : list (Z * Z)) :
  0 <= u < n -> 0 <= w < n -> u <> w ->
  leafOrientations ((u, w) :: rest) (emptyGraph n)
  = leafOrientations rest (addArc (emptyGraph n) u w)
    ++ leafOrientations rest (addArc (emptyGraph n) w u).
Proof.
  intros Hu Hw Huw. cbn [leafOrientations].
  assert (Hlo : Z.of_nat (length (adjacencyList (emptyGraph n))) = n)
    by (simpl; rewrite length_replicate; lia).
  assert (Hli : Z.of_nat (length (reverseAdjacencyList (emptyGraph n))) = n)
    by (simpl; rewrite length_replicate; lia).
  assert (Hout : forall x, outNbrs (emptyGraph n) x = EMPTY)
    by (intros x; unfold outNbrs; simpl; apply aget_replicate).
  assert (Hin : forall x, inNbrs (emptyGraph n) x = EMPTY)
    by (intros x; unfold inNbrs; simpl; apply aget_replicate).
  rewrite !outNbrs_addArc, !inNbrs_addArc by lia.
  rewrite !Z.eqb_refl, !Hout, !Hin, !size_singleton by lia.
  reflexivity.
Qed.

Lemma length_emptyGraph (n : Z) :
  0 <= n -> Z.of_nat (length (adjacencyList (emptyGraph n))) = n.
Proof. intros Hn. simpl. rewrite length_replicate. lia. Qed.

(** C5 (amended). The enumeration started by [findFrankNumber] runs the leaf
    on the orientations of [leafOrientations], which takes both directions
    of every edge. The first edge [(0, w)] is no exception: the
    orientations with [0 -> w] come first, those with [w -> 0] after
    them. *)
Theorem enumeration_tries_both_directions (adjacencyList : list bitset)
    (opts : options) (n : Z) (edgeNumbering : matrix) (st : genState) :
  wfGraph adjacencyList n ->
  gsOrientation st = emptyGraph n ->
  generateAllOrientations (searchFuel n) adjacencyList opts n edgeNumbering st
    (-1) (-1)
  = runLeaves (processOrientation adjacencyList opts n edgeNumbering)
      (leafOrientations (edgeList adjacencyList n) (emptyGraph n))
      (emptyGraph n) st
  /\ forall w rest,
       edgeList adjacencyList n = (0, w) :: rest ->
       leafOrientations (edgeList adjacencyList n) (emptyGraph n)
       = leafOrientations rest (addArc (emptyGraph n) 0 w)
         ++ leafOrientations rest (addArc (emptyGraph n) w 0)
       /\ (forall d, In d (leafOrientations rest (addArc (emptyGraph n) 0 w)) ->
                     arc d 0 w /\ ~ arc d w 0)
       /\ (forall d, In d (leafOrientations rest (addArc (emptyGraph n) w 0)) ->
                     arc d w 0 /\ ~ arc d 0 w).
Proof.
  intros Hg Ho. split; [apply generateAllOrientations_leaves; assumption|].
  intros w rest Hlist.
  pose proof Hg as (Hn & _).
  pose proof (edgesFresh_edgeList _ _ Hg) as Hfresh.
  pose proof (edgesDistinct_edgeList adjacencyList n) as Hdist.
  rewrite Hlist in Hfresh, Hdist.
  destruct (Hfresh 0 w (or_introl eq_refl)) as (H0 & Hw & H0w & _).
  rewrite Hlist. split; [apply leafOrientations_first_edge; assumption|].
  assert (Hall : forall d, In d (leafOrientations ((0, w) :: rest) (emptyGraph n)) ->
                           ~ (arc d 0 w /\ arc d w 0)).
  { intros d Hd.
    destruct (leafOrientations_arcs n ((0, w) :: rest) (emptyGraph n) d)
      as (_ & _ & Hedges); auto.
    - apply wfDiGraph_emptyGraph. exact Hn.
    - apply (Hedges 0 w). left. reflexivity. }
  rewrite leafOrientations_first_edge in Hall by assumption.
  destruct (edgesFresh_addArc n (emptyGraph n) 0 w rest) as (Hf1 & Hf2 & Hd');
    auto.
  { apply wfDiGraph_emptyGraph. exact Hn. }
  pose proof (length_emptyGraph n Hn) as Hlen.
  split.
  - intros d Hd.
    destruct (leafOrientations_arcs n rest (addArc (emptyGraph n) 0 w) d)
      as (Hmono & _); auto.
    { apply wfDiGraph_addArc; [apply wfDiGraph_emptyGraph; exact Hn|simpl; lia..]. }
    assert (Ha : arc d 0 w).
    { apply Hmono. apply arc_addArc; [lia|lia|]. right. auto. }
    split; [exact Ha|]. intros Hb. apply (Hall d); [|auto].
    apply in_or_app. left. exact Hd.
  - intros d Hd.
    destruct (leafOrientations_arcs n rest (addArc (emptyGraph n) w 0) d)
      as (Hmono & _); auto.
    { apply wfDiGraph_addArc; [apply wfDiGraph_emptyGraph; exact Hn|simpl; lia..]. }
    assert (Ha : arc d w 0).
    { apply Hmono. apply arc_addArc; [lia|lia|]. right. auto. }
    split; [exact Ha|]. intros Hb. apply (Hall d); [|auto].
    apply in_or_app. right. exact Hd.
Qed.

Lemma enumeration_tries_both_directions_witness :
  generateAllOrientations (searchFuel 4) K4 shardOptions 4
    (numberEdges K4 4 (newMatrix 4))
    (mkGenState zeroCounters (initArray 4) (emptyGraph 4)) (-1) (-1)
  = runLeaves
      (processOrientation K4 shardOptions 4 (numberEdges K4 4 (newMatrix 4)))
      (leafOrientations (edgeList K4 4) (emptyGraph 4)) (emptyGraph 4)
      (mkGenState zeroCounters (initArray 4) (emptyGraph 4)).
Proof.
  refine (proj1 (enumeration_tries_both_directions K4 shardOptions 4
                   (numberEdges K4 4 (newMatrix 4))
                   (mkGenState zeroCounters (initArray 4) (emptyGraph 4)) _ _)).
  - apply checkGraph_sound. vm_compute. reflexivity.
  - reflexivity.
Defined.

(** C5, as stated, fails on K4 run with [-e -s 0/1000]: the enumeration
    arrives at 24 complete orientations, the counter of the leaf shows that
    each of them was handled, and 12 of them have the first edge in the
    direction [1 -> 0]. *)
Lemma first_edge_direction_is_not_fixed :
  (exists st',
      generateAllOrientations (searchFuel 4) K4 shardOptions 4
        (numberEdges K4 4 (newMatrix 4))
        (mkGenState zeroCounters (initArray 4) (emptyGraph 4)) (-1) (-1)
      = Ret (0, st')
      /\ totalOrientationsGenerated (gsNumberOf st') = 24)
  /\ length (leafOrientations (edgeList K4 4) (emptyGraph 4)) = 24%nat
  /\ length (List.filter (fun d => contains (outNbrs d 0) 1)
               (leafOrientations (edgeList K4 4) (emptyGraph 4))) = 12%nat
  /\ length (List.filter (fun d => contains (outNbrs d 1) 0)
               (leafOrientations (edgeList K4 4) (emptyGraph 4))) = 12%nat.
Proof.
  split; [|vm_compute; auto].
  eexists. split; [vm_compute; reflexivity|]. reflexivity.
Qed.

(** ** The indices of the candidates *)

Lemma ull_range (z : Z) : 0 <= ull z < 2 ^ 64.
Proof. unfold ull. apply Z.mod_pos_bound. reflexivity. Qed.

Lemma ull_succ (z : Z) : ull (ull z + 1) = ull (z + 1).
Proof. unfold ull. apply Zplus_mod_idemp_l. Qed.

Lemma ull_small (z : Z) : 0 <= z < 2 ^ 64 -> ull z = z.
Proof. intros H. unfold ull. apply Z.mod_small. exact H. Qed.

Lemma scanPool_total (indices : list Z) (allEdges deletableEdges : bitset) :
  forall insertPosition numberOf pool,
    match scanPool indices allEdges deletableEdges insertPosition numberOf pool with
    | ScanReturn _ numberOf' _ | ScanDone _ numberOf' _ =>
      totalOrientationsGenerated numberOf' = totalOrientationsGenerated numberOf
    end.
Proof.
  induction indices as [|i rest IH]; intros ip numberOf pool; simpl;
    [reflexivity|].
  destruct (negb (isEmpty _)); [|apply IH].
  destruct (isSubset deletableEdges _); [reflexivity|].
  destruct (isSubset _ deletableEdges).
  - destruct (equals _ _); [destruct (ip =? used pool); reflexivity|].
    match goal with
    | |- match scanPool _ _ _ ?d ?e ?f with _ => _ end =>
      pose proof (IH d e f) as H;
      destruct (scanPool rest allEdges deletableEdges d e f)
    end; rewrite H; destruct (ip =? used pool); reflexivity.
  - destruct (equals _ _); [reflexivity|]. apply IH.
Qed.

Lemma getIntermediateFrankNumber_total (numberOf : counters) (n : Z)
    (pool : Array) (deletableEdges : bitset) (r : Z) (numberOf' : counters)
    (pool' : Array) :
  getIntermediateFrankNumber numberOf n pool deletableEdges
    = Ret (r, numberOf', pool') ->
  totalOrientationsGenerated numberOf' = totalOrientationsGenerated numberOf.
Proof.
  unfold getIntermediateFrankNumber.
  pose proof (scanPool_total (vertices (used pool))
                (complement EMPTY (3 * n ÷ 2)) deletableEdges (used pool)
                numberOf pool) as H.
  destruct (scanPool _ _ _ _ _ _) as [r0 c p|ip c p].
  - intros Heq. injection Heq as _ <- _. exact H.
  - destruct (negb (ip =? used p)).
    + destruct (insertArrayAtPos p deletableEdges ip); simpl; try discriminate.
      intros Heq. injection Heq as _ <- _. exact H.
    + intros Heq. injection Heq as _ <- _. exact H.
Qed.

Lemma examineOrientation_total (adjacencyList : list bitset) (opts : options)
    (n : Z) (edgeNumbering : matrix) (st : genState) (r : Z) (st' : genState) :
  examineOrientation adjacencyList opts n edgeNumbering st = Ret (r, st') ->
  totalOrientationsGenerated (gsNumberOf st')
  = totalOrientationsGenerated (gsNumberOf st).
Proof.
  unfold examineOrientation.
  destruct (isStronglyConnected (gsOrientation st)) as [| |strong];
    simpl; try discriminate.
  destruct strong; simpl.
  2:{ intros H. injection H as _ <-. reflexivity. }
  destruct (getDeletableEdges _ _ _) as [| |[s o]]; simpl; try discriminate.
  destruct (hasVertexWithoutDeletableEdge _ _ _ _).
  { intros H. injection H as _ <-. reflexivity. }
  destruct (negb (bruteForceFlag opts)).
  - destruct (hasComplementaryOrientation _ _ _ _) as [| |b]; simpl;
      try discriminate.
    intros H. injection H as _ <-. reflexivity.
  - destruct (getIntermediateFrankNumber _ _ _ _) as [| |[[r' c] p]] eqn:E;
      simpl; try discriminate.
    intros H. injection H as _ <-. simpl.
    apply getIntermediateFrankNumber_total in E. exact E.
Qed.

Lemma processOrientation_total (adjacencyList : list bitset) (opts : options)
    (n : Z) (edgeNumbering : matrix) (st : genState) (r : Z) (st' : genState) :
  processOrientation adjacencyList opts n edgeNumbering st = Ret (r, st') ->
  totalOrientationsGenerated (gsNumberOf st')
  = ull (totalOrientationsGenerated (gsNumberOf st) + 1).
Proof.
  unfold processOrientation. destruct (_ && _).
  - intros H. injection H as _ <-. reflexivity.
  - intros H. apply examineOrientation_total in H. exact H.
Qed.

Lemma processOrientations_total (adjacencyList : list bitset) (opts : options)
    (n : Z) (edgeNumbering : matrix) (leaves : list diGraph) :
  forall st st1,
    0 <= totalOrientationsGenerated (gsNumberOf st) < 2 ^ 64 ->
    processOrientations (processOrientation adjacencyList opts n edgeNumbering)
      leaves st = Ret (0, st1) ->
    totalOrientationsGenerated (gsNumberOf st1)
    = ull (totalOrientationsGenerated (gsNumberOf st) + Z.of_nat (length leaves)).
Proof.
  induction leaves as [|d rest IH]; intros st st1 Hrange; simpl.
  - intros H. injection H as <-. rewrite Z.add_0_r.
    symmetry. apply ull_small. exact Hrange.
  - destruct (processOrientation _ _ _ _ _) as [| |[r st2]] eqn:E; simpl;
      try discriminate.
    apply processOrientation_total in E. simpl in E.
    destruct (Z.eqb_spec r 0) as [->|Hr]; simpl.
    + intros H. apply IH in H; [|rewrite E; apply ull_range].
      rewrite H, E. unfold ull. rewrite Zplus_mod_idemp_l. f_equal. lia.
    + intros H. injection H as H _. congruence.
Qed.

(** C6 (amended). Under [-s] every complete orientation at which the
    enumeration arrives gets the next index, strongly connected or not: the
    orientation that comes after [k] others that all gave 0 has the index
    [t + k + 1], where [t] is the counter at the start. The orientations
    whose index has the remainder [r] modulo [m] are examined (test of
    strong connectivity, deletable edges, complementary orientation); the
    others give 0 at once. *)
Theorem sharding_indexes_all_complete_orientations
    (adjacencyList : list bitset) (opts : options) (n : Z)
    (edgeNumbering : matrix) (st : genState) :
  wfGraph adjacencyList n ->
  gsOrientation st = emptyGraph n ->
  singleGraphFlag opts = true ->
  0 <= totalOrientationsGenerated (gsNumberOf st) < 2 ^ 64 ->
  generateAllOrientations (searchFuel n) adjacencyList opts n edgeNumbering st
    (-1) (-1)
  = runLeaves (processOrientation adjacencyList opts n edgeNumbering)
      (leafOrientations (edgeList adjacencyList n) (emptyGraph n))
      (emptyGraph n) st
  /\ forall before d after st1,
       leafOrientations (edgeList adjacencyList n) (emptyGraph n)
       = before ++ d :: after ->
       processOrientations
         (processOrientation adjacencyList opts n edgeNumbering) before st
       = Ret (0, st1) ->
       processOrientation adjacencyList opts n edgeNumbering
         (withOrientation st1 d)
       = if ull (totalOrientationsGenerated (gsNumberOf st)
                 + Z.of_nat (length before) + 1)
            mod ull (modulo opts) =? ull (remainder opts)
         then
           examineOrientation adjacencyList opts n edgeNumbering
             (mkGenState
                (set_totalOrientationsGenerated (gsNumberOf st1)
                   (ull (totalOrientationsGenerated (gsNumberOf st)
                         + Z.of_nat (length before) + 1)))
                (gsPool st1) d)
         else
           Ret (0,
                mkGenState
                  (set_totalOrientationsGenerated (gsNumberOf st1)
                     (ull (totalOrientationsGenerated (gsNumberOf st)
                           + Z.of_nat (length before) + 1)))
                  (gsPool st1) d).
Proof.
  intros Hg Ho Hs Hrange.
  split; [apply generateAllOrientations_leaves; assumption|].
  intros before d after st1 Hsplit Hrun.
  apply processOrientations_total in Hrun; [|exact Hrange].
  unfold processOrientation. cbn [gsNumberOf gsPool gsOrientation withOrientation].
  rewrite Hs, Hrun, ull_succ. simpl.
  destruct (_ =? _); reflexivity.
Qed.

Lemma sharding_indexes_all_complete_orientations_witness :
  generateAllOrientations (searchFuel 6) prism shardOptions 6
    (numberEdges prism 6 (newMatrix 6))
    (mkGenState zeroCounters (initArray 4) (emptyGraph 6)) (-1) (-1)
  = runLeaves
      (processOrientation prism shardOptions 6
         (numberEdges prism 6 (newMatrix 6)))
      (leafOrientations (edgeList prism 6) (emptyGraph 6)) (emptyGraph 6)
      (mkGenState zeroCounters (initArray 4) (emptyGraph 6)).
Proof.
  refine (proj1 (sharding_indexes_all_complete_orientations prism shardOptions
                   6 (numberEdges prism 6 (newMatrix 6))
                   (mkGenState zeroCounters (initArray 4) (emptyGraph 6))
                   _ _ _ _)).
  - apply checkGraph_sound. vm_compute. reflexivity.
  - reflexivity.
  - reflexivity.
  - simpl. lia.
Defined.

(** C6, as stated, fails on the prism run with [-e -s 0/1000]: the
    enumeration hands out 104 indices, while only 96 of the complete
    orientations it arrives at are strongly connected; the 17th index goes
    to an orientation that is not strongly connected. *)
Lemma index_given_to_orientation_not_strongly_connected :
  (exists st',
      generateAllOrientations (searchFuel 6) prism shardOptions 6
        (numberEdges prism 6 (newMatrix 6))
        (mkGenState zeroCounters (initArray 4) (emptyGraph 6)) (-1) (-1)
      = Ret (0, st')
      /\ totalOrientationsGenerated (gsNumberOf st') = 104)
  /\ length (List.filter stronglyConnectedb
               (leafOrientations (edgeList prism 6) (emptyGraph 6))) = 96%nat
  /\ nth_error (leafOrientations (edgeList prism 6) (emptyGraph 6)) 16
     = Some prism_not_strong
  /\ isStronglyConnected prism_not_strong = Ret false
  /\ (exists st',
        processOrientation prism shardOptions 6
          (numberEdges prism 6 (newMatrix 6))
          (mkGenState
             (set_totalOrientationsGenerated zeroCounters 16) (initArray 4)
             prism_not_strong)
        = Ret (0, st')
        /\ totalOrientationsGenerated (gsNumberOf st') = 17).
Proof.
  split; [eexists; split; [vm_compute; reflexivity|reflexivity]|].
  split; [vm_compute; reflexivity|].
  split; [vm_compute; reflexivity|].
  split; [vm_compute; reflexivity|].
  eexists; split; [vm_compute; reflexivity|reflexivity].
Qed.

(** ** The enumeration of perfect matchings *)

Lemma elements_contains (s : bitset) (x : Z) :
  In x (elements s) -> contains s x = true.
Proof.
  intros Hx. destruct (Z.leb_spec 0 s) as [Hs|Hs].
  - apply elements_spec; assumption.
  - unfold elements in Hx. destruct s; try lia. destruct Hx.
Qed.

Lemma next_contains (s : bitset) (x : Z) :
  next s x <> -1 -> contains s (next s x) = true.
Proof.
  intros H. apply elements_contains. apply (next_some s x _ eq_refl H).
Qed.

Section MatchingEnumeration.

Variable configurationTest :
  list bitset -> Z -> options -> counters -> list Z -> result (bool * counters).

Lemma agreeOutside_refl (rem : bitset) (F : list Z) : agreeOutside rem F F.
Proof. split; auto. Qed.



End MatchingEnumeration.




(** ** The solver keeps a partial orientation *)

Lemma holdsOnSuccess_andThen (J J' : diGraph -> Prop)
    (r : result (bool * diGraph)) (k : diGraph -> result (bool * diGraph)) :
  holdsOnSuccess J r ->
  (forall o, J o -> holdsOnSuccess J' (k o)) ->
  holdsOnSuccess J' (andThen r k).
Proof. destruct r as [| |[[|] o]]; simpl; auto. Qed.

Lemma holdsOnSuccess_forEachArc (J : diGraph -> Prop) (l : list Z)
    (body : Z -> diGraph -> result (bool * diGraph)) :
  (forall x o, In x l -> J o -> holdsOnSuccess J (body x o)) ->
  forall o, J o -> holdsOnSuccess J (forEachArc l body o).
Proof.
  induction l as [|x l IH]; intros Hbody o Ho; simpl; [exact Ho|].
  apply holdsOnSuccess_andThen with (J := J).
  - apply Hbody; [left; reflexivity | exact Ho].
  - intros o' Ho'. apply IH; [|exact Ho'].
    intros y o'' Hy. apply Hbody. right. exact Hy.
Qed.

Lemma holdsOnSuccess_impl (J J' : diGraph -> Prop)
    (r : result (bool * diGraph)) :
  (forall o, J o -> J' o) -> holdsOnSuccess J r -> holdsOnSuccess J' r.
Proof. intros H. destruct r as [| |[[|] o]]; simpl; auto. Qed.

Lemma add_none (s : bitset) : add s (-1) = s.
Proof. unfold add, singleton, union. simpl. apply Z.lor_0_r. Qed.

(** [addArc] with [-1] for an end only counts an arc. *)
Lemma addArc_none (o : diGraph) (i j : Z) :
  wfDiGraph o ->
  vertexOrNone (numberOfVertices o) i -> vertexOrNone (numberOfVertices o) j ->
  i = -1 \/ j = -1 ->
  addArc o i j
  = mkDiGraph (numberOfVertices o) (adjacencyList o) (reverseAdjacencyList o)
      (numberOfArcs o + 1).
Proof.
  intros (Hn & Hlo & Hli & _) Hi Hj Hnone. unfold vertexOrNone in *.
  unfold addArc. f_equal.
  - destruct (Z.eq_dec i (-1)) as [->|Hi'].
    + apply aset_outside. lia.
    + assert (j = -1) as -> by lia. rewrite add_none.
      apply aset_aget_same. lia.
  - destruct (Z.eq_dec j (-1)) as [->|Hj'].
    + apply aset_outside. lia.
    + assert (i = -1) as -> by lia. rewrite add_none.
      apply aset_aget_same. lia.
Qed.

Section Solver.

Variables (adjacencyList : list bitset) (n : Z).
Variables (deletableEdges : bitset) (edgeNumbering : matrix).
Hypothesis graph_wf : wfGraph adjacencyList n.

Let edge (u v : Z) : Prop := contains (aget EMPTY adjacencyList u) v = true.

Lemma edge_sym (u v : Z) : edge u v -> edge v u.
Proof.
  destruct graph_wf as (_ & _ & _ & _ & Hsym & _).
  unfold edge. intros H. rewrite <- Hsym. exact H.
Qed.

Lemma edge_range (u v : Z) : edge u v -> 0 <= u < n /\ 0 <= v < n.
Proof.
  destruct graph_wf as (_ & _ & _ & Hrange & Hsym & _).
  unfold edge. intros H. split.
  - apply (Hrange v u). rewrite <- Hsym. exact H.
  - apply (Hrange u v). exact H.
Qed.

Lemma addArc_partialOrientation (o : diGraph) (x y : Z) :
  partialOrientationOf adjacencyList n o ->
  vertexOrNone n x -> vertexOrNone n y ->
  (0 <= x -> 0 <= y -> edge x y) ->
  ~ arc o y x ->
  partialOrientationOf adjacencyList n (addArc o x y)
  /\ extends o (addArc o x y)
  /\ (0 <= x -> 0 <= y -> arc (addArc o x y) x y).
Proof.
  intros (Hn & Hwf & Hedges & Hone) Hx Hy Hxy Hnyx.
  destruct (Z_lt_le_dec x 0) as [Hx0|Hx0];
    [|destruct (Z_lt_le_dec y 0) as [Hy0|Hy0]].
  1,2: rewrite addArc_none
         by (try exact Hwf; unfold vertexOrNone in *; lia);
       split; [split; [exact Hn|]; split; [exact Hwf|];
               split; [exact Hedges|exact Hone]|];
       split; [intros u v H; exact H | intros; lia].
  specialize (Hxy Hx0 Hy0).
  pose proof Hwf as (_ & Hlo & _).
  assert (Hxne : x <> y).
  { intros ->. destruct graph_wf as (_ & _ & _ & _ & _ & Hloop).
    unfold edge in Hxy. rewrite Hloop in Hxy. discriminate. }
  assert (Harc : forall u v,
            arc (addArc o x y) u v <-> arc o u v \/ (u = x /\ v = y)).
  { intros u v. apply arc_addArc; unfold vertexOrNone in *; lia. }
  split; [split; [exact Hn|]; split; [|split]|split].
  - apply wfDiGraph_addArc; [exact Hwf| |]; unfold vertexOrNone in *; lia.
  - intros u v Huv. apply Harc in Huv. destruct Huv as [H|[-> ->]].
    + apply Hedges. exact H.
    + exact Hxy.
  - intros u v Huv Hvu. apply Harc in Huv. apply Harc in Hvu.
    destruct Huv as [Huv|[-> ->]]; destruct Hvu as [Hvu|[Hv Hu]].
    + exact (Hone u v Huv Hvu).
    + subst. exact (Hnyx Huv).
    + exact (Hnyx Hvu).
    + congruence.
  - intros u v H. apply Harc. left. exact H.
  - intros _ _. apply Harc. right. split; reflexivity.
Qed.

(** The vertex that [next] finds in a set of neighbours of [x]. *)
Lemma next_neighbour (s : bitset) (i x : Z) :
  subsetOf s (aget EMPTY adjacencyList x) ->
  vertexOrNone n (next s i) /\ (0 <= next s i -> edge x (next s i)).
Proof.
  intros Hsub. destruct (Z.eq_dec (next s i) (-1)) as [E|E].
  - rewrite E. destruct graph_wf as (Hn & _).
    split; [unfold vertexOrNone; lia | lia].
  - pose proof (next_contains s i E) as Hc. apply Hsub in Hc.
    split; [|intros _; exact Hc].
    apply edge_range in Hc. unfold vertexOrNone. lia.
Qed.

Lemma difference_subset (s t : bitset) : subsetOf (difference s t) s.
Proof.
  intros i Hi. rewrite contains_difference in Hi.
  apply andb_true_iff in Hi. tauto.
Qed.

Lemma elements_neighbour (x e : Z) :
  In e (elements (aget EMPTY adjacencyList x)) ->
  vertexOrNone n e /\ edge x e /\ edge e x.
Proof.
  intros He. apply elements_contains in He.
  pose proof (edge_range x e He). pose proof (edge_sym x e He).
  unfold vertexOrNone. split; [lia|]. split; assumption.
Qed.

Lemma otherNonDeletable_In (x y e : Z) :
  otherNonDeletable adjacencyList x y deletableEdges edgeNumbering = Some e ->
  In e (elements (aget EMPTY adjacencyList x)).
Proof.
  unfold otherNonDeletable. intros H. apply find_some in H. tauto.
Qed.

Lemma canAddNewArc_post (fuel : nat) :
  forall o x y,
    partialOrientationOf adjacencyList n o ->
    vertexOrNone n x -> vertexOrNone n y ->
    (0 <= x -> 0 <= y -> edge x y) ->
    holdsOnSuccess (arcAdded adjacencyList n o x y)
      (canAddNewArc fuel adjacencyList n o x y deletableEdges edgeNumbering).
Proof.
  induction fuel as [|f IH]; intros o x y Ho Hx Hy Hxy; [exact I|].
  cbn [canAddNewArc].
  destruct (contains (outNbrs o x) y) eqn:Exy.
  { simpl. split; [exact Ho|]. split; [intros u v H; exact H|].
    intros _ _. exact Exy. }
  destruct (contains (outNbrs o y) x) eqn:Eyx; [exact I|].
  destruct (size (outNbrs o x) >=? 2); [exact I|].
  destruct (size (inNbrs o y) >=? 2); [exact I|].
  destruct (negb (arcIsAdmissible _ _ _ _ _ _)); [exact I|].
  destruct (addArc_partialOrientation o x y Ho Hx Hy Hxy) as (HoA & Hext & Harc).
  { unfold arc. rewrite Eyx. discriminate. }
  set (oA := addArc o x y) in *.
  set (J := fun o' => partialOrientationOf adjacencyList n o' /\ extends oA o').
  assert (HJ : J oA) by (split; [exact HoA | intros u v H; exact H]).
  assert (Hrec : forall o' a b,
            J o' -> vertexOrNone n a -> vertexOrNone n b ->
            (0 <= a -> 0 <= b -> edge a b) ->
            holdsOnSuccess J
              (canAddNewArc f adjacencyList n o' a b deletableEdges
                 edgeNumbering)).
  { intros o' a b [Ho' Hext'] Ha Hb Hab.
    apply holdsOnSuccess_impl with (J := arcAdded adjacencyList n o' a b);
      [|apply IH; assumption].
    intros o'' (Ho'' & Hext'' & _). split; [exact Ho''|].
    intros u v H. apply Hext'', Hext'. exact H. }
  assert (Hnext_l : forall o' s i z,
            J o' -> subsetOf s (aget EMPTY adjacencyList z) ->
            vertexOrNone n z ->
            holdsOnSuccess J
              (canAddNewArc f adjacencyList n o' (next s i) z deletableEdges
                 edgeNumbering)).
  { intros o' s i z Ho' Hs Hz.
    destruct (next_neighbour s i z Hs) as [Hv He].
    apply Hrec; [exact Ho'|exact Hv|exact Hz|].
    intros H _. apply edge_sym, He, H. }
  assert (Hnext_r : forall o' s i z,
            J o' -> subsetOf s (aget EMPTY adjacencyList z) ->
            vertexOrNone n z ->
            holdsOnSuccess J
              (canAddNewArc f adjacencyList n o' z (next s i) deletableEdges
                 edgeNumbering)).
  { intros o' s i z Ho' Hs Hz.
    destruct (next_neighbour s i z Hs) as [Hv He].
    apply Hrec; [exact Ho'|exact Hz|exact Hv|].
    intros _ H. apply He, H. }
  assert (Hnbr_l : forall o' e z,
            J o' -> In e (elements (aget EMPTY adjacencyList z)) ->
            vertexOrNone n z ->
            holdsOnSuccess J
              (canAddNewArc f adjacencyList n o' e z deletableEdges
                 edgeNumbering)).
  { intros o' e z Ho' He Hz.
    destruct (elements_neighbour z e He) as (Hv & _ & Hez).
    apply Hrec; [exact Ho'|exact Hv|exact Hz|intros _ _; exact Hez]. }
  assert (Hnbr_r : forall o' e z,
            J o' -> In e (elements (aget EMPTY adjacencyList z)) ->
            vertexOrNone n z ->
            holdsOnSuccess J
              (canAddNewArc f adjacencyList n o' z e deletableEdges
                 edgeNumbering)).
  { intros o' e z Ho' He Hz.
    destruct (elements_neighbour z e He) as (Hv & Hze & _).
    apply Hrec; [exact Ho'|exact Hz|exact Hv|intros _ _; exact Hze]. }
  apply holdsOnSuccess_impl with (J := J).
  { intros o' [Ho' Hext']. split; [exact Ho'|]. split.
    - intros u v H. apply Hext', Hext. exact H.
    - intros H1 H2. apply Hext', Harc; assumption. }
  clearbody oA J. clear IH Hrec Harc Hext HoA.
  repeat first
    [ assumption
    | exact I
    | match goal with
      | |- holdsOnSuccess _ (andThen _ _) =>
          apply holdsOnSuccess_andThen with (J := J); [|intros ? ?]
      | |- holdsOnSuccess _ (forEachArc _ _ _) =>
          apply holdsOnSuccess_forEachArc with (J := J);
          [intros ? ? ? ?|assumption]
      | |- holdsOnSuccess _ (match otherNonDeletable ?a ?b ?c ?d ?e with _ => _ end) =>
          let E := fresh "E" in
          destruct (otherNonDeletable a b c d e) eqn:E;
          [apply otherNonDeletable_In in E|]
      | |- holdsOnSuccess _ (if ?c then _ else _) => destruct c
      | |- holdsOnSuccess _ (canAddNewArc _ _ _ _ (next _ _) _ _ _) =>
          apply Hnext_l; [assumption|try apply difference_subset|assumption]
      | |- holdsOnSuccess _ (canAddNewArc _ _ _ _ _ (next _ _) _ _) =>
          apply Hnext_r; [assumption|try apply difference_subset|assumption]
      | H : In ?e _ |- holdsOnSuccess _ (canAddNewArc _ _ _ _ ?e _ _ _) =>
          apply Hnbr_l; assumption
      | H : In ?e _ |- holdsOnSuccess _ (canAddNewArc _ _ _ _ _ ?e _ _) =>
          apply Hnbr_r; assumption
      | |- holdsOnSuccess _ (Ret (true, _)) => simpl
      end ].
Qed.

Lemma next_skip_zero (s : bitset) :
  contains s 0 = false -> next s (-1) = next s 0.
Proof.
  intros H0. unfold next.
  rewrite (List.filter_ext_in (fun x => -1 <? x) (fun x => 0 <? x));
    [reflexivity|].
  intros x Hx. apply elements_contains in Hx.
  pose proof (contains_nonneg s x Hx).
  assert (x <> 0) by (intros ->; congruence).
  destruct (Z.ltb_spec (-1) x), (Z.ltb_spec 0 x); try reflexivity; lia.
Qed.

Lemma orientedBefore_extends (o o' : diGraph) (e1 e2 : Z) :
  extends o o' -> orientedBefore adjacencyList n o e1 e2 -> orientedBefore adjacencyList n o' e1 e2.
Proof.
  intros Hext H u v Huv. destruct (H u v Huv) as [?|[?|?]]; auto.
Qed.

Lemma orientedBefore_all (o : diGraph) :
  partialOrientationOf adjacencyList n o ->
  orientedBefore adjacencyList n o (n - 1) (-1) ->
  orientationOf adjacencyList n o.
Proof.
  intros (Hn & Hwf & Hedges & Hone) Hall.
  split; [exact Hn|]. split; [exact Hwf|]. split; [exact Hedges|].
  split; [|exact Hone].
  intros u v Huv. pose proof (edge_range u v Huv) as [Hu Hv].
  pose proof (edge_sym u v Huv) as Hvu.
  destruct graph_wf as (_ & _ & Hnn & _ & _ & Hloop).
  assert (u <> v) by (intros ->; unfold edge in Huv; rewrite Hloop in Huv;
                      discriminate).
  unfold orientedBefore in Hall. rewrite edgesFrom_end in Hall.
  destruct (Z_lt_le_dec u v) as [Hlt|Hge].
  - destruct (Hall u v) as [[]|H']; [|exact H'].
    apply edgeList_spec. split; [exact Hu|]. split; [|exact Hlt].
    apply elements_spec; [apply Hnn | exact Huv].
  - destruct (Hall v u) as [[]|H']; [|tauto].
    apply edgeList_spec. split; [exact Hv|]. split; [|lia].
    apply elements_spec; [apply Hnn | exact Hvu].
Qed.

Lemma compOrientationCheck_post (o : diGraph) :
  orientationOf adjacencyList n o ->
  holdsOnSuccess (complementaryTo adjacencyList n deletableEdges edgeNumbering)
    (snd (compOrientationCheck n o deletableEdges edgeNumbering)).
Proof.
  intros Ho. pose proof Ho as (Hn & Hwf & _).
  destruct (getDeletableEdges_spec o edgeNumbering Hwf) as (T & Hrun & HT).
  rewrite Hn in Hrun. unfold compOrientationCheck. cbn [snd].
  rewrite Hrun. cbn [bind].
  destruct (equals _ _) eqn:E; [|exact I].
  simpl. split; [exact Ho|]. exists T. split; [exact HT|].
  apply Z.eqb_eq. exact E.
Qed.

Lemma canCompleteCompOrientation_post (fuel : nat) :
  forall o e1 e2,
    partialOrientationOf adjacencyList n o ->
    -1 <= e1 <= n - 1 ->
    e2 = -1 \/ (e2 <> -1 /\ In e2 (elements (aget EMPTY adjacencyList e1))) ->
    orientedBefore adjacencyList n o e1 e2 ->
    holdsOnSuccess (complementaryTo adjacencyList n deletableEdges edgeNumbering)
      (canCompleteCompOrientation fuel adjacencyList n o deletableEdges
         edgeNumbering e1 e2).
Proof.
  induction fuel as [|f IH]; intros o e1 e2 Ho He1 He2 Hbefore; [exact I|].
  cbn [canCompleteCompOrientation].
  destruct He2 as [->|[Hne Hin]].
  - rewrite Z.eqb_refl. cbn [andb].
    destruct (Z.ltb_spec e1 (n - 1)) as [Hlt|Hge].
    + apply IH; [exact Ho|lia|apply next_position|].
      unfold orientedBefore in *.
      rewrite <- edgesFrom_next_vertex by lia. exact Hbefore.
    + replace e1 with (n - 1) in * by lia. rewrite Z.eqb_refl.
      apply compOrientationCheck_post, orientedBefore_all; assumption.
  - destruct (Z.eqb_spec e2 (-1)); [congruence|]. cbn [andb].
    assert (Hnext : forall o',
              partialOrientationOf adjacencyList n o' ->
              extends o o' ->
              arc o' e1 e2 \/ arc o' e2 e1 ->
              holdsOnSuccess (complementaryTo adjacencyList n deletableEdges edgeNumbering)
                (canCompleteCompOrientation f adjacencyList n o' deletableEdges
                   edgeNumbering e1 (next (aget EMPTY adjacencyList e1) e2))).
    { intros o' Ho' Hext Harc. apply IH; [exact Ho'|lia|apply next_position|].
      intros u v Huv. destruct (Hbefore u v Huv) as [H|[H|H]]; auto.
      rewrite edgesFrom_next_edge in H by assumption.
      destruct H as [H|H]; [|left; exact H].
      injection H as <- <-. right. exact Harc. }
    destruct (elements_neighbour e1 e2 Hin) as (Hv2 & H12 & H21).
    assert (Hv1 : vertexOrNone n e1).
    { apply edge_range in H12. unfold vertexOrNone. lia. }
    destruct (contains (outNbrs o e1) e2 || contains (outNbrs o e2) e1) eqn:E.
    { apply Hnext; [exact Ho|intros u v H; exact H|].
      apply orb_true_iff in E. exact E. }
    assert (Htry : forall a b,
              vertexOrNone n a -> vertexOrNone n b -> edge a b ->
              (a = e1 /\ b = e2) \/ (a = e2 /\ b = e1) ->
              holdsOnSuccess (complementaryTo adjacencyList n deletableEdges edgeNumbering)
                (andThen
                   (canAddNewArc (arcFuel n) adjacencyList n o a b
                      deletableEdges edgeNumbering)
                   (fun o0 =>
                      canCompleteCompOrientation f adjacencyList n o0
                        deletableEdges edgeNumbering e1
                        (next (aget EMPTY adjacencyList e1) e2)))).
    { intros a b Ha Hb Hab Hcase.
      apply holdsOnSuccess_andThen with (J := arcAdded adjacencyList n o a b).
      - apply canAddNewArc_post; auto.
      - intros o' (Ho' & Hext & Harc). apply Hnext; [exact Ho'|exact Hext|].
        pose proof (edge_range a b Hab) as [? ?].
        destruct Hcase as [[-> ->]|[-> ->]]; [left|right]; apply Harc; lia. }
    pose proof (Htry e1 e2 Hv1 Hv2 H12 (or_introl (conj eq_refl eq_refl)))
      as Hfirst.
    destruct (andThen (canAddNewArc _ _ _ o e1 e2 _ _) _)
      as [| |[[|] o']]; cbn [bind]; try exact Hfirst.
    apply Htry; auto.
Qed.

(** The solver never ends the process, and an answer [true] comes with an
    orientation of the graph that is complementary. *)
Lemma hasComplementaryOrientation_post :
  0 < n ->
  match hasComplementaryOrientation adjacencyList n deletableEdges
          edgeNumbering with
  | Ret true => exists o', (complementaryTo adjacencyList n deletableEdges edgeNumbering) o'
  | Exit _ => False
  | _ => True
  end.
Proof.
  intros Hpos. unfold hasComplementaryOrientation.
  destruct graph_wf as (Hn & _ & _ & _ & _ & Hloop).
  assert (Hempty : partialOrientationOf adjacencyList n (emptyGraph n)).
  { split; [reflexivity|]. split; [apply wfDiGraph_emptyGraph; exact Hn|].
    split; intros u v H; destruct (arc_emptyGraph n u v H). }
  destruct (next_neighbour (aget EMPTY adjacencyList 0) (-1) 0)
    as [Hv He]; [intros i H; exact H|].
  assert (Hv0 : vertexOrNone n 0) by (unfold vertexOrNone; lia).
  pose proof (canAddNewArc_post (arcFuel n) (emptyGraph n) 0
                (next (aget EMPTY adjacencyList 0) (-1)) Hempty Hv0 Hv
                (fun _ H => He H)) as Hfirst.
  destruct (canAddNewArc _ _ _ _ _ _ _ _) as [| |[[|] o1]]; cbn [bind negb];
    try exact Hfirst; try exact I.
  destruct Hfirst as (Ho1 & _ & _).
  pose proof (canCompleteCompOrientation_post (searchFuel n) o1 0
                (next (aget EMPTY adjacencyList 0) (-1)) Ho1) as Hsearch.
  destruct (canCompleteCompOrientation _ _ _ _ _ _ _ _)
    as [| |[[|] o2]]; cbn [bind]; try exact I.
  - apply Hsearch; [lia|apply next_position|].
    intros u v Huv. left. rewrite next_skip_zero by apply Hloop.
    change 0 with (-1 + 1) at 1 3.
    rewrite <- edgesFrom_next_vertex by lia.
    rewrite edgesFrom_start. exact Huv.
  - exists o2. apply Hsearch; [lia|apply next_position|].
    intros u v Huv. left. rewrite next_skip_zero by apply Hloop.
    change 0 with (-1 + 1) at 1 3.
    rewrite <- edgesFrom_next_vertex by lia.
    rewrite edgesFrom_start. exact Huv.
Qed.

End Solver.

(** ** The pool holds deletable-edge sets *)

Lemma aget_aset_cases {A : Type} (d : A) (a : list A) (i j : Z) (v : A) :
  aget d (aset a i v) j = v \/ aget d (aset a i v) j = aget d a j.
Proof.
  destruct (Z.eq_dec i j) as [->|Hne].
  - destruct (Z_lt_le_dec j 0) as [Hj|Hj].
    + right. rewrite aset_outside by lia. reflexivity.
    + destruct (Z_lt_le_dec j (Z.of_nat (length a))) as [Hlt|Hge].
      * left. apply aget_aset_eq. lia.
      * right. rewrite aset_outside by lia. reflexivity.
  - right. apply aget_aset_ne. exact Hne.
Qed.

Lemma aget_app_empty (a : list bitset) (k : nat) (i : Z) :
  aget EMPTY (a ++ replicate k EMPTY) i = aget EMPTY a i.
Proof.
  destruct (Z_lt_le_dec i (Z.of_nat (length a))) as [Hlt|Hge].
  - apply aget_app_l. exact Hlt.
  - rewrite (aget_outside EMPTY a) by lia.
    unfold aget. destruct (i <? 0); [reflexivity|].
    rewrite lookup_app_r by lia.
    destruct (replicate k EMPTY !! _) as [x|] eqn:E; [|reflexivity].
    apply lookup_replicate in E. simpl. tauto.
Qed.

Section PoolSound.

Variables (P : bitset -> Prop) (allEdges deletableEdges : bitset).
Hypothesis deletableEdges_P : P deletableEdges.

Lemma cellsSatisfy_aset (a : list bitset) (i : Z) (v : bitset) :
  (v <> EMPTY -> P v) -> cellsSatisfy P a -> cellsSatisfy P (aset a i v).
Proof.
  intros Hv Ha j Hj.
  destruct (aget_aset_cases EMPTY a i j v) as [E|E]; rewrite E in *; auto.
Qed.

Lemma cellsSatisfy_insertArray (pool : Array) :
  cellsSatisfy P (array pool) ->
  cellsSatisfy P (array (insertArray pool deletableEdges)).
Proof.
  intros H. unfold insertArray. cbn [array].
  apply cellsSatisfy_aset; [auto|].
  destruct (used pool =? size_ pool); cbn [array]; [|exact H].
  intros j. rewrite aget_app_empty. apply H.
Qed.

(** A result 2 of the scan comes with a stored set that, with
    [deletableEdges], gives all the edges. *)
Lemma scanPool_sound (indices : list Z) :
  forall insertPosition numberOf pool,
    cellsSatisfy P (array pool) ->
    match scanPool indices allEdges deletableEdges insertPosition numberOf
            pool with
    | ScanReturn r _ pool' =>
      cellsSatisfy P (array pool') /\ (r = 0 \/ r = 2)
      /\ (r = 2 -> exists s, P s /\ union deletableEdges s = allEdges)
    | ScanDone _ _ pool' => cellsSatisfy P (array pool')
    end.
Proof.
  induction indices as [|i rest IH]; intros ip numberOf pool Hpool;
    cbn [scanPool]; [exact Hpool|].
  destruct (isEmpty (aget EMPTY (array pool) i)) eqn:Eempty; cbn [negb];
    [apply IH; exact Hpool|].
  assert (Hcell : P (aget EMPTY (array pool) i)).
  { apply Hpool. unfold isEmpty in Eempty. apply Z.eqb_neq in Eempty.
    exact Eempty. }
  destruct (isSubset deletableEdges (aget EMPTY (array pool) i)).
  { split; [exact Hpool|]. split; [left; reflexivity|discriminate]. }
  destruct (isSubset (aget EMPTY (array pool) i) deletableEdges) eqn:Esup.
  - cbn [array].
    assert (Htomb : cellsSatisfy P (aset (array pool) i EMPTY)).
    { apply cellsSatisfy_aset; [congruence | exact Hpool]. }
    destruct (equals _ _) eqn:Eall.
    + split; [apply cellsSatisfy_insertArray; exact Htomb|].
      split; [right; reflexivity|]. intros _.
      exists (aget EMPTY (array pool) i). split; [exact Hcell|].
      apply Z.eqb_eq in Eall.
      destruct (aget_aset_cases EMPTY (array pool) i i EMPTY) as [E|E];
        rewrite E in Eall; [|exact Eall].
      rewrite <- Eall. apply bitset_ext. intros e.
      rewrite !contains_union, contains_EMPTY, orb_false_r.
      apply isSubset_spec in Esup.
      destruct (contains (aget EMPTY (array pool) i) e) eqn:Ee;
        [|apply orb_false_r].
      apply Esup in Ee. rewrite Ee. reflexivity.
    + apply IH. exact Htomb.
  - destruct (equals _ _) eqn:Eall.
    + split; [apply cellsSatisfy_insertArray; exact Hpool|].
      split; [right; reflexivity|]. intros _.
      exists (aget EMPTY (array pool) i). split; [exact Hcell|].
      apply Z.eqb_eq. exact Eall.
    + apply IH. exact Hpool.
Qed.

End PoolSound.

Lemma getIntermediateFrankNumber_sound (P : bitset -> Prop)
    (numberOf : counters) (n : Z) (pool : Array) (deletableEdges : bitset)
    (r : Z) (numberOf' : counters) (pool' : Array) :
  P deletableEdges ->
  cellsSatisfy P (array pool) ->
  getIntermediateFrankNumber numberOf n pool deletableEdges
  = Ret (r, numberOf', pool') ->
  cellsSatisfy P (array pool') /\ (r = 0 \/ r = 2)
  /\ (r = 2 -> exists s,
        P s /\ union deletableEdges s = complement EMPTY (3 * n ÷ 2)).
Proof.
  intros HT Hpool. unfold getIntermediateFrankNumber.
  pose proof (scanPool_sound P (complement EMPTY (3 * n ÷ 2)) deletableEdges HT
                (vertices (used pool)) (used pool) numberOf pool Hpool) as Hscan.
  destruct (scanPool _ _ _ _ _ _) as [r0 c0 p0|ip c0 p0].
  - intros H. injection H as <- _ <-. exact Hscan.
  - destruct (negb (ip =? used p0)).
    + unfold insertArrayAtPos. destruct (size_ p0 <? ip); cbn [bind];
        [discriminate|].
      intros H. injection H as <- _ <-. cbn [array].
      split; [apply cellsSatisfy_aset; auto|].
      split; [left; reflexivity|discriminate].
    + intros H. injection H as <- _ <-.
      split; [apply cellsSatisfy_insertArray; assumption|].
      split; [left; reflexivity|discriminate].
Qed.

(** ** The exact algorithm answers 2 for two complementary orientations *)

Lemma covers_all_edges (n : Z) (S1 S2 : bitset) :
  0 <= n ->
  union S1 S2 = complement EMPTY (3 * n ÷ 2) ->
  forall e, contains (union S1 S2) e = true <-> 0 <= e < 3 * n ÷ 2.
Proof.
  intros Hn Hu e. rewrite Hu.
  rewrite contains_complement_EMPTY by (apply Z.quot_pos; lia).
  rewrite andb_true_iff, Z.leb_le, Z.ltb_lt. reflexivity.
Qed.

Section ExactSound.

Variables (adjacencyList : list bitset) (opts : options) (n : Z).
Hypothesis graph_wf : wfGraph adjacencyList n.
Hypothesis n_pos : 0 < n.

Let edgeNumbering := numberEdges adjacencyList n (newMatrix n).
Let P := deletableSetOf adjacencyList n edgeNumbering.

Lemma examineOrientation_sound (st : genState) (r : Z) (st' : genState) :
  orientationOf adjacencyList n (gsOrientation st) ->
  cellsSatisfy P (array (gsPool st)) ->
  examineOrientation adjacencyList opts n edgeNumbering st = Ret (r, st') ->
  leafSound adjacencyList n r st'.
Proof.
  intros Ho Hpool. unfold examineOrientation, leafSound. cbv zeta. fold edgeNumbering P.
  pose proof Ho as (Hn & Hwf & _).
  destruct (isStronglyConnected (gsOrientation st)) as [| |[|]]; cbn [bind negb];
    try discriminate.
  2:{ intros H. injection H as <- <-.
      split; [exact Hpool|]. split; [left; reflexivity|discriminate]. }
  destruct (getDeletableEdges_spec (gsOrientation st) edgeNumbering Hwf)
    as (T & Hrun & HT).
  rewrite Hn in Hrun. rewrite Hrun. cbn [bind].
  assert (HPT : P T) by (exists (gsOrientation st); split; assumption).
  destruct (hasVertexWithoutDeletableEdge _ _ _ _).
  { intros H. injection H as <- <-. cbn [gsPool].
    split; [exact Hpool|]. split; [left; reflexivity|discriminate]. }
  destruct (bruteForceFlag opts); cbn [negb gsPool].
  - destruct (getIntermediateFrankNumber _ _ _ _) as [| |[[r0 c0] p0]] eqn:E;
      cbn [bind]; try discriminate.
    intros H. injection H as <- <-. cbn [gsPool].
    destruct (getIntermediateFrankNumber_sound P _ _ _ _ _ _ _ HPT Hpool E)
      as (Hp0 & Hr0 & Htwo).
    split; [exact Hp0|]. split; [exact Hr0|].
    intros Hr. destruct (Htwo Hr) as (s & Hs & Hu).
    exists T, s. split; [exact HPT|]. split; [exact Hs|].
    apply covers_all_edges; [lia | exact Hu].
  - pose proof (hasComplementaryOrientation_post adjacencyList n T edgeNumbering
                  graph_wf n_pos) as Hsolver.
    destruct (hasComplementaryOrientation _ _ _ _) as [| |[|]]; cbn [bind];
      try discriminate.
    + intros H. injection H as <- <-. cbn [gsPool].
      split; [exact Hpool|]. split; [right; reflexivity|]. intros _.
      destruct Hsolver as (o' & Ho' & T' & HT' & Hu).
      exists T, T'. split; [exact HPT|].
      split; [exists o'; split; assumption|].
      apply covers_all_edges; [lia | exact Hu].
    + intros H. injection H as <- <-. cbn [gsPool].
      split; [exact Hpool|]. split; [left; reflexivity|discriminate].
Qed.

Lemma processOrientation_sound (st : genState) (r : Z) (st' : genState) :
  orientationOf adjacencyList n (gsOrientation st) ->
  cellsSatisfy P (array (gsPool st)) ->
  processOrientation adjacencyList opts n edgeNumbering st = Ret (r, st') ->
  leafSound adjacencyList n r st'.
Proof.
  intros Ho Hpool. unfold processOrientation.
  destruct (_ && _).
  - intros H. injection H as <- <-. unfold leafSound; cbv zeta; fold edgeNumbering P. cbn [gsPool].
    split; [exact Hpool|]. split; [left; reflexivity|discriminate].
  - intros H. apply examineOrientation_sound in H; assumption.
Qed.

Lemma processOrientations_sound (leaves : list diGraph) :
  forall st r st',
    (forall d, In d leaves -> orientationOf adjacencyList n d) ->
    cellsSatisfy P (array (gsPool st)) ->
    processOrientations (processOrientation adjacencyList opts n edgeNumbering)
      leaves st = Ret (r, st') ->
    leafSound adjacencyList n r st'.
Proof.
  induction leaves as [|d rest IH]; intros st r st' Hleaves Hpool;
    cbn [processOrientations].
  - intros H. injection H as <- <-.
    split; [exact Hpool|]. split; [left; reflexivity|discriminate].
  - destruct (processOrientation _ _ _ _ _) as [| |[r1 st1]] eqn:E; cbn [bind];
      try discriminate.
    apply processOrientation_sound in E;
      [|apply Hleaves; left; reflexivity|exact Hpool].
    destruct (negb (r1 =? 0)).
    + intros H. injection H as <- <-. exact E.
    + destruct E as (Hpool1 & _). apply IH; [|exact Hpool1].
      intros d' Hd'. apply Hleaves. right. exact Hd'.
Qed.

Lemma cellsSatisfy_initArray (size : Z) : cellsSatisfy P (array (initArray size)).
Proof.
  intros i Hi. exfalso. apply Hi. unfold initArray. cbn [array].
  apply aget_replicate.
Qed.

Lemma findFrankNumber_sound (numberOf : counters) (r : Z) (opts' : options)
    (numberOf' : counters) :
  findFrankNumber adjacencyList n opts numberOf = Ret (r, opts', numberOf') ->
  (r = 0 \/ r = 2) /\ (r = 2 -> coveredByTwo adjacencyList n edgeNumbering).
Proof.
  unfold findFrankNumber. fold edgeNumbering.
  rewrite generateAllOrientations_leaves by (try exact graph_wf; reflexivity).
  unfold runLeaves.
  destruct (processOrientations _ _ _) as [| |[r0 st0]] eqn:E; cbn [bind];
    try discriminate.
  apply processOrientations_sound in E.
  - destruct E as (_ & Hr & Htwo). cbn [fst snd gsNumberOf gsPool withOrientation].
    destruct (bruteForceFlag opts); intros H; injection H as <- _ _;
      split; assumption.
  - intros d Hd. apply leafOrientations_orientationOf; assumption.
  - apply cellsSatisfy_initArray.
Qed.

End ExactSound.

(** C2. Whenever the exact procedure, the enumeration of the orientations
    with the solver or with the pool of [-b], returns 2 on a graph, there are
    two orientations of the graph (the one the enumeration is at, and the one
    the solver has built or one whose set is in the pool) such that the union
    of their sets of deletable edges is the set of the edge numbers
    [0 .. 3n/2 - 1]. The graph has to be a graph on at least one vertex; it
    does not have to be cubic or 3-edge-connected. *)
Theorem exact_procedure_sound (adjacencyList : list bitset) (n : Z)
    (opts : options) (numberOf : counters) (opts' : options)
    (numberOf' : counters) :
  wfGraph adjacencyList n ->
  0 < n ->
  findFrankNumber adjacencyList n opts numberOf = Ret (2, opts', numberOf') ->
  coveredByTwo adjacencyList n (numberEdges adjacencyList n (newMatrix n)).
Proof.
  intros Hg Hn Hrun.
  apply (findFrankNumber_sound adjacencyList opts n Hg Hn) in Hrun.
  apply Hrun. reflexivity.
Qed.

Lemma exact_procedure_sound_witness :
  coveredByTwo K4 4 (numberEdges K4 4 (newMatrix 4)).
Proof.
  eapply (exact_procedure_sound K4 4 defaultOptions zeroCounters).
  - apply checkGraph_sound. vm_compute. reflexivity.
  - lia.
  - vm_compute. reflexivity.
Defined.

(** ** Where the process ends *)

Lemma noExit_bind {A B : Type} (r : result A) (k : A -> result B) :
  noExit r -> (forall a, noExit (k a)) -> noExit (bind r k).
Proof.
  intros Hr Hk. destruct r as [| |a]; simpl.
  - discriminate.
  - intros c. destruct (Hr code eq_refl).
  - apply Hk.
Qed.

Lemma noExit_Ret {A : Type} (a : A) : noExit (Ret a).
Proof. discriminate. Qed.

Lemma noExit_fold {A B : Type} (f : B -> A -> result A) (l : list B) :
  (forall x a, noExit (f x a)) ->
  forall init, noExit init ->
    noExit (fold_left (fun acc x => bind acc (f x)) l init).
Proof.
  intros Hf. induction l as [|x l IH]; intros init Hinit; simpl;
    [exact Hinit|].
  apply IH. apply noExit_bind; [exact Hinit | apply Hf].
Qed.

Lemma existsR_noExit (body : Z -> result bool) (l : list Z) :
  (forall x, noExit (body x)) -> noExit (existsR body l).
Proof.
  intros Hbody. induction l as [|x l IH]; simpl; [apply noExit_Ret|].
  apply noExit_bind; [apply Hbody|]. intros [|]; [apply noExit_Ret | exact IH].
Qed.

Lemma containsDirectedPathBetween_noExit (fuel : nat) :
  forall orientation unvisitedVertices i end_,
    noExit (containsDirectedPathBetween fuel orientation unvisitedVertices i
              end_).
Proof.
  induction fuel as [|f IH]; intros o U i e; simpl; [discriminate|].
  destruct (contains (outNbrs o i) e); [apply noExit_Ret|].
  apply existsR_noExit. intros x. apply IH.
Qed.

Lemma getDeletableEdges_noExit (orientation : diGraph) (n : Z)
    (edgeNumbering : matrix) :
  noExit (getDeletableEdges orientation n edgeNumbering).
Proof.
  unfold getDeletableEdges.
  apply (noExit_fold
           (fun i (st : bitset * diGraph) =>
              fold_left
                (fun acc nbr =>
                   bind acc (deletableStep n edgeNumbering i nbr))
                (elements (outNbrs (snd st) i)) (Ret st)));
    [|apply noExit_Ret].
  intros i st.
  apply (noExit_fold (fun nbr => deletableStep n edgeNumbering i nbr));
    [|apply noExit_Ret].
  intros nbr [s o]. unfold deletableStep.
  apply noExit_bind; [apply containsDirectedPathBetween_noExit|].
  intros b. apply noExit_Ret.
Qed.

Lemma compOrientationCheck_noExit (n : Z) (orientation : diGraph)
    (deletableEdges : bitset) (edgeNumbering : matrix) :
  noExit (snd (compOrientationCheck n orientation deletableEdges edgeNumbering)).
Proof.
  unfold compOrientationCheck. cbn [snd].
  apply noExit_bind; [apply getDeletableEdges_noExit|].
  intros [s o]. apply noExit_Ret.
Qed.

Lemma holdsOnSuccess_noExit (r : result (bool * diGraph)) :
  holdsOnSuccess (fun _ => True) r <-> noExit r.
Proof.
  unfold noExit. destruct r as [| |[[|] o]]; simpl; split; intros H;
    try discriminate; try exact I; try (destruct H).
  destruct (H code eq_refl).
Qed.

Lemma canAddNewArc_noExit (fuel : nat) (adjacencyList : list bitset) (n : Z)
    (deletableEdges : bitset) (edgeNumbering : matrix) :
  forall orientation x y,
    holdsOnSuccess (fun _ => True)
      (canAddNewArc fuel adjacencyList n orientation x y deletableEdges
         edgeNumbering).
Proof.
  induction fuel as [|f IH]; intros o x y; [exact I|].
  cbn [canAddNewArc].
  repeat first
    [ exact I
    | apply IH
    | match goal with
      | |- holdsOnSuccess _ (andThen _ _) =>
          apply holdsOnSuccess_andThen with (J := fun _ => True); [|intros ? _]
      | |- holdsOnSuccess _ (forEachArc _ _ _) =>
          apply holdsOnSuccess_forEachArc with (J := fun _ => True);
          [intros ? ? _ _|exact I]
      | |- holdsOnSuccess _ (match otherNonDeletable ?a ?b ?c ?d ?e with _ => _ end) =>
          destruct (otherNonDeletable a b c d e)
      | |- holdsOnSuccess _ (if ?c then _ else _) => destruct c
      end ].
Qed.

(** The solver has no [exit]. *)
Lemma canCompleteCompOrientation_noExit (fuel : nat)
    (adjacencyList : list bitset) (n : Z) (deletableEdges : bitset)
    (edgeNumbering : matrix) :
  forall orientation endpoint1 endpoint2,
    noExit (canCompleteCompOrientation fuel adjacencyList n orientation
              deletableEdges edgeNumbering endpoint1 endpoint2).
Proof.
  induction fuel as [|f IH]; intros o e1 e2; [discriminate|].
  cbn [canCompleteCompOrientation].
  destruct (_ && _); [apply IH|].
  destruct (_ && _); [apply compOrientationCheck_noExit|].
  destruct (_ || _); [apply IH|].
  assert (Htry : forall a b,
            noExit
              (andThen
                 (canAddNewArc (arcFuel n) adjacencyList n o a b deletableEdges
                    edgeNumbering)
                 (fun o0 =>
                    canCompleteCompOrientation f adjacencyList n o0
                      deletableEdges edgeNumbering e1
                      (next (aget EMPTY adjacencyList e1) e2)))).
  { intros a b. apply holdsOnSuccess_noExit.
    apply holdsOnSuccess_andThen with (J := fun _ => True);
      [apply canAddNewArc_noExit|].
    intros o' _. apply holdsOnSuccess_noExit, IH. }
  apply noExit_bind; [apply Htry|].
  intros [[|] o']; [apply noExit_Ret | apply Htry].
Qed.

(** C8 (amended). The process is ended, with [exit(1)], by the double check
    of the heuristic: when one of the two orientations it has built is not
    strongly connected, and when their sets of deletable edges are not
    complementary. A wrong count of arcs at a leaf of the search for a
    complementary orientation does not end the process: the line
    [Something went wrong] is written to stderr, the search goes on with the
    test of the deletable edges, and no call of the search ends the
    process. *)
Theorem abort_only_in_double_check
    (adjacencyList : list bitset) (n : Z)
    (orientation1 orientation2 orientation : diGraph)
    (deletableEdges : bitset) (edgeNumbering : matrix) :
  numberOfArcs orientation <> 3 * n ÷ 2 ->
  (isStronglyConnected orientation1 = Ret false
   \/ (isStronglyConnected orientation1 = Ret true
       /\ isStronglyConnected orientation2 = Ret false) ->
   verifyOrientations adjacencyList n orientation1 orientation2 = Exit 1)
  /\ (forall S1 o1 S2 o2,
        isStronglyConnected orientation1 = Ret true ->
        isStronglyConnected orientation2 = Ret true ->
        getDeletableEdges orientation1 n
          (numberEdges adjacencyList n (newMatrix n)) = Ret (S1, o1) ->
        getDeletableEdges orientation2 n
          (numberEdges adjacencyList n (newMatrix n)) = Ret (S2, o2) ->
        union S1 S2 <> complement EMPTY (3 * n ÷ 2) ->
        verifyOrientations adjacencyList n orientation1 orientation2 = Exit 1)
  /\ (forall fuel,
        canCompleteCompOrientation (S fuel) adjacencyList n orientation
          deletableEdges edgeNumbering (n - 1) (-1)
        = snd (compOrientationCheck n orientation deletableEdges edgeNumbering))
  /\ fst (compOrientationCheck n orientation deletableEdges edgeNumbering)
     = ["Something went wrong"%string]
  /\ (forall fuel o endpoint1 endpoint2,
        noExit (canCompleteCompOrientation fuel adjacencyList n o
                  deletableEdges edgeNumbering endpoint1 endpoint2)).
Proof.
  intros Hcount. split; [|split; [|split; [|split]]].
  - unfold verifyOrientations. intros [H1|[H1 H2]]; rewrite H1; cbn [bind].
    + reflexivity.
    + rewrite H2. reflexivity.
  - intros S1 o1 S2 o2 H1 H2 HS1 HS2 Hne. unfold verifyOrientations.
    rewrite H1. cbn [bind]. rewrite H2. cbn [bind negb orb].
    rewrite HS1. cbn [bind]. rewrite HS2. cbn [bind fst].
    destruct (equals _ _) eqn:E; [|reflexivity].
    apply Z.eqb_eq in E. contradiction.
  - intros fuel. cbn [canCompleteCompOrientation].
    rewrite Z.ltb_irrefl, !Z.eqb_refl. reflexivity.
  - unfold compOrientationCheck. cbn [fst].
    destruct (Z.eqb_spec (numberOfArcs orientation) (3 * n ÷ 2));
      [contradiction|reflexivity].
  - intros fuel o e1 e2. apply canCompleteCompOrientation_noExit.
Qed.

Lemma abort_only_in_double_check_witness :
  verifyOrientations K4 4 K4_acyclic K4_cyclic = Exit 1
  /\ fst (compOrientationCheck 4 K4_miscounted (complement EMPTY 6)
            (numberEdges K4 4 (newMatrix 4)))
     = ["Something went wrong"%string].
Proof.
  destruct (abort_only_in_double_check K4 4 K4_acyclic K4_cyclic K4_miscounted
              (complement EMPTY 6) (numberEdges K4 4 (newMatrix 4)))
    as (Hstrong & _ & _ & Hline & _).
  - vm_compute. lia.
  - split; [|exact Hline]. apply Hstrong. left. vm_compute. reflexivity.
Defined.

(** C8, as stated, fails for the count of arcs. At the leaf of the search
    on K4, with an orientation whose count of arcs is 7 instead of 6, the
    line is written and the search returns, here with the answer true. *)
Lemma arc_count_mismatch_does_not_abort :
  numberOfArcs K4_miscounted <> 3 * 4 ÷ 2
  /\ compOrientationCheck 4 K4_miscounted (complement EMPTY 6)
       (numberEdges K4 4 (newMatrix 4))
     = (["Something went wrong"%string], Ret (true, K4_miscounted))
  /\ canCompleteCompOrientation (searchFuel 4) K4 4 K4_miscounted
       (complement EMPTY 6) (numberEdges K4 4 (newMatrix 4)) 3 (-1)
     = Ret (true, K4_miscounted).
Proof.
  split; [vm_compute; lia|]. split; vm_compute; reflexivity.
Qed.

(** ** The results of the searches *)

Lemma examineOrientation_values (adjacencyList : list bitset) (opts : options)
    (n : Z) (edgeNumbering : matrix) (st : genState) :
  zeroOrTwo (examineOrientation adjacencyList opts n edgeNumbering st).
Proof.
  unfold examineOrientation.
  destruct (isStronglyConnected _) as [| |[|]]; cbn [bind negb]; try exact I;
    [|left; reflexivity].
  destruct (getDeletableEdges _ _ _) as [| |[T o]]; cbn [bind]; try exact I.
  destruct (hasVertexWithoutDeletableEdge _ _ _ _); [left; reflexivity|].
  destruct (bruteForceFlag opts); cbn [negb gsPool].
  - destruct (getIntermediateFrankNumber _ _ _ _) as [| |[[r c] p]] eqn:E;
      cbn [bind]; try exact I.
    apply (getIntermediateFrankNumber_sound (fun _ => True)) in E;
      [exact (proj1 (proj2 E))|exact I|intros i _; exact I].
  - destruct (hasComplementaryOrientation _ _ _ _) as [| |[|]]; cbn [bind];
      try exact I; [right|left]; reflexivity.
Qed.

Lemma processOrientation_values (adjacencyList : list bitset) (opts : options)
    (n : Z) (edgeNumbering : matrix) (st : genState) :
  zeroOrTwo (processOrientation adjacencyList opts n edgeNumbering st).
Proof.
  unfold processOrientation. destruct (_ && _); [left; reflexivity|].
  apply examineOrientation_values.
Qed.

Lemma generateAllOrientations_values (fuel : nat)
    (adjacencyList : list bitset) (opts : options) (n : Z)
    (edgeNumbering : matrix) :
  forall st endpoint1 endpoint2,
    zeroOrTwo (generateAllOrientations fuel adjacencyList opts n edgeNumbering
                 st endpoint1 endpoint2).
Proof.
  induction fuel as [|f IH]; intros st e1 e2; [exact I|].
  cbn [generateAllOrientations].
  destruct (_ && _); [apply IH|].
  destruct (_ && _); [apply processOrientation_values|].
  assert (Hbranch : forall (c : bool) st1 e,
            zeroOrTwo (if c
                       then generateAllOrientations f adjacencyList opts n
                              edgeNumbering st1 e1 e
                       else Ret (0, st1))).
  { intros [|] st1 e; [apply IH | left; reflexivity]. }
  match goal with
  | |- zeroOrTwo (bind ?c _) => pose proof (Hbranch _ _ _ : zeroOrTwo c) as H1;
                                 destruct c as [| |[r1 st1]]
  end; cbn [bind]; try exact I.
  destruct (negb (r1 =? 0)); [exact H1|].
  match goal with
  | |- zeroOrTwo (bind ?c _) => pose proof (Hbranch _ _ _ : zeroOrTwo c) as H2;
                                 destruct c as [| |[r2 st2]]
  end; cbn [bind]; try exact I.
  destruct (negb (r2 =? 0)); [exact H2|left; reflexivity].
Qed.

Lemma findFrankNumber_values (adjacencyList : list bitset) (n : Z)
    (opts : options) (numberOf : counters) (r : Z) (opts' : options)
    (numberOf' : counters) :
  findFrankNumber adjacencyList n opts numberOf = Ret (r, opts', numberOf') ->
  (r = 0 \/ r = 2) /\ complementFlag opts' = complementFlag opts.
Proof.
  unfold findFrankNumber.
  pose proof (generateAllOrientations_values (searchFuel n) adjacencyList opts n
                (numberEdges adjacencyList n (newMatrix n))
                (mkGenState numberOf (initArray (sizeOfArray opts))
                   (emptyGraph n)) (-1) (-1)) as Hv.
  destruct (generateAllOrientations _ _ _ _ _ _ _ _) as [| |[r0 st0]];
    cbn [bind]; try discriminate.
  destruct (bruteForceFlag opts).
  - intros H. injection H as <- <- _. split; [exact Hv|].
    destruct (_ <? _); reflexivity.
  - intros H. injection H as <- <- _. split; [exact Hv|reflexivity].
Qed.

Lemma computeFrankNumber_values
    (configurationTest :
       list bitset -> Z -> options -> counters -> list Z ->
       result (bool * counters))
    (adjacencyList : list bitset) (n : Z)
    (opts : options) (numberOf : counters) (r : Z) (opts' : options)
    (numberOf' : counters) :
  computeFrankNumber configurationTest adjacencyList n opts numberOf
  = Ret (r, opts', numberOf') ->
  (r = 0 \/ r = 2) /\ complementFlag opts' = complementFlag opts.
Proof.
  unfold computeFrankNumber.
  destruct (oddCyclesHeuristicFlag opts).
  - destruct (hasSufficientCondition _ _ _ _ _ _ _ _)
      as [| |[[[|] c] F]]; cbn [bind]; try discriminate.
    + rewrite andb_false_r. intros H. injection H as <- <- _.
      split; [right|]; reflexivity.
    + destruct (exhaustiveCheckFlag opts); cbn [andb Z.eqb].
      * apply findFrankNumber_values.
      * intros H. injection H as <- <- _. split; [left|]; reflexivity.
  - cbn [bind]. destruct (exhaustiveCheckFlag opts); cbn [andb Z.eqb].
    + apply findFrankNumber_values.
    + intros H. injection H as <- <- _. split; [left|]; reflexivity.
Qed.

(** ** The complement flag is only read by the driver *)

Lemma generateAllOrientations_mode (b : bool) (fuel : nat)
    (adjacencyList : list bitset) (opts : options) (n : Z)
    (edgeNumbering : matrix) :
  forall st endpoint1 endpoint2,
    generateAllOrientations fuel adjacencyList (withComplementFlag b opts) n
      edgeNumbering st endpoint1 endpoint2
    = generateAllOrientations fuel adjacencyList opts n edgeNumbering st
        endpoint1 endpoint2.
Proof.
  induction fuel as [|f IH]; intros st e1 e2; [reflexivity|].
  cbn [generateAllOrientations].
  destruct (_ && _); [apply IH|].
  destruct (_ && _); [reflexivity|].
  rewrite IH.
  match goal with
  | |- bind ?c _ = _ => destruct c as [| |[r1 st1]]
  end; cbn [bind]; try reflexivity.
  destruct (negb (r1 =? 0)); [reflexivity|].
  rewrite IH. reflexivity.
Qed.

Lemma findFrankNumber_mode (b : bool) (adjacencyList : list bitset) (n : Z)
    (opts : options) (numberOf : counters) :
  findFrankNumber adjacencyList n (withComplementFlag b opts) numberOf
  = let* r := findFrankNumber adjacencyList n opts numberOf in
    Ret (fst (fst r), withComplementFlag b (snd (fst r)), snd r).
Proof.
  unfold findFrankNumber. rewrite generateAllOrientations_mode.
  cbn [sizeOfArray bruteForceFlag withComplementFlag].
  destruct (generateAllOrientations _ _ _ _ _ _ _ _) as [| |[r0 st0]];
    cbn [bind]; try reflexivity.
  destruct (bruteForceFlag opts); cbn [bind fst snd]; [|reflexivity].
  destruct (_ <? _); reflexivity.
Qed.

Section Modes.

Variable configurationTest :
  list bitset -> Z -> options -> counters -> list Z -> result (bool * counters).

Hypothesis configurationTest_mode :
  forall b adjacencyList n opts numberOf F,
    configurationTest adjacencyList n (withComplementFlag b opts) numberOf F
    = configurationTest adjacencyList n opts numberOf F.

Lemma tryNeighbours_ext
    (attempt attempt' :
       bitset -> counters -> list Z -> result (bool * counters * list Z))
    (remainingVertices : bitset) (nextVertex : Z) (neighbours : list Z) :
  (forall s c F, attempt s c F = attempt' s c F) ->
  forall numberOf F,
    tryNeighbours attempt remainingVertices nextVertex neighbours numberOf F
    = tryNeighbours attempt' remainingVertices nextVertex neighbours numberOf F.
Proof.
  intros Hext. induction neighbours as [|w rest IH]; intros numberOf F;
    cbn [tryNeighbours]; [reflexivity|].
  rewrite Hext.
  destruct (attempt' _ _ _) as [| |[[[|] c] F']]; cbn [bind];
    [reflexivity|reflexivity|reflexivity|apply IH].
Qed.

Lemma hasSufficientCondition_mode (b : bool) (fuel : nat)
    (adjacencyList : list bitset) (n : Z) (opts : options) :
  forall numberOf remainingVertices F,
    hasSufficientCondition configurationTest fuel adjacencyList n
      (withComplementFlag b opts) numberOf remainingVertices F
    = hasSufficientCondition configurationTest fuel adjacencyList n opts
        numberOf remainingVertices F.
Proof.
  induction fuel as [|f IH]; intros numberOf rem F; [reflexivity|].
  cbn [hasSufficientCondition].
  destruct (_ =? _).
  - rewrite configurationTest_mode. reflexivity.
  - apply tryNeighbours_ext. intros s c F'. apply IH.
Qed.

Lemma computeFrankNumber_mode (b : bool) (adjacencyList : list bitset) (n : Z)
    (opts : options) (numberOf : counters) :
  computeFrankNumber configurationTest adjacencyList n
    (withComplementFlag b opts) numberOf
  = let* r := computeFrankNumber configurationTest adjacencyList n opts
                numberOf in
    Ret (fst (fst r), withComplementFlag b (snd (fst r)), snd r).
Proof.
  unfold computeFrankNumber.
  cbn [oddCyclesHeuristicFlag exhaustiveCheckFlag withComplementFlag].
  fold (withComplementFlag b opts).
  rewrite hasSufficientCondition_mode.
  destruct (if oddCyclesHeuristicFlag opts then _ else _) as [| |[v c]];
    cbn [bind]; try reflexivity.
  destruct (_ && _); [apply findFrankNumber_mode|reflexivity].
Qed.

End Modes.

(** ** The driver *)

Lemma getNumberOfVertices_quiet (graphString : cstring) :
  snd (getNumberOfVertices graphString) <> -1 ->
  fst (getNumberOfVertices graphString) = [].
Proof.
  unfold getNumberOfVertices.
  repeat match goal with
         | |- context [if ?c then _ else _] => destruct c
         end; cbn [fst snd]; congruence.
Qed.

Lemma app_singleton_neq {A : Type} (l : list A) (x : A) : l ++ [x] <> l.
Proof.
  intros H. apply (f_equal (@length A)) in H.
  rewrite length_app in H. simpl in H. lia.
Qed.

Section DriverRun.

Variable MAXVERTICES : Z.
Variable configurationTest :
  list bitset -> Z -> options -> counters -> list Z -> result (bool * counters).

(** A line is processed when it is in the class of the run, its number of
    vertices can be read and is within the bounds, and the line is ended by
    a newline; its result is that of [computeFrankNumber], and the line is
    written to stdout according to [emitsGraph]. *)
Lemma processLine_processed (st : driverState) (graphString : cstring)
    (adjacencyList : list bitset) (frankNumber : Z) (st' : driverState) :
  processLine MAXVERTICES configurationTest st graphString
  = Ret (Processed adjacencyList frankNumber, st') ->
  let n := snd (getNumberOfVertices graphString) in
  n <> -1 /\ n <= MAXVERTICES /\ n * 3 ÷ 2 <= MAXVERTICES
  /\ fst (loadGraph MAXVERTICES graphString n) <> -1
  /\ adjacencyList = snd (loadGraph MAXVERTICES graphString n)
  /\ exists numberOf',
       computeFrankNumber configurationTest adjacencyList n (dsOptions st)
         (freshCounters (dsNumberOf st))
       = Ret (frankNumber, dsOptions st', numberOf')
       /\ stdout st'
          = stdout st
            ++ (if emitsGraph (dsOptions st') frankNumber
                then [graphString] else []).
Proof.
  unfold processLine. fold (freshCounters (dsNumberOf st)).
  destruct (_ && _); [discriminate|].
  destruct (_ && _); [discriminate|].
  pose proof (getNumberOfVertices_quiet graphString) as Hquiet.
  destruct (getNumberOfVertices graphString) as [written n]. cbn [fst snd] in *.
  destruct (Z.eqb_spec n (-1)) as [|Hn]; cbn [orb]; [discriminate|].
  destruct (Z.ltb_spec MAXVERTICES n); [discriminate|].
  destruct (Z.ltb_spec MAXVERTICES (n * 3 ÷ 2)); [discriminate|].
  destruct (loadGraph MAXVERTICES graphString n) as [status adj].
  destruct (Z.eqb_spec status (-1)); [discriminate|].
  destruct (computeFrankNumber _ _ _ _ _) as [| |[[fn opts'] c']] eqn:E;
    cbn [bind]; try discriminate.
  rewrite (Hquiet Hn), app_nil_r.
  destruct (emitsGraph opts' fn) eqn:Eemit; intros Hrun;
    injection Hrun as <- <- <-;
    cbn [dsOptions stdout fst snd]; rewrite Eemit;
    (split; [exact Hn|]); (split; [assumption|]); (split; [assumption|]);
    (split; [assumption|]); (split; [reflexivity|]);
    exists c'; (split; [exact E|]); rewrite ?app_nil_r; reflexivity.
Qed.

End DriverRun.

Lemma processLine_mode (MAXVERTICES : Z)
    (configurationTest :
       list bitset -> Z -> options -> counters -> list Z ->
       result (bool * counters))
    (b : bool) (st : driverState) (graphString : cstring)
    (adjacencyList : list bitset) (frankNumber : Z) (st' : driverState) :
  (forall b adjacencyList n opts numberOf F,
      configurationTest adjacencyList n (withComplementFlag b opts) numberOf F
      = configurationTest adjacencyList n opts numberOf F) ->
  processLine MAXVERTICES configurationTest st graphString
  = Ret (Processed adjacencyList frankNumber, st') ->
  exists st'',
    processLine MAXVERTICES configurationTest (inMode b st) graphString
    = Ret (Processed adjacencyList frankNumber, st'')
    /\ stdout st''
       = stdout st
         ++ (if emitsGraph (withComplementFlag b (dsOptions st')) frankNumber
             then [graphString] else []).
Proof.
  intros Hmode. unfold processLine.
  cbn [inMode dsOptions dsNumberOf totalGraphs counter skippedGraphs
       passedGraphs stdout withComplementFlag singleGraphFlag modulo remainder].
  fold (withComplementFlag b (dsOptions st)).
  destruct (_ && _); [discriminate|].
  destruct (_ && _); [discriminate|].
  pose proof (getNumberOfVertices_quiet graphString) as Hquiet.
  destruct (getNumberOfVertices graphString) as [written n]. cbn [fst snd] in *.
  destruct (Z.eqb_spec n (-1)) as [|Hn]; cbn [orb]; [discriminate|].
  destruct (Z.ltb_spec MAXVERTICES n); [discriminate|].
  destruct (Z.ltb_spec MAXVERTICES (n * 3 ÷ 2)); [discriminate|].
  destruct (loadGraph MAXVERTICES graphString n) as [status adj].
  destruct (Z.eqb_spec status (-1)); [discriminate|].
  rewrite (computeFrankNumber_mode configurationTest Hmode).
  destruct (computeFrankNumber _ _ _ _ _) as [| |[[fn opts'] c']];
    cbn [bind fst snd]; try discriminate.
  rewrite (Hquiet Hn), app_nil_r.
  intros Hrun.
  assert (Hres : adj = adjacencyList /\ fn = frankNumber
                 /\ dsOptions st' = opts').
  { destruct (emitsGraph opts' fn); injection Hrun as <- <- <-;
      split; [reflexivity|split; reflexivity|reflexivity|split; reflexivity]. }
  destruct Hres as (-> & -> & Hopts). rewrite Hopts. clear Hrun.
  destruct (emitsGraph (withComplementFlag b opts') frankNumber);
    eexists; (split; [reflexivity|]); cbn [stdout]; rewrite ?app_nil_r;
    reflexivity.
Qed.

Lemma emitsGraph_spec (opts : options) (frankNumber : Z) :
  frankNumber = 0 \/ frankNumber = 2 ->
  emitsGraph opts frankNumber
  = if complementFlag opts then frankNumber =? 2 else negb (frankNumber =? 2).
Proof.
  unfold emitsGraph. intros [-> | ->]; destruct (complementFlag opts);
    reflexivity.
Qed.

(** C3. For a processed line the result is 0 or 2. Without [-c] the line is
    written to stdout when the result is not 2 and nothing is written when it
    is 2; with [-c] the line is written when the result is 2 and nothing is
    written when it is not. The run with the other setting of [-c] processes
    the line with the same result, and writes it exactly when this run does
    not: no line is written in both modes. The configurations test of the
    heuristic does not read the flag. *)
Theorem driver_output_policy (MAXVERTICES : Z)
    (configurationTest :
       list bitset -> Z -> options -> counters -> list Z ->
       result (bool * counters))
    (st : driverState) (graphString : cstring) (adjacencyList : list bitset)
    (frankNumber : Z) (st' : driverState) :
  (forall b adjacencyList n opts numberOf F,
      configurationTest adjacencyList n (withComplementFlag b opts) numberOf F
      = configurationTest adjacencyList n opts numberOf F) ->
  processLine MAXVERTICES configurationTest st graphString
  = Ret (Processed adjacencyList frankNumber, st') ->
  (frankNumber = 0 \/ frankNumber = 2)
  /\ (complementFlag (dsOptions st) = false ->
      (frankNumber <> 2 -> stdout st' = stdout st ++ [graphString])
      /\ (frankNumber = 2 -> stdout st' = stdout st))
  /\ (complementFlag (dsOptions st) = true ->
      (frankNumber = 2 -> stdout st' = stdout st ++ [graphString])
      /\ (frankNumber <> 2 -> stdout st' = stdout st))
  /\ exists st'',
       processLine MAXVERTICES configurationTest
         (inMode (negb (complementFlag (dsOptions st))) st) graphString
       = Ret (Processed adjacencyList frankNumber, st'')
       /\ (stdout st' = stdout st ++ [graphString] -> stdout st'' = stdout st)
       /\ (stdout st' = stdout st -> stdout st'' = stdout st ++ [graphString]).
Proof.
  intros Hmode Hrun.
  destruct (processLine_mode MAXVERTICES configurationTest
              (negb (complementFlag (dsOptions st))) st graphString
              adjacencyList frankNumber st' Hmode Hrun) as (st'' & Hrun' & Hout').
  apply processLine_processed in Hrun.
  destruct Hrun as (_ & _ & _ & _ & _ & c' & Hcompute & Hout).
  apply computeFrankNumber_values in Hcompute.
  destruct Hcompute as [Hvalues Hflag].
  rewrite emitsGraph_spec in Hout, Hout' by exact Hvalues.
  cbn [complementFlag withComplementFlag] in Hout'. rewrite Hflag in Hout.
  split; [exact Hvalues|].
  assert (Hcases : (frankNumber =? 2) = true /\ frankNumber = 2
                   \/ (frankNumber =? 2) = false /\ frankNumber <> 2).
  { destruct (Z.eqb_spec frankNumber 2); [left|right]; split; auto. }
  split; [|split].
  - intros Hc. rewrite Hc in Hout.
    destruct Hcases as [[E H2]|[E H2]]; rewrite E in Hout; cbn [negb] in Hout;
      rewrite ?app_nil_r in Hout; split; intros H; try exact Hout;
      contradiction.
  - intros Hc. rewrite Hc in Hout.
    destruct Hcases as [[E H2]|[E H2]]; rewrite E in Hout;
      rewrite ?app_nil_r in Hout; split; intros H; try exact Hout;
      contradiction.
  - exists st''. split; [exact Hrun'|].
    destruct (complementFlag (dsOptions st));
      destruct Hcases as [[E H2]|[E H2]]; rewrite E in Hout, Hout';
      cbn [negb] in Hout, Hout'; rewrite Hout, Hout', ?app_nil_r;
      split; intros H; try reflexivity;
      first [ destruct (app_singleton_neq _ _ H)
            | symmetry in H; destruct (app_singleton_neq _ _ H) ].
Qed.

Lemma driver_output_policy_witness :
  exists st',
    processLine 64 rejectConfiguration (startState defaultOptions) K4_line
    = Ret (Processed K4 2, st')
    /\ stdout st' = []
    /\ exists st'',
         processLine 64 rejectConfiguration
           (inMode true (startState defaultOptions)) K4_line
         = Ret (Processed K4 2, st'')
         /\ stdout st'' = [K4_line].
Proof.
  assert (Hrun : exists st',
             processLine 64 rejectConfiguration (startState defaultOptions)
               K4_line = Ret (Processed K4 2, st'))
    by (eexists; vm_compute; reflexivity).
  destruct Hrun as [st' Hrun]. exists st'. split; [exact Hrun|].
  destruct (driver_output_policy 64 rejectConfiguration
              (startState defaultOptions) K4_line K4 2 st'
              (fun _ _ _ _ _ _ => eq_refl) Hrun)
    as (_ & Hdefault & _ & st'' & Hrun' & _ & Hother).
  destruct (Hdefault eq_refl) as [_ Hsilent].
  split; [apply Hsilent; reflexivity|].
  exists st''. split; [exact Hrun'|].
  apply Hother, Hsilent. reflexivity.
Defined.




(** ** Strong connectivity and cuts of two edges *)

Lemma checkStronglyConnected_sound (o : diGraph) :
  wfDiGraph o -> checkStronglyConnected o = true -> stronglyConnected o.
Proof.
  intros Hwf Hcheck u v Hu Hv Huv.
  pose proof Hwf as (Hn & _ & _ & Hon & _).
  unfold checkStronglyConnected in Hcheck.
  rewrite forallb_vertices in Hcheck. specialize (Hcheck u Hu).
  rewrite forallb_vertices in Hcheck. specialize (Hcheck v Hv).
  destruct (Z.eqb_spec u v); [contradiction|]. cbn [orb] in Hcheck.
  destruct (containsDirectedPathBetween_spec o Hon
              (dfsFuel (numberOfVertices o))
              (complement EMPTY (numberOfVertices o)) u v)
    as (b & Hrun & Hb).
  - apply complement_EMPTY_nonneg. exact Hn.
  - lia.
  - eapply Nat.le_lt_trans.
    + apply elements_length_le.
      * apply removeElement_nonneg, complement_EMPTY_nonneg. exact Hn.
      * apply complement_EMPTY_nonneg. exact Hn.
      * intros i Hi. rewrite contains_removeElement_gen in Hi.
        apply andb_true_iff in Hi. tauto.
    + rewrite elements_complement_length by exact Hn. unfold dfsFuel. lia.
  - rewrite Hrun in Hcheck. destruct b; [|discriminate].
    apply Hb. reflexivity.
Qed.



Section TwoEdgeCut.

Variables (o : diGraph) (X : bitset) (a b c d : Z).

Hypothesis one_direction : forall u v, arc o u v -> ~ arc o v u.
Hypothesis cut :
  forall u v, arc o u v -> contains X u <> contains X v ->
    (u = a /\ v = b) \/ (u = b /\ v = a) \/ (u = c /\ v = d) \/ (u = d /\ v = c).
Hypothesis a_inside : contains X a = true.
Hypothesis b_outside : contains X b = false.
Hypothesis c_inside : contains X c = true.
Hypothesis d_outside : contains X d = false.
Hypothesis a_vertex : 0 <= a < numberOfVertices o.
Hypothesis b_vertex : 0 <= b < numberOfVertices o.
Hypothesis strong : stronglyConnected o.




End TwoEdgeCut.



(** ** Counting the elements of a bitset *)

Lemma size_nonneg (s : bitset) : 0 <= size s.
Proof. unfold size. lia. Qed.

Lemma size_le (s t : bitset) :
  0 <= s -> 0 <= t -> subsetOf s t -> size s <= size t.
Proof.
  intros Hs Ht Hsub. unfold size.
  pose proof (elements_length_le s t Hs Ht Hsub). lia.
Qed.

Lemma size_lt (s t : bitset) (y : Z) :
  0 <= s -> 0 <= t -> subsetOf s t ->
  contains t y = true -> contains s y = false -> size s < size t.
Proof.
  intros Hs Ht Hsub Hty Hsy. unfold size.
  pose proof (elements_length_lt s t y Hs Ht Hsub Hty Hsy). lia.
Qed.

Lemma size_add (s : bitset) (y : Z) :
  0 <= s -> 0 <= y -> contains s y = false -> size (add s y) = size s + 1.
Proof.
  intros Hs Hy Hsy.
  assert (Ha : 0 <= add s y) by (apply add_nonneg; exact Hs).
  assert (H1 : (length (elements (add s y)) <= length (y :: elements s))%nat).
  { apply List.NoDup_incl_length; [apply elements_NoDup|].
    intros x Hx. apply elements_spec in Hx; [|exact Ha].
    rewrite contains_add in Hx by exact Hy. apply orb_true_iff in Hx.
    destruct Hx as [Hx|Hx].
    - right. apply elements_spec; assumption.
    - left. apply Z.eqb_eq in Hx. congruence. }
  assert (H2 : (length (y :: elements s) <= length (elements (add s y)))%nat).
  { apply List.NoDup_incl_length.
    - constructor; [|apply elements_NoDup].
      intros Hin. apply elements_spec in Hin; [|exact Hs]. congruence.
    - intros x Hx. apply elements_spec; [exact Ha|].
      rewrite contains_add by exact Hy. apply orb_true_iff.
      destruct Hx as [<-|Hx].
      + right. apply Z.eqb_refl.
      + left. apply elements_spec in Hx; assumption. }
  unfold size. simpl in H1, H2. lia.
Qed.

Lemma size_positive (s : bitset) :
  0 < size s -> exists z, contains s z = true.
Proof.
  unfold size. intros H. destruct (elements s) as [|z l] eqn:E; [simpl in H; lia|].
  exists z. apply elements_contains. rewrite E. left. reflexivity.
Qed.

Lemma size_two (s : bitset) (a b : Z) :
  0 <= s ->
  contains s a = true -> contains s b = true -> a <> b -> 2 <= size s.
Proof.
  intros Hs Ha Hb Hab.
  assert (H : (length [a; b] <= length (elements s))%nat).
  { apply List.NoDup_incl_length.
    - constructor; [simpl; intuition congruence|].
      constructor; [simpl; tauto | constructor].
    - intros x [<-|[<-|[]]]; apply elements_spec; assumption. }
  unfold size. simpl in H. lia.
Qed.

Lemma size_three (s : bitset) (a b c : Z) :
  0 <= s ->
  contains s a = true -> contains s b = true -> contains s c = true ->
  a <> b -> a <> c -> b <> c -> 3 <= size s.
Proof.
  intros Hs Ha Hb Hc Hab Hac Hbc.
  assert (H : (length [a; b; c] <= length (elements s))%nat).
  { apply List.NoDup_incl_length.
    - constructor; [simpl; intuition congruence|].
      constructor; [simpl; intuition congruence|].
      constructor; [simpl; tauto | constructor].
    - intros x [<-|[<-|[<-|[]]]]; apply elements_spec; assumption. }
  unfold size. simpl in H. lia.
Qed.

(** A subset with at least as many elements is the whole set. *)
Lemma subset_full (s t : bitset) (y : Z) :
  0 <= s -> 0 <= t -> subsetOf s t -> size t <= size s ->
  contains t y = true -> contains s y = true.
Proof.
  intros Hs Ht Hsub Hsize Hy.
  destruct (contains s y) eqn:E; [reflexivity|].
  pose proof (size_lt s t y Hs Ht Hsub Hy E). lia.
Qed.

Lemma size_union_le (s t : bitset) :
  0 <= s -> 0 <= t -> size (union s t) <= size s + size t.
Proof.
  intros Hs Ht.
  assert (Hu : 0 <= union s t) by (apply Z.lor_nonneg; split; assumption).
  assert (H : (length (elements (union s t))
               <= length (elements s ++ elements t))%nat).
  { apply List.NoDup_incl_length; [apply elements_NoDup|].
    intros x Hx. apply elements_spec in Hx; [|exact Hu].
    rewrite contains_union in Hx. apply orb_true_iff in Hx.
    apply in_or_app. destruct Hx; [left|right]; apply elements_spec; assumption. }
  unfold size. rewrite length_app in H. lia.
Qed.

Lemma size_union_disjoint (s t : bitset) :
  0 <= s -> 0 <= t ->
  (forall x, contains s x = true -> contains t x = false) ->
  size (union s t) = size s + size t.
Proof.
  intros Hs Ht Hdis.
  assert (Hu : 0 <= union s t) by (apply Z.lor_nonneg; split; assumption).
  assert (H : (length (elements s ++ elements t)
               <= length (elements (union s t)))%nat).
  { apply List.NoDup_incl_length.
    - apply List.NoDup_app; [apply elements_NoDup|apply elements_NoDup|].
      intros x Hx Hx'. apply elements_spec in Hx; [|exact Hs].
      apply elements_spec in Hx'; [|exact Ht].
      rewrite (Hdis x Hx) in Hx'. discriminate.
    - intros x Hx. apply elements_spec; [exact Hu|].
      rewrite contains_union. apply orb_true_iff.
      apply in_app_or in Hx.
      destruct Hx as [Hx|Hx]; [left|right]; apply elements_spec in Hx;
        assumption. }
  pose proof (size_union_le s t Hs Ht).
  unfold size in *. rewrite length_app in H. lia.
Qed.

Lemma next_found (s : bitset) (z : Z) :
  0 <= s -> contains s z = true -> next s (-1) <> -1.
Proof.
  intros Hs Hz Hnone. apply next_none in Hnone.
  assert (Hin : In z (List.filter (fun v => -1 <? v) (elements s))).
  { apply List.filter_In. split.
    - apply elements_spec; assumption.
    - apply Z.ltb_lt. pose proof (contains_nonneg s z Hz). lia. }
  rewrite Hnone in Hin. destruct Hin.
Qed.

(** ** The numbering of the edges *)

Lemma fold_left_ext {A B : Type} (f g : A -> B -> A) (l : list B) :
  (forall a x, f a x = g a x) ->
  forall a, fold_left f l a = fold_left g l a.
Proof.
  intros Hext. induction l as [|x l IH]; intros a; simpl; [reflexivity|].
  rewrite Hext. apply IH.
Qed.

Lemma fold_left_map {A B C : Type} (f : A -> C -> A) (g : B -> C) (l : list B) :
  forall a, fold_left f (map g l) a = fold_left (fun a x => f a (g x)) l a.
Proof. induction l as [|x l IH]; intros a; simpl; [reflexivity|apply IH]. Qed.

Lemma fold_left_flat_map {A B C : Type} (f : A -> C -> A) (g : B -> list C)
    (l : list B) :
  forall a,
    fold_left f (flat_map g l) a
    = fold_left (fun a x => fold_left f (g x) a) l a.
Proof.
  induction l as [|x l IH]; intros a; simpl; [reflexivity|].
  rewrite fold_left_app. apply IH.
Qed.

(** [numberEdges] numbers the edges in the order of [edgeList]. *)
Lemma numberEdges_edgeList (adjacencyList : list bitset) (n : Z) (m : matrix) :
  numberEdges adjacencyList n m
  = fst (fold_left numberStep (edgeList adjacencyList n) (m, 0)).
Proof.
  unfold numberEdges, edgeList. f_equal. rewrite fold_left_flat_map.
  apply fold_left_ext. intros st i. unfold edgeRow. rewrite fold_left_map.
  apply fold_left_ext. intros [m' c] nbr. reflexivity.
Qed.

Lemma numberStep_fold (n : Z) (edges : list (Z * Z)) :
  forall m c,
    squareMatrix m n ->
    (forall u v, In (u, v) edges -> 0 <= u < n /\ 0 <= v < n) ->
    edgesDistinct edges ->
    snd (fold_left numberStep edges (m, c)) = c + Z.of_nat (length edges)
    /\ (forall k u v, nth_error edges k = Some (u, v) ->
          mget (fst (fold_left numberStep edges (m, c))) u v = c + Z.of_nat k
          /\ mget (fst (fold_left numberStep edges (m, c))) v u
             = c + Z.of_nat k)
    /\ (forall a b, ~ In (a, b) edges -> ~ In (b, a) edges ->
          mget (fst (fold_left numberStep edges (m, c))) a b = mget m a b).
Proof.
  induction edges as [|[u v] rest IH]; intros m c Hsq Hrange [Hnd Hrev].
  - simpl. split; [lia|]. split; [|reflexivity].
    intros k a b Hk. destruct k; discriminate.
  - cbn [fold_left].
    change (numberStep (m, c) (u, v))
      with (mset (mset m u v c) v u c, c + 1).
    set (m1 := mset (mset m u v c) v u c).
    assert (Hsq1 : squareMatrix m1 n)
      by (apply squareMatrix_mset, squareMatrix_mset; exact Hsq).
    destruct (Hrange u v (or_introl eq_refl)) as [Hu Hv].
    assert (Huv : u <> v).
    { intros ->. apply (Hrev v v); left; reflexivity. }
    apply List.NoDup_cons_iff in Hnd. destruct Hnd as [Hnotin Hnd].
    assert (Hnotrev : ~ In (v, u) rest).
    { intros H. apply (Hrev u v); [left; reflexivity|right; exact H]. }
    destruct (IH m1 (c + 1) Hsq1) as (Hc & Hnth & Hsame).
    { intros a b Hab. apply Hrange. right. exact Hab. }
    { split; [exact Hnd|]. intros a b Hab Hba.
      apply (Hrev a b); right; assumption. }
    assert (Hm1 : forall a b,
              mget m1 a b
              = if ((a =? v) && (b =? u)) || ((a =? u) && (b =? v))
                then c else mget m a b).
    { intros a b. unfold m1.
      rewrite (mget_mset _ n) by (apply squareMatrix_mset; exact Hsq).
      rewrite (mget_mset _ n) by exact Hsq.
      destruct (Z.eqb_spec a v); destruct (Z.eqb_spec b u);
        destruct (Z.eqb_spec a u); destruct (Z.eqb_spec b v);
        destruct (Z.leb_spec 0 u); destruct (Z.ltb_spec u n);
        destruct (Z.leb_spec 0 v); destruct (Z.ltb_spec v n);
        simpl; try reflexivity; lia. }
    split; [|split].
    + rewrite Hc. cbn [length]. lia.
    + intros k a b Hk. destruct k as [|k].
      * injection Hk as <- <-.
        rewrite !Hsame by assumption. rewrite !Hm1, !Z.eqb_refl. simpl.
        rewrite orb_true_r. split; lia.
      * destruct (Hnth k a b Hk) as [H1 H2]. rewrite H1, H2. lia.
    + intros a b Hab Hba. rewrite Hsame.
      * rewrite Hm1.
        destruct (Z.eqb_spec a v); destruct (Z.eqb_spec b u);
          destruct (Z.eqb_spec a u); destruct (Z.eqb_spec b v);
          simpl; try reflexivity; subst; exfalso;
          (apply Hab; left; reflexivity) || (apply Hba; left; reflexivity).
      * intros H. apply Hab. right. exact H.
      * intros H. apply Hba. right. exact H.
Qed.

(** ** The number of edges of a cubic graph *)

Lemma length_flat_map_sum {A B : Type} (f : A -> list B) (l : list A) :
  length (flat_map f l) = list_sum (map (fun x => length (f x)) l).
Proof.
  induction l as [|x l IH]; simpl; [reflexivity|].
  rewrite length_app, IH. reflexivity.
Qed.

Lemma list_sum_map_add {A : Type} (g h : A -> nat) (l : list A) :
  list_sum (map (fun x => g x + h x)%nat l)
  = (list_sum (map g l) + list_sum (map h l))%nat.
Proof. induction l as [|x l IH]; simpl; [reflexivity|]. rewrite IH. lia. Qed.

Lemma list_sum_map_ext {A : Type} (g h : A -> nat) (l : list A) :
  (forall x, In x l -> g x = h x) ->
  list_sum (map g l) = list_sum (map h l).
Proof.
  intros Hext. induction l as [|x l IH]; simpl; [reflexivity|].
  rewrite Hext by (left; reflexivity). rewrite IH; [reflexivity|].
  intros y Hy. apply Hext. right. exact Hy.
Qed.

Lemma list_sum_map_const {A : Type} (k : nat) (l : list A) :
  list_sum (map (fun _ => k) l) = (length l * k)%nat.
Proof. induction l as [|x l IH]; simpl; [reflexivity|]. rewrite IH. lia. Qed.

Lemma length_filter_sum {A : Type} (f : A -> bool) (l : list A) :
  length (List.filter f l)
  = list_sum (map (fun x => if f x then 1%nat else 0%nat) l).
Proof.
  induction l as [|x l IH]; simpl; [reflexivity|].
  destruct (f x); simpl; rewrite IH; reflexivity.
Qed.

(** Counting the pairs of a relation by rows or by columns. *)
Lemma count_swap {A B : Type} (f : A -> B -> bool) (l : list A) (l' : list B) :
  list_sum (map (fun u => length (List.filter (f u) l')) l)
  = list_sum (map (fun v => length (List.filter (fun u => f u v) l)) l').
Proof.
  induction l as [|a l IH]; simpl.
  - rewrite (list_sum_map_const 0). lia.
  - rewrite IH.
    rewrite (list_sum_map_ext
               (fun v => length (List.filter (fun u => f u v) (a :: l)))
               (fun v => (if f a v then 1 else 0)
                         + length (List.filter (fun u => f u v) l))%nat).
    + rewrite list_sum_map_add, <- length_filter_sum. reflexivity.
    + intros v _. simpl. destruct (f a v); reflexivity.
Qed.

Lemma length_filter_ext {A : Type} (f g : A -> bool) (l : list A) :
  (forall x, In x l -> f x = g x) ->
  length (List.filter f l) = length (List.filter g l).
Proof.
  intros Hext. induction l as [|x l IH]; simpl; [reflexivity|].
  rewrite (Hext x) by (left; reflexivity).
  destruct (g x); simpl; rewrite IH; try reflexivity;
    intros y Hy; apply Hext; right; exact Hy.
Qed.

Lemma length_filter_split {A : Type} (c p q : A -> bool) (l : list A) :
  (forall x, In x l -> c x = true -> p x = negb (q x)) ->
  length (List.filter c l)
  = (length (List.filter (fun x => c x && p x) l)
     + length (List.filter (fun x => c x && q x) l))%nat.
Proof.
  intros H. induction l as [|x l IH]; simpl; [reflexivity|].
  assert (IH' := IH (fun y Hy => H y (or_intror Hy))).
  specialize (H x (or_introl eq_refl)).
  destruct (c x); simpl; [|exact IH'].
  rewrite (H eq_refl). destruct (q x); simpl; lia.
Qed.

(** The elements of a set of vertices, counted over the list of the
    vertices. *)
Lemma length_filter_elements (n : Z) (s : bitset) (p : Z -> bool) :
  0 <= s -> (forall v, contains s v = true -> 0 <= v < n) ->
  length (List.filter p (elements s))
  = length (List.filter (fun v => contains s v && p v) (vertices n)).
Proof.
  intros Hs Hrange. apply Nat.le_antisymm.
  - apply List.NoDup_incl_length; [apply NoDup_filter, elements_NoDup|].
    intros x Hx. apply List.filter_In in Hx. destruct Hx as [Hx Hp].
    apply elements_spec in Hx; [|exact Hs].
    apply List.filter_In. split.
    + apply vertices_spec. apply Hrange. exact Hx.
    + rewrite Hx, Hp. reflexivity.
  - apply List.NoDup_incl_length; [apply NoDup_filter, NoDup_vertices|].
    intros x Hx. apply List.filter_In in Hx. destruct Hx as [_ Hx].
    apply andb_true_iff in Hx. destruct Hx as [Hx Hp].
    apply List.filter_In. split; [|exact Hp].
    apply elements_spec; assumption.
Qed.

(** A cubic graph on [n] vertices has [3n/2] edges. *)
Lemma length_edgeList_cubic (adjacencyList : list bitset) (n : Z) :
  wfGraph adjacencyList n -> cubic adjacencyList n ->
  Z.of_nat (length (edgeList adjacencyList n)) = 3 * n ÷ 2.
Proof.
  intros (Hn & Hlen & Hnn & Hrange & Hsym & Hloop) Hcubic.
  set (adj := fun u v => contains (aget EMPTY adjacencyList u) v).
  set (up := fun u =>
               length (List.filter (fun v => adj u v && (u <? v)) (vertices n))).
  set (down := fun u =>
                 length (List.filter (fun v => adj u v && (v <? u)) (vertices n))).
  assert (Hedges : length (edgeList adjacencyList n)
                   = list_sum (map up (vertices n))).
  { unfold edgeList. rewrite length_flat_map_sum.
    apply list_sum_map_ext. intros u _. unfold edgeRow, elementsAfter.
    rewrite length_map. apply (length_filter_elements n); [apply Hnn|].
    apply Hrange. }
  assert (Hdown : list_sum (map down (vertices n))
                  = list_sum (map up (vertices n))).
  { unfold down. rewrite (count_swap (fun u v => adj u v && (v <? u))).
    apply list_sum_map_ext. intros v _. unfold up.
    apply length_filter_ext. intros u _. unfold adj. rewrite Hsym.
    reflexivity. }
  assert (Hdeg : forall u, In u (vertices n) -> (up u + down u = 3)%nat).
  { intros u Hu. apply vertices_spec in Hu.
    pose proof (Hcubic u Hu) as H3. unfold size in H3.
    rewrite <- (List.filter_true (elements _)) in H3 at 1.
    rewrite (length_filter_elements n _ (fun _ => true) (Hnn u) (Hrange u))
      in H3.
    rewrite (length_filter_split _ (fun v => u <? v) (fun v => v <? u)) in H3.
    - unfold up, down, adj.
      rewrite (length_filter_ext
                 (fun v => contains (aget EMPTY adjacencyList u) v && (u <? v))
                 (fun v => contains (aget EMPTY adjacencyList u) v && true
                           && (u <? v))) by (intros; rewrite andb_true_r; reflexivity).
      rewrite (length_filter_ext
                 (fun v => contains (aget EMPTY adjacencyList u) v && (v <? u))
                 (fun v => contains (aget EMPTY adjacencyList u) v && true
                           && (v <? u))) by (intros; rewrite andb_true_r; reflexivity).
      lia.
    - intros v _ Hv. rewrite andb_true_r in Hv.
      assert (v <> u) by (intros ->; rewrite Hloop in Hv; discriminate).
      destruct (Z.ltb_spec u v); destruct (Z.ltb_spec v u); simpl;
        try reflexivity; lia. }
  assert (Hsum : (list_sum (map up (vertices n))
                  + list_sum (map down (vertices n))
                  = length (vertices n) * 3)%nat).
  { rewrite <- list_sum_map_add, <- list_sum_map_const.
    apply list_sum_map_ext. exact Hdeg. }
  assert (Hvs : length (vertices n) = Z.to_nat n)
    by (unfold vertices; rewrite length_map, length_seq; reflexivity).
  rewrite Hdown, <- Hedges, Hvs in Hsum.
  assert (H2 : 2 * Z.of_nat (length (edgeList adjacencyList n)) = 3 * n) by lia.
  rewrite <- H2. rewrite Z.mul_comm. symmetry. apply Z.quot_mul. lia.
Qed.

Section Numbering.

Variables (adjacencyList : list bitset) (n : Z).
Hypothesis graph_wf : wfGraph adjacencyList n.

Let edgeNumbering := numberEdges adjacencyList n (newMatrix n).
Let edge (u v : Z) : Prop := contains (aget EMPTY adjacencyList u) v = true.

Lemma edge_in_edgeList (u v : Z) :
  edge u v -> u < v -> In (u, v) (edgeList adjacencyList n).
Proof.
  intros Huv Hlt. apply edgeList_spec.
  destruct (edge_range adjacencyList n graph_wf u v Huv) as [Hu Hv].
  destruct graph_wf as (_ & _ & Hnn & _).
  split; [exact Hu|]. split; [|exact Hlt].
  apply elements_spec; [apply Hnn | exact Huv].
Qed.

Lemma edgeList_index (k : nat) (u v : Z) :
  nth_error (edgeList adjacencyList n) k = Some (u, v) ->
  mget edgeNumbering u v = Z.of_nat k /\ mget edgeNumbering v u = Z.of_nat k.
Proof.
  intros Hk. unfold edgeNumbering. rewrite numberEdges_edgeList.
  destruct (numberStep_fold n (edgeList adjacencyList n) (newMatrix n) 0)
    as (_ & Hnth & _).
  - apply squareMatrix_newMatrix.
  - intros a b Hab. apply edgeList_spec in Hab. destruct Hab as (Ha & Hb & _).
    split; [exact Ha|]. apply elements_contains in Hb.
    apply (edge_range adjacencyList n graph_wf a b Hb).
  - apply edgesDistinct_edgeList.
  - destruct (Hnth k u v Hk) as [H1 H2]. rewrite H1, H2. split; lia.
Qed.

(** The number of an edge is its position in [edgeList]. *)
Lemma edge_number (u v : Z) :
  edge u v ->
  exists k a b,
    nth_error (edgeList adjacencyList n) k = Some (a, b)
    /\ ((a = u /\ b = v) \/ (a = v /\ b = u))
    /\ mget edgeNumbering u v = Z.of_nat k.
Proof.
  intros Huv.
  assert (Hne : u <> v).
  { intros ->. destruct graph_wf as (_ & _ & _ & _ & _ & Hloop).
    unfold edge in Huv. rewrite Hloop in Huv. discriminate. }
  destruct (Z_lt_le_dec u v) as [Hlt|Hge].
  - destruct (In_nth_error _ _ (edge_in_edgeList u v Huv Hlt)) as [k Hk].
    exists k, u, v. split; [exact Hk|]. split; [left; split; reflexivity|].
    apply (edgeList_index k u v Hk).
  - assert (Hvu : edge v u) by (apply (edge_sym adjacencyList n graph_wf); exact Huv).
    destruct (In_nth_error _ _ (edge_in_edgeList v u Hvu ltac:(lia))) as [k Hk].
    exists k, v, u. split; [exact Hk|]. split; [right; split; reflexivity|].
    apply (edgeList_index k v u Hk).
Qed.

Lemma edge_number_injective (u v u' v' : Z) :
  edge u v -> edge u' v' ->
  mget edgeNumbering u v = mget edgeNumbering u' v' ->
  (u = u' /\ v = v') \/ (u = v' /\ v = u').
Proof.
  intros Huv Huv' Hnum.
  destruct (edge_number u v Huv) as (k & a & b & Hk & Hab & Hkn).
  destruct (edge_number u' v' Huv') as (k' & a' & b' & Hk' & Hab' & Hkn').
  assert (k = k') by lia. subst k'.
  rewrite Hk in Hk'. injection Hk' as <- <-.
  destruct Hab as [[-> ->]|[-> ->]]; destruct Hab' as [[-> ->]|[Ha Hb]];
    subst; auto.
Qed.

Lemma edge_number_range (u v : Z) :
  cubic adjacencyList n -> edge u v ->
  contains (complement EMPTY (3 * n ÷ 2)) (mget edgeNumbering u v) = true.
Proof.
  intros Hcubic Huv.
  destruct (edge_number u v Huv) as (k & a & b & Hk & _ & Hkn).
  assert (Hlt : (k < length (edgeList adjacencyList n))%nat)
    by (apply nth_error_Some; congruence).
  pose proof (length_edgeList_cubic adjacencyList n graph_wf Hcubic) as Hlen.
  rewrite contains_complement_EMPTY by lia.
  rewrite Hkn. apply andb_true_iff. split; [apply Z.leb_le|apply Z.ltb_lt]; lia.
Qed.

Lemma edgeNumbering_symmetric (u v : Z) :
  mget edgeNumbering u v = mget edgeNumbering v u.
Proof. apply (numberEdges_invariant adjacencyList n). Qed.

End Numbering.

(** ** Degrees in an orientation of a cubic graph *)

Lemma size_contains (s : bitset) (z : Z) :
  0 <= s -> contains s z = true -> 1 <= size s.
Proof.
  intros Hs Hz. unfold size.
  apply elements_spec in Hz; [|exact Hs].
  destruct (elements s); [destruct Hz | simpl; lia].
Qed.

Lemma forallb_false_exists {A : Type} (f : A -> bool) (l : list A) :
  forallb f l = false -> exists x, In x l /\ f x = false.
Proof.
  induction l as [|a l IH]; simpl; [discriminate|].
  destruct (f a) eqn:E; simpl.
  - intros H. destruct (IH H) as (x & Hx & Hfx). exists x. auto.
  - intros _. exists a. auto.
Qed.

(** A set with more elements than [t] has an element outside of [t], and
    [next] finds one. *)
Lemma next_difference (s t : bitset) :
  0 <= s -> 0 <= t -> size t < size s ->
  contains s (next (difference s t) (-1)) = true
  /\ contains t (next (difference s t) (-1)) = false.
Proof.
  intros Hs Ht Hsize.
  assert (Hd : 0 <= difference s t).
  { unfold difference. apply Z.ldiff_nonneg. left. exact Hs. }
  assert (Hex : exists z, contains (difference s t) z = true).
  { destruct (forallb (contains t) (elements s)) eqn:E.
    - exfalso. rewrite forallb_forall in E.
      assert (size s <= size t); [|lia].
      apply size_le; [exact Hs|exact Ht|].
      intros i Hi. apply E. apply elements_spec; assumption.
    - apply forallb_false_exists in E. destruct E as (z & Hz & Hzt).
      exists z. rewrite contains_difference, Hzt.
      apply elements_spec in Hz; [|exact Hs]. rewrite Hz. reflexivity. }
  destruct Hex as [z Hz].
  pose proof (next_contains _ _ (next_found _ z Hd Hz)) as Hnext.
  rewrite contains_difference in Hnext. apply andb_true_iff in Hnext.
  destruct Hnext as [H1 H2]. apply negb_true_iff in H2. split; assumption.
Qed.

Section Degrees.

Variables (adjacencyList : list bitset) (n : Z) (D : diGraph).
Hypothesis graph_wf : wfGraph adjacencyList n.
Hypothesis graph_cubic : cubic adjacencyList n.
Hypothesis D_orientation : orientationOf adjacencyList n D.

Lemma orientation_out_nonneg (v : Z) : 0 <= outNbrs D v.
Proof. destruct D_orientation as (_ & (_ & _ & _ & H & _) & _). apply H. Qed.

Lemma orientation_in_nonneg (v : Z) : 0 <= inNbrs D v.
Proof. destruct D_orientation as (_ & (_ & _ & _ & _ & H & _) & _). apply H. Qed.

Lemma orientation_in (u v : Z) : contains (inNbrs D v) u = true <-> arc D u v.
Proof.
  destruct D_orientation as (_ & (_ & _ & _ & _ & _ & _ & Hmirror) & _).
  unfold arc. rewrite Hmirror. reflexivity.
Qed.

(** Every vertex has three arcs. *)
Lemma degree_sum (v : Z) :
  0 <= v < n -> size (outNbrs D v) + size (inNbrs D v) = 3.
Proof.
  intros Hv.
  pose proof D_orientation as (_ & _ & Hedges & Hall & Hone).
  rewrite <- size_union_disjoint.
  - rewrite <- (graph_cubic v Hv). f_equal. apply bitset_ext. intros w.
    rewrite contains_union.
    destruct (contains (aget EMPTY adjacencyList v) w) eqn:E.
    + destruct (Hall v w E) as [H|H].
      * unfold arc in H. rewrite H. reflexivity.
      * apply orientation_in in H. rewrite H. apply orb_true_r.
    + apply orb_false_iff. split.
      * destruct (contains (outNbrs D v) w) eqn:E'; [|reflexivity].
        apply Hedges in E'. congruence.
      * destruct (contains (inNbrs D v) w) eqn:E'; [|reflexivity].
        apply orientation_in in E'. apply Hedges in E'.
        apply (edge_sym adjacencyList n graph_wf) in E'. congruence.
  - apply orientation_out_nonneg.
  - apply orientation_in_nonneg.
  - intros w Hw. destruct (contains (inNbrs D v) w) eqn:E; [|reflexivity].
    apply orientation_in in E. destruct (Hone v w Hw E).
Qed.

Lemma arc_vertices (u v : Z) : arc D u v -> 0 <= u < n /\ 0 <= v < n.
Proof.
  intros H. destruct D_orientation as (_ & _ & Hedges & _).
  apply (edge_range adjacencyList n graph_wf). apply Hedges. exact H.
Qed.

End Degrees.

(** ** The rules of the solver are necessary *)

Section Necessity.

Variables (adjacencyList : list bitset) (n : Z).
Variables (deletableEdges : bitset) (edgeNumbering : matrix) (D : diGraph).
Hypothesis graph_wf : wfGraph adjacencyList n.
Hypothesis graph_cubic : cubic adjacencyList n.
Hypothesis numbering_sym : symmetricMatrix edgeNumbering.
Hypothesis star :
  locallyComplementary adjacencyList n deletableEdges edgeNumbering D.
Hypothesis every_vertex :
  leavesEdgeAtEveryVertex adjacencyList n deletableEdges edgeNumbering.

Let edge (u v : Z) : Prop := contains (aget EMPTY adjacencyList u) v = true.
Let inS (u v : Z) : bool := contains deletableEdges (mget edgeNumbering u v).

Lemma star_orientation : orientationOf adjacencyList n D.
Proof. apply star. Qed.

Lemma star_oriented (u v : Z) : edge u v -> arc D u v \/ arc D v u.
Proof. destruct star as ((_ & _ & _ & Hall & _) & _). apply Hall. Qed.

Lemma star_one_direction (u v : Z) : arc D u v -> ~ arc D v u.
Proof. destruct star as ((_ & _ & _ & _ & Hone) & _). apply Hone. Qed.

Lemma star_edge (u v : Z) : arc D u v -> edge u v.
Proof. destruct star as ((_ & _ & Hedges & _) & _). apply Hedges. Qed.

Lemma star_out_le (v : Z) : size (outNbrs D v) <= 2.
Proof. destruct star as (_ & Hdeg & _). apply Hdeg. Qed.

Lemma star_in_le (v : Z) : size (inNbrs D v) <= 2.
Proof. destruct star as (_ & Hdeg & _). apply Hdeg. Qed.

Lemma star_not_single (u v : Z) :
  arc D u v -> inS u v = false ->
  size (outNbrs D u) = 2 /\ size (inNbrs D v) = 2.
Proof. destruct star as (_ & _ & H). apply H. Qed.

Lemma star_sum (v : Z) :
  0 <= v < n -> size (outNbrs D v) + size (inNbrs D v) = 3.
Proof. apply (degree_sum adjacencyList n D graph_wf graph_cubic star_orientation). Qed.

Lemma inS_sym (u v : Z) : inS u v = inS v u.
Proof. unfold inS. rewrite (numbering_sym u v). reflexivity. Qed.

Lemma two_out (u a b : Z) :
  arc D u a -> arc D u b -> a <> b -> 2 <= size (outNbrs D u).
Proof.
  intros Ha Hb Hab.
  apply (size_two _ a b); [|exact Ha|exact Hb|exact Hab].
  apply (orientation_out_nonneg adjacencyList n D star_orientation).
Qed.

Lemma two_in (v a b : Z) :
  arc D a v -> arc D b v -> a <> b -> 2 <= size (inNbrs D v).
Proof.
  intros Ha Hb Hab.
  apply (size_two _ a b); [| | |exact Hab].
  - apply (orientation_in_nonneg adjacencyList n D star_orientation).
  - apply (orientation_in adjacencyList n D star_orientation). exact Ha.
  - apply (orientation_in adjacencyList n D star_orientation). exact Hb.
Qed.

Lemma three_out (u a b c : Z) :
  arc D u a -> arc D u b -> arc D u c -> a <> b -> a <> c -> b <> c -> False.
Proof.
  intros Ha Hb Hc Hab Hac Hbc.
  pose proof (star_out_le u).
  assert (3 <= size (outNbrs D u)); [|lia].
  apply (size_three _ a b c); try assumption.
  apply (orientation_out_nonneg adjacencyList n D star_orientation).
Qed.

Lemma three_in (v a b c : Z) :
  arc D a v -> arc D b v -> arc D c v -> a <> b -> a <> c -> b <> c -> False.
Proof.
  intros Ha Hb Hc Hab Hac Hbc.
  pose proof (star_in_le v).
  assert (3 <= size (inNbrs D v)); [|lia].
  apply (size_three _ a b c); try assumption;
    try (apply (orientation_in adjacencyList n D star_orientation); assumption).
  apply (orientation_in_nonneg adjacencyList n D star_orientation).
Qed.

Lemma some_out (v : Z) :
  0 <= v < n -> size (inNbrs D v) <= 2 -> exists z, arc D v z.
Proof.
  intros Hv Hin. pose proof (star_sum v Hv).
  apply size_positive. lia.
Qed.

Lemma some_in (v : Z) : 0 <= v < n -> exists z, arc D z v.
Proof.
  intros Hv. pose proof (star_sum v Hv). pose proof (star_out_le v).
  destruct (size_positive (inNbrs D v)) as [z Hz]; [lia|].
  exists z. apply (orientation_in adjacencyList n D star_orientation). exact Hz.
Qed.

(** Two edges of [deletableEdges] at [x]: one comes in. *)
Lemma rule_deletable_pair_tail (x y element : Z) :
  arc D x y -> inS x y = true ->
  edge x element -> element <> y -> inS x element = true ->
  arc D element x.
Proof.
  intros Hxy Sxy Hedge Hne Sxe.
  destruct (star_oriented x element Hedge) as [Hxe|Hex]; [exfalso|exact Hex].
  destruct (edge_range adjacencyList n graph_wf x element Hedge) as [Hx _].
  destruct (every_vertex x Hx) as (w & Hw & Sw). fold (inS x w) in Sw.
  assert (w <> y) by (intros ->; congruence).
  assert (w <> element) by (intros ->; congruence).
  destruct (star_oriented x w Hw) as [Hxw|Hwx].
  - apply (three_out x y element w); auto.
  - rewrite inS_sym in Sw. destruct (star_not_single w x Hwx Sw) as [_ Hin].
    pose proof (two_out x y element Hxy Hxe (not_eq_sym Hne)).
    pose proof (star_sum x Hx). lia.
Qed.

Lemma rule_deletable_pair_head (x y element : Z) :
  arc D x y -> inS x y = true ->
  edge y element -> element <> x -> inS y element = true ->
  arc D y element.
Proof.
  intros Hxy Sxy Hedge Hne Sye.
  destruct (star_oriented y element Hedge) as [Hye|Hey]; [exact Hye|exfalso].
  destruct (edge_range adjacencyList n graph_wf y element Hedge) as [Hy _].
  destruct (every_vertex y Hy) as (w & Hw & Sw). fold (inS y w) in Sw.
  assert (w <> x) by (intros ->; rewrite inS_sym in Sw; congruence).
  assert (w <> element) by (intros ->; congruence).
  destruct (star_oriented y w Hw) as [Hyw|Hwy].
  - destruct (star_not_single y w Hyw Sw) as [Hout _].
    pose proof (two_in y x element Hxy Hey (not_eq_sym Hne)).
    pose proof (star_sum y Hy). lia.
  - apply (three_in y x element w); auto.
Qed.

(** One edge of [deletableEdges] at [x], and it goes out: the others come
    in. *)
Lemma rule_single_tail (x y element : Z) :
  arc D x y ->
  (forall w, edge x w -> w <> y -> inS x w = false) ->
  edge x element -> element <> y ->
  arc D element x.
Proof.
  intros Hxy Hothers Hedge Hne.
  destruct (star_oriented x element Hedge) as [Hxe|Hex]; [exfalso|exact Hex].
  destruct (edge_range adjacencyList n graph_wf x element Hedge) as [Hx _].
  destruct (star_not_single x element Hxe (Hothers element Hedge Hne))
    as [Hout _].
  destruct (some_in x Hx) as [z Hz].
  assert (Hzy : z <> y) by (intros ->; exact (star_one_direction x y Hxy Hz)).
  assert (Hxz : edge x z)
    by (apply (edge_sym adjacencyList n graph_wf), star_edge; exact Hz).
  pose proof (Hothers z Hxz Hzy) as Sz. rewrite inS_sym in Sz.
  destruct (star_not_single z x Hz Sz) as [_ Hin].
  pose proof (star_sum x Hx). lia.
Qed.

Lemma rule_single_head (x y element : Z) :
  arc D x y ->
  (forall w, edge y w -> w <> x -> inS y w = false) ->
  edge y element -> element <> x ->
  arc D y element.
Proof.
  intros Hxy Hothers Hedge Hne.
  destruct (star_oriented y element Hedge) as [Hye|Hey]; [exact Hye|exfalso].
  destruct (edge_range adjacencyList n graph_wf y element Hedge) as [Hy _].
  pose proof (Hothers element Hedge Hne) as Se. rewrite inS_sym in Se.
  destruct (star_not_single element y Hey Se) as [_ Hin].
  destruct (some_out y Hy (star_in_le y)) as [z Hz].
  assert (Hzx : z <> x) by (intros ->; exact (star_one_direction x y Hxy Hz)).
  destruct (star_not_single y z Hz (Hothers z (star_edge y z Hz) Hzx))
    as [Hout _].
  pose proof (star_sum y Hy). lia.
Qed.

(** An arc whose edge is not in [deletableEdges]: the other such edge at its
    tail goes out, the other such edge at its head comes in. *)
Lemma rule_other_tail (x y element : Z) :
  arc D x y -> inS x y = false ->
  edge x element -> inS x element = false ->
  arc D x element.
Proof.
  intros Hxy Sxy Hedge Se.
  destruct (star_oriented x element Hedge) as [Hxe|Hex]; [exact Hxe|exfalso].
  destruct (edge_range adjacencyList n graph_wf x element Hedge) as [Hx _].
  rewrite inS_sym in Se.
  destruct (star_not_single element x Hex Se) as [_ Hin].
  destruct (star_not_single x y Hxy Sxy) as [Hout _].
  pose proof (star_sum x Hx). lia.
Qed.

Lemma rule_other_head (x y element : Z) :
  arc D x y -> inS x y = false ->
  edge y element -> inS y element = false ->
  arc D element y.
Proof.
  intros Hxy Sxy Hedge Se.
  destruct (star_oriented y element Hedge) as [Hye|Hey]; [exfalso|exact Hey].
  destruct (edge_range adjacencyList n graph_wf y element Hedge) as [Hy _].
  destruct (star_not_single y element Hye Se) as [Hout _].
  destruct (star_not_single x y Hxy Sxy) as [_ Hin].
  pose proof (star_sum y Hy). lia.
Qed.

End Necessity.

(** ** Partial orientations inside an orientation *)

Lemma extends_in (o D : diGraph) (v : Z) :
  wfDiGraph o -> wfDiGraph D -> extends o D ->
  subsetOf (inNbrs o v) (inNbrs D v).
Proof.
  intros (_ & _ & _ & _ & _ & _ & Hm) (_ & _ & _ & _ & _ & _ & Hm') Hext u Hu.
  rewrite Hm in Hu. rewrite Hm'. apply Hext. exact Hu.
Qed.

Lemma forced_out_bound (o D : diGraph) (x y : Z) :
  wfDiGraph o -> wfDiGraph D -> extends o D ->
  arc D x y -> contains (outNbrs o x) y = false ->
  size (outNbrs o x) < size (outNbrs D x).
Proof.
  intros Hwf Hwf' Hext Hxy Hnot.
  apply (size_lt _ _ y); try assumption.
  - destruct Hwf as (_ & _ & _ & H & _). apply H.
  - destruct Hwf' as (_ & _ & _ & H & _). apply H.
  - intros z Hz. apply Hext. exact Hz.
Qed.

Lemma forced_in_bound (o D : diGraph) (x y : Z) :
  wfDiGraph o -> wfDiGraph D -> extends o D ->
  arc D x y -> contains (outNbrs o x) y = false ->
  size (inNbrs o y) < size (inNbrs D y).
Proof.
  intros Hwf Hwf' Hext Hxy Hnot.
  apply (size_lt _ _ x).
  - destruct Hwf as (_ & _ & _ & _ & H & _). apply H.
  - destruct Hwf' as (_ & _ & _ & _ & H & _). apply H.
  - apply extends_in; assumption.
  - destruct Hwf' as (_ & _ & _ & _ & _ & _ & Hm). rewrite Hm. exact Hxy.
  - destruct Hwf as (_ & _ & _ & _ & _ & _ & Hm). rewrite Hm. exact Hnot.
Qed.

(** When [o] has all the outgoing arcs of [x] in [D], the other edges at
    [x] come in. *)
Lemma full_out (adjacencyList : list bitset) (n : Z) (o D : diGraph) (x z : Z) :
  wfDiGraph o -> orientationOf adjacencyList n D -> extends o D ->
  size (outNbrs D x) <= size (outNbrs o x) ->
  contains (aget EMPTY adjacencyList x) z = true ->
  contains (outNbrs o x) z = false ->
  arc D z x.
Proof.
  intros Hwf (_ & Hwf' & _ & Hall & _) Hext Hsize Hedge Hnot.
  destruct (Hall x z Hedge) as [Hxz|Hzx]; [exfalso|exact Hzx].
  pose proof (forced_out_bound o D x z Hwf Hwf' Hext Hxz Hnot). lia.
Qed.

Lemma full_in (adjacencyList : list bitset) (n : Z) (o D : diGraph) (y z : Z) :
  wfGraph adjacencyList n ->
  wfDiGraph o -> orientationOf adjacencyList n D -> extends o D ->
  size (inNbrs D y) <= size (inNbrs o y) ->
  contains (aget EMPTY adjacencyList y) z = true ->
  contains (inNbrs o y) z = false ->
  arc D y z.
Proof.
  intros Hg Hwf (_ & Hwf' & _ & Hall & _) Hext Hsize Hedge Hnot.
  destruct (Hall y z Hedge) as [Hyz|Hzy]; [exact Hyz|exfalso].
  pose proof Hwf as (_ & _ & _ & _ & _ & _ & Hm). rewrite Hm in Hnot.
  pose proof (forced_in_bound o D z y Hwf Hwf' Hext Hzy Hnot). lia.
Qed.

(** ** The edges that are left *)

Lemma length_filter_le {A : Type} (f g : A -> bool) (l : list A) :
  (forall x, In x l -> f x = true -> g x = true) ->
  (length (List.filter f l) <= length (List.filter g l))%nat.
Proof.
  intros H. induction l as [|a l IH]; simpl; [lia|].
  assert (IH' := IH (fun x Hx => H x (or_intror Hx))).
  specialize (H a (or_introl eq_refl)).
  destruct (f a); [rewrite (H eq_refl); simpl; lia|].
  destruct (g a); simpl; lia.
Qed.

Lemma length_filter_lt {A : Type} (f g : A -> bool) (l : list A) (a : A) :
  (forall x, In x l -> f x = true -> g x = true) ->
  In a l -> g a = true -> f a = false ->
  (length (List.filter f l) < length (List.filter g l))%nat.
Proof.
  intros H Ha Hg Hf. induction l as [|b l IH]; [destruct Ha|].
  simpl. destruct Ha as [->|Ha].
  - rewrite Hf, Hg. simpl.
    pose proof (length_filter_le f g l (fun x Hx => H x (or_intror Hx))). lia.
  - assert (IH' := IH (fun x Hx => H x (or_intror Hx)) Ha).
    specialize (H b (or_introl eq_refl)).
    destruct (f b); [rewrite (H eq_refl); simpl; lia|].
    destruct (g b); simpl; lia.
Qed.

Lemma unoriented_extends (adjacencyList : list bitset) (n : Z)
    (o o' : diGraph) :
  extends o o' ->
  (length (unoriented adjacencyList n o')
   <= length (unoriented adjacencyList n o))%nat.
Proof.
  intros Hext. unfold unoriented. apply length_filter_le.
  intros [a b] _ H. cbn [fst snd] in *.
  apply negb_true_iff in H. apply orb_false_iff in H. destruct H as [H1 H2].
  apply negb_true_iff. apply orb_false_iff. split.
  - destruct (contains (outNbrs o a) b) eqn:E; [|reflexivity].
    apply Hext in E. unfold arc in E. congruence.
  - destruct (contains (outNbrs o b) a) eqn:E; [|reflexivity].
    apply Hext in E. unfold arc in E. congruence.
Qed.

Lemma unoriented_bound (adjacencyList : list bitset) (n : Z) (o : diGraph) :
  (length (unoriented adjacencyList n o)
   <= length (edgeList adjacencyList n))%nat.
Proof. unfold unoriented. apply List.filter_length_le. Qed.

(** ** Calls that return *)

Lemma returnsOk_true (J : diGraph -> Prop) (C : Prop) (o : diGraph) :
  J o -> returnsOk J C (Ret (true, o)).
Proof. intros H. exists true, o. auto. Qed.

Lemma returnsOk_false (J : diGraph -> Prop) (C : Prop) (o : diGraph) :
  ~ C -> returnsOk J C (Ret (false, o)).
Proof.
  intros H. exists false, o. split; [reflexivity|].
  split; [discriminate | intros HC; destruct (H HC)].
Qed.

Lemma returnsOk_andThen (J J' : diGraph -> Prop) (C : Prop)
    (r : result (bool * diGraph)) (k : diGraph -> result (bool * diGraph)) :
  returnsOk J C r ->
  (forall o, J o -> returnsOk J' C (k o)) ->
  returnsOk J' C (andThen r k).
Proof.
  intros (b & o' & -> & HJ & HC) Hk. destruct b; simpl.
  - apply Hk, HJ. reflexivity.
  - exists false, o'. split; [reflexivity|]. split; [discriminate|exact HC].
Qed.

Lemma returnsOk_forEachArc (J : diGraph -> Prop) (C : Prop) (l : list Z)
    (body : Z -> diGraph -> result (bool * diGraph)) :
  (forall x o, In x l -> J o -> returnsOk J C (body x o)) ->
  forall o, J o -> returnsOk J C (forEachArc l body o).
Proof.
  induction l as [|x l IH]; intros Hbody o Ho; simpl.
  - apply returnsOk_true. exact Ho.
  - apply returnsOk_andThen with (J := J).
    + apply Hbody; [left; reflexivity | exact Ho].
    + intros o' Ho'. apply IH; [|exact Ho'].
      intros y o'' Hy. apply Hbody. right. exact Hy.
Qed.

Lemma returnsOk_impl (J J' : diGraph -> Prop) (C : Prop)
    (r : result (bool * diGraph)) :
  (forall o, J o -> J' o) -> returnsOk J C r -> returnsOk J' C r.
Proof.
  intros H (b & o' & -> & HJ & HC). exists b, o'.
  split; [reflexivity|]. split; [|exact HC]. intros Hb. apply H, HJ, Hb.
Qed.

(** ** Orientations with the same arcs *)

Lemma walk_same_arcs (o o' : diGraph) (U : bitset) (i e : Z) :
  (forall u v, arc o u v -> arc o' u v) -> walk o U i e -> walk o' U i e.
Proof.
  intros H Hw. induction Hw as [i e Ha | i j e Ha Hj _ IH].
  - apply walk_arc. apply H. exact Ha.
  - apply walk_step with (j := j); [apply H; exact Ha | exact Hj | exact IH].
Qed.

Lemma deletableArc_same_arcs (o o' : diGraph) (i nbr : Z) :
  numberOfVertices o = numberOfVertices o' ->
  (forall u v, arc o u v -> arc o' u v) ->
  deletableArc o i nbr -> deletableArc o' i nbr.
Proof.
  intros Hn H [Ha Hw]. split; [apply H; exact Ha|].
  rewrite <- Hn.
  apply walk_same_arcs with (o := removeArc o i nbr); [|exact Hw].
  intros u v Huv. apply arc_removeArc in Huv. apply arc_removeArc.
  destruct Huv as [Huv Hne]. split; [apply H; exact Huv | exact Hne].
Qed.

Lemma isDeletableSet_same_arcs (o o' : diGraph) (edgeNumbering : matrix)
    (s : bitset) :
  numberOfVertices o = numberOfVertices o' ->
  (forall u v, arc o u v <-> arc o' u v) ->
  isDeletableSet o edgeNumbering s -> isDeletableSet o' edgeNumbering s.
Proof.
  intros Hn H Hs e. rewrite (Hs e).
  split; intros (He & i & nbr & Hd & Hnum); (split; [exact He|]);
    exists i, nbr; (split; [|exact Hnum]).
  - apply (deletableArc_same_arcs o o'); [exact Hn | apply H | exact Hd].
  - apply (deletableArc_same_arcs o' o);
      [symmetry; exact Hn | apply H | exact Hd].
Qed.

(** An orientation of the graph inside another one has the same arcs. *)
Lemma orientation_extends_same (adjacencyList : list bitset) (n : Z)
    (o D : diGraph) :
  orientationOf adjacencyList n o -> orientationOf adjacencyList n D ->
  extends o D ->
  forall u v, arc o u v <-> arc D u v.
Proof.
  intros (_ & _ & _ & Hall & _) (_ & _ & Hedges & _ & Hone) Hext u v.
  split; [apply Hext|].
  intros Huv. destruct (Hall u v (Hedges u v Huv)) as [H|H]; [exact H|].
  apply Hext in H. destruct (Hone u v Huv H).
Qed.

(** ** The solver decides *)

Section Decides.

Variables (adjacencyList : list bitset) (n : Z).
Variables (deletableEdges : bitset) (edgeNumbering : matrix) (Dstar : diGraph).
Hypothesis graph_wf : wfGraph adjacencyList n.
Hypothesis graph_cubic : cubic adjacencyList n.
Hypothesis numbering_sym : symmetricMatrix edgeNumbering.

Let edge (u v : Z) : Prop := contains (aget EMPTY adjacencyList u) v = true.
Let inS (u v : Z) : bool := contains deletableEdges (mget edgeNumbering u v).

(** [Dstar] satisfies the conditions at the vertices that the solver
    works with. *)
Let consistent : Prop :=
  locallyComplementary adjacencyList n deletableEdges edgeNumbering Dstar
  /\ leavesEdgeAtEveryVertex adjacencyList n deletableEdges edgeNumbering.

Lemma solverInv_addArc (o : diGraph) (x y : Z) :
  solverInv adjacencyList n o -> edge x y ->
  contains (outNbrs o x) y = false -> contains (outNbrs o y) x = false ->
  size (outNbrs o x) < 2 -> size (inNbrs o y) < 2 ->
  solverInv adjacencyList n (addArc o x y)
  /\ extends o (addArc o x y)
  /\ arc (addArc o x y) x y.
Proof.
  intros [Hpo Hdeg] Hedge Hxy Hyx Hout Hin.
  destruct (edge_range adjacencyList n graph_wf x y Hedge) as [Hx Hy].
  destruct (addArc_partialOrientation adjacencyList n graph_wf o x y Hpo)
    as (Hp & Hext & Harc).
  { unfold vertexOrNone. lia. }
  { unfold vertexOrNone. lia. }
  { intros _ _. exact Hedge. }
  { unfold arc. rewrite Hyx. discriminate. }
  split; [|split; [exact Hext | apply Harc; lia]].
  split; [exact Hp|].
  destruct Hpo as (Hn & (Hn0 & Hlo & Hli & Hon & Hinn & _ & Hm) & _).
  intros v. rewrite outNbrs_addArc, inNbrs_addArc by lia. split.
  - destruct (Z.eqb_spec v x) as [->|]; [|apply Hdeg].
    rewrite size_add; [lia|apply Hon|lia|exact Hxy].
  - destruct (Z.eqb_spec v y) as [->|]; [|apply Hdeg].
    rewrite size_add; [lia|apply Hinn|lia|]. rewrite Hm. exact Hxy.
Qed.

Lemma unoriented_addArc (o : diGraph) (x y : Z) :
  solverInv adjacencyList n o -> edge x y ->
  contains (outNbrs o x) y = false -> contains (outNbrs o y) x = false ->
  (length (unoriented adjacencyList n (addArc o x y))
   < length (unoriented adjacencyList n o))%nat.
Proof.
  intros [Hpo Hdeg] Hedge Hxy Hyx.
  destruct (edge_range adjacencyList n graph_wf x y Hedge) as [Hx Hy].
  pose proof Hpo as (Hn & (Hn0 & Hlo & _) & _).
  assert (Harc : forall u v,
            contains (outNbrs (addArc o x y) u) v
            = contains (outNbrs o u) v || ((u =? x) && (v =? y))).
  { intros u v. rewrite outNbrs_addArc by lia.
    destruct (Z.eqb_spec u x) as [->|]; simpl.
    - rewrite contains_add by lia. reflexivity.
    - rewrite orb_false_r. reflexivity. }
  assert (Hne : x <> y).
  { intros ->. destruct graph_wf as (_ & _ & _ & _ & _ & Hloop).
    unfold edge in Hedge. rewrite Hloop in Hedge. discriminate. }
  assert (Hmono : forall e, In e (edgeList adjacencyList n) ->
            negb (contains (outNbrs (addArc o x y) (fst e)) (snd e)
                  || contains (outNbrs (addArc o x y) (snd e)) (fst e)) = true ->
            negb (contains (outNbrs o (fst e)) (snd e)
                  || contains (outNbrs o (snd e)) (fst e)) = true).
  { intros [a b] _. cbn [fst snd]. rewrite !Harc.
    destruct (contains (outNbrs o a) b); destruct (contains (outNbrs o b) a);
      destruct ((a =? x) && (b =? y)); destruct ((b =? x) && (a =? y));
      simpl; intros H; try reflexivity; discriminate H. }
  unfold unoriented. destruct (Z_lt_le_dec x y) as [Hlt|Hge].
  - apply (length_filter_lt _ _ _ (x, y)); [exact Hmono| | |].
    + apply (edge_in_edgeList adjacencyList n graph_wf); assumption.
    + cbn [fst snd]. rewrite Hxy, Hyx. reflexivity.
    + cbn [fst snd]. rewrite !Harc, !Z.eqb_refl. simpl.
      rewrite orb_true_r. reflexivity.
  - apply (length_filter_lt _ _ _ (y, x)); [exact Hmono| | |].
    + apply (edge_in_edgeList adjacencyList n graph_wf); [|lia].
      apply (edge_sym adjacencyList n graph_wf). exact Hedge.
    + cbn [fst snd]. rewrite Hxy, Hyx. reflexivity.
    + cbn [fst snd]. rewrite !Harc, !Z.eqb_refl. simpl.
      rewrite !orb_true_r. reflexivity.
Qed.

Lemma arcIsAdmissible_complete (o : diGraph) (x y : Z) :
  consistent -> solverInv adjacencyList n o -> extends o Dstar ->
  arc Dstar x y ->
  contains (outNbrs o x) y = false -> contains (outNbrs o y) x = false ->
  arcIsAdmissible adjacencyList o x y deletableEdges edgeNumbering = true.
Proof.
  intros [Hlc Hq1] [Hpo Hdeg] Hext Hxy Hnxy Hnyx.
  pose proof Hpo as (Hn & Hwf & Hedges & Hone).
  pose proof Hlc as (Hor & Hdeg' & Hns).
  pose proof Hor as (_ & Hwf' & Hedges' & Hall' & Hone').
  assert (Hedge : edge x y) by (apply Hedges'; exact Hxy).
  destruct (edge_range adjacencyList n graph_wf x y Hedge) as [Hx Hy].
  pose proof Hwf as (_ & _ & _ & Hon & Hinn & _ & Hm).
  pose proof Hwf' as (_ & _ & _ & Hon' & Hinn' & _ & Hm').
  unfold arcIsAdmissible.
  destruct (contains deletableEdges (mget edgeNumbering x y)) eqn:Sxy.
  - apply andb_true_iff. split; apply forallb_forall; intros element He;
      apply elements_contains in He.
    + destruct (Z.eqb_spec element y) as [|Hne]; [reflexivity|]. cbn [orb].
      apply negb_true_iff.
      destruct (contains deletableEdges (mget edgeNumbering x element)) eqn:Se;
        [|reflexivity].
      cbn [andb].
      destruct (contains (outNbrs o x) element) eqn:Eo; [exfalso|reflexivity].
      apply Hext in Eo.
      assert (H : arc Dstar element x)
        by (eapply rule_deletable_pair_tail with (y := y); eassumption).
      exact (Hone' x element Eo H).
    + destruct (Z.eqb_spec element x) as [|Hne]; [reflexivity|]. cbn [orb].
      apply negb_true_iff.
      destruct (contains deletableEdges (mget edgeNumbering y element)) eqn:Se;
        [|reflexivity].
      cbn [andb].
      destruct (contains (inNbrs o y) element) eqn:Eo; [exfalso|reflexivity].
      rewrite Hm in Eo. apply Hext in Eo.
      assert (H : arc Dstar y element)
        by (eapply rule_deletable_pair_head with (x := x); eassumption).
      exact (Hone' element y Eo H).
  - destruct (Hns x y Hxy Sxy) as [Hout2 Hin2].
    pose proof (degree_sum adjacencyList n Dstar graph_wf graph_cubic Hor x Hx).
    pose proof (degree_sum adjacencyList n Dstar graph_wf graph_cubic Hor y Hy).
    pose proof (forced_out_bound o Dstar x y Hwf Hwf' Hext Hxy Hnxy).
    pose proof (forced_in_bound o Dstar x y Hwf Hwf' Hext Hxy Hnxy).
    pose proof (size_le _ _ (Hinn x) (Hinn' x)
                  (extends_in o Dstar x Hwf Hwf' Hext)).
    pose proof (size_le (outNbrs o y) (outNbrs Dstar y) (Hon y) (Hon' y)
                  (fun z Hz => Hext y z Hz)).
    assert (E1 : (size (outNbrs o x) >=? 2) = false)
      by (rewrite Z.geb_leb; apply Z.leb_gt; lia).
    assert (E2 : (size (inNbrs o x) >=? 2) = false)
      by (rewrite Z.geb_leb; apply Z.leb_gt; lia).
    assert (E3 : (size (outNbrs o y) >=? 2) = false)
      by (rewrite Z.geb_leb; apply Z.leb_gt; lia).
    assert (E4 : (size (inNbrs o y) >=? 2) = false)
      by (rewrite Z.geb_leb; apply Z.leb_gt; lia).
    rewrite E1, E2, E3, E4, Hm, Hnyx. cbn [orb negb andb].
    destruct (otherNonDeletable adjacencyList x y _ _);
      destruct (otherNonDeletable adjacencyList y x _ _); reflexivity.
Qed.

Lemma returnsOk_weaken (J J' : diGraph -> Prop) (C C' : Prop)
    (r : result (bool * diGraph)) :
  (forall o, J o -> J' o) -> (C' -> C) ->
  returnsOk J C r -> returnsOk J' C' r.
Proof.
  intros HJ HC (b & o' & -> & Hpost & Hcond). exists b, o'.
  split; [reflexivity|]. split.
  - intros Hb. apply HJ, Hpost, Hb.
  - intros H. apply Hcond, HC, H.
Qed.

Lemma union_nonneg (s t : bitset) : 0 <= s -> 0 <= t -> 0 <= union s t.
Proof. intros Hs Ht. unfold union. apply Z.lor_nonneg. split; assumption. Qed.

(** What a call of [canAddNewArc] for the arc [x -> y] leaves: the arc is
    there, and an orientation [Dstar] that held the old arcs and the new one
    holds all the arcs that the call has added. *)
Let added (o : diGraph) (x y : Z) (o' : diGraph) : Prop :=
  solverInv adjacencyList n o' /\ extends o o' /\ arc o' x y
  /\ (consistent -> extends o Dstar -> arc Dstar x y -> extends o' Dstar).

Lemma canAddNewArc_decides (fuel : nat) :
  forall o x y,
    solverInv adjacencyList n o -> edge x y ->
    (length (unoriented adjacencyList n o) < fuel)%nat ->
    returnsOk (added o x y)
      (consistent /\ extends o Dstar /\ arc Dstar x y)
      (canAddNewArc fuel adjacencyList n o x y deletableEdges edgeNumbering).
Proof.
  induction fuel as [|f IH]; intros o x y Ho Hedge Hfuel; [lia|].
  cbn [canAddNewArc].
  pose proof Ho as [Hpo Hdeg].
  pose proof Hpo as (Hn & Hwf & Hedges & Hone).
  destruct (edge_range adjacencyList n graph_wf x y Hedge) as [Hx Hy].
  destruct (contains (outNbrs o x) y) eqn:Exy.
  { apply returnsOk_true. split; [exact Ho|].
    split; [intros u v H; exact H|]. split; [exact Exy|].
    intros _ H _. exact H. }
  destruct (contains (outNbrs o y) x) eqn:Eyx.
  { apply returnsOk_false. intros (((Hor & _) & _) & Hext & Hxy).
    destruct Hor as (_ & _ & _ & _ & Hone').
    apply (Hone' x y Hxy). apply Hext. exact Eyx. }
  destruct (size (outNbrs o x) >=? 2) eqn:E1.
  { apply returnsOk_false. intros (((Hor & Hdeg' & _) & _) & Hext & Hxy).
    destruct Hor as (_ & Hwf' & _).
    pose proof (forced_out_bound o Dstar x y Hwf Hwf' Hext Hxy Exy).
    pose proof (proj1 (Hdeg' x)).
    rewrite Z.geb_leb in E1. apply Z.leb_le in E1. lia. }
  destruct (size (inNbrs o y) >=? 2) eqn:E2.
  { apply returnsOk_false. intros (((Hor & Hdeg' & _) & _) & Hext & Hxy).
    destruct Hor as (_ & Hwf' & _).
    pose proof (forced_in_bound o Dstar x y Hwf Hwf' Hext Hxy Exy).
    pose proof (proj2 (Hdeg' y)).
    rewrite Z.geb_leb in E2. apply Z.leb_le in E2. lia. }
  rewrite Z.geb_leb in E1, E2. apply Z.leb_gt in E1, E2.
  destruct (arcIsAdmissible adjacencyList o x y deletableEdges edgeNumbering)
    eqn:Ea; cbn [negb].
  2:{ apply returnsOk_false. intros (Hc & Hext & Hxy).
      rewrite (arcIsAdmissible_complete o x y Hc Ho Hext Hxy Exy Eyx) in Ea.
      discriminate. }
  clear Ea.
  destruct (solverInv_addArc o x y Ho Hedge Exy Eyx E1 E2)
    as (HoA & HextA & HarcA).
  pose proof (unoriented_addArc o x y Ho Hedge Exy Eyx) as Hless.
  set (C0 := consistent /\ extends o Dstar /\ arc Dstar x y).
  assert (HDA : C0 -> extends (addArc o x y) Dstar).
  { intros (_ & Hext & Hxy) u v Huv.
    apply arc_addArc in Huv; [|destruct Hwf as (_ & Hl & _); lia|lia].
    destruct Huv as [H|[-> ->]]; [apply Hext; exact H | exact Hxy]. }
  set (oA := addArc o x y) in *.
  set (J := fun o' =>
              solverInv adjacencyList n o' /\ extends oA o'
              /\ (C0 -> extends o' Dstar)).
  assert (HJ : J oA).
  { split; [exact HoA|]. split; [intros u v H; exact H | exact HDA]. }
  assert (Hrec : forall o' a b,
            J o' -> edge a b -> (C0 -> arc Dstar a b) ->
            returnsOk (fun o'' => J o'' /\ arc o'' a b) C0
              (canAddNewArc f adjacencyList n o' a b deletableEdges
                 edgeNumbering)).
  { intros o' a b (Ho' & Hext' & HD) Hab Harc.
    apply returnsOk_weaken
      with (J := added o' a b)
           (C := consistent /\ extends o' Dstar /\ arc Dstar a b).
    - intros o'' (Ho'' & Hext'' & Harc'' & HD''). split; [|exact Harc''].
      split; [exact Ho''|]. split.
      + intros u v H. apply Hext'', Hext'. exact H.
      + intros HC. pose proof HC as (Hc & _ & _).
        apply HD''; [exact Hc | apply HD; exact HC | apply Harc; exact HC].
    - intros HC. pose proof HC as (Hc & _).
      split; [exact Hc|]. split; [apply HD, HC | apply Harc, HC].
    - apply IH; [exact Ho'|exact Hab|].
      pose proof (unoriented_extends adjacencyList n oA o' Hext'). lia. }
  assert (Hrec' : forall o' a b,
            J o' -> edge a b -> (C0 -> arc Dstar a b) ->
            returnsOk J C0
              (canAddNewArc f adjacencyList n o' a b deletableEdges
                 edgeNumbering)).
  { intros o' a b Ho' Hab Harc.
    apply returnsOk_impl with (J := fun o'' => J o'' /\ arc o'' a b);
      [intros o'' H; apply H | apply Hrec; assumption]. }
  apply returnsOk_impl with (J := J).
  { intros o' (Ho' & Hext' & HD). split; [exact Ho'|]. split.
    - intros u v H. apply Hext', HextA. exact H.
    - split; [apply Hext'; exact HarcA|].
      intros Hc Hext Hxy. apply HD. split; [exact Hc|]. split; assumption. }
  pose proof graph_wf as (_ & _ & Hadj & _).
  assert (Hwf_J : forall o', J o' ->
            wfDiGraph o' /\ (forall v, 0 <= outNbrs o' v)
            /\ (forall v, 0 <= inNbrs o' v)).
  { intros o' (((_ & Hwf' & _) & _) & _). split; [exact Hwf'|].
    destruct Hwf' as (_ & _ & _ & H1 & H2 & _). split; assumption. }
  assert (Hstar : C0 ->
            locallyComplementary adjacencyList n deletableEdges edgeNumbering
              Dstar
            /\ leavesEdgeAtEveryVertex adjacencyList n deletableEdges
                 edgeNumbering
            /\ orientationOf adjacencyList n Dstar
            /\ arc Dstar x y).
  { intros ((Hlc & Hq) & _ & Hxy). split; [exact Hlc|]. split; [exact Hq|].
    split; [apply Hlc | exact Hxy]. }
  (* If x has two outgoing and no incoming, add the final incoming. *)
  apply returnsOk_andThen with (J := J).
  { destruct ((size (outNbrs oA x) =? 2) && (size (inNbrs oA x) <? 1)) eqn:G1;
      [|apply returnsOk_true; exact HJ].
    apply andb_true_iff in G1. destruct G1 as [G1 _]. apply Z.eqb_eq in G1.
    destruct (Hwf_J oA HJ) as (HwfA & HonA & _).
    destruct (next_difference (aget EMPTY adjacencyList x) (outNbrs oA x))
      as [Hl1 Hl2]; [apply Hadj | apply HonA | rewrite (graph_cubic x Hx); lia|].
    apply Hrec'; [exact HJ | apply (edge_sym adjacencyList n graph_wf); exact Hl1|].
    intros HC. destruct (Hstar HC) as ((_ & Hdeg' & _) & _ & Hor & _).
    apply (full_out adjacencyList n oA Dstar x); try assumption.
    - apply HDA, HC.
    - rewrite G1. apply Hdeg'. }
  intros o1 Ho1.
  (* If y has no outgoing and two incoming, add the final outgoing. *)
  apply returnsOk_andThen
    with (J := fun o' =>
                 J o' /\ ~ (size (outNbrs o' y) = 0 /\ size (inNbrs o' y) = 2)).
  { destruct ((size (outNbrs o1 y) =? 0) && (size (inNbrs o1 y) =? 2)) eqn:G2.
    - apply andb_true_iff in G2. destruct G2 as [_ G2]. apply Z.eqb_eq in G2.
      destruct (Hwf_J o1 Ho1) as (Hwf1 & _ & Hin1).
      destruct (next_difference (aget EMPTY adjacencyList y) (inNbrs o1 y))
        as [Hl1 Hl2]; [apply Hadj | apply Hin1 | rewrite (graph_cubic y Hy); lia|].
      apply returnsOk_impl
        with (J := fun o'' =>
                     J o''
                     /\ arc o'' y
                          (next (difference (aget EMPTY adjacencyList y)
                                   (inNbrs o1 y)) (-1))).
      + intros o'' [Ho'' Harc]. split; [exact Ho''|]. intros [H0 _].
        destruct (Hwf_J o'' Ho'') as (_ & Hon'' & _).
        pose proof (size_contains _ _ (Hon'' y) Harc). lia.
      + apply Hrec; [exact Ho1 | exact Hl1|].
        intros HC. destruct (Hstar HC) as ((_ & Hdeg' & _) & _ & Hor & _).
        apply (full_in adjacencyList n o1 Dstar y); try assumption.
        * apply Ho1, HC.
        * rewrite G2. apply Hdeg'.
    - apply returnsOk_true. split; [exact Ho1|]. intros [H0 H2].
      rewrite H0, H2 in G2. discriminate G2. }
  intros o2 [Ho2 Hdead].
  destruct (contains deletableEdges (mget edgeNumbering x y)) eqn:Sxy.
  - (* The edge is in deletableEdges. *)
    apply returnsOk_andThen with (J := J).
    { apply returnsOk_forEachArc with (J := J); [|exact Ho2].
      intros element o' He Ho'.
      destruct (Z.eqb_spec element y) as [|Hne];
        [apply returnsOk_true; exact Ho'|].
      destruct (contains deletableEdges (mget edgeNumbering x element)) eqn:Se;
        [|apply returnsOk_true; exact Ho'].
      destruct (elements_neighbour adjacencyList n graph_wf x element He)
        as (_ & Hxe & Hex).
      apply Hrec'; [exact Ho'|exact Hex|].
      intros HC. destruct (Hstar HC) as (Hlc & Hq & _ & Hxy).
      eapply rule_deletable_pair_tail with (y := y); eassumption. }
    intros o3 Ho3.
    apply returnsOk_andThen with (J := J).
    { apply returnsOk_forEachArc with (J := J); [|exact Ho3].
      intros element o' He Ho'.
      destruct (Z.eqb_spec element x) as [|Hne];
        [apply returnsOk_true; exact Ho'|].
      destruct (contains deletableEdges (mget edgeNumbering y element)) eqn:Se;
        [|apply returnsOk_true; exact Ho'].
      destruct (elements_neighbour adjacencyList n graph_wf y element He)
        as (_ & Hye & Hey).
      apply Hrec'; [exact Ho'|exact Hye|].
      intros HC. destruct (Hstar HC) as (Hlc & Hq & _ & Hxy).
      eapply rule_deletable_pair_head with (x := x); eassumption. }
    intros o4 Ho4.
    apply returnsOk_andThen with (J := J).
    { destruct (otherEdgesAreNonDeletable adjacencyList x y deletableEdges
                  edgeNumbering) eqn:Eo;
        [|apply returnsOk_true; exact Ho4].
      apply returnsOk_forEachArc with (J := J); [|exact Ho4].
      intros element o' He Ho'.
      destruct (Z.eqb_spec element y) as [|Hne];
        [apply returnsOk_true; exact Ho'|].
      destruct (elements_neighbour adjacencyList n graph_wf x element He)
        as (_ & Hxe & Hex).
      apply Hrec'; [exact Ho'|exact Hex|].
      intros HC. destruct (Hstar HC) as (Hlc & Hq & _ & Hxy).
      eapply rule_single_tail with (y := y); try eassumption.
      intros w Hw Hwy. unfold otherEdgesAreNonDeletable in Eo.
      rewrite forallb_forall in Eo.
      specialize (Eo w (proj2 (elements_spec _ w (Hadj x)) Hw)).
      destruct (Z.eqb_spec w y); [contradiction|].
      apply negb_true_iff in Eo. exact Eo. }
    intros o5 Ho5.
    destruct (otherEdgesAreNonDeletable adjacencyList y x deletableEdges
                edgeNumbering) eqn:Eo;
      [|apply returnsOk_true; exact Ho5].
    apply returnsOk_forEachArc with (J := J); [|exact Ho5].
    intros element o' He Ho'.
    destruct (Z.eqb_spec element x) as [|Hne];
      [apply returnsOk_true; exact Ho'|].
    destruct (elements_neighbour adjacencyList n graph_wf y element He)
      as (_ & Hye & Hey).
    apply Hrec'; [exact Ho'|exact Hye|].
    intros HC. destruct (Hstar HC) as (Hlc & Hq & _ & Hxy).
    eapply rule_single_head with (x := x); try eassumption.
    intros w Hw Hwx. unfold otherEdgesAreNonDeletable in Eo.
    rewrite forallb_forall in Eo.
    specialize (Eo w (proj2 (elements_spec _ w (Hadj y)) Hw)).
    destruct (Z.eqb_spec w x); [contradiction|].
    apply negb_true_iff in Eo. exact Eo.
  - (* The edge is not in deletableEdges. *)
    apply returnsOk_andThen with (J := J).
    { destruct ((size (outNbrs o2 y) =? 0) && (size (inNbrs o2 y) =? 2)) eqn:G;
        [exfalso|apply returnsOk_true; exact Ho2].
      apply andb_true_iff in G. destruct G as [G0 G2].
      apply Z.eqb_eq in G0, G2. apply Hdead. split; assumption. }
    intros o3 Ho3.
    apply returnsOk_andThen with (J := J).
    { destruct ((size (outNbrs o3 y) =? 1) && (size (inNbrs o3 y) =? 1)) eqn:G;
        [|apply returnsOk_true; exact Ho3].
      apply andb_true_iff in G. destruct G as [G0 G1].
      apply Z.eqb_eq in G0, G1.
      destruct (Hwf_J o3 Ho3) as (Hwf3 & Hon3 & Hin3).
      destruct (next_difference (aget EMPTY adjacencyList y)
                  (union (outNbrs o3 y) (inNbrs o3 y)))
        as [Hl1 Hl2];
        [apply Hadj | apply union_nonneg; [apply Hon3|apply Hin3] | |].
      { pose proof (size_union_le _ _ (Hon3 y) (Hin3 y)).
        rewrite (graph_cubic y Hy). lia. }
      rewrite contains_union in Hl2. apply orb_false_iff in Hl2.
      destruct Hl2 as [Hl2 _].
      apply Hrec';
        [exact Ho3 | apply (edge_sym adjacencyList n graph_wf); exact Hl1|].
      intros HC. destruct (Hstar HC) as (Hlc & _ & Hor & Hxy).
      apply (full_out adjacencyList n o3 Dstar y); try assumption.
      - apply Ho3, HC.
      - destruct Hlc as (_ & _ & Hns). destruct (Hns x y Hxy Sxy) as [_ Hin2].
        pose proof (degree_sum adjacencyList n Dstar graph_wf graph_cubic Hor
                      y Hy). lia. }
    intros o4 Ho4.
    apply returnsOk_andThen with (J := J).
    { destruct (otherNonDeletable adjacencyList x y deletableEdges
                  edgeNumbering) as [element|] eqn:E;
        [|apply returnsOk_true; exact Ho4].
      unfold otherNonDeletable in E. apply find_some in E.
      destruct E as [He Hc]. apply andb_true_iff in Hc.
      destruct Hc as [_ Se]. apply negb_true_iff in Se.
      destruct (elements_neighbour adjacencyList n graph_wf x element He)
        as (_ & Hxe & Hex).
      apply Hrec'; [exact Ho4|exact Hxe|].
      intros HC. destruct (Hstar HC) as (Hlc & _ & _ & Hxy).
      eapply rule_other_tail with (y := y); eassumption. }
    intros o5 Ho5.
    destruct (otherNonDeletable adjacencyList y x deletableEdges
                edgeNumbering) as [element|] eqn:E;
      [|apply returnsOk_true; exact Ho5].
    unfold otherNonDeletable in E. apply find_some in E.
    destruct E as [He Hc]. apply andb_true_iff in Hc.
    destruct Hc as [_ Se]. apply negb_true_iff in Se.
    destruct (elements_neighbour adjacencyList n graph_wf y element He)
      as (_ & Hye & Hey).
    apply Hrec'; [exact Ho5|exact Hey|].
    intros HC. destruct (Hstar HC) as (Hlc & _ & _ & Hxy).
    eapply rule_other_head with (x := x); eassumption.
Qed.

(** [Dstar] is an orientation that the search looks for. *)
Let good : Prop :=
  consistent /\ complements n deletableEdges edgeNumbering Dstar.

(** What the search has found when it returns true. *)
Let found (o' : diGraph) : Prop :=
  orientationOf adjacencyList n o' /\ noThirdArc o'
  /\ complements n deletableEdges edgeNumbering o'.

(** The position of the search, counted from the end. *)
Let position (e1 e2 : Z) : Z :=
  (n - 1 - e1) * (n + 1) + (if e2 =? -1 then 0 else n - e2).

Lemma compOrientationCheck_decides (o : diGraph) :
  solverInv adjacencyList n o -> orientationOf adjacencyList n o ->
  returnsOk found (good /\ extends o Dstar)
    (snd (compOrientationCheck n o deletableEdges edgeNumbering)).
Proof.
  intros [_ Hdeg] Ho. pose proof Ho as (Hn & Hwf & _).
  destruct (getDeletableEdges_spec o edgeNumbering Hwf) as (T & Hrun & HT).
  rewrite Hn in Hrun. unfold compOrientationCheck. cbn [snd].
  rewrite Hrun. cbn [bind].
  exists (equals (union deletableEdges T) (complement EMPTY (3 * n ÷ 2))), o.
  split; [reflexivity|]. split.
  - intros E. split; [exact Ho|]. split; [exact Hdeg|].
    exists T. split; [exact HT|]. apply Z.eqb_eq. exact E.
  - intros (((Hlc & _) & T' & HT' & Hunion) & Hext).
    assert (T = T').
    { apply (isDeletableSet_unique o edgeNumbering); [exact HT|].
      apply (isDeletableSet_same_arcs Dstar o); [| |exact HT'].
      - destruct Hlc as ((Hn' & _) & _). congruence.
      - intros u v. symmetry.
        apply (orientation_extends_same adjacencyList n);
          [exact Ho | apply Hlc | exact Hext]. }
    subst T'. apply Z.eqb_eq. exact Hunion.
Qed.

Lemma position_nonneg (e1 e2 : Z) :
  -1 <= e1 <= n - 1 ->
  e2 = -1 \/ (e2 <> -1 /\ In e2 (elements (aget EMPTY adjacencyList e1))) ->
  0 <= position e1 e2.
Proof.
  intros He1 He2. unfold position.
  assert (0 <= (n - 1 - e1) * (n + 1)) by (apply Z.mul_nonneg_nonneg; lia).
  destruct He2 as [->|[Hne Hin]]; [simpl; lia|].
  destruct (Z.eqb_spec e2 (-1)); [contradiction|].
  apply elements_contains in Hin.
  pose proof (edge_range adjacencyList n graph_wf e1 e2 Hin). lia.
Qed.

Lemma arcFuel_enough (o : diGraph) :
  (length (unoriented adjacencyList n o) < arcFuel n)%nat.
Proof.
  pose proof (unoriented_bound adjacencyList n o).
  pose proof (length_edgeList_cubic adjacencyList n graph_wf graph_cubic) as H3.
  destruct graph_wf as (Hn & _).
  rewrite Z.quot_div_nonneg in H3 by lia.
  assert (3 * n / 2 <= 2 * n) by (apply Z.div_le_upper_bound; lia).
  unfold arcFuel. lia.
Qed.

Lemma canCompleteCompOrientation_decides (fuel : nat) :
  forall o e1 e2,
    solverInv adjacencyList n o ->
    -1 <= e1 <= n - 1 ->
    e2 = -1 \/ (e2 <> -1 /\ In e2 (elements (aget EMPTY adjacencyList e1))) ->
    orientedBefore adjacencyList n o e1 e2 ->
    position e1 e2 < Z.of_nat fuel ->
    returnsOk found (good /\ extends o Dstar)
      (canCompleteCompOrientation fuel adjacencyList n o deletableEdges
         edgeNumbering e1 e2).
Proof.
  induction fuel as [|f IH]; intros o e1 e2 Ho He1 He2 Hbefore Hfuel.
  { pose proof (position_nonneg e1 e2 He1 He2). lia. }
  cbn [canCompleteCompOrientation].
  pose proof graph_wf as (Hn0 & _).
  assert (Hpos : forall e e', In e' (elements (aget EMPTY adjacencyList e)) ->
            0 < n - e' <= n).
  { intros e e' H. apply elements_contains in H.
    pose proof (edge_range adjacencyList n graph_wf e e' H). lia. }
  destruct He2 as [->|[Hne Hin]].
  - rewrite Z.eqb_refl. cbn [andb].
    destruct (Z.ltb_spec e1 (n - 1)) as [Hlt|Hge].
    + apply IH; [exact Ho|lia|apply next_position| |].
      * unfold orientedBefore in *.
        rewrite <- edgesFrom_next_vertex by lia. exact Hbefore.
      * unfold position in *. rewrite Z.eqb_refl in Hfuel.
        destruct (next_position (aget EMPTY adjacencyList (e1 + 1)) (e1 + 1))
          as [->|[Hne Hin]].
        -- rewrite Z.eqb_refl. nia.
        -- destruct (Z.eqb_spec (next (aget EMPTY adjacencyList (e1 + 1))
                                   (e1 + 1)) (-1)); [contradiction|].
           pose proof (Hpos _ _ Hin). nia.
    + replace e1 with (n - 1) in * by lia. rewrite Z.eqb_refl.
      apply compOrientationCheck_decides; [exact Ho|].
      apply (orientedBefore_all adjacencyList n graph_wf); [apply Ho|assumption].
  - destruct (Z.eqb_spec e2 (-1)); [congruence|]. cbn [andb].
    assert (Hnext : forall o' (C' : Prop),
              solverInv adjacencyList n o' ->
              extends o o' ->
              arc o' e1 e2 \/ arc o' e2 e1 ->
              (C' -> good /\ extends o' Dstar) ->
              returnsOk found C'
                (canCompleteCompOrientation f adjacencyList n o' deletableEdges
                   edgeNumbering e1 (next (aget EMPTY adjacencyList e1) e2))).
    { intros o' C' Ho' Hext Harc HC'.
      apply returnsOk_weaken with (J := found) (C := good /\ extends o' Dstar);
        [intros ? H; exact H | exact HC' |].
      apply IH; [exact Ho'|lia|apply next_position| |].
      - intros u v Huv. destruct (Hbefore u v Huv) as [H|[H|H]]; auto.
        rewrite edgesFrom_next_edge in H by assumption.
        destruct H as [H|H]; [|left; exact H].
        injection H as <- <-. right. exact Harc.
      - unfold position in *.
        destruct (Z.eqb_spec e2 (-1)); [contradiction|].
        pose proof (Hpos _ _ Hin).
        destruct (next_position (aget EMPTY adjacencyList e1) e2)
          as [->|[Hne' Hin']].
        + rewrite Z.eqb_refl. lia.
        + destruct (Z.eqb_spec (next (aget EMPTY adjacencyList e1) e2) (-1));
            [contradiction|].
          destruct (next_some _ _ _ eq_refl Hne') as (_ & Hgt & _). lia. }
    destruct (elements_neighbour adjacencyList n graph_wf e1 e2 Hin)
      as (_ & H12 & H21).
    destruct (contains (outNbrs o e1) e2 || contains (outNbrs o e2) e1) eqn:E.
    { apply Hnext; [exact Ho|intros u v H; exact H| |intros H; exact H].
      apply orb_true_iff in E. exact E. }
    assert (Htry : forall a b,
              edge a b ->
              (a = e1 /\ b = e2) \/ (a = e2 /\ b = e1) ->
              returnsOk found (good /\ extends o Dstar /\ arc Dstar a b)
                (andThen
                   (canAddNewArc (arcFuel n) adjacencyList n o a b
                      deletableEdges edgeNumbering)
                   (fun o0 =>
                      canCompleteCompOrientation f adjacencyList n o0
                        deletableEdges edgeNumbering e1
                        (next (aget EMPTY adjacencyList e1) e2)))).
    { intros a b Hab Hcase.
      apply returnsOk_andThen with (J := added o a b).
      - apply returnsOk_weaken
          with (J := added o a b)
               (C := consistent /\ extends o Dstar /\ arc Dstar a b).
        + intros ? H; exact H.
        + intros ((Hc & _) & Hext & Harc). split; [exact Hc|].
          split; assumption.
        + apply canAddNewArc_decides; [exact Ho|exact Hab|apply arcFuel_enough].
      - intros o' (Ho' & Hext & Harc & HD). apply Hnext; [exact Ho'|exact Hext| |].
        + destruct Hcase as [[-> ->]|[-> ->]]; [left|right]; exact Harc.
        + intros (Hg & Hext' & Harc'). split; [exact Hg|].
          apply HD; [apply Hg|exact Hext'|exact Harc']. }
    destruct (Htry e1 e2 H12 (or_introl (conj eq_refl eq_refl)))
      as (b1 & o1 & E1 & HJ1 & HC1).
    rewrite E1. cbn [bind]. destruct b1.
    + exists true, o1. split; [reflexivity|].
      split; [intros _; apply HJ1; reflexivity | reflexivity].
    + apply returnsOk_weaken
        with (J := found) (C := good /\ extends o Dstar /\ arc Dstar e2 e1);
        [intros ? H; exact H | | apply Htry; auto].
      intros [Hg Hext]. split; [exact Hg|]. split; [exact Hext|].
      pose proof Hg as (((Hor & _) & _) & _).
      destruct Hor as (_ & _ & _ & Hall & _).
      destruct (Hall e1 e2 H12) as [H|H]; [|exact H].
      assert (false = true) by (apply HC1; split; [exact Hg|]; split; assumption).
      discriminate.
Qed.

Lemma solverInv_emptyGraph : solverInv adjacencyList n (emptyGraph n).
Proof.
  pose proof graph_wf as (Hn & _). split.
  - split; [reflexivity|]. split; [apply wfDiGraph_emptyGraph; exact Hn|].
    split; intros u v H; destruct (arc_emptyGraph n u v H).
  - intros v. unfold outNbrs, inNbrs. simpl. rewrite !aget_replicate.
    split; vm_compute; discriminate.
Qed.

(** The first neighbour of the vertex 0, with which the solver starts. *)
Lemma first_neighbour :
  0 < n -> edge 0 (next (aget EMPTY adjacencyList 0) (-1)).
Proof.
  intros Hpos. pose proof graph_wf as (_ & _ & Hadj & _).
  destruct (size_positive (aget EMPTY adjacencyList 0)) as [z Hz].
  { rewrite (graph_cubic 0); lia. }
  apply next_contains. apply (next_found _ z); [apply Hadj | exact Hz].
Qed.

Lemma hasComplementaryOrientation_decides :
  0 < n ->
  exists b,
    hasComplementaryOrientation adjacencyList n deletableEdges edgeNumbering
    = Ret b
    /\ (b = true -> exists o', found o')
    /\ (good -> arc Dstar 0 (next (aget EMPTY adjacencyList 0) (-1)) ->
        b = true).
Proof.
  intros Hpos. unfold hasComplementaryOrientation.
  pose proof graph_wf as (_ & _ & _ & _ & _ & Hloop).
  pose proof (first_neighbour Hpos) as Hedge.
  assert (Hext0 : extends (emptyGraph n) Dstar)
    by (intros u v H; destruct (arc_emptyGraph n u v H)).
  destruct (canAddNewArc_decides (arcFuel n) (emptyGraph n) 0
              (next (aget EMPTY adjacencyList 0) (-1)) solverInv_emptyGraph
              Hedge (arcFuel_enough _))
    as (b1 & o1 & E1 & HJ1 & HC1).
  rewrite E1. cbn [bind]. destruct b1; cbn [negb].
  - destruct (HJ1 eq_refl) as (Ho1 & _ & _ & HD1).
    destruct (canCompleteCompOrientation_decides (searchFuel n) o1 0
                (next (aget EMPTY adjacencyList 0) (-1)) Ho1)
      as (b2 & o2 & E2 & HJ2 & HC2).
    + lia.
    + apply next_position.
    + intros u v Huv. left. rewrite next_skip_zero by apply Hloop.
      change 0 with (-1 + 1) at 1 3.
      rewrite <- edgesFrom_next_vertex by lia.
      rewrite edgesFrom_start. exact Huv.
    + unfold position, searchFuel.
      assert (0 <= n * n + n) by nia.
      destruct (next_position (aget EMPTY adjacencyList 0) (-1))
        as [->|[Hne Hin]].
      * rewrite Z.eqb_refl. nia.
      * destruct (Z.eqb_spec (next (aget EMPTY adjacencyList 0) (-1)) (-1));
          [contradiction|].
        pose proof (elements_nonneg _ _ Hin). nia.
    + rewrite E2. cbn [bind]. exists b2. split; [reflexivity|]. split.
      * intros Hb. exists o2. apply HJ2, Hb.
      * intros Hg Harc. apply HC2. split; [exact Hg|].
        apply HD1; [apply Hg|exact Hext0|exact Harc].
  - exists false. split; [reflexivity|]. split; [discriminate|].
    intros Hg Harc. apply HC1. split; [apply Hg|]. split; assumption.
Qed.

End Decides.

(** ** Orientations that complement a set of deletable edges *)

Lemma walk_first (o : diGraph) (U : bitset) (i e : Z) :
  walk o U i e -> exists j, arc o i j.
Proof. intros [i' e' H|i' j e' H _ _]; eexists; exact H. Qed.

Lemma walk_last (o : diGraph) (U : bitset) (i e : Z) :
  walk o U i e -> exists j, arc o j e.
Proof.
  intros Hw. induction Hw as [i e H|i j e _ _ _ IH]; [exists i; exact H|exact IH].
Qed.

(** A deletable arc is neither the only outgoing arc of its tail nor the
    only incoming arc of its head. *)
Lemma deletableArc_degrees (o : diGraph) (u v : Z) :
  wfDiGraph o -> deletableArc o u v ->
  2 <= size (outNbrs o u) /\ 2 <= size (inNbrs o v).
Proof.
  intros (_ & _ & _ & Hon & Hin & _ & Hm) [Harc Hw].
  destruct (walk_first _ _ _ _ Hw) as [j Hj].
  destruct (walk_last _ _ _ _ Hw) as [k Hk].
  apply arc_removeArc in Hj. apply arc_removeArc in Hk.
  destruct Hj as [Hj Hjv]. destruct Hk as [Hk Hku]. split.
  - apply (size_two _ v j); [apply Hon|exact Harc|exact Hj|].
    intros <-. apply Hjv. split; reflexivity.
  - apply (size_two _ u k); [apply Hin| | |].
    + rewrite Hm. exact Harc.
    + rewrite Hm. exact Hk.
    + intros <-. apply Hku. split; reflexivity.
Qed.

Section Complements.

Variables (adjacencyList : list bitset) (n : Z).
Hypothesis graph_wf : wfGraph adjacencyList n.
Hypothesis graph_cubic : cubic adjacencyList n.

Let edgeNumbering := numberEdges adjacencyList n (newMatrix n).

(** The arc of an orientation whose edge has a number in its set of
    deletable edges is deletable. *)
Lemma deletable_number (D : diGraph) (T : bitset) (u v : Z) :
  orientationOf adjacencyList n D -> isDeletableSet D edgeNumbering T ->
  arc D u v -> contains T (mget edgeNumbering u v) = true ->
  deletableArc D u v.
Proof.
  intros (_ & _ & Hedges & _ & Hone) HT Huv Hc.
  apply HT in Hc. destruct Hc as (_ & i & nbr & Hdel & Hnum).
  pose proof Hdel as [Harc _].
  destruct (edge_number_injective adjacencyList n graph_wf i nbr u v
              (Hedges i nbr Harc) (Hedges u v Huv) Hnum) as [[-> ->]|[-> ->]].
  - exact Hdel.
  - destruct (Hone u v Huv Harc).
Qed.

Lemma complements_locallyComplementary (deletableEdges : bitset)
    (D : diGraph) :
  orientationOf adjacencyList n D -> noThirdArc D ->
  complements n deletableEdges edgeNumbering D ->
  locallyComplementary adjacencyList n deletableEdges edgeNumbering D.
Proof.
  intros HD Hdeg (T & HT & Hunion).
  split; [exact HD|]. split; [exact Hdeg|].
  intros u v Huv HS.
  pose proof HD as (_ & Hwf & Hedges & _).
  pose proof (edge_number_range adjacencyList n graph_wf u v graph_cubic
                (Hedges u v Huv)) as Hrange.
  fold edgeNumbering in Hrange.
  rewrite <- Hunion, contains_union, HS in Hrange. cbn [orb] in Hrange.
  destruct (deletableArc_degrees D u v Hwf
              (deletable_number D T u v HD HT Huv Hrange)) as [H1 H2].
  pose proof (Hdeg u) as [? _]. pose proof (Hdeg v) as [_ ?]. lia.
Qed.

(** The set of the deletable edges of a strongly connected orientation
    leaves an edge at every vertex. *)
Lemma deletable_set_leaves_edge (D : diGraph) (deletableEdges : bitset) :
  orientationOf adjacencyList n D -> stronglyConnected D ->
  isDeletableSet D edgeNumbering deletableEdges ->
  leavesEdgeAtEveryVertex adjacencyList n deletableEdges edgeNumbering.
Proof.
  intros HD Hstrong HS v Hv.
  pose proof HD as (Hn & Hwf & Hedges & Hall & Hone).
  pose proof Hwf as (_ & _ & _ & Hon & Hin & _ & Hm).
  pose proof graph_wf as (_ & _ & Hadj & _ & _ & Hloop).
  destruct (size_positive (aget EMPTY adjacencyList v)) as [w Hw].
  { rewrite (graph_cubic v Hv). lia. }
  destruct (edge_range adjacencyList n graph_wf v w Hw) as [_ Hwn].
  assert (Hvw : v <> w) by (intros <-; rewrite Hloop in Hw; discriminate).
  rewrite <- Hn in Hv, Hwn.
  destruct (walk_first _ _ _ _ (Hstrong v w Hv Hwn Hvw)) as [a Ha].
  destruct (walk_last _ _ _ _ (Hstrong w v Hwn Hv (not_eq_sym Hvw)))
    as [b Hb].
  rewrite Hn in Hv.
  pose proof (degree_sum adjacencyList n D graph_wf graph_cubic HD v Hv)
    as Hsum.
  destruct (Z_le_gt_dec (size (outNbrs D v)) 1) as [Hout|Hout].
  - exists a. split; [apply Hedges; exact Ha|].
    destruct (contains deletableEdges (mget edgeNumbering v a)) eqn:E;
      [exfalso|reflexivity].
    destruct (deletableArc_degrees D v a Hwf
                (deletable_number D deletableEdges v a HD HS Ha E)). lia.
  - exists b. split.
    + apply (edge_sym adjacencyList n graph_wf). apply Hedges. exact Hb.
    + destruct (contains deletableEdges (mget edgeNumbering v b)) eqn:E;
        [exfalso|reflexivity].
      unfold edgeNumbering in E.
      rewrite (edgeNumbering_symmetric adjacencyList n v b) in E.
      destruct (deletableArc_degrees D b v Hwf
                  (deletable_number D deletableEdges b v HD HS Hb E)). lia.
Qed.

Lemma orientationOf_reverseDiGraph (D : diGraph) :
  orientationOf adjacencyList n D ->
  orientationOf adjacencyList n (reverseDiGraph D).
Proof.
  intros (Hn & Hwf & Hedges & Hall & Hone).
  split; [exact Hn|]. split; [apply wfDiGraph_reverseDiGraph; exact Hwf|].
  split; [|split].
  - intros u v H. apply (proj1 (arc_reverseDiGraph D v u Hwf)) in H.
    apply (edge_sym adjacencyList n graph_wf). apply Hedges. exact H.
  - intros u v H. destruct (Hall u v H) as [H'|H'].
    + right. apply (proj2 (arc_reverseDiGraph D u v Hwf)). exact H'.
    + left. apply (proj2 (arc_reverseDiGraph D v u Hwf)). exact H'.
  - intros u v H H'.
    apply (proj1 (arc_reverseDiGraph D v u Hwf)) in H.
    apply (proj1 (arc_reverseDiGraph D u v Hwf)) in H'.
    exact (Hone v u H H').
Qed.

Lemma complements_reverseDiGraph (deletableEdges : bitset) (D : diGraph) :
  wfDiGraph D ->
  complements n deletableEdges edgeNumbering D ->
  complements n deletableEdges edgeNumbering (reverseDiGraph D).
Proof.
  intros Hwf (T & HT & Hunion). exists T. split; [|exact Hunion].
  apply isDeletableSet_reverseDiGraph; [exact Hwf| |exact HT].
  apply numberEdges_invariant.
Qed.

End Complements.

Lemma noThirdArc_reverseDiGraph (D : diGraph) :
  noThirdArc D -> noThirdArc (reverseDiGraph D).
Proof. intros H v. destruct (H v). split; assumption. Qed.

(** ** The solver finds the orientations without sources and sinks *)



(** * Further properties of the code *)

(** ** The strong-connectivity check *)

Lemma walk_trans (o : diGraph) (U : bitset) (i j e : Z) :
  walk o U i j -> contains U j = true -> walk o U j e -> walk o U i e.
Proof.
  intros H Hj H'. induction H as [i j Ha | i k j Ha Hk _ IH].
  - apply walk_step with (j := j); assumption.
  - apply walk_step with (j := k); [exact Ha | exact Hk | apply IH; assumption].
Qed.

Lemma aget_last {A : Type} (d : A) (l : list A) (x : A) :
  aget d (l ++ [x]) (Z.of_nat (length (l ++ [x])) - 1) = x.
Proof.
  rewrite length_app. cbn [length]. unfold aget.
  destruct (Z.ltb_spec (Z.of_nat (length l + 1) - 1) 0); [lia|].
  replace (Z.to_nat (Z.of_nat (length l + 1) - 1)) with (length l + 0)%nat by lia.
  rewrite lookup_app_r by lia.
  replace (length l + 0 - length l)%nat with 0%nat by lia. reflexivity.
Qed.

Section StrongConnectivity.

Variable g : diGraph.
Hypothesis g_wf : wfDiGraph g.

Let n := numberOfVertices g.
Let full := complement EMPTY n.

Lemma full_spec (x : Z) : contains full x = true <-> 0 <= x < n.
Proof.
  unfold full. rewrite contains_complement_EMPTY by apply g_wf.
  rewrite andb_true_iff, Z.leb_le, Z.ltb_lt. reflexivity.
Qed.

Lemma full_nonneg : 0 <= full.
Proof. apply complement_EMPTY_nonneg. apply g_wf. Qed.

Lemma arc_full (u v : Z) :
  arc g u v -> contains full u = true /\ contains full v = true.
Proof.
  intros H. destruct (wfDiGraph_range g u v g_wf H).
  split; apply full_spec; assumption.
Qed.

Lemma walk_full (U : bitset) (u v : Z) :
  walk g U u v -> contains full u = true /\ contains full v = true.
Proof.
  intros H. induction H as [i e Ha | i j e Ha _ _ IH].
  - apply arc_full. exact Ha.
  - split; [apply (arc_full i j Ha) | apply IH].
Qed.

Lemma size_below_full (U : bitset) :
  0 <= U -> subsetOf U full -> size U <= n.
Proof.
  intros HU Hsub. pose proof (size_complement n (proj1 g_wf)) as Hn.
  pose proof (size_le U full HU full_nonneg Hsub) as Hle.
  unfold full in Hle. lia.
Qed.

(** [assign] collects the vertices from which [vertex] can be reached. *)
Lemma assign_spec (fuel : nat) :
  forall v A,
    0 <= A -> contains full v = true ->
    size (difference full A) < Z.of_nat fuel ->
    exists A',
      assign fuel g v A = Ret A'
      /\ 0 <= A' /\ subsetOf A A' /\ contains A' v = true
      /\ (forall x, contains A' x = true -> contains A x = false ->
            x = v \/ walk g full x v)
      /\ (forall x y, contains A' x = true -> contains A x = false ->
            arc g y x -> contains A' y = true).
Proof.
  induction fuel as [|f IH]; intros v A HA Hv Hfuel.
  { pose proof (size_nonneg (difference full A)). lia. }
  cbn [assign]. destruct (contains A v) eqn:E.
  { exists A. split; [reflexivity|]. split; [exact HA|].
    split; [intros x H; exact H|]. split; [exact E|].
    split; intros x; intros; congruence. }
  pose proof (contains_nonneg _ _ Hv) as Hv0.
  assert (Hdiff : forall B, 0 <= difference full B).
  { intros B. unfold difference. apply Z.ldiff_nonneg. left. apply full_nonneg. }
  assert (Hless : size (difference full (add A v)) < Z.of_nat f).
  { assert (size (difference full (add A v)) < size (difference full A));
      [|lia].
    apply (size_lt _ _ v); try apply Hdiff.
    - intros x. rewrite !contains_difference, contains_add by exact Hv0.
      destruct (contains full x), (contains A x); simpl; auto; discriminate.
    - rewrite contains_difference, Hv, E. reflexivity.
    - rewrite contains_difference, contains_add, Z.eqb_refl by exact Hv0.
      rewrite orb_true_r, andb_false_r. reflexivity. }
  assert (Hfold : forall l,
            (forall w, In w l -> arc g w v) ->
            forall A1,
              0 <= A1 -> size (difference full A1) < Z.of_nat f ->
              exists A',
                fold_left
                  (fun (acc : result bitset) inNeighbour =>
                     let* s := acc in assign f g inNeighbour s)
                  l (Ret A1) = Ret A'
                /\ 0 <= A' /\ subsetOf A1 A'
                /\ (forall w, In w l -> contains A' w = true)
                /\ (forall x, contains A' x = true -> contains A1 x = false ->
                      x = v \/ walk g full x v)
                /\ (forall x y, contains A' x = true -> contains A1 x = false ->
                      arc g y x -> contains A' y = true)).
  { induction l as [|w l IHl]; intros Hl A1 HA1 Hm.
    { exists A1. split; [reflexivity|]. split; [exact HA1|].
      split; [intros x H; exact H|]. split; [intros w []|].
      split; intros x; intros; congruence. }
    pose proof (Hl w (or_introl eq_refl)) as Hwv.
    destruct (arc_full w v Hwv) as [Hw _].
    destruct (IH w A1 HA1 Hw Hm) as (A2 & E2 & HA2 & Hsub2 & Hw2 & Hs2 & Hc2).
    assert (Hm2 : size (difference full A2) < Z.of_nat f).
    { assert (size (difference full A2) <= size (difference full A1)); [|lia].
      apply size_le; try apply Hdiff.
      intros x. rewrite !contains_difference.
      destruct (contains full x); simpl; [|discriminate].
      destruct (contains A1 x) eqn:E1; [|reflexivity].
      rewrite (Hsub2 x E1). discriminate. }
    destruct (IHl (fun w' H => Hl w' (or_intror H)) A2 HA2 Hm2)
      as (A' & E' & HA' & Hsub' & Hl' & Hs' & Hc').
    exists A'. cbn [fold_left bind]. rewrite E2.
    split; [exact E'|]. split; [exact HA'|].
    split; [intros x H; apply Hsub', Hsub2, H|].
    split; [|split].
    - intros w' [<-|H]; [apply Hsub', Hw2 | apply Hl', H].
    - intros x Hx Hx1. destruct (contains A2 x) eqn:Ex2.
      + right. destruct (Hs2 x Ex2 Hx1) as [->|Hwalk].
        * apply walk_arc. exact Hwv.
        * apply walk_snoc with (j := w); assumption.
      + apply Hs'; assumption.
    - intros x y Hx Hx1 Hyx. destruct (contains A2 x) eqn:Ex2.
      + apply Hsub'. apply (Hc2 x y); assumption.
      + apply (Hc' x y); assumption. }
  destruct g_wf as (_ & _ & _ & _ & Hin & _ & Hm).
  destruct (Hfold (elements (inNbrs g v))) with (A1 := add A v)
    as (A' & E' & HA' & Hsub' & Hl' & Hs' & Hc').
  { intros w Hw. apply elements_contains in Hw. unfold arc.
    rewrite <- Hm. exact Hw. }
  { apply add_nonneg. exact HA. }
  { exact Hless. }
  assert (Hadd : forall x, contains (add A v) x = contains A x || (x =? v))
    by (intros x; apply contains_add; exact Hv0).
  exists A'. split; [exact E'|]. split; [exact HA'|].
  split; [|split; [|split]].
  - intros x Hx. apply Hsub'. rewrite Hadd, Hx. reflexivity.
  - apply Hsub'. rewrite Hadd, Z.eqb_refl. apply orb_true_r.
  - intros x Hx HxA. destruct (Z.eqb_spec x v) as [->|Hne]; [left; reflexivity|].
    apply Hs'; [exact Hx|]. rewrite Hadd, HxA.
    apply Z.eqb_neq in Hne. rewrite Hne. reflexivity.
  - intros x y Hx HxA Hyx. destruct (Z.eqb_spec x v) as [->|Hne].
    + apply Hl'. apply elements_spec; [apply Hin|]. rewrite Hm. exact Hyx.
    + apply (Hc' x y); [exact Hx| |exact Hyx]. rewrite Hadd, HxA.
      apply Z.eqb_neq in Hne. rewrite Hne. reflexivity.
Qed.

(** [visit] removes from [*unvisitedVertices] the vertices that can be
    reached from [vertexToVisit], and ends [L] with [vertexToVisit]. *)
Lemma visit_spec (fuel : nat) :
  forall (v : Z) (U : bitset) (L : list Z),
    0 <= U -> subsetOf U full -> size U < Z.of_nat fuel ->
    exists U' L',
      visit fuel g v (U, L) = Ret (U', L')
      /\ 0 <= U' /\ subsetOf U' U
      /\ (contains U v = true ->
          contains U' v = false /\ exists L0, L' = L0 ++ [v])
      /\ (contains U v = false -> U' = U /\ L' = L)
      /\ (forall x, contains U x = true -> contains U' x = false ->
            v = x \/ walk g full v x)
      /\ (forall x y, contains U x = true -> contains U' x = false ->
            arc g x y -> contains U' y = false).
Proof.
  induction fuel as [|f IH]; intros v U L HU Hfull Hfuel.
  { pose proof (size_nonneg U). lia. }
  cbn [visit]. destruct (contains U v) eqn:E; cbn [negb].
  2:{ exists U, L. split; [reflexivity|]. split; [exact HU|].
      split; [intros x H; exact H|]. split; [discriminate|].
      split; [intros _; split; reflexivity|].
      split; intros x; intros; congruence. }
  pose proof (contains_nonneg _ _ E) as Hv0.
  assert (Hrem : forall x,
            contains (removeElement U v) x = contains U x && negb (x =? v))
    by (intros x; apply contains_removeElement; exact Hv0).
  assert (Hless : size (removeElement U v) < Z.of_nat f).
  { assert (size (removeElement U v) < size U); [|lia].
    apply (size_lt _ _ v); [apply removeElement_nonneg; exact HU|exact HU| |exact E|].
    - intros x. rewrite Hrem. intros H. apply andb_true_iff in H. apply H.
    - rewrite Hrem, Z.eqb_refl. apply andb_false_r. }
  assert (Hfold : forall l,
            (forall w, In w l -> arc g v w) ->
            forall (U1 : bitset) (L1 : list Z),
              0 <= U1 -> subsetOf U1 full -> size U1 < Z.of_nat f ->
              exists U' L',
                fold_left
                  (fun (acc : result (bitset * list Z)) outNeighbour =>
                     let* s := acc in visit f g outNeighbour s)
                  l (Ret (U1, L1)) = Ret (U', L')
                /\ 0 <= U' /\ subsetOf U' U1
                /\ (forall w, In w l -> contains U' w = false)
                /\ (forall x, contains U1 x = true -> contains U' x = false ->
                      walk g full v x)
                /\ (forall x y, contains U1 x = true -> contains U' x = false ->
                      arc g x y -> contains U' y = false)).
  { induction l as [|w l IHl]; intros Hl U1 L1 HU1 Hfull1 Hm.
    { exists U1, L1. split; [reflexivity|]. split; [exact HU1|].
      split; [intros x H; exact H|]. split; [intros w []|].
      split; intros x; intros; congruence. }
    pose proof (Hl w (or_introl eq_refl)) as Hvw.
    destruct (arc_full v w Hvw) as [_ Hw].
    destruct (IH w U1 L1 HU1 Hfull1 Hm)
      as (U2 & L2 & E2 & HU2 & Hsub2 & Hin2 & Hout2 & Hs2 & Hc2).
    assert (Hw2 : contains U2 w = false).
    { destruct (contains U1 w) eqn:Ew.
      - apply Hin2. reflexivity.
      - destruct (Hout2 eq_refl) as [-> _]. exact Ew. }
    assert (Hm2 : size U2 < Z.of_nat f).
    { pose proof (size_le U2 U1 HU2 HU1 Hsub2). lia. }
    destruct (IHl (fun w' H => Hl w' (or_intror H)) U2 L2 HU2
                (fun x H => Hfull1 x (Hsub2 x H)) Hm2)
      as (U' & L' & E' & HU' & Hsub' & Hl' & Hs' & Hc').
    assert (Hnot : forall x, contains U2 x = false -> contains U' x = false).
    { intros x Hx. destruct (contains U' x) eqn:Ex; [|reflexivity].
      apply Hsub' in Ex. congruence. }
    exists U', L'. cbn [fold_left bind]. rewrite E2.
    split; [exact E'|]. split; [exact HU'|].
    split; [intros x H; apply Hsub2, Hsub', H|].
    split; [|split].
    - intros w' [<-|H]; [apply Hnot, Hw2 | apply Hl', H].
    - intros x Hx Hx'. destruct (contains U2 x) eqn:Ex2.
      + apply Hs'; assumption.
      + destruct (Hs2 x Hx Ex2) as [<-|Hwalk].
        * apply walk_arc. exact Hvw.
        * apply walk_step with (j := w); assumption.
    - intros x y Hx Hx' Hxy. destruct (contains U2 x) eqn:Ex2.
      + apply (Hc' x y); assumption.
      + apply Hnot. apply (Hc2 x y); assumption. }
  destruct g_wf as (_ & _ & _ & Hon & _).
  destruct (Hfold (elements (outNbrs g v))) with (U1 := removeElement U v)
                                                (L1 := L)
    as (U' & L' & E' & HU' & Hsub' & Hl' & Hs' & Hc').
  { intros w Hw. apply elements_contains in Hw. exact Hw. }
  { apply removeElement_nonneg. exact HU. }
  { intros x Hx. rewrite Hrem in Hx. apply andb_true_iff in Hx.
    apply Hfull, Hx. }
  { exact Hless. }
  exists U', (L' ++ [v]). rewrite E'. cbn [bind fst snd].
  split; [reflexivity|]. split; [exact HU'|].
  assert (Hv' : contains U' v = false).
  { destruct (contains U' v) eqn:Ev; [|reflexivity].
    apply Hsub' in Ev. rewrite Hrem, Z.eqb_refl, andb_false_r in Ev.
    discriminate. }
  split; [|split; [|split; [|split]]].
  - intros x Hx. apply Hsub' in Hx. rewrite Hrem in Hx.
    apply andb_true_iff in Hx. apply Hx.
  - intros _. split; [exact Hv'|]. exists L'. reflexivity.
  - discriminate.
  - intros x Hx Hx'. destruct (Z.eqb_spec x v) as [->|Hne];
      [left; reflexivity|].
    right. apply Hs'; [|exact Hx']. rewrite Hrem, Hx.
    apply Z.eqb_neq in Hne. rewrite Hne. reflexivity.
  - intros x y Hx Hx' Hxy. destruct (Z.eqb_spec x v) as [->|Hne].
    + apply Hl'. apply elements_spec; [apply Hon | exact Hxy].
    + apply (Hc' x y); [|exact Hx'|exact Hxy]. rewrite Hrem, Hx.
      apply Z.eqb_neq in Hne. rewrite Hne. reflexivity.
Qed.

(** The loop of [isStronglyConnected] over the vertices: [L] ends with the
    last vertex that was still unvisited at its turn. *)
Lemma visit_all (l : list Z) :
  forall (U : bitset) (L : list Z),
    0 <= U -> subsetOf U full ->
    exists U' L',
      fold_left
        (fun (acc : result (bitset * list Z)) i =>
           let* s := acc in visit (dfsFuel n) g i s)
        l (Ret (U, L)) = Ret (U', L')
      /\ ((L' = L /\ forall i, In i l -> contains U i = false)
          \/ exists i L0, In i l /\ contains U i = true /\ L' = L0 ++ [i]).
Proof.
  induction l as [|i l IHl]; intros U L HU Hfull.
  { exists U, L. split; [reflexivity|]. left.
    split; [reflexivity|intros i []]. }
  destruct (visit_spec (dfsFuel n) i U L HU Hfull)
    as (U1 & L1 & E1 & HU1 & Hsub1 & Hin1 & Hout1 & _).
  { pose proof (size_below_full U HU Hfull). unfold dfsFuel. lia. }
  destruct (IHl U1 L1 HU1 (fun x H => Hfull x (Hsub1 x H)))
    as (U' & L' & E' & Hcase).
  exists U', L'. cbn [fold_left bind]. rewrite E1. split; [exact E'|].
  destruct (contains U i) eqn:Ei.
  - right. destruct (Hin1 eq_refl) as [_ [L0 ->]].
    destruct Hcase as [[-> _]|(j & L0' & Hj & HjU & ->)].
    + exists i, L0. split; [left; reflexivity|]. split; [exact Ei|reflexivity].
    + exists j, L0'. split; [right; exact Hj|].
      split; [apply Hsub1, HjU | reflexivity].
  - destruct (Hout1 eq_refl) as [-> ->].
    destruct Hcase as [[-> Hall]|(j & L0' & Hj & HjU & ->)].
    + left. split; [reflexivity|].
      intros j [<-|Hj]; [exact Ei | apply Hall, Hj].
    + right. exists j, L0'. split; [right; exact Hj|].
      split; [exact HjU | reflexivity].
Qed.

Lemma isStronglyConnected_decides :
  0 < n ->
  exists b, isStronglyConnected g = Ret b /\ (b = true <-> stronglyConnected g).
Proof.
  intros Hpos. unfold isStronglyConnected. cbv zeta. fold n. fold full.
  assert (Hlist : map Z.of_nat (seq 0 (Z.to_nat n))
                  = 0 :: map Z.of_nat (seq 1 (Z.to_nat n - 1))).
  { replace (Z.to_nat n) with (S (Z.to_nat n - 1)) at 1 by lia. reflexivity. }
  assert (Hrest : forall x, In x (map Z.of_nat (seq 1 (Z.to_nat n - 1)))
                            <-> 1 <= x < n).
  { intros x. rewrite in_map_iff. split.
    - intros (k & <- & Hk). apply in_seq in Hk. lia.
    - intros Hx. exists (Z.to_nat x). split; [lia|]. apply in_seq. lia. }
  assert (H0full : contains full 0 = true) by (apply full_spec; lia).
  rewrite Hlist. cbn [fold_left bind].
  destruct (visit_spec (dfsFuel n) 0 full [] full_nonneg (fun x H => H))
    as (U1 & L1 & E1 & HU1 & Hsub1 & Hin1 & _ & Hs1 & Hc1).
  { pose proof (size_below_full full full_nonneg (fun x H => H)).
    unfold dfsFuel. lia. }
  rewrite E1. destruct (Hin1 H0full) as [H01 [L0 ->]].
  destruct (visit_all (map Z.of_nat (seq 1 (Z.to_nat n - 1))) U1 (L0 ++ [0])
              HU1 Hsub1) as (U2 & L2 & E2 & Hcase).
  rewrite E2. cbn [bind snd].
  assert (Hr : exists r,
            aget 0 L2 (Z.of_nat (length L2) - 1) = r
            /\ contains full r = true
            /\ ((r = 0 /\ forall i, 1 <= i < n -> contains U1 i = false)
                \/ (1 <= r < n /\ contains U1 r = true))).
  { destruct Hcase as [[-> Hall]|(i & L0' & Hi & HiU & ->)].
    - exists 0. rewrite aget_last. split; [reflexivity|].
      split; [exact H0full|]. left. split; [reflexivity|].
      intros i Hi. apply Hall, Hrest, Hi.
    - exists i. rewrite aget_last. split; [reflexivity|].
      split; [apply Hsub1, HiU|]. right. split; [apply Hrest, Hi|exact HiU]. }
  destruct Hr as (r & -> & Hrfull & Hrcase).
  destruct (assign_spec (dfsFuel n) r EMPTY) as (A' & EA & HA' & _ & HrA & HsA & HcA).
  { unfold EMPTY. lia. }
  { exact Hrfull. }
  { assert (size (difference full EMPTY) <= n); [|unfold dfsFuel; lia].
    apply size_below_full.
    - unfold difference. apply Z.ldiff_nonneg. left. apply full_nonneg.
    - intros x Hx. rewrite contains_difference in Hx.
      apply andb_true_iff in Hx. apply Hx. }
  rewrite EA. cbn [bind]. exists (size A' =? n). split; [reflexivity|].
  assert (Hreach0 : forall a x,
            walk g full a x -> contains U1 a = false -> contains U1 x = false).
  { intros a x Hw. induction Hw as [a x Ha | a j x Ha _ _ IH]; intros HaU.
    - apply (Hc1 a x); [apply (arc_full a x Ha)|exact HaU|exact Ha].
    - apply IH. apply (Hc1 a j); [apply (arc_full a j Ha)|exact HaU|exact Ha]. }
  assert (HA'full : subsetOf A' full).
  { intros x Hx. destruct (HsA x Hx (contains_EMPTY x)) as [->|Hw];
      [exact Hrfull | apply (walk_full full x r Hw)]. }
  assert (Hback : forall x a,
            walk g full x a -> contains A' a = true -> contains A' x = true).
  { intros x a Hw. induction Hw as [x a Ha | x j a Ha _ _ IH]; intros HaA.
    - apply (HcA a x); [exact HaA|apply contains_EMPTY|exact Ha].
    - apply (HcA j x); [apply IH; exact HaA|apply contains_EMPTY|exact Ha]. }
  pose proof (size_complement n (proj1 g_wf)) as Hsize. fold full in Hsize.
  split.
  - intros Hb. apply Z.eqb_eq in Hb.
    assert (Hall : forall x, contains full x = true -> contains A' x = true).
    { intros x Hx.
      apply (subset_full A' full x HA' full_nonneg HA'full); [lia|exact Hx]. }
    destruct Hrcase as [[-> Hvisited]|[Hr HrU]].
    2:{ exfalso. destruct (HsA 0 (Hall 0 H0full) (contains_EMPTY 0))
          as [H|Hw]; [lia|].
        rewrite (Hreach0 0 r Hw H01) in HrU. discriminate. }
    assert (Hfrom : forall x, contains full x = true -> x <> 0 ->
              walk g full 0 x).
    { intros x Hx Hne. apply full_spec in Hx.
      destruct (Hs1 x (proj2 (full_spec x) Hx) (Hvisited x ltac:(lia)))
        as [H|H]; [congruence|exact H]. }
    assert (Hto : forall x, contains full x = true -> x <> 0 ->
              walk g full x 0).
    { intros x Hx Hne.
      destruct (HsA x (Hall x Hx) (contains_EMPTY x)) as [H|H];
        [congruence|exact H]. }
    intros u v Hu Hv Huv. fold n in Hu, Hv. fold n. fold full.
    apply full_spec in Hu, Hv.
    destruct (Z.eq_dec u 0) as [->|Hu0]; [apply Hfrom; auto|].
    destruct (Z.eq_dec v 0) as [->|Hv0]; [apply Hto; auto|].
    apply walk_trans with (j := 0); [apply Hto|exact H0full|apply Hfrom]; auto.
  - intros Hstrong. apply Z.eqb_eq.
    assert (Hw : forall u v, contains full u = true -> contains full v = true ->
              u <> v -> walk g full u v).
    { intros u v Hu Hv Huv. apply full_spec in Hu, Hv.
      apply (Hstrong u v); assumption. }
    destruct Hrcase as [[-> _]|[Hr HrU]].
    2:{ exfalso.
        rewrite (Hreach0 0 r (Hw 0 r H0full Hrfull ltac:(lia)) H01) in HrU.
        discriminate. }
    assert (size full <= size A'); [|pose proof (size_le A' full HA' full_nonneg HA'full); lia].
    apply size_le; [apply full_nonneg|exact HA'|].
    intros x Hx. destruct (Z.eq_dec x 0) as [->|Hne]; [exact HrA|].
    apply (Hback x 0); [apply Hw; auto | exact HrA].
Qed.

End StrongConnectivity.

(** X1. For every digraph with at least one vertex whose two adjacency
    arrays mirror each other, [isStronglyConnected] returns, and it returns
    true exactly when every vertex can be reached from every other vertex by
    a directed walk. *)
Theorem isStronglyConnected_correct (g : diGraph) :
  wfDiGraph g -> 0 < numberOfVertices g ->
  exists b, isStronglyConnected g = Ret b /\ (b = true <-> stronglyConnected g).
Proof. intros Hwf Hpos. apply isStronglyConnected_decides; assumption. Qed.

Lemma isStronglyConnected_correct_witness :
  exists b,
    isStronglyConnected K4_cyclic = Ret b
    /\ (b = true <-> stronglyConnected K4_cyclic).
Proof.
  apply (isStronglyConnected_correct K4_cyclic).
  - apply checkDiGraph_sound. vm_compute. reflexivity.
  - vm_compute. reflexivity.
Defined.

(** ** The deletable-edge engine *)



(** X3. For every digraph whose two adjacency arrays mirror each other,
    [getDeletableEdges] returns, leaves the orientation as it was (every
    arc that it removes it adds again), and the set that it returns holds
    exactly the numbers of the arcs [i -> nbr] for which the digraph
    without that arc still has a directed walk from [i] to [nbr]. *)
Theorem getDeletableEdges_correct (o : diGraph) (edgeNumbering : matrix) :
  wfDiGraph o ->
  exists s,
    getDeletableEdges o (numberOfVertices o) edgeNumbering = Ret (s, o)
    /\ isDeletableSet o edgeNumbering s.
Proof. intros Hwf. apply getDeletableEdges_spec. exact Hwf. Qed.

Lemma getDeletableEdges_correct_witness :
  exists s,
    getDeletableEdges K4_cyclic (numberOfVertices K4_cyclic)
      (numberEdges K4 4 (newMatrix 4)) = Ret (s, K4_cyclic)
    /\ isDeletableSet K4_cyclic (numberEdges K4 4 (newMatrix 4)) s.
Proof.
  apply (getDeletableEdges_correct K4_cyclic).
  apply checkDiGraph_sound. vm_compute. reflexivity.
Defined.

(** X4. [numberEdges] gives the edges of a graph the numbers 0, 1, ... in
    the order in which its loops visit them (by smaller end, then by larger
    end), writes the number at both entries of the edge, and gives
    different edges different numbers. *)
Theorem numberEdges_numbers_the_edges (adjacencyList : list bitset) (n : Z) :
  wfGraph adjacencyList n ->
  (forall k u v,
     nth_error (edgeList adjacencyList n) k = Some (u, v) ->
     mget (numberEdges adjacencyList n (newMatrix n)) u v = Z.of_nat k
     /\ mget (numberEdges adjacencyList n (newMatrix n)) v u = Z.of_nat k)
  /\ (forall u v,
        contains (aget EMPTY adjacencyList u) v = true ->
        0 <= mget (numberEdges adjacencyList n (newMatrix n)) u v
          < Z.of_nat (length (edgeList adjacencyList n)))
  /\ (forall u v u' v',
        contains (aget EMPTY adjacencyList u) v = true ->
        contains (aget EMPTY adjacencyList u') v' = true ->
        mget (numberEdges adjacencyList n (newMatrix n)) u v
        = mget (numberEdges adjacencyList n (newMatrix n)) u' v' ->
        (u = u' /\ v = v') \/ (u = v' /\ v = u')).
Proof.
  intros Hg. split; [|split].
  - intros k u v Hk. apply (edgeList_index adjacencyList n Hg k u v Hk).
  - intros u v Huv.
    destruct (edge_number adjacencyList n Hg u v Huv)
      as (k & a & b & Hk & _ & ->).
    assert (k < length (edgeList adjacencyList n))%nat; [|lia].
    apply nth_error_Some. rewrite Hk. discriminate.
  - intros u v u' v'. apply (edge_number_injective adjacencyList n Hg).
Qed.

Lemma numberEdges_numbers_the_edges_witness :
  (forall k u v,
     nth_error (edgeList K4 4) k = Some (u, v) ->
     mget (numberEdges K4 4 (newMatrix 4)) u v = Z.of_nat k
     /\ mget (numberEdges K4 4 (newMatrix 4)) v u = Z.of_nat k)
  /\ (forall u v,
        contains (aget EMPTY K4 u) v = true ->
        0 <= mget (numberEdges K4 4 (newMatrix 4)) u v
          < Z.of_nat (length (edgeList K4 4)))
  /\ (forall u v u' v',
        contains (aget EMPTY K4 u) v = true ->
        contains (aget EMPTY K4 u') v' = true ->
        mget (numberEdges K4 4 (newMatrix 4)) u v
        = mget (numberEdges K4 4 (newMatrix 4)) u' v' ->
        (u = u' /\ v = v') \/ (u = v' /\ v = u')).
Proof.
  apply (numberEdges_numbers_the_edges K4 4).
  apply checkGraph_sound. vm_compute. reflexivity.
Defined.

(** ** The dynamic array and the pool *)

Lemma insertArray_spec (a : Array) (element : bitset) :
  poolWellFormed a ->
  poolWellFormed (insertArray a element)
  /\ used (insertArray a element) = used a + 1
  /\ aget EMPTY (array (insertArray a element)) (used a) = element
  /\ (forall i, 0 <= i < used a ->
        aget EMPTY (array (insertArray a element)) i = aget EMPTY (array a) i)
  /\ size_ (insertArray a element)
     = (if used a =? size_ a then 2 * size_ a else size_ a).
Proof.
  intros (Hused & Hlen & Hsize). unfold insertArray.
  destruct (Z.eqb_spec (used a) (size_ a)) as [Hfull|Hroom]; cbn [array used size_].
  - assert (Hl : Z.of_nat (length (array a ++ replicate (Z.to_nat (size_ a)) EMPTY))
                 = size_ a * 2)
      by (rewrite length_app, length_replicate; lia).
    split; [|split; [|split; [|split]]].
    + unfold poolWellFormed; cbn [array used size_]. rewrite length_aset. lia.
    + reflexivity.
    + apply aget_aset_eq. lia.
    + intros i Hi. rewrite aget_aset_ne by lia. apply aget_app_l. lia.
    + lia.
  - split; [|split; [|split; [|split]]].
    + unfold poolWellFormed; cbn [array used size_]. rewrite length_aset. lia.
    + reflexivity.
    + apply aget_aset_eq. lia.
    + intros i Hi. apply aget_aset_ne. lia.
    + reflexivity.
Qed.

(** X5. [insertArray] on an array with a positive capacity: the element is
    stored in the first unused cell, the cells in use keep their contents,
    [used] grows by one, and the capacity is doubled exactly when the array
    was full. With the capacity 0 the doubling gives no room, which is why
    the capacity has to be positive. *)
Theorem insertArray_stores_element (a : Array) (element : bitset) :
  0 <= used a <= size_ a -> Z.of_nat (length (array a)) = size_ a ->
  0 < size_ a ->
  used (insertArray a element) = used a + 1
  /\ aget EMPTY (array (insertArray a element)) (used a) = element
  /\ (forall i, 0 <= i < used a ->
        aget EMPTY (array (insertArray a element)) i = aget EMPTY (array a) i)
  /\ size_ (insertArray a element)
     = (if used a =? size_ a then 2 * size_ a else size_ a)
  /\ Z.of_nat (length (array (insertArray a element)))
     = size_ (insertArray a element)
  /\ used (insertArray a element) <= size_ (insertArray a element).
Proof.
  intros Hused Hlen Hsize.
  destruct (insertArray_spec a element (conj Hused (conj Hlen Hsize)))
    as ((Hu' & Hl' & _) & Hu & Hget & Hkeep & Hcap).
  repeat split; try assumption; lia.
Qed.

Lemma insertArray_stores_element_witness :
  used (insertArray (initArray 1) 5) = used (initArray 1) + 1
  /\ aget EMPTY (array (insertArray (initArray 1) 5)) (used (initArray 1)) = 5
  /\ (forall i, 0 <= i < used (initArray 1) ->
        aget EMPTY (array (insertArray (initArray 1) 5)) i
        = aget EMPTY (array (initArray 1)) i)
  /\ size_ (insertArray (initArray 1) 5)
     = (if used (initArray 1) =? size_ (initArray 1)
        then 2 * size_ (initArray 1) else size_ (initArray 1))
  /\ Z.of_nat (length (array (insertArray (initArray 1) 5)))
     = size_ (insertArray (initArray 1) 5)
  /\ used (insertArray (initArray 1) 5) <= size_ (insertArray (initArray 1) 5).
Proof.
  apply (insertArray_stores_element (initArray 1) 5).
  - vm_compute. split; discriminate.
  - vm_compute. reflexivity.
  - vm_compute. reflexivity.
Defined.

Lemma cellsDismissed_refl (deletableEdges : bitset) (a : list bitset) :
  cellsDismissed deletableEdges a a.
Proof. intros i. left. reflexivity. Qed.

Lemma cellsDismissed_trans (deletableEdges : bitset) (a b c : list bitset) :
  cellsDismissed deletableEdges a b -> cellsDismissed deletableEdges b c ->
  cellsDismissed deletableEdges a c.
Proof.
  intros Hab Hbc i. destruct (Hbc i) as [E|[E Hsub]], (Hab i) as [E'|[E' Hsub']].
  - left. congruence.
  - right. split; [congruence|exact Hsub'].
  - right. split; [exact E|]. rewrite <- E'. exact Hsub.
  - right. split; [exact E|exact Hsub'].
Qed.

Lemma scanPool_cells (allEdges deletableEdges : bitset) (indices : list Z) :
  forall insertPosition numberOf pool,
    (forall i, In i indices -> 0 <= i < used pool) ->
    used pool <= Z.of_nat (length (array pool)) ->
    (insertPosition = used pool
     \/ (0 <= insertPosition < used pool
         /\ aget EMPTY (array pool) insertPosition = EMPTY)) ->
    match scanPool indices allEdges deletableEdges insertPosition numberOf
            pool with
    | ScanReturn r _ pool' =>
      (r = 0 /\ used pool' = used pool /\ size_ pool' = size_ pool
       /\ length (array pool') = length (array pool)
       /\ cellsDismissed deletableEdges (array pool) (array pool')
       /\ exists k, 0 <= k < used pool
                    /\ subsetOf deletableEdges (aget EMPTY (array pool') k))
      \/ (r = 2
          /\ exists p, used p = used pool /\ size_ p = size_ pool
                       /\ length (array p) = length (array pool)
                       /\ pool' = insertArray p deletableEdges)
    | ScanDone insertPosition' _ pool' =>
      used pool' = used pool /\ size_ pool' = size_ pool
      /\ length (array pool') = length (array pool)
      /\ cellsDismissed deletableEdges (array pool) (array pool')
      /\ (insertPosition' = used pool
          \/ (0 <= insertPosition' < used pool
              /\ aget EMPTY (array pool') insertPosition' = EMPTY))
    end.
Proof.
  induction indices as [|i rest IH]; intros ip numberOf pool Hidx Hlen Hip.
  { simpl. repeat split; try reflexivity; [apply cellsDismissed_refl|exact Hip]. }
  pose proof (Hidx i (or_introl eq_refl)) as Hi.
  assert (Hrest : forall j, In j rest -> 0 <= j < used pool)
    by (intros j Hj; apply Hidx; right; exact Hj).
  cbn [scanPool].
  destruct (isEmpty (aget EMPTY (array pool) i)) eqn:Eempty; cbn [negb].
  { unfold isEmpty in Eempty. apply Z.eqb_eq in Eempty.
    apply IH; [exact Hrest|exact Hlen|].
    destruct (Z.eqb_spec ip (used pool)); [right; split; assumption|].
    destruct Hip as [Hip|Hip]; [contradiction|right; exact Hip]. }
  destruct (isSubset deletableEdges (aget EMPTY (array pool) i)) eqn:Esub.
  { left. repeat split; try reflexivity; [apply cellsDismissed_refl|].
    exists i. split; [exact Hi|]. apply isSubset_spec. exact Esub. }
  destruct (isSubset (aget EMPTY (array pool) i) deletableEdges) eqn:Esup.
  - set (pool1 := {| array := aset (array pool) i EMPTY; used := used pool;
                     size_ := size_ pool |}).
    set (numberOf1 := if ip =? used pool then _ else numberOf).
    assert (Hl1 : length (array pool1) = length (array pool))
      by (apply length_aset).
    assert (Hd1 : cellsDismissed deletableEdges (array pool) (array pool1)).
    { intros j. destruct (Z.eq_dec j i) as [->|Hne].
      - right. split; [apply aget_aset_eq; lia|].
        apply isSubset_spec. exact Esup.
      - left. apply aget_aset_ne. congruence. }
    destruct (equals (union deletableEdges (aget EMPTY (array pool1) i))
                allEdges).
    { right. split; [reflexivity|]. exists pool1. auto. }
    specialize (IH ip numberOf1 pool1 Hrest).
    lapply IH; [clear IH; intros IH|cbn [used array pool1]; rewrite length_aset; exact Hlen].
    lapply IH; [clear IH; intros IH|].
    2:{ destruct Hip as [Hip|[Hip Hipe]]; [left; exact Hip|right].
        split; [exact Hip|]. cbn [array pool1].
        destruct (Z.eq_dec ip i) as [->|Hne];
          [apply aget_aset_eq; lia | rewrite aget_aset_ne by congruence; exact Hipe]. }
    destruct (scanPool rest allEdges deletableEdges ip numberOf1 pool1)
      as [r c p|ip' c p].
    + destruct IH as [(Hr & Hu & Hs & Hl & Hd & Hk)|(Hr & p0 & Hu & Hs & Hl & Hp)].
      * left. split; [exact Hr|]. split; [exact Hu|]. split; [exact Hs|].
        split; [congruence|].
        split; [exact (cellsDismissed_trans _ _ _ _ Hd1 Hd) | exact Hk].
      * right. split; [exact Hr|]. exists p0.
        split; [exact Hu|]. split; [exact Hs|]. split; [congruence|exact Hp].
    + destruct IH as (Hu & Hs & Hl & Hd & Hip').
      split; [exact Hu|]. split; [exact Hs|]. split; [congruence|].
      split; [exact (cellsDismissed_trans _ _ _ _ Hd1 Hd) | exact Hip'].
  - destruct (equals (union deletableEdges (aget EMPTY (array pool) i))
                allEdges).
    { right. split; [reflexivity|]. exists pool. auto. }
    apply IH; assumption.
Qed.

Lemma getIntermediateFrankNumber_shape (numberOf : counters) (n : Z)
    (pool : Array) (deletableEdges : bitset) :
  poolWellFormed pool ->
  exists r numberOf' pool',
    getIntermediateFrankNumber numberOf n pool deletableEdges
    = Ret (r, numberOf', pool')
    /\ (r = 0 \/ r = 2) /\ poolWellFormed pool'.
Proof.
  intros Hwf. pose proof Hwf as (Hused & Hlen & Hsize).
  unfold getIntermediateFrankNumber.
  pose proof (scanPool_cells (complement EMPTY (3 * n ÷ 2)) deletableEdges
                (vertices (used pool)) (used pool) numberOf pool) as Hscan.
  lapply Hscan; [clear Hscan; intros Hscan|intros i Hi; apply vertices_spec, Hi].
  specialize (Hscan ltac:(lia) (or_introl eq_refl)).
  destruct (scanPool _ _ _ _ _ _) as [r c p|ip c p].
  - exists r, c, p. split; [reflexivity|].
    destruct Hscan as [(-> & Hu & Hs & Hl & _)|(-> & p0 & Hu & Hs & Hl & ->)].
    + split; [left; reflexivity|]. unfold poolWellFormed. rewrite Hu, Hs, Hl. auto.
    + split; [right; reflexivity|]. apply insertArray_spec.
      unfold poolWellFormed. rewrite Hu, Hs, Hl. auto.
  - destruct Hscan as (Hu & Hs & Hl & _ & Hip).
    assert (Hwfp : poolWellFormed p)
      by (unfold poolWellFormed; rewrite Hu, Hs, Hl; auto).
    destruct (Z.eqb_spec ip (used p)) as [Hend|Hmid]; cbn [negb].
    + exists 0, c, (insertArray p deletableEdges). split; [reflexivity|].
      split; [left; reflexivity|]. apply insertArray_spec. exact Hwfp.
    + unfold insertArrayAtPos.
      destruct Hip as [Hip|[Hip _]]; [congruence|].
      destruct (Z.ltb_spec (size_ p) ip); [lia|]. cbn [bind].
      eexists 0, c, _. split; [reflexivity|]. split; [left; reflexivity|].
      unfold poolWellFormed; cbn [array used size_]. rewrite length_aset.
      apply Hwfp.
Qed.

(** X6. On a pool whose cells in use are allocated,
    [getIntermediateFrankNumber] never ends the process with the error
    of [insertArrayAtPos] (index does not lie in the array): it returns 0
    or 2, and the cells in use of the pool that it leaves are allocated
    again. *)
Theorem getIntermediateFrankNumber_returns (numberOf : counters) (n : Z)
    (pool : Array) (deletableEdges : bitset) :
  poolWellFormed pool ->
  exists r numberOf' pool',
    getIntermediateFrankNumber numberOf n pool deletableEdges
    = Ret (r, numberOf', pool')
    /\ (r = 0 \/ r = 2) /\ poolWellFormed pool'.
Proof. apply getIntermediateFrankNumber_shape. Qed.

Lemma getIntermediateFrankNumber_returns_witness :
  exists r numberOf' pool',
    getIntermediateFrankNumber zeroCounters 4 (initArray 4) 3
    = Ret (r, numberOf', pool')
    /\ (r = 0 \/ r = 2) /\ poolWellFormed pool'.
Proof.
  apply (getIntermediateFrankNumber_returns zeroCounters 4 (initArray 4) 3).
  unfold poolWellFormed. vm_compute.
  split; [split; discriminate|]. split; reflexivity.
Defined.

Lemma subsetOf_EMPTY (s t : bitset) : subsetOf s EMPTY -> subsetOf s t.
Proof.
  intros H x Hx. apply H in Hx. rewrite contains_EMPTY in Hx. discriminate.
Qed.

Lemma subsetOf_trans (s t u : bitset) :
  subsetOf s t -> subsetOf t u -> subsetOf s u.
Proof. intros H1 H2 x Hx. apply H2, H1, Hx. Qed.

(** A call that returns 0 leaves the new set, and every set that was a
    subset of a stored set, a subset of a stored set. *)
Lemma getIntermediateFrankNumber_dominates (numberOf : counters) (n : Z)
    (pool : Array) (deletableEdges : bitset) (numberOf' : counters)
    (pool' : Array) :
  poolWellFormed pool ->
  getIntermediateFrankNumber numberOf n pool deletableEdges
  = Ret (0, numberOf', pool') ->
  dominated pool' deletableEdges
  /\ forall s, dominated pool s -> dominated pool' s.
Proof.
  intros Hwf. pose proof Hwf as (Hused & Hlen & Hsize).
  unfold getIntermediateFrankNumber.
  pose proof (scanPool_cells (complement EMPTY (3 * n ÷ 2)) deletableEdges
                (vertices (used pool)) (used pool) numberOf pool) as Hscan.
  lapply Hscan; [clear Hscan; intros Hscan|intros i Hi; apply vertices_spec, Hi].
  specialize (Hscan ltac:(lia) (or_introl eq_refl)).
  destruct (scanPool _ _ _ _ _ _) as [r c p|ip c p].
  - intros Heq. injection Heq as -> -> ->.
    destruct Hscan as [(_ & Hu & Hs & Hl & Hd & k & Hk & Hsub)|(Hr & _)];
      [|discriminate].
    split; [exists k; rewrite Hu; auto|].
    intros s (i & Hi & Hsi). destruct (Hd i) as [E|[_ Hdis]].
    + exists i. rewrite Hu, E. auto.
    + exists k. rewrite Hu. split; [exact Hk|].
      exact (subsetOf_trans _ _ _ (subsetOf_trans _ _ _ Hsi Hdis) Hsub).
  - destruct Hscan as (Hu & Hs & Hl & Hd & Hip).
    assert (Hwfp : poolWellFormed p)
      by (unfold poolWellFormed; rewrite Hu, Hs, Hl; auto).
    destruct (Z.eqb_spec ip (used p)) as [Hend|Hmid]; cbn [negb].
    + intros Heq. injection Heq as <- <-.
      destruct (insertArray_spec p deletableEdges Hwfp)
        as (_ & Hu' & Hget & Hkeep & _).
      assert (Hnew : dominated (insertArray p deletableEdges) deletableEdges).
      { exists (used p). rewrite Hu', Hget.
        split; [lia | intros x Hx; exact Hx]. }
      split; [exact Hnew|].
      intros s (i & Hi & Hsi). destruct (Hd i) as [E|[_ Hdis]].
      * exists i. rewrite Hu', Hkeep, E by lia. split; [lia|exact Hsi].
      * destruct Hnew as (k & Hk & Hsub). exists k. split; [exact Hk|].
        exact (subsetOf_trans _ _ _ (subsetOf_trans _ _ _ Hsi Hdis) Hsub).
    + unfold insertArrayAtPos.
      destruct Hip as [Hip|[Hip Hipe]]; [congruence|].
      destruct (Z.ltb_spec (size_ p) ip); [lia|]. cbn [bind].
      intros Heq. injection Heq as <- <-.
      assert (Hnew : forall s, subsetOf s deletableEdges ->
                dominated
                  {| array := aset (array p) ip deletableEdges;
                     used := used p; size_ := size_ p |} s).
      { intros s Hs'. exists ip. cbn [array used]. rewrite Hu.
        split; [exact Hip|]. rewrite aget_aset_eq by lia. exact Hs'. }
      split; [apply Hnew; intros x Hx; exact Hx|].
      intros s (i & Hi & Hsi). destruct (Z.eq_dec i ip) as [->|Hne].
      * apply Hnew. destruct (Hd ip) as [E|[_ Hdis]].
        -- apply subsetOf_EMPTY. rewrite <- Hipe, E. exact Hsi.
        -- exact (subsetOf_trans _ _ _ Hsi Hdis).
      * destruct (Hd i) as [E|[_ Hdis]].
        -- exists i. cbn [array used]. rewrite Hu.
           split; [exact Hi|]. rewrite aget_aset_ne by congruence.
           rewrite E. exact Hsi.
        -- apply Hnew. exact (subsetOf_trans _ _ _ Hsi Hdis).
Qed.

Lemma feedPool_dominates (sets : list bitset) :
  forall (numberOf : counters) (n : Z) (pool : Array) (numberOf' : counters)
         (pool' : Array),
    poolWellFormed pool ->
    feedPool numberOf n pool sets = Some (numberOf', pool') ->
    (forall s, dominated pool s -> dominated pool' s)
    /\ forall s, In s sets -> dominated pool' s.
Proof.
  induction sets as [|T sets IH]; intros numberOf n pool numberOf' pool' Hwf;
    simpl.
  - intros Heq. injection Heq as <- <-. split; [auto|intros s []].
  - destruct (getIntermediateFrankNumber_shape numberOf n pool T Hwf)
      as (r & c & p & Ecall & _ & Hwfp).
    rewrite Ecall. destruct r; try discriminate.
    destruct (getIntermediateFrankNumber_dominates _ _ _ _ _ _ Hwf Ecall)
      as [HT Hkeep].
    intros Hfeed. destruct (IH c n p numberOf' pool' Hwfp Hfeed) as [Hk Hin].
    split; [intros s Hs; apply Hk, Hkeep, Hs|].
    intros s [<-|Hs]; [apply Hk, HT | apply Hin, Hs].
Qed.

(** X7. Starting from the empty pool made by [initArray], after any
    sequence of calls of [getIntermediateFrankNumber] that all returned 0,
    every set that was handed to one of the calls is a subset of a set that
    is stored in the pool: a set only leaves the pool when a superset of it
    takes its place. *)
Theorem pool_dominates_every_set (initialSize n : Z)
    (numberOf numberOf' : counters) (sets : list bitset) (pool' : Array) :
  0 < initialSize ->
  feedPool numberOf n (initArray initialSize) sets = Some (numberOf', pool') ->
  forall s, In s sets ->
    exists i, 0 <= i < used pool' /\ subsetOf s (aget EMPTY (array pool') i).
Proof.
  intros Hsize Hfeed.
  assert (Hwf0 : poolWellFormed (initArray initialSize)).
  { unfold poolWellFormed, initArray; simpl. rewrite length_replicate. lia. }
  apply (feedPool_dominates sets numberOf n (initArray initialSize) numberOf'
           pool' Hwf0 Hfeed).
Qed.

Lemma pool_dominates_every_set_witness :
  exists i,
    0 <= i < used {| array := [3; 12; 0; 0]; used := 2; size_ := 4 |}
    /\ subsetOf 1
         (aget EMPTY
            (array {| array := [3; 12; 0; 0]; used := 2; size_ := 4 |}) i).
Proof.
  refine (pool_dominates_every_set 4 4 zeroCounters
            (set_orientationsGivingSubset zeroCounters 1)
            [3; 12; 1] _ _ _ 1 _).
  - lia.
  - vm_compute. reflexivity.
  - simpl. auto.
Defined.

(** ** The orientations that the enumeration examines *)



Lemma leafOrientations_complete (n : Z) (D : diGraph) (edges : list (Z * Z)) :
  wfDiGraph D -> noThirdArc D ->
  forall o,
    wfDiGraph o -> numberOfVertices o = n ->
    edgesFresh n o edges -> edgesDistinct edges ->
    extends o D ->
    (forall u v, In (u, v) edges -> arc D u v \/ arc D v u) ->
    exists d, In d (leafOrientations edges o) /\ extends d D.
Proof.
  intros HwfD HdegD.
  pose proof HwfD as (_ & _ & _ & HonD & HinD & _ & _).
  induction edges as [|[u v] rest IH]; intros o Hwf Hn Hfresh Hdist Hext Hall.
  { exists o. split; [left; reflexivity|exact Hext]. }
  destruct (Hfresh u v (or_introl eq_refl)) as (Hu & Hv & Huv & Hnuv & Hnvu).
  destruct (edgesFresh_addArc n o u v rest Hwf Hn Hfresh Hdist)
    as (Hf1 & Hf2 & Hd').
  pose proof Hwf as (_ & Hlo & _).
  assert (Hstep : forall a b,
            0 <= a < n -> 0 <= b < n -> arc D a b ->
            wfDiGraph (addArc o a b)
            /\ extends (addArc o a b) D
            /\ (size (outNbrs (addArc o a b) a) =? 3) = false
            /\ (size (inNbrs (addArc o a b) b) =? 3) = false).
  { intros a b Ha Hb Hab.
    assert (Hw : wfDiGraph (addArc o a b))
      by (apply wfDiGraph_addArc; [exact Hwf|lia|lia]).
    assert (He : extends (addArc o a b) D).
    { intros x y Hxy. apply arc_addArc in Hxy; [|lia|lia].
      destruct Hxy as [H|[-> ->]]; [apply Hext, H|exact Hab]. }
    pose proof Hw as (_ & _ & _ & Hon & Hin & _ & _).
    split; [exact Hw|]. split; [exact He|]. split; apply Z.eqb_neq.
    - pose proof (size_le _ _ (Hon a) (HonD a) (fun y H => He a y H)).
      pose proof (proj1 (HdegD a)). lia.
    - pose proof (size_le _ _ (Hin b) (HinD b)
                    (extends_in (addArc o a b) D b Hw HwfD He)).
      pose proof (proj2 (HdegD b)). lia. }
  assert (Hrest : forall a b, In (a, b) rest -> arc D a b \/ arc D b a)
    by (intros a b H; apply Hall; right; exact H).
  cbn [leafOrientations].
  destruct (Hall u v (or_introl eq_refl)) as [Huv'|Hvu'].
  - destruct (Hstep u v Hu Hv Huv') as (Hw & He & E1 & E2).
    rewrite E1, E2. cbn [negb andb].
    destruct (IH (addArc o u v) Hw Hn Hf1 Hd' He Hrest) as (d & Hd & Hed).
    exists d. split; [apply in_app_iff; left; exact Hd|exact Hed].
  - destruct (Hstep v u Hv Hu Hvu') as (Hw & He & E1 & E2).
    rewrite E1, E2. cbn [negb andb].
    destruct (IH (addArc o v u) Hw Hn Hf2 Hd' He Hrest) as (d & Hd & Hed).
    exists d. split; [apply in_app_iff; right; exact Hd|exact Hed].
Qed.

Lemma noThirdArc_emptyGraph (n : Z) : noThirdArc (emptyGraph n).
Proof.
  intros v. unfold outNbrs, inNbrs. simpl. rewrite !aget_replicate.
  split; vm_compute; discriminate.
Qed.



(** ** The propagation step of the solver *)

(** X9. On a cubic graph, with the edge numbering of the graph, a call of
    [canAddNewArc] for an edge [x]-[y] on a partial orientation in which no
    vertex has three outgoing or three incoming arcs returns. When it
    returns true, the orientation that it leaves is again such a partial
    orientation, it has the arc [x -> y], and it has every arc that was
    there before the call: the propagation only adds arcs. *)
Theorem canAddNewArc_keeps_partial_orientation (adjacencyList : list bitset)
    (n : Z) (deletableEdges : bitset) (o : diGraph) (x y : Z) :
  wfGraph adjacencyList n -> cubic adjacencyList n ->
  partialOrientationOf adjacencyList n o -> noThirdArc o ->
  contains (aget EMPTY adjacencyList x) y = true ->
  exists b o',
    canAddNewArc (arcFuel n) adjacencyList n o x y deletableEdges
      (numberEdges adjacencyList n (newMatrix n)) = Ret (b, o')
    /\ (b = true ->
        partialOrientationOf adjacencyList n o' /\ noThirdArc o'
        /\ extends o o' /\ arc o' x y).
Proof.
  intros Hg Hcubic Hpo Hdeg Hedge.
  destruct (canAddNewArc_decides adjacencyList n deletableEdges
              (numberEdges adjacencyList n (newMatrix n)) o Hg Hcubic
              (proj2 (numberEdges_invariant adjacencyList n))
              (arcFuel n) o x y (conj Hpo Hdeg) Hedge
              (arcFuel_enough adjacencyList n Hg Hcubic o))
    as (b & o' & E & Hpost & _).
  exists b, o'. split; [exact E|].
  intros Hb. destruct (Hpost Hb) as ((Hpo' & Hdeg') & Hext & Harc & _).
  auto.
Qed.

Lemma canAddNewArc_keeps_partial_orientation_witness :
  exists b o',
    canAddNewArc (arcFuel 4) K4 4 (emptyGraph 4) 0 1
      (fold_left add [1; 4; 5] EMPTY) (numberEdges K4 4 (newMatrix 4))
    = Ret (b, o')
    /\ (b = true ->
        partialOrientationOf K4 4 o' /\ noThirdArc o'
        /\ extends (emptyGraph 4) o' /\ arc o' 0 1).
Proof.
  assert (Hg : wfGraph K4 4) by (apply checkGraph_sound; vm_compute; reflexivity).
  apply (canAddNewArc_keeps_partial_orientation K4 4
           (fold_left add [1; 4; 5] EMPTY) (emptyGraph 4) 0 1).
  - exact Hg.
  - apply checkCubic_sound. vm_compute. reflexivity.
  - split; [reflexivity|]. split; [apply wfDiGraph_emptyGraph; lia|].
    split; intros u v H; destruct (arc_emptyGraph 4 u v H).
  - apply noThirdArc_emptyGraph.
  - vm_compute. reflexivity.
Defined.

(** ** The graph6 reader *)

Lemma prevBit_spec (k : nat) (character : Z) :
  -1 <= prevBit k character < Z.of_nat k
  /\ (0 <= prevBit k character ->
      Z.testbit character (prevBit k character) = true)
  /\ forall j, prevBit k character < j < Z.of_nat k ->
       Z.testbit character j = false.
Proof.
  induction k as [|k IH]; cbn [prevBit].
  - split; [lia|]. split; [lia|]. intros j Hj. lia.
  - destruct (Z.testbit character (Z.of_nat k)) eqn:E.
    + split; [lia|]. split; [intros _; exact E|]. intros j Hj. lia.
    + destruct IH as (Hr & Hset & Hzero).
      split; [lia|]. split; [exact Hset|].
      intros j Hj. destruct (Z.eq_dec j (Z.of_nat k)) as [->|Hne];
        [exact E | apply Hzero; lia].
Qed.

Lemma prev_spec (character current : Z) :
  0 <= current ->
  -1 <= prev character current < current
  /\ (0 <= prev character current ->
      Z.testbit character (prev character current) = true)
  /\ forall j, prev character current < j < current ->
       Z.testbit character j = false.
Proof.
  intros Hc. unfold prev. destruct (Z.eqb_spec character 0) as [->|Hne].
  - split; [lia|]. split; [lia|]. intros j _. apply Z.bits_0.
  - pose proof (prevBit_spec (Z.to_nat current) character) as H.
    rewrite Z2Nat.id in H by exact Hc. exact H.
Qed.

Lemma advanceColumn_spec (fuel : nat) :
  forall position sum currentVertex,
    1 <= currentVertex ->
    2 * sum = currentVertex * (currentVertex - 1) ->
    sum <= position ->
    position - sum + 1 < Z.of_nat fuel ->
    exists sum' currentVertex',
      advanceColumn fuel position sum currentVertex = (sum', currentVertex')
      /\ currentVertex < currentVertex'
      /\ 2 * sum' = currentVertex' * (currentVertex' - 1)
      /\ (currentVertex' - 1) * (currentVertex' - 2) <= 2 * position
         < currentVertex' * (currentVertex' - 1).
Proof.
  induction fuel as [|f IH]; intros p sum cv Hcv Hsum Hle Hfuel; [lia|].
  cbn [advanceColumn].
  destruct (Z.leb_spec 0 (p - sum)) as [_|]; [|lia].
  destruct (Z_le_gt_dec (sum + cv) p) as [Hmore|Hstop].
  - destruct (IH p (sum + cv) (cv + 1)) as (s' & c' & E & Hc' & Hs' & Hp');
      [lia|nia|lia|lia|].
    exists s', c'. split; [exact E|]. split; [lia|]. split; assumption.
  - exists (sum + cv), (cv + 1). split.
    + destruct f as [|f']; cbn [advanceColumn]; [reflexivity|].
      destruct (Z.leb_spec 0 (p - (sum + cv))); [lia|reflexivity].
    + split; [lia|]. split; [nia|]. nia.
Qed.

(** Writing the edge between [a] and [b] in an adjacency list. *)
Lemma contains_add_edge (adj : list bitset) (a b x y : Z) :
  0 <= a < Z.of_nat (length adj) -> 0 <= b < Z.of_nat (length adj) ->
  contains
    (aget EMPTY
       (aset (aset adj b (add (aget EMPTY adj b) a)) a
          (add (aget EMPTY (aset adj b (add (aget EMPTY adj b) a)) a) b))
       y) x
  = contains (aget EMPTY adj y) x
    || ((y =? b) && (x =? a)) || ((y =? a) && (x =? b)).
Proof.
  intros Ha Hb.
  set (adj1 := aset adj b (add (aget EMPTY adj b) a)).
  assert (Hl1 : length adj1 = length adj) by apply length_aset.
  assert (H1 : forall y x,
            contains (aget EMPTY adj1 y) x
            = contains (aget EMPTY adj y) x || ((y =? b) && (x =? a))).
  { intros y' x'. unfold adj1. destruct (Z.eqb_spec y' b) as [->|Hne].
    - rewrite aget_aset_eq by lia. rewrite contains_add by lia. reflexivity.
    - rewrite aget_aset_ne by congruence. rewrite orb_false_r. reflexivity. }
  destruct (Z.eqb_spec y a) as [->|Hne].
  - rewrite aget_aset_eq by lia. rewrite contains_add by lia.
    rewrite H1. reflexivity.
  - rewrite aget_aset_ne by congruence. rewrite H1, orb_false_r. reflexivity.
Qed.

Lemma add_edge_nonneg (adj : list bitset) (a b v : Z) :
  0 <= a < Z.of_nat (length adj) -> 0 <= b < Z.of_nat (length adj) ->
  (forall w, 0 <= aget EMPTY adj w) ->
  0 <= aget EMPTY
         (aset (aset adj b (add (aget EMPTY adj b) a)) a
            (add (aget EMPTY (aset adj b (add (aget EMPTY adj b) a)) a) b))
         v.
Proof.
  intros Ha Hb Hnn.
  assert (H1 : forall w, 0 <= aget EMPTY (aset adj b (add (aget EMPTY adj b) a)) w).
  { intros w. destruct (Z.eq_dec w b) as [->|Hne].
    - rewrite aget_aset_eq by lia. apply add_nonneg, Hnn.
    - rewrite aget_aset_ne by congruence. apply Hnn. }
  destruct (Z.eq_dec v a) as [->|Hne].
  - rewrite aget_aset_eq by (rewrite length_aset; lia). apply add_nonneg, H1.
  - rewrite aget_aset_ne by congruence. apply H1.
Qed.

(** The position of a bit determines its edge. *)
Lemma edgeAt_unique (p a b a' b' : Z) :
  0 <= a < b -> 2 * p = b * (b - 1) + 2 * a ->
  0 <= a' < b' -> 2 * p = b' * (b' - 1) + 2 * a' ->
  a = a' /\ b = b'.
Proof.
  intros Ha Hp Ha' Hp'.
  assert (b = b'); [|subst; lia].
  destruct (Z.lt_trichotomy b b') as [H|[H|H]]; [exfalso|exact H|exfalso]; nia.
Qed.

Lemma graph6Bit_at (body : cstring) (offset j : Z) :
  0 <= offset < Z.of_nat (length body) -> 0 <= j <= 5 ->
  graph6Bit body (offset * 6 + 5 - j)
  = Z.testbit (charAt body offset - 63) j.
Proof.
  intros Ho Hj. unfold graph6Bit.
  assert (Hd : (offset * 6 + 5 - j) / 6 = offset)
    by (symmetry; apply (Z.div_unique_pos _ 6 offset (5 - j)); lia).
  assert (Hm : (offset * 6 + 5 - j) mod 6 = 5 - j)
    by (symmetry; apply (Z.mod_unique_pos _ 6 offset (5 - j)); lia).
  rewrite Hd, Hm.
  destruct (Z.leb_spec 0 (offset * 6 + 5 - j)); [|lia].
  destruct (Z.ltb_spec (offset * 6 + 5 - j) (6 * Z.of_nat (length body)));
    [|lia].
  cbn [andb]. f_equal. lia.
Qed.

Lemma decoded_skip (n : Z) (body : cstring) (q q' : Z) (st : loadState) :
  decoded n body q st -> q <= q' ->
  (forall p, q <= p < q' -> graph6Bit body p = false) ->
  decoded n body q' st.
Proof.
  intros (Hlen & Hcv & Hsum & Hle & Hnn & Hadj) Hq Hzero.
  split; [exact Hlen|]. split; [exact Hcv|]. split; [exact Hsum|].
  split; [lia|]. split; [exact Hnn|].
  intros u v. rewrite Hadj. split; intros (p & Hp & Hbit & He).
  - exists p. split; [lia|]. split; assumption.
  - exists p. split; [|split; assumption].
    destruct (Z_lt_le_dec p q); [lia|].
    rewrite Hzero in Hbit by lia. discriminate.
Qed.

(** The body of the inner loop of [loadGraph] for a set bit: the edge of
    the bit is written in both rows. *)
Lemma loadBit_spec (n : Z) (body : cstring) (offset i : Z) (st : loadState) :
  0 <= n ->
  decoded n body (5 - i + offset * 6) st ->
  graph6Bit body (5 - i + offset * 6) = true ->
  2 * (5 - i + offset * 6) < n * (n - 1) ->
  decoded n body (5 - i + offset * 6 + 1) (loadBit offset i st).
Proof.
  intros Hn (Hlen & Hcv & Hsum & Hle & Hnn & Hadj) Hbit Hin.
  unfold loadBit. set (p := 5 - i + offset * 6) in *.
  assert (Hpnn : 0 <= p).
  { unfold graph6Bit in Hbit. apply andb_true_iff in Hbit.
    destruct Hbit as [Hbit _]. apply andb_true_iff in Hbit.
    destruct Hbit as [Hbit _]. apply Z.leb_le in Hbit. exact Hbit. }
  destruct (advanceColumn_spec (S (S (Z.to_nat p))) p (lsSum st)
              (lsCurrentVertex st) Hcv Hsum Hle)
    as (s' & c' & E & Hc' & Hs' & Hp'); [nia|].
  rewrite E.
  set (b := c' - 1). set (a := p - (s' - b)).
  assert (Hab : 0 <= a < b) by (unfold a, b; nia).
  assert (Hb : b < n) by (unfold b; nia).
  assert (Hpos : 2 * p = b * (b - 1) + 2 * a) by (unfold a, b; nia).
  assert (Hla : 0 <= a < Z.of_nat (length (lsAdjacencyList st))) by lia.
  assert (Hlb : 0 <= b < Z.of_nat (length (lsAdjacencyList st))) by lia.
  unfold decoded. cbn [lsAdjacencyList lsCurrentVertex lsSum].
  split; [rewrite !length_aset; exact Hlen|].
  split; [lia|]. split; [unfold b; nia|]. split; [unfold a in Hab; lia|].
  split; [intros v; apply add_edge_nonneg; assumption|].
  intros u v. rewrite contains_add_edge by assumption.
  rewrite !orb_true_iff, !andb_true_iff, !Z.eqb_eq, Hadj.
  split.
  - intros [[(p0 & Hp0 & Hb0 & He0)|[-> ->]]|[-> ->]].
    + exists p0. split; [lia|]. split; assumption.
    + exists p. split; [lia|]. split; [exact Hbit|].
      exists a, b. split; [exact Hab|]. split; [exact Hpos|]. left. auto.
    + exists p. split; [lia|]. split; [exact Hbit|].
      exists a, b. split; [exact Hab|]. split; [exact Hpos|]. right. auto.
  - intros (p0 & Hp0 & Hb0 & He0).
    destruct (Z.eq_dec p0 p) as [->|Hne].
    + destruct He0 as (a0 & b0 & Hab0 & Hpos0 & Hcase).
      destruct (edgeAt_unique p a b a0 b0 Hab Hpos Hab0 Hpos0) as [<- <-].
      destruct Hcase as [[-> ->]|[-> ->]]; [left; right|right]; auto.
    + left. left. exists p0. split; [lia|]. split; assumption.
Qed.

(** The inner loop of [loadGraph]: the set bits of one character. *)
Lemma loadChar_spec (n : Z) (body : cstring) (offset : Z) :
  0 <= n -> 0 <= offset < Z.of_nat (length body) ->
  (forall p, graph6Bit body p = true -> 2 * p < n * (n - 1)) ->
  forall (fuel : nat) (i : Z) (st : loadState),
    -1 <= i <= 5 ->
    (0 <= i -> Z.testbit (charAt body offset - 63) i = true) ->
    i + 1 < Z.of_nat fuel ->
    decoded n body (offset * 6 + 5 - i) st ->
    decoded n body (offset * 6 + 6)
      (loadChar fuel (charAt body offset - 63) offset i st).
Proof.
  intros Hn Ho Hin.
  induction fuel as [|f IH]; intros i st Hi Hset Hfuel Hdec; [lia|].
  cbn [loadChar]. destruct (Z.eqb_spec i (-1)) as [->|Hne].
  { replace (offset * 6 + 6) with (offset * 6 + 5 - -1) by lia. exact Hdec. }
  assert (Hi0 : 0 <= i <= 5) by lia.
  assert (Hbit : graph6Bit body (5 - i + offset * 6) = true).
  { replace (5 - i + offset * 6) with (offset * 6 + 5 - i) by lia.
    rewrite graph6Bit_at by assumption. apply Hset. lia. }
  replace (offset * 6 + 5 - i) with (5 - i + offset * 6) in Hdec by lia.
  pose proof (loadBit_spec n body offset i st Hn Hdec Hbit (Hin _ Hbit))
    as Hdec'.
  destruct (prev_spec (charAt body offset - 63) i ltac:(lia))
    as (Hr & Hrset & Hrzero).
  apply IH; [lia|exact Hrset|lia|].
  apply (decoded_skip n body (5 - i + offset * 6 + 1)); [exact Hdec'|lia|].
  intros p Hp.
  replace p with (offset * 6 + 5 - (offset * 6 + 5 - p)) by lia.
  rewrite graph6Bit_at by lia. apply Hrzero. lia.
Qed.

Lemma charAt_app (done rest : cstring) (c : Z) :
  charAt (done ++ c :: rest) (Z.of_nat (length done)) = c.
Proof.
  unfold charAt, aget.
  destruct (Z.ltb_spec (Z.of_nat (length done)) 0); [lia|].
  rewrite Nat2Z.id.
  replace (length done) with (length done + 0)%nat at 1 by lia.
  rewrite lookup_app_r by lia.
  replace (length done + 0 - length done)%nat with 0%nat by lia. reflexivity.
Qed.

(** The outer loop of [loadGraph] over the characters before the newline. *)
Lemma loadChars_spec (n : Z) (body tail : cstring) :
  0 <= n ->
  (forall p, graph6Bit body p = true -> 2 * p < n * (n - 1)) ->
  forall (rest done : cstring) (finalChar : Z) (st : loadState),
    body = done ++ rest ->
    Forall (fun c => 63 <= c <= 126) rest ->
    finalChar <> 0 ->
    decoded n body (6 * Z.of_nat (length done)) st ->
    exists st' finalChar',
      loadChars (rest ++ 10 :: tail) (Z.of_nat (length done)) finalChar st
      = (st', finalChar')
      /\ finalChar' <> 0
      /\ decoded n body (6 * Z.of_nat (length body)) st'.
Proof.
  intros Hn Hin.
  induction rest as [|c rest IH]; intros done fc st Hbody Hvalid Hfc Hdec.
  { exists st, fc. cbn [app loadChars]. rewrite Z.eqb_refl.
    split; [reflexivity|]. split; [exact Hfc|].
    rewrite app_nil_r in Hbody. rewrite <- Hbody in Hdec. exact Hdec. }
  apply Forall_cons in Hvalid. destruct Hvalid as [Hc Hvalid].
  cbn [app loadChars].
  destruct (Z.eqb_spec c 10); [lia|]. destruct (Z.eqb_spec c 0); [lia|].
  assert (Hchar : charAt body (Z.of_nat (length done)) = c)
    by (rewrite Hbody; apply charAt_app).
  assert (Ho : 0 <= Z.of_nat (length done) < Z.of_nat (length body))
    by (rewrite Hbody, length_app; cbn [length]; lia).
  destruct (prev_spec (c - 63) 6 ltac:(lia)) as (Hr & Hrset & Hrzero).
  assert (Hdec1 : decoded n body (Z.of_nat (length done) * 6 + 6)
            (loadChar 7 (c - 63) (Z.of_nat (length done)) (prev (c - 63) 6) st)).
  { rewrite <- Hchar. apply loadChar_spec; try assumption.
    - rewrite Hchar. lia.
    - rewrite Hchar. exact Hrset.
    - rewrite Hchar. simpl. lia.
    - rewrite Hchar.
      apply (decoded_skip n body (6 * Z.of_nat (length done)));
        [exact Hdec|lia|].
      intros p Hp.
      replace p with (Z.of_nat (length done) * 6 + 5
                      - (Z.of_nat (length done) * 6 + 5 - p)) by lia.
      rewrite graph6Bit_at by lia. rewrite Hchar. apply Hrzero. lia. }
  destruct (IH (done ++ [c]) c
              (loadChar 7 (c - 63) (Z.of_nat (length done)) (prev (c - 63) 6) st))
    as (st' & fc' & E & Hfc' & Hdec').
  - rewrite Hbody, <- app_assoc. reflexivity.
  - exact Hvalid.
  - lia.
  - rewrite length_app. cbn [length].
    replace (6 * Z.of_nat (length done + 1))
      with (Z.of_nat (length done) * 6 + 6) by lia.
    exact Hdec1.
  - exists st', fc'. rewrite length_app in E. cbn [length] in E.
    replace (Z.of_nat (length done + 1)) with (Z.of_nat (length done) + 1)
      in E by lia.
    split; [exact E|]. split; assumption.
Qed.

Lemma triangular_double (v : Z) : 2 * (v * (v - 1) / 2) = v * (v - 1).
Proof.
  symmetry. apply Z.div_exact; [lia|].
  rewrite Zmod_even, Z.even_mul.
  replace (v - 1) with (Z.pred v) by lia. rewrite Z.even_pred.
  rewrite Z.orb_even_odd. reflexivity.
Qed.

Lemma loadChars_decodes (n : Z) (body tail : cstring) :
  0 <= n ->
  Forall (fun c => 63 <= c <= 126) body ->
  (forall p, graph6Bit body p = true -> 2 * p < n * (n - 1)) ->
  exists st' finalChar',
    loadChars (body ++ 10 :: tail) 0 10
      (mkLoadState (replicate (Z.to_nat n) EMPTY) 1 0) = (st', finalChar')
    /\ finalChar' <> 0
    /\ decoded n body (6 * Z.of_nat (length body)) st'.
Proof.
  intros Hn Hvalid Hin.
  apply (loadChars_spec n body tail Hn Hin body [] 10
           (mkLoadState (replicate (Z.to_nat n) EMPTY) 1 0));
    [reflexivity|exact Hvalid|lia|].
  unfold decoded. cbn [lsAdjacencyList lsCurrentVertex lsSum length].
  split; [apply length_replicate|]. split; [lia|]. split; [lia|].
  split; [lia|]. split.
  - intros v. rewrite aget_replicate. unfold EMPTY. lia.
  - intros u v. rewrite aget_replicate, contains_EMPTY. split; [discriminate|].
    intros (p & Hp & _). lia.
Qed.

(** What the adjacency list is when all the bits are handled. *)
Lemma decoded_graph (n : Z) (body : cstring) (st : loadState) :
  0 <= n ->
  (forall p, graph6Bit body p = true -> 2 * p < n * (n - 1)) ->
  decoded n body (6 * Z.of_nat (length body)) st ->
  wfGraph (lsAdjacencyList st) n
  /\ forall u v, 0 <= u < v -> v < n ->
       contains (aget EMPTY (lsAdjacencyList st) v) u
       = graph6Bit body (v * (v - 1) / 2 + u).
Proof.
  intros Hn Hin (Hlen & _ & _ & _ & Hnn & Hadj).
  assert (Hrange : forall u v,
            contains (aget EMPTY (lsAdjacencyList st) v) u = true ->
            0 <= u < n /\ 0 <= v < n /\ u <> v).
  { intros u v H. apply Hadj in H.
    destruct H as (p & _ & Hbit & a & b & Hab & Hpos & Hcase).
    apply Hin in Hbit.
    assert (b < n) by nia.
    destruct Hcase as [[-> ->]|[-> ->]]; lia. }
  assert (Hsym : forall u v,
            contains (aget EMPTY (lsAdjacencyList st) v) u = true ->
            contains (aget EMPTY (lsAdjacencyList st) u) v = true).
  { intros u v H. apply Hadj in H. apply Hadj.
    destruct H as (p & Hp & Hbit & a & b & Hab & Hpos & Hcase).
    exists p. split; [exact Hp|]. split; [exact Hbit|].
    exists a, b. split; [exact Hab|]. split; [exact Hpos|]. tauto. }
  split.
  - split; [exact Hn|]. split; [exact Hlen|]. split; [exact Hnn|].
    split; [|split].
    + intros u v H. apply (Hrange v u H).
    + intros u v. apply eq_true_iff_eq. split; apply Hsym.
    + intros u. destruct (contains _ u) eqn:E; [|reflexivity].
      destruct (Hrange u u E) as (_ & _ & H). congruence.
  - intros u v Hu Hv. apply eq_true_iff_eq. rewrite Hadj.
    pose proof (triangular_double v) as Hv2. split.
    + intros (p & Hp & Hbit & a & b & Hab & Hpos & Hcase).
      destruct Hcase as [[-> ->]|[-> ->]]; [|lia].
      replace (b * (b - 1) / 2 + a) with p by lia. exact Hbit.
    + intros Hbit. exists (v * (v - 1) / 2 + u).
      assert (Hguard : 0 <= v * (v - 1) / 2 + u
                       < 6 * Z.of_nat (length body)).
      { unfold graph6Bit in Hbit. apply andb_true_iff in Hbit.
        destruct Hbit as [Hbit _]. apply andb_true_iff in Hbit.
        destruct Hbit as [H1 H2]. apply Z.leb_le in H1. apply Z.ltb_lt in H2.
        lia. }
      split; [exact Hguard|]. split; [exact Hbit|].
      exists u, v. split; [lia|]. split; [lia|]. left. auto.
Qed.

(** X10. [loadGraph] decodes the graph6 data. For a line made of the size
    prefix (with or without the [>>graph6<<] header), data characters
    between 63 and 126 and a newline, in which no bit is set beyond the
    upper triangle of an [n] by [n] matrix, it returns 0 and an adjacency
    list that is a simple graph on [n] vertices (symmetric, without loops,
    neighbours below [n]), in which [u < v] are adjacent exactly when bit
    [v(v-1)/2 + u] of the data is set. *)
Theorem loadGraph_decodes (MAXVERTICES : Z) (prefix body tail : cstring)
    (n : Z) :
  0 <= n -> n <= 62 \/ n <= MAXVERTICES ->
  Z.of_nat (length prefix)
  = (if charAt prefix 0 =? 62 then 10 else 0) + (if n <=? 62 then 1 else 4) ->
  Forall (fun c => 63 <= c <= 126) body ->
  (forall p, graph6Bit body p = true -> 2 * p < n * (n - 1)) ->
  exists adjacencyList,
    loadGraph MAXVERTICES (prefix ++ body ++ 10 :: tail) n
    = (0, adjacencyList)
    /\ wfGraph adjacencyList n
    /\ forall u v, 0 <= u < v -> v < n ->
         contains (aget EMPTY adjacencyList v) u
         = graph6Bit body (v * (v - 1) / 2 + u).
Proof.
  intros Hn Hmax Hprefix Hvalid Hin.
  destruct (loadChars_decodes n body tail Hn Hvalid Hin)
    as (st' & fc' & E & Hfc & Hdec).
  exists (lsAdjacencyList st').
  split; [|apply decoded_graph; assumption].
  assert (H0 : charAt (prefix ++ body ++ 10 :: tail) 0 = charAt prefix 0).
  { unfold charAt. apply aget_app_l.
    destruct (charAt prefix 0 =? 62), (n <=? 62); lia. }
  unfold loadGraph. cbv zeta. rewrite H0.
  assert (Hdrop : forall k, k = Z.of_nat (length prefix) ->
            drop (Z.to_nat k) (prefix ++ body ++ 10 :: tail)
            = body ++ 10 :: tail).
  { intros k ->. rewrite Nat2Z.id. apply drop_app_length. }
  destruct (Z.leb_spec n 62) as [Hsmall|Hbig].
  - rewrite Hdrop by (destruct (charAt prefix 0 =? 62); lia).
    rewrite E. destruct (Z.eqb_spec fc' 0); [contradiction|reflexivity].
  - destruct (Z.leb_spec n MAXVERTICES); [|lia].
    rewrite Hdrop by (destruct (charAt prefix 0 =? 62); lia).
    rewrite E. destruct (Z.eqb_spec fc' 0); [contradiction|reflexivity].
Qed.

Lemma loadGraph_decodes_witness :
  exists adjacencyList,
    loadGraph 64 ([67] ++ [126] ++ 10 :: []) 4 = (0, adjacencyList)
    /\ wfGraph adjacencyList 4
    /\ forall u v, 0 <= u < v -> v < 4 ->
         contains (aget EMPTY adjacencyList v) u
         = graph6Bit [126] (v * (v - 1) / 2 + u).
Proof.
  apply (loadGraph_decodes 64 [67] [126] [] 4).
  - lia.
  - left. lia.
  - reflexivity.
  - repeat constructor; lia.
  - intros p Hp. unfold graph6Bit in Hp. apply andb_true_iff in Hp.
    destruct Hp as [Hp _]. apply andb_true_iff in Hp. destruct Hp as [_ Hp].
    apply Z.ltb_lt in Hp. simpl in Hp. lia.
Defined.

(** ** The size field of a graph6 line *)

Lemma lor_shiftl_low (a b k : Z) :
  0 <= k -> 0 <= b < 2 ^ k -> Z.lor (Z.shiftl a k) b = a * 2 ^ k + b.
Proof.
  intros Hk Hb.
  assert (Hland : Z.land (Z.shiftl a k) b = 0).
  { apply Z.bits_inj'. intros i Hi. rewrite Z.land_spec, Z.bits_0.
    destruct (Z.lt_ge_cases i k) as [Hlt|Hge].
    - rewrite Z.shiftl_spec_low by exact Hlt. reflexivity.
    - rewrite <- (Z.mod_small b (2 ^ k)) by exact Hb.
      rewrite Z.mod_pow2_bits_high by lia. apply andb_false_r. }
  pose proof (Z.add_lor_land (Z.shiftl a k) b) as H.
  rewrite Hland, Z.shiftl_mul_pow2 in H by exact Hk.
  rewrite Z.shiftl_mul_pow2 by exact Hk. lia.
Qed.

Lemma readNumber_three (s : cstring) (index x1 x2 x3 : Z) :
  0 <= x2 < 64 -> 0 <= x3 < 64 ->
  charAt s index = 63 + x1 ->
  charAt s (index + 1) = 63 + x2 ->
  charAt s (index + 1 + 1) = 63 + x3 ->
  readNumber 3 s index 0 = 4096 * x1 + 64 * x2 + x3.
Proof.
  intros H2 H3 E1 E2 E3. simpl. rewrite E1, E2, E3.
  replace (63 + x1 - 63) with x1 by lia.
  replace (63 + x2 - 63) with x2 by lia.
  replace (63 + x3 - 63) with x3 by lia.
  change (Z.of_nat 2 * 6) with 12. change (Z.of_nat 1 * 6) with 6.
  change (Z.of_nat 0 * 6) with 0. rewrite ?Z.lor_0_l. rewrite Z.shiftl_0_r.
  replace (Z.shiftl x1 12) with (Z.shiftl (Z.shiftl x1 6) 6)
    by (rewrite Z.shiftl_shiftl by lia; reflexivity).
  rewrite <- Z.shiftl_lor.
  rewrite (lor_shiftl_low x1 x2 6) by (change (2 ^ 6) with 64; lia).
  rewrite lor_shiftl_low by (change (2 ^ 6) with 64; lia).
  change (2 ^ 6) with 64. lia.
Qed.

(** X11. [getNumberOfVertices] reads back the size field of the graph6
    format. For every number of vertices [n] below 258048, on a line that
    starts with the size field of [n] (one character up to 62 vertices, four
    characters from 63 vertices on) it returns [n] and prints nothing,
    whatever follows the size field. *)
Theorem getNumberOfVertices_reads_size (n : Z) (rest : cstring) :
  0 <= n < 258048 ->
  getNumberOfVertices (graph6Size n ++ rest) = ([], n).
Proof.
  intros Hn. unfold graph6Size.
  destruct (Z.leb_spec n 62) as [Hsmall|Hbig].
  - unfold getNumberOfVertices. cbn [app length].
    change (charAt ((n + 63) :: rest) 0) with (n + 63).
    replace (Z.of_nat (S (length rest)) =? 0) with false
      by (symmetry; apply Z.eqb_neq; lia).
    replace (n + 63 <? 63) with false by (symmetry; apply Z.ltb_ge; lia).
    replace (126 <? n + 63) with false by (symmetry; apply Z.ltb_ge; lia).
    cbn [orb andb].
    replace (n + 63 =? 62) with false by (symmetry; apply Z.eqb_neq; lia).
    change (charAt ((n + 63) :: rest) 0) with (n + 63).
    replace (n + 63 =? 38) with false by (symmetry; apply Z.eqb_neq; lia).
    change (charAt ((n + 63) :: rest) 0) with (n + 63).
    replace (n + 63 <? 126) with true by (symmetry; apply Z.ltb_lt; lia).
    f_equal. lia.
  - set (s := [126; 63 + n / 4096; 63 + n / 64 mod 64; 63 + n mod 64] ++ rest).
    assert (E0 : charAt s 0 = 126) by reflexivity.
    assert (E1 : charAt s (0 + 1) = 63 + n / 4096) by reflexivity.
    assert (E2 : charAt s (0 + 1 + 1) = 63 + n / 64 mod 64) by reflexivity.
    assert (E3 : charAt s (0 + 1 + 1 + 1) = 63 + n mod 64) by reflexivity.
    assert (Hlen : (Z.of_nat (length s) =? 0) = false)
      by (apply Z.eqb_neq; unfold s; cbn [app length]; lia).
    unfold getNumberOfVertices. rewrite Hlen, E0. cbn [Z.ltb Z.compare
      Pos.compare Pos.compare_cont orb andb Z.eqb Pos.eqb negb].
    rewrite E0. cbn [Z.ltb Z.compare Pos.compare Pos.compare_cont Z.eqb
      Pos.eqb].
    rewrite E0. cbn [Z.ltb Z.compare Pos.compare Pos.compare_cont Z.eqb
      Pos.eqb].
    rewrite E1.
    assert (Hq : 0 <= n / 4096 < 63).
    { split; [apply Z.div_pos; lia|].
      apply Z.div_lt_upper_bound; lia. }
    replace (63 + n / 4096 <? 126) with true by (symmetry; apply Z.ltb_lt; lia).
    f_equal.
    rewrite (readNumber_three s (0 + 1) (n / 4096) (n / 64 mod 64) (n mod 64)).
    + pose proof (Z.div_mod n 64 ltac:(lia)) as D1.
      pose proof (Z.div_mod (n / 64) 64 ltac:(lia)) as D2.
      rewrite Z.div_div in D2 by lia. change (64 * 64) with 4096 in D2. lia.
    + apply Z.mod_pos_bound. lia.
    + apply Z.mod_pos_bound. lia.
    + exact E1.
    + exact E2.
    + exact E3.
Qed.

Lemma getNumberOfVertices_reads_size_witness :
  getNumberOfVertices (graph6Size 100 ++ chars "??") = ([], 100).
Proof.
  apply (getNumberOfVertices_reads_size 100 (chars "??")). lia.
Defined.

Lemma skipToLess_app (h t : cstring) (index : Z) :
  Forall (fun x => x <> 60) h ->
  skipToLess (h ++ 60 :: t) index = index + Z.of_nat (length h).
Proof.
  intros Hh. revert index.
  induction Hh as [|x h Hx Hh IH]; intros index; simpl.
  - lia.
  - destruct (Z.eqb_spec x 60) as [E|_]; [contradiction|].
    rewrite IH. lia.
Qed.

(** X12. On a line that starts with ['>'], [getNumberOfVertices] takes as
    size field the character that follows the first ['<'] of the line: when
    this character [c] is below 126 and is not ['&'], the result is
    [c - 63]. With the header [>>graph6<<] this character is the second
    ['<'] of the header, and the result is -3 whatever graph follows. *)
Theorem getNumberOfVertices_after_first_less (h : cstring) (c : Z)
    (rest : cstring) :
  Forall (fun x => x <> 60) h ->
  c <> 38 -> c < 126 ->
  getNumberOfVertices (62 :: h ++ 60 :: c :: rest) = ([], c - 63).
Proof.
  intros Hh Hamp Hc.
  set (s := 62 :: h ++ 60 :: c :: rest).
  assert (Hskip : skipToLess s 0 + 1 = Z.of_nat (length ((62 :: h) ++ [60]))).
  { unfold s. change (62 :: h ++ 60 :: c :: rest)
      with ((62 :: h) ++ 60 :: c :: rest).
    rewrite skipToLess_app by (constructor; [lia|exact Hh]).
    rewrite length_app. cbn [length]. lia. }
  assert (Hat : charAt s (skipToLess s 0 + 1) = c).
  { rewrite Hskip. unfold s.
    replace (62 :: h ++ 60 :: c :: rest) with (((62 :: h) ++ [60]) ++ c :: rest)
      by (rewrite <- app_assoc; reflexivity).
    apply charAt_app. }
  assert (E0 : charAt s 0 = 62) by reflexivity.
  assert (Hlen : (Z.of_nat (length s) =? 0) = false)
    by (apply Z.eqb_neq; unfold s; cbn [length]; lia).
  unfold getNumberOfVertices. rewrite Hlen, E0.
  cbn [Z.ltb Z.compare Pos.compare Pos.compare_cont orb andb Z.eqb Pos.eqb negb].
  rewrite Hat.
  replace (c =? 38) with false by (symmetry; apply Z.eqb_neq; exact Hamp).
  rewrite Hat.
  replace (c <? 126) with true by (symmetry; apply Z.ltb_lt; exact Hc).
  reflexivity.
Qed.

Lemma getNumberOfVertices_after_first_less_witness :
  getNumberOfVertices (chars ">>graph6<<C~") = ([], -3).
Proof.
  apply (getNumberOfVertices_after_first_less
           (chars ">graph6") 60 (chars "C~")).
  - repeat constructor; discriminate.
  - discriminate.
  - reflexivity.
Defined.

(** X13. A line that the driver reads and whose first character is not a
    character of the graph6 format (below 63 or above 126, and neither ['>']
    nor ['&']; a blank line for one) is counted as skipped, and the message of
    [getNumberOfVertices] about it is written to stdout, the stream on which
    the driver writes the graphs that pass the filter. *)
Theorem invalid_line_reported_on_stdout (MAXVERTICES : Z)
    (configurationTest :
       list bitset -> Z -> options -> counters -> list Z ->
       result (bool * counters))
    (st : driverState) (c : Z) (rest : cstring) :
  lineIsRead st = true ->
  c < 63 \/ 126 < c -> c <> 62 -> c <> 38 ->
  exists st',
    processLine MAXVERTICES configurationTest st (c :: rest)
    = Ret (Skipped, st')
    /\ stdout st'
       = stdout st ++ [chars "Error: Invalid start of graphstring.
"]
    /\ skippedGraphs st' = ull (skippedGraphs st + 1)
    /\ counter st' = counter st
    /\ passedGraphs st' = passedGraphs st.
Proof.
  intros Hread Hc H62 H38.
  unfold lineIsRead in Hread. apply andb_true_iff in Hread.
  destruct Hread as [H1 H2]. apply negb_true_iff in H1, H2.
  assert (Hnum : getNumberOfVertices (c :: rest)
                 = ([chars "Error: Invalid start of graphstring.
"], -1)).
  { unfold getNumberOfVertices. cbn [length].
    replace (Z.of_nat (S (length rest)) =? 0) with false
      by (symmetry; apply Z.eqb_neq; lia).
    change (charAt (c :: rest) 0) with c.
    replace ((c <? 63) || (126 <? c)) with true.
    2:{ symmetry. apply orb_true_iff.
        destruct Hc; [left; apply Z.ltb_lt|right; apply Z.ltb_lt]; lia. }
    replace (c =? 62) with false by (symmetry; apply Z.eqb_neq; exact H62).
    replace (c =? 38) with false by (symmetry; apply Z.eqb_neq; exact H38).
    reflexivity. }
  unfold processLine. rewrite H1, H2, Hnum. cbn [Z.eqb Pos.eqb orb].
  eexists. split; [reflexivity|]. cbn [stdout skippedGraphs counter passedGraphs].
  repeat split; reflexivity.
Qed.

Lemma invalid_line_reported_on_stdout_witness :
  exists st',
    processLine 64 rejectConfiguration (startState defaultOptions) (10 :: [])
    = Ret (Skipped, st')
    /\ stdout st'
       = stdout (startState defaultOptions)
         ++ [chars "Error: Invalid start of graphstring.
"]
    /\ skippedGraphs st' = ull (skippedGraphs (startState defaultOptions) + 1)
    /\ counter st' = counter (startState defaultOptions)
    /\ passedGraphs st' = passedGraphs (startState defaultOptions).
Proof.
  apply (invalid_line_reported_on_stdout 64 rejectConfiguration
           (startState defaultOptions) 10 []).
  - reflexivity.
  - left. lia.
  - discriminate.
  - discriminate.
Defined.

(** ** The perfect matchings that the heuristic tests *)

Lemma aget_ext {A : Type} (d : A) (l k : list A) :
  length l = length k ->
  (forall i, 0 <= i < Z.of_nat (length l) -> aget d l i = aget d k i) ->
  l = k.
Proof.
  intros Hlen H. apply list_eq. intros i.
  destruct (Nat.lt_ge_cases i (length l)) as [Hi|Hi].
  - specialize (H (Z.of_nat i) ltac:(lia)). unfold aget in H.
    destruct (Z.ltb_spec (Z.of_nat i) 0); [lia|]. rewrite Nat2Z.id in H.
    destruct (lookup_lt_is_Some_2 l i Hi) as [x Hx].
    destruct (lookup_lt_is_Some_2 k i ltac:(lia)) as [y Hy].
    rewrite Hx, Hy in *. simpl in H. congruence.
  - rewrite !lookup_ge_None_2 by lia. reflexivity.
Qed.

Lemma difference_nonneg (s t : bitset) : 0 <= s -> 0 <= difference s t.
Proof. intros H. apply Z.ldiff_nonneg. left. exact H. Qed.

Lemma next_none_empty (s : bitset) (v : Z) :
  0 <= s -> next s (-1) = -1 -> contains s v = false.
Proof.
  intros Hs Hnext. destruct (contains s v) eqn:E; [|reflexivity].
  destruct (next_found s v Hs E Hnext).
Qed.

Section PerfectMatchings.

Variable configurationTest :
  list bitset -> Z -> options -> counters -> list Z -> result (bool * counters).
Variable accepts : list Z -> bool.
Variable adjacencyList : list bitset.
Variable n : Z.
Variable opts : options.

Hypothesis graph_wf : wfGraph adjacencyList n.

Hypothesis test_verdict :
  forall numberOf F,
    perfectMatching adjacencyList n F ->
    exists numberOf',
      configurationTest adjacencyList n opts numberOf F
      = Ret (accepts F, numberOf').

Let full : bitset := complement EMPTY n.

Lemma full_range (rem : bitset) (v : Z) :
  subsetOf rem full -> contains rem v = true -> 0 <= v < n.
Proof.
  intros Hsub Hv. apply Hsub in Hv. unfold full in Hv.
  rewrite contains_complement_EMPTY in Hv by apply graph_wf.
  apply andb_true_iff in Hv. destruct Hv as [H1 H2].
  apply Z.leb_le in H1. apply Z.ltb_lt in H2. lia.
Qed.

Lemma matchedOutside_agree (rem : bitset) (F F' : list Z) :
  matchedOutside adjacencyList n rem F ->
  agreeOutside rem F F' ->
  matchedOutside adjacencyList n rem F'.
Proof.
  intros [Hlen HF] [Hlen' Hag]. split; [rewrite Hlen'; exact Hlen|].
  intros v Hv Hout. destruct (HF v Hv Hout) as (H1 & H2 & H3).
  rewrite (Hag v Hout). rewrite (Hag _ H2). auto.
Qed.

Lemma extendsMatching_agree (rem : bitset) (F F' M : list Z) :
  agreeOutside rem F F' ->
  extendsMatching n rem F M -> extendsMatching n rem F' M.
Proof.
  intros [_ Hag] HM v Hv Hout. rewrite (Hag v Hout). apply HM; assumption.
Qed.

(** Matching the vertices [v] and [w] that remain. *)
Lemma matchedOutside_step (rem : bitset) (F : list Z) (v w : Z) :
  matchedOutside adjacencyList n rem F ->
  subsetOf rem full ->
  contains rem v = true -> contains rem w = true ->
  contains (aget EMPTY adjacencyList v) w = true ->
  matchedOutside adjacencyList n
    (difference rem (union (singleton v) (singleton w)))
    (aset (aset F w v) v w).
Proof.
  intros [Hlen HF] Hsub Hv Hw Hvw.
  pose proof (full_range rem v Hsub Hv) as Rv.
  pose proof (full_range rem w Hsub Hw) as Rw.
  destruct graph_wf as (_ & _ & _ & _ & Hsym & Hloop).
  assert (Hne : v <> w).
  { intros ->. rewrite Hloop in Hvw. discriminate. }
  assert (Ev : aget 0 (aset (aset F w v) v w) v = w).
  { apply aget_aset_eq. rewrite length_aset. lia. }
  assert (Ew : aget 0 (aset (aset F w v) v w) w = v).
  { rewrite aget_aset_ne by exact Hne. apply aget_aset_eq. lia. }
  assert (Hin : forall x, contains
                  (difference rem (union (singleton v) (singleton w))) x
                = contains rem x && negb ((x =? v) || (x =? w))).
  { intros x. rewrite contains_difference, contains_union,
      !contains_singleton by lia. reflexivity. }
  split; [rewrite !length_aset; exact Hlen|].
  intros x Hx Hout. rewrite Hin in Hout.
  destruct (Z.eqb_spec x v) as [->|Hxv].
  { rewrite Ev, Ew. split; [exact Hvw|]. split; [|reflexivity].
    rewrite Hin, Z.eqb_refl, orb_true_r. apply andb_false_r. }
  destruct (Z.eqb_spec x w) as [->|Hxw].
  { rewrite Ew, Ev. split; [rewrite Hsym; exact Hvw|]. split; [|reflexivity].
    rewrite Hin, Z.eqb_refl. apply andb_false_r. }
  cbn [orb negb] in Hout. rewrite andb_true_r in Hout.
  destruct (HF x Hx Hout) as (H1 & H2 & H3).
  assert (Ex : aget 0 (aset (aset F w v) v w) x = aget 0 F x)
    by (rewrite !aget_aset_ne by congruence; reflexivity).
  assert (Hfv : aget 0 F x <> v) by (intros E; rewrite E in H2; congruence).
  assert (Hfw : aget 0 F x <> w) by (intros E; rewrite E in H2; congruence).
  rewrite Ex. rewrite !aget_aset_ne by congruence.
  split; [exact H1|]. split; [|exact H3].
  rewrite Hin, H2. reflexivity.
Qed.

(** A perfect matching that extends the matching outside [rem] matches a
    remaining vertex to a remaining vertex. *)
Lemma partner_remains (rem : bitset) (F M : list Z) (v : Z) :
  matchedOutside adjacencyList n rem F ->
  perfectMatching adjacencyList n M ->
  extendsMatching n rem F M ->
  0 <= v < n -> contains rem v = true ->
  contains rem (aget 0 M v) = true.
Proof.
  intros [_ HF] [_ HM] Hext Rv Hv.
  destruct (HM v Rv) as [Hadj Hback].
  destruct (contains rem (aget 0 M v)) eqn:E; [reflexivity|].
  assert (Rx : 0 <= aget 0 M v < n)
    by (destruct graph_wf as (_ & _ & _ & Hr & _); apply (Hr v); exact Hadj).
  destruct (HF _ Rx E) as (_ & H2 & _).
  rewrite <- (Hext _ Rx E), Hback in H2. congruence.
Qed.

Lemma size_difference_pair (rem : bitset) (v w : Z) :
  0 <= rem -> 0 <= v -> 0 <= w -> v <> w ->
  contains rem v = true -> contains rem w = true ->
  size (difference rem (union (singleton v) (singleton w))) + 2 <= size rem.
Proof.
  intros Hrem Hv0 Hw0 Hne Hv Hw.
  assert (H1 : size (removeElement rem v) < size rem).
  { apply (size_lt _ _ v); [apply removeElement_nonneg; exact Hrem|exact Hrem
                            | |exact Hv|].
    - intros i Hi. rewrite contains_removeElement in Hi by lia.
      apply andb_true_iff in Hi. tauto.
    - rewrite contains_removeElement, Z.eqb_refl by lia. apply andb_false_r. }
  assert (H2 : size (difference rem (union (singleton v) (singleton w)))
               < size (removeElement rem v)).
  { apply (size_lt _ _ w);
      [apply difference_nonneg; exact Hrem
      |apply removeElement_nonneg; exact Hrem| | |].
    - intros i Hi. rewrite contains_difference, contains_union,
        !contains_singleton in Hi by lia.
      rewrite contains_removeElement by lia.
      apply andb_true_iff in Hi. destruct Hi as [Hi1 Hi2].
      rewrite Hi1. destruct (i =? v); [discriminate|reflexivity].
    - rewrite contains_removeElement, Hw by lia.
      destruct (Z.eqb_spec w v); [congruence|reflexivity].
    - rewrite contains_difference, contains_union, !contains_singleton by lia.
      rewrite Z.eqb_refl, orb_true_r. apply andb_false_r. }
  lia.
Qed.

(** What a call of the search with the matching [F] outside [rem]
    establishes. *)
Let searched (rem : bitset) (F : list Z)
    (r : result (bool * counters * list Z)) : Prop :=
  exists b numberOf' F',
    r = Ret (b, numberOf', F')
    /\ agreeOutside rem F F'
    /\ (b = true -> perfectMatching adjacencyList n F' /\ accepts F' = true)
    /\ (b = false ->
        forall M, perfectMatching adjacencyList n M ->
                  extendsMatching n rem F M -> accepts M = false).

Lemma tryNeighbours_searched
    (attempt : bitset -> counters -> list Z -> result (bool * counters * list Z))
    (rem : bitset) (v : Z) (neighbours : list Z) :
  subsetOf rem full -> 0 <= rem ->
  contains rem v = true ->
  (forall w, In w neighbours ->
     contains (aget EMPTY adjacencyList v) w = true
     /\ contains rem w = true) ->
  (forall w numberOf F,
     In w neighbours ->
     matchedOutside adjacencyList n
       (difference rem (union (singleton v) (singleton w))) F ->
     searched (difference rem (union (singleton v) (singleton w))) F
       (attempt (difference rem (union (singleton v) (singleton w)))
          numberOf F)) ->
  forall numberOf F,
    matchedOutside adjacencyList n rem F ->
    exists b numberOf' F',
      tryNeighbours attempt rem v neighbours numberOf F = Ret (b, numberOf', F')
      /\ agreeOutside rem F F'
      /\ (b = true -> perfectMatching adjacencyList n F' /\ accepts F' = true)
      /\ (b = false ->
          forall M, perfectMatching adjacencyList n M ->
                    extendsMatching n rem F M ->
                    In (aget 0 M v) neighbours -> accepts M = false).
Proof.
  intros Hsub Hrem Hv.
  pose proof (full_range rem v Hsub Hv) as Rv.
  induction neighbours as [|w rest IH]; intros Hnb Hattempt numberOf F HF.
  - exists false, numberOf, F. split; [reflexivity|].
    split; [apply agreeOutside_refl|]. split; [discriminate|].
    intros _ M _ _ [].
  - destruct (Hnb w (or_introl eq_refl)) as [Hvw Hw].
    pose proof (full_range rem w Hsub Hw) as Rw.
    set (rem' := difference rem (union (singleton v) (singleton w))).
    set (F1 := aset (aset F w v) v w).
    assert (HF1 : matchedOutside adjacencyList n rem' F1)
      by (apply matchedOutside_step; assumption).
    assert (Hsub' : forall i, contains rem' i = true -> contains rem i = true).
    { intros i Hi. unfold rem' in Hi. rewrite contains_difference in Hi.
      apply andb_true_iff in Hi. tauto. }
    assert (Hne : v <> w).
    { intros ->. destruct graph_wf as (_ & _ & _ & _ & _ & Hloop).
      rewrite Hloop in Hvw. discriminate. }
    assert (Hstep : agreeOutside rem F F1).
    { split; [unfold F1; rewrite !length_aset; reflexivity|].
      intros i Hi. unfold F1. rewrite !aget_aset_ne by congruence.
      reflexivity. }
    destruct (Hattempt w numberOf F1 (or_introl eq_refl) HF1)
      as (b & c & F' & Hrun & Hag & Htrue & Hfalse).
    fold rem' in Hrun.
    assert (Hag' : agreeOutside rem F F').
    { destruct Hstep as [Hl1 Ha1]. destruct Hag as [Hl2 Ha2].
      split; [congruence|]. intros i Hi.
      assert (Hi' : contains rem' i = false).
      { destruct (contains rem' i) eqn:E; [|reflexivity].
        apply Hsub' in E. congruence. }
      rewrite (Ha2 i Hi'), (Ha1 i Hi). reflexivity. }
    cbn [tryNeighbours]. fold F1. fold rem'. rewrite Hrun. cbn [bind].
    destruct b.
    + exists true, c, F'. split; [reflexivity|]. split; [exact Hag'|].
      split; [exact Htrue|discriminate].
    + destruct (IH (fun x Hx => Hnb x (or_intror Hx))
                  (fun x c0 F0 Hx => Hattempt x c0 F0 (or_intror Hx))
                  c F' (matchedOutside_agree rem F F' HF Hag'))
        as (b2 & c2 & F2 & Hrun2 & Hag2 & Htrue2 & Hfalse2).
      exists b2, c2, F2. split; [exact Hrun2|].
      split.
      { destruct Hag' as [Hl1 Ha1]. destruct Hag2 as [Hl2 Ha2].
        split; [congruence|]. intros i Hi.
        rewrite (Ha2 i Hi), (Ha1 i Hi). reflexivity. }
      split; [exact Htrue2|].
      intros Hb M HM Hext [Hin|Hin].
      * apply (Hfalse eq_refl M HM).
        intros x Hx Hout. unfold rem' in Hout.
        rewrite contains_difference, contains_union, !contains_singleton
          in Hout by lia.
        destruct (Z.eqb_spec x v) as [->|Hxv].
        { unfold F1. rewrite aget_aset_eq
            by (rewrite length_aset; destruct HF; lia).
          symmetry. exact Hin. }
        destruct (Z.eqb_spec x w) as [->|Hxw].
        { unfold F1. rewrite aget_aset_ne by exact Hne.
          rewrite aget_aset_eq by (destruct HF; lia).
          destruct HM as [_ HM]. destruct (HM v Rv) as [_ Hback].
          rewrite <- Hin in Hback. exact Hback. }
        cbn [orb negb] in Hout. rewrite andb_true_r in Hout.
        unfold F1. rewrite !aget_aset_ne by congruence.
        apply Hext; assumption.
      * apply (Hfalse2 Hb M HM); [|exact Hin].
        apply (extendsMatching_agree rem F F'); assumption.
Qed.

Lemma hasSufficientCondition_searched (fuel : nat) :
  forall numberOf rem F,
    matchedOutside adjacencyList n rem F ->
    subsetOf rem full -> 0 <= rem ->
    size rem < 2 * Z.of_nat fuel ->
    searched rem F
      (hasSufficientCondition configurationTest fuel adjacencyList n opts
         numberOf rem F).
Proof.
  induction fuel as [|f IH]; intros numberOf rem F HF Hsub Hrem Hfuel.
  { pose proof (size_nonneg rem). lia. }
  cbn [hasSufficientCondition].
  destruct (Z.eqb_spec (next rem (-1)) (-1)) as [Hnone|Hsome].
  - assert (Hperfect : perfectMatching adjacencyList n F).
    { destruct HF as [Hlen HF]. split; [exact Hlen|].
      intros v Hv.
      destruct (HF v Hv (next_none_empty rem v Hrem Hnone)) as (H1 & _ & H3).
      auto. }
    destruct (test_verdict numberOf F Hperfect) as [c Hc].
    rewrite Hc. cbn [bind fst snd].
    exists (accepts F), c, F. split; [reflexivity|].
    split; [apply agreeOutside_refl|].
    split; [intros H; split; assumption|].
    intros Hb M HM Hext.
    replace M with F; [exact Hb|].
    apply (aget_ext 0).
    + destruct HF as [Hl _]. destruct HM as [Hl' _]. lia.
    + intros i Hi. symmetry. apply Hext.
      * destruct HF as [Hl _]. lia.
      * apply next_none_empty; assumption.
  - set (v := next rem (-1)) in *.
    assert (Hv : contains rem v = true) by (apply next_contains; exact Hsome).
    pose proof (full_range rem v Hsub Hv) as Rv.
    set (neighbours :=
           elements (intersection (aget EMPTY adjacencyList v) rem)).
    assert (Hnonneg : 0 <= intersection (aget EMPTY adjacencyList v) rem).
    { apply Z.land_nonneg. right. exact Hrem. }
    assert (Hnb : forall w, In w neighbours ->
              contains (aget EMPTY adjacencyList v) w = true
              /\ contains rem w = true).
    { intros w Hw. apply elements_spec in Hw; [|exact Hnonneg].
      rewrite contains_intersection in Hw. apply andb_true_iff in Hw.
      exact Hw. }
    destruct (tryNeighbours_searched
                (fun newRemainingVertices numberOf F =>
                   hasSufficientCondition configurationTest f adjacencyList n
                     opts numberOf newRemainingVertices F)
                rem v neighbours Hsub Hrem Hv Hnb) with (numberOf := numberOf)
                (F := F)
      as (b & c & F' & Hrun & Hag & Htrue & Hfalse).
    + intros w c F0 Hw HF0. destruct (Hnb w Hw) as [Hvw Hw'].
      pose proof (full_range rem w Hsub Hw') as Rw.
      apply IH.
      * exact HF0.
      * intros i Hi. rewrite contains_difference in Hi.
        apply andb_true_iff in Hi. apply Hsub. tauto.
      * apply difference_nonneg. exact Hrem.
      * assert (Hne : v <> w).
        { intros E. destruct graph_wf as (_ & _ & _ & _ & _ & Hloop).
          rewrite <- E, Hloop in Hvw. discriminate. }
        pose proof (size_difference_pair rem v w Hrem ltac:(lia) ltac:(lia)
                      Hne Hv Hw').
        lia.
    + exact HF.
    + exists b, c, F'. split; [exact Hrun|]. split; [exact Hag|].
      split; [exact Htrue|].
      intros Hb M HM Hext. apply (Hfalse Hb M HM Hext).
      apply elements_spec; [exact Hnonneg|].
      rewrite contains_intersection.
      destruct HM as [Hl HM']. destruct (HM' v Rv) as [Hadj _].
      rewrite Hadj. cbn [andb].
      apply (partner_remains rem F M v HF (conj Hl HM') Hext Rv Hv).
Qed.

End PerfectMatchings.

(** X14. The matching enumeration of the heuristic gives the configurations
    test perfect matchings of the graph only, and all of them until one is
    accepted. If the test returns a verdict [accepts F] on every perfect
    matching [F] (nothing is assumed about it on other arrays), the
    enumeration started with all vertices remaining returns; it returns true
    exactly when some perfect matching of the graph is accepted, and then
    [F] holds an accepted perfect matching. *)
Theorem heuristic_tests_the_perfect_matchings
    (configurationTest :
       list bitset -> Z -> options -> counters -> list Z ->
       result (bool * counters))
    (accepts : list Z -> bool) (adjacencyList : list bitset) (n : Z)
    (opts : options) (numberOf : counters) (F : list Z) :
  wfGraph adjacencyList n ->
  Z.of_nat (length F) = n ->
  (forall numberOf F,
     perfectMatching adjacencyList n F ->
     exists numberOf',
       configurationTest adjacencyList n opts numberOf F
       = Ret (accepts F, numberOf')) ->
  exists b numberOf' F',
    hasSufficientCondition configurationTest (S (Z.to_nat n)) adjacencyList n
      opts numberOf (complement EMPTY n) F
    = Ret (b, numberOf', F')
    /\ (b = true <->
        exists M, perfectMatching adjacencyList n M /\ accepts M = true)
    /\ (b = true -> perfectMatching adjacencyList n F' /\ accepts F' = true).
Proof.
  intros Hwf Hlen Htest.
  assert (Hn : 0 <= n) by apply Hwf.
  destruct (hasSufficientCondition_searched configurationTest accepts
              adjacencyList n opts Hwf Htest (S (Z.to_nat n)) numberOf
              (complement EMPTY n) F)
    as (b & c & F' & Hrun & _ & Htrue & Hfalse).
  - split; [exact Hlen|]. intros v Hv Hout.
    rewrite contains_complement_EMPTY in Hout by exact Hn.
    apply andb_false_iff in Hout.
    destruct Hout as [H|H]; [apply Z.leb_gt in H|apply Z.ltb_ge in H]; lia.
  - intros i Hi. exact Hi.
  - apply complement_EMPTY_nonneg. exact Hn.
  - rewrite size_complement by exact Hn. lia.
  - exists b, c, F'. split; [exact Hrun|]. split; [|exact Htrue].
    split.
    + intros Hb. exists F'. apply Htrue. exact Hb.
    + intros (M & HM & Hacc). destruct b; [reflexivity|].
      rewrite (Hfalse eq_refl M HM) in Hacc; [discriminate|].
      intros v Hv Hout.
      rewrite contains_complement_EMPTY in Hout by exact Hn.
      apply andb_false_iff in Hout.
      destruct Hout as [H|H]; [apply Z.leb_gt in H|apply Z.ltb_ge in H]; lia.
Qed.

Lemma heuristic_tests_the_perfect_matchings_witness :
  exists b numberOf' F',
    hasSufficientCondition
      (fun _ _ _ numberOf F => Ret (aget 0 F 0 =? 3, numberOf))
      (S (Z.to_nat 4)) K4 4 defaultOptions zeroCounters (complement EMPTY 4)
      [0; 0; 0; 0]
    = Ret (b, numberOf', F')
    /\ (b = true <->
        exists M, perfectMatching K4 4 M /\ (aget 0 M 0 =? 3) = true)
    /\ (b = true -> perfectMatching K4 4 F' /\ (aget 0 F' 0 =? 3) = true).
Proof.
  apply (heuristic_tests_the_perfect_matchings
           (fun _ _ _ numberOf F => Ret (aget 0 F 0 =? 3, numberOf))
           (fun F => aget 0 F 0 =? 3) K4 4 defaultOptions zeroCounters
           [0; 0; 0; 0]).
  - apply checkGraph_sound. vm_compute. reflexivity.
  - reflexivity.
  - intros numberOf F _. exists numberOf. reflexivity.
Defined.

(** ** The pool finds every complementary pair *)

Lemma union_subset (s t : bitset) : subsetOf s t -> union t s = t.
Proof.
  intros H. apply bitset_ext. intros i. rewrite contains_union.
  destruct (contains s i) eqn:E; [|apply orb_false_r].
  rewrite (H i E). reflexivity.
Qed.

Lemma union_cover (allEdges s t B : bitset) :
  subsetOf s B -> subsetOf B allEdges -> subsetOf t allEdges ->
  union s t = allEdges -> union B t = allEdges.
Proof.
  intros HsB HB Ht Hst. apply bitset_ext. intros i.
  rewrite contains_union.
  destruct (contains allEdges i) eqn:E.
  - rewrite <- Hst, contains_union in E. apply orb_true_iff in E.
    apply orb_true_iff. destruct E as [E|E]; [left; apply HsB, E|right; exact E].
  - apply orb_false_iff. split.
    + destruct (contains B i) eqn:EB; [|reflexivity]. apply HB in EB. congruence.
    + destruct (contains t i) eqn:Et; [|reflexivity]. apply Ht in Et. congruence.
Qed.

(** What the scan has tested when it does not return 2. *)
Lemma scanPool_tested (allEdges deletableEdges : bitset) (indices : list Z) :
  deletableEdges <> allEdges ->
  List.NoDup indices ->
  forall insertPosition numberOf pool,
    (forall i, In i indices -> 0 <= i < Z.of_nat (length (array pool))) ->
    match scanPool indices allEdges deletableEdges insertPosition numberOf
            pool with
    | ScanReturn r _ _ =>
      r = 2
      \/ exists k, In k indices
                   /\ aget EMPTY (array pool) k <> EMPTY
                   /\ subsetOf deletableEdges (aget EMPTY (array pool) k)
    | ScanDone _ _ _ =>
      forall j, In j indices ->
        union deletableEdges (aget EMPTY (array pool) j) <> allEdges
    end.
Proof.
  intros Hall Hnd. induction Hnd as [|i rest Hi Hnd IH];
    intros ip numberOf pool Hidx.
  { simpl. intros j []. }
  assert (Hrest : forall p : Array,
            length (array p) = length (array pool) ->
            forall j, In j rest -> 0 <= j < Z.of_nat (length (array p))).
  { intros p Hp j Hj. rewrite Hp. apply Hidx. right. exact Hj. }
  pose proof (Hidx i (or_introl eq_refl)) as Hin.
  cbn [scanPool].
  destruct (isEmpty (aget EMPTY (array pool) i)) eqn:Eempty; cbn [negb].
  { unfold isEmpty in Eempty. apply Z.eqb_eq in Eempty.
    specialize (IH (if ip =? used pool then i else ip) numberOf pool
                  (Hrest pool eq_refl)).
    destruct (scanPool rest _ _ _ _ _) as [r c p|ip' c p].
    - destruct IH as [IH|(k & Hk & Hne & Hsub)]; [left; exact IH|right].
      exists k. split; [right; exact Hk|]. auto.
    - intros j [<-|Hj]; [|apply IH, Hj].
      rewrite Eempty. unfold union, EMPTY. rewrite Z.lor_0_r. exact Hall. }
  assert (Hne : aget EMPTY (array pool) i <> EMPTY).
  { unfold isEmpty in Eempty. apply Z.eqb_neq in Eempty. exact Eempty. }
  destruct (isSubset deletableEdges (aget EMPTY (array pool) i)) eqn:Esub.
  { right. exists i. split; [left; reflexivity|]. split; [exact Hne|].
    apply isSubset_spec. exact Esub. }
  destruct (isSubset (aget EMPTY (array pool) i) deletableEdges) eqn:Esup.
  - set (pool1 := {| array := aset (array pool) i EMPTY; used := used pool;
                     size_ := size_ pool |}).
    set (numberOf1 := if ip =? used pool then _ else numberOf).
    assert (Hother : forall j, In j rest ->
              aget EMPTY (array pool1) j = aget EMPTY (array pool) j).
    { intros j Hj. apply aget_aset_ne. intros ->. contradiction. }
    destruct (equals (union deletableEdges (aget EMPTY (array pool1) i))
                allEdges); [left; reflexivity|].
    specialize (IH ip numberOf1 pool1 (Hrest pool1 (length_aset _ _ _))).
    destruct (scanPool rest _ _ _ _ _) as [r c p|ip' c p].
    + destruct IH as [IH|(k & Hk & Hnek & Hsub)]; [left; exact IH|right].
      exists k. split; [right; exact Hk|]. rewrite <- (Hother k Hk). auto.
    + intros j [<-|Hj].
      * apply isSubset_spec in Esup. rewrite (union_subset _ _ Esup).
        exact Hall.
      * rewrite <- (Hother j Hj). apply IH, Hj.
  - destruct (equals (union deletableEdges (aget EMPTY (array pool) i))
                allEdges) eqn:Eunion; [left; reflexivity|].
    specialize (IH ip numberOf pool (Hrest pool eq_refl)).
    destruct (scanPool rest _ _ _ _ _) as [r c p|ip' c p].
    + destruct IH as [IH|(k & Hk & Hnek & Hsub)]; [left; exact IH|right].
      exists k. split; [right; exact Hk|]. auto.
    + intros j [<-|Hj]; [|apply IH, Hj].
      unfold equals in Eunion. apply Z.eqb_neq in Eunion. exact Eunion.
Qed.

Lemma union_EMPTY_r (s : bitset) : union s EMPTY = s.
Proof. apply Z.lor_0_r. Qed.

Lemma union_diag (s : bitset) : union s s = s.
Proof. apply Z.lor_diag. Qed.

Lemma union_comm (s t : bitset) : union s t = union t s.
Proof. apply Z.lor_comm. Qed.

Lemma pool_update (allEdges : bitset) (pool pool' : Array) (t : bitset) :
  coverFree allEdges pool -> cellsWithin allEdges pool ->
  subsetOf t allEdges -> t <> allEdges ->
  (forall j, 0 <= j < used pool ->
     union t (aget EMPTY (array pool) j) <> allEdges) ->
  (forall x, 0 <= x < used pool' ->
     aget EMPTY (array pool') x = t
     \/ aget EMPTY (array pool') x = EMPTY
     \/ (0 <= x < used pool
         /\ aget EMPTY (array pool') x = aget EMPTY (array pool) x)) ->
  coverFree allEdges pool' /\ cellsWithin allEdges pool'.
Proof.
  intros Hfree Hin Ht Hall Htested Hshape. split.
  - intros i j Hi Hj Hne.
    destruct (Hshape i Hi) as [Ei|[Ei|[Ri Ei]]]; [|contradiction|];
      destruct (Hshape j Hj) as [Ej|[Ej|[Rj Ej]]]; rewrite Ei, Ej.
    + rewrite union_diag. exact Hall.
    + rewrite union_EMPTY_r. exact Hall.
    + apply Htested. exact Rj.
    + rewrite union_comm. apply Htested. exact Ri.
    + rewrite union_EMPTY_r.
      rewrite <- (union_diag (aget EMPTY (array pool) i)).
      apply (Hfree i i Ri Ri). rewrite <- Ei. exact Hne.
    + apply (Hfree i j Ri Rj). rewrite <- Ei. exact Hne.
  - intros x Hx. destruct (Hshape x Hx) as [E|[E|[R E]]]; rewrite E.
    + exact Ht.
    + intros y Hy. rewrite contains_EMPTY in Hy. discriminate.
    + apply Hin. exact R.
Qed.

(** A call that returns 0 has compared the new set with every stored set,
    directly or through a stored set that contains the new one. *)
Lemma getIntermediateFrankNumber_cover_free (numberOf : counters) (n : Z)
    (pool : Array) (deletableEdges : bitset) (numberOf' : counters)
    (pool' : Array) :
  poolWellFormed pool ->
  coverFree (complement EMPTY (3 * n ÷ 2)) pool ->
  cellsWithin (complement EMPTY (3 * n ÷ 2)) pool ->
  subsetOf deletableEdges (complement EMPTY (3 * n ÷ 2)) ->
  deletableEdges <> complement EMPTY (3 * n ÷ 2) ->
  getIntermediateFrankNumber numberOf n pool deletableEdges
  = Ret (0, numberOf', pool') ->
  coverFree (complement EMPTY (3 * n ÷ 2)) pool'
  /\ cellsWithin (complement EMPTY (3 * n ÷ 2)) pool'
  /\ forall j, 0 <= j < used pool ->
       union deletableEdges (aget EMPTY (array pool) j)
       <> complement EMPTY (3 * n ÷ 2).
Proof.
  set (allEdges := complement EMPTY (3 * n ÷ 2)).
  intros Hwf Hfree Hin Ht Hall. pose proof Hwf as (Hused & Hlen & Hsize).
  unfold getIntermediateFrankNumber. fold allEdges.
  pose proof (scanPool_cells allEdges deletableEdges
                (vertices (used pool)) (used pool) numberOf pool) as Hscan.
  lapply Hscan; [clear Hscan; intros Hscan|intros i Hi; apply vertices_spec, Hi].
  specialize (Hscan ltac:(lia) (or_introl eq_refl)).
  pose proof (scanPool_tested allEdges deletableEdges (vertices (used pool))
                Hall (NoDup_vertices _) (used pool) numberOf pool) as Htest.
  lapply Htest; [clear Htest; intros Htest
                |intros i Hi; apply vertices_spec in Hi; lia].
  destruct (scanPool _ _ _ _ _ _) as [r c p|ip c p].
  - intros Heq. injection Heq as -> -> ->.
    destruct Hscan as [(_ & Hu & Hs & Hl & Hd & _)|(Hr & _)]; [|discriminate].
    destruct Htest as [Hr|(k & Hk & Hne & Hsub)]; [discriminate|].
    apply vertices_spec in Hk.
    assert (Htested : forall j, 0 <= j < used pool ->
              union deletableEdges (aget EMPTY (array pool) j) <> allEdges).
    { intros j Hj Hcover.
      apply (Hfree k j Hk Hj Hne).
      apply (union_cover allEdges deletableEdges _ _ Hsub (Hin k Hk)
               (Hin j Hj) Hcover). }
    destruct (pool_update allEdges pool pool' deletableEdges Hfree Hin Ht Hall
                Htested) as [H1 H2]; [|auto].
    intros x Hx. rewrite Hu in Hx. right.
    destruct (Hd x) as [E|[E _]]; [right; auto|left; exact E].
  - destruct Hscan as (Hu & Hs & Hl & Hd & Hip).
    assert (Hwfp : poolWellFormed p)
      by (unfold poolWellFormed; rewrite Hu, Hs, Hl; auto).
    assert (Htested : forall j, 0 <= j < used pool ->
              union deletableEdges (aget EMPTY (array pool) j) <> allEdges)
      by (intros j Hj; apply Htest, vertices_spec, Hj).
    destruct (Z.eqb_spec ip (used p)) as [Hend|Hmid]; cbn [negb].
    + intros Heq. injection Heq as <- <-.
      destruct (insertArray_spec p deletableEdges Hwfp)
        as (_ & Hu' & Hget & Hkeep & _).
      destruct (pool_update allEdges pool (insertArray p deletableEdges)
                  deletableEdges Hfree Hin Ht Hall Htested) as [H1 H2];
        [|auto].
      intros x Hx. rewrite Hu' in Hx.
      destruct (Z.eq_dec x (used p)) as [->|Hne]; [left; exact Hget|].
      right. rewrite Hkeep by lia.
      destruct (Hd x) as [E|[E _]]; [right; split; [lia|exact E]|left; exact E].
    + unfold insertArrayAtPos.
      destruct Hip as [Hip|[Hip Hipe]]; [congruence|].
      destruct (Z.ltb_spec (size_ p) ip); [lia|]. cbn [bind].
      intros Heq. injection Heq as <- <-.
      destruct (pool_update allEdges pool
                  {| array := aset (array p) ip deletableEdges;
                     used := used p; size_ := size_ p |}
                  deletableEdges Hfree Hin Ht Hall Htested) as [H1 H2];
        [|auto].
      cbn [array used]. intros x Hx.
      destruct (Z.eq_dec x ip) as [->|Hne];
        [left; apply aget_aset_eq; lia|].
      right. rewrite aget_aset_ne by congruence.
      destruct (Hd x) as [E|[E _]]; [right; split; [lia|exact E]|left; exact E].
Qed.

Lemma feedPool_cover_free (sets : list bitset) :
  forall (numberOf : counters) (n : Z) (pool : Array) (numberOf' : counters)
         (pool' : Array),
    poolWellFormed pool ->
    coverFree (complement EMPTY (3 * n ÷ 2)) pool ->
    cellsWithin (complement EMPTY (3 * n ÷ 2)) pool ->
    (forall s, In s sets ->
       subsetOf s (complement EMPTY (3 * n ÷ 2))
       /\ s <> complement EMPTY (3 * n ÷ 2)) ->
    feedPool numberOf n pool sets = Some (numberOf', pool') ->
    (forall s t, dominated pool s -> In t sets ->
       union s t <> complement EMPTY (3 * n ÷ 2))
    /\ (forall s t, In s sets -> In t sets ->
          union s t <> complement EMPTY (3 * n ÷ 2)).
Proof.
  induction sets as [|T sets IH];
    intros numberOf n pool numberOf' pool' Hwf Hfree Hin Hsets; simpl.
  { intros _. split; [intros s t _ []|intros s t []]. }
  destruct (getIntermediateFrankNumber_shape numberOf n pool T Hwf)
    as (r & c & p & Ecall & _ & Hwfp).
  rewrite Ecall. destruct r; try discriminate.
  destruct (Hsets T (or_introl eq_refl)) as [HT HTall].
  destruct (getIntermediateFrankNumber_cover_free _ _ _ _ _ _ Hwf Hfree Hin
              HT HTall Ecall) as (Hfree' & Hin' & Htested).
  destruct (getIntermediateFrankNumber_dominates _ _ _ _ _ _ Hwf Ecall)
    as [HdT Hkeep].
  intros Hfeed.
  destruct (IH c n p numberOf' pool' Hwfp Hfree' Hin'
              (fun s Hs => Hsets s (or_intror Hs)) Hfeed) as [HA HB].
  assert (Hhead : forall s, dominated pool s ->
            union s T <> complement EMPTY (3 * n ÷ 2)).
  { intros s (j & Hj & Hsj) Hcover.
    apply (Htested j Hj). rewrite union_comm.
    apply (union_cover _ s T _ Hsj (Hin j Hj) HT Hcover). }
  split.
  - intros s t Hs [<-|Ht]; [apply Hhead, Hs|apply HA; [apply Hkeep, Hs|exact Ht]].
  - intros s t [<-|Hs] [<-|Ht].
    + rewrite union_diag. exact HTall.
    + apply HA; assumption.
    + rewrite union_comm. apply HA; assumption.
    + apply HB; assumption.
Qed.

(** X15. The pool of the brute force misses no complementary pair. When the
    sets handed to [getIntermediateFrankNumber], one call after the other on
    a pool that starts empty, are sets of edge numbers below [3n/2] and none
    of them holds all the edges, and every call answers 0, then no two of the
    sets together make up all the edges: for two sets that do, one of the
    calls answers 2, although the sets that were dismissed or emptied are no
    longer compared. *)
Theorem pool_finds_every_complementary_pair (initialSize n : Z)
    (numberOf numberOf' : counters) (sets : list bitset) (pool' : Array) :
  0 < initialSize ->
  (forall s, In s sets ->
     subsetOf s (complement EMPTY (3 * n ÷ 2))
     /\ s <> complement EMPTY (3 * n ÷ 2)) ->
  feedPool numberOf n (initArray initialSize) sets = Some (numberOf', pool') ->
  forall s t, In s sets -> In t sets ->
    union s t <> complement EMPTY (3 * n ÷ 2).
Proof.
  intros Hsize Hsets Hfeed.
  assert (Hwf0 : poolWellFormed (initArray initialSize)).
  { unfold poolWellFormed, initArray; simpl. rewrite length_replicate. lia. }
  apply (feedPool_cover_free sets numberOf n (initArray initialSize) numberOf'
           pool' Hwf0); [| |exact Hsets|exact Hfeed].
  - intros i j Hi. cbn [initArray used] in Hi. lia.
  - intros i Hi. cbn [initArray used] in Hi. lia.
Qed.

Lemma pool_finds_every_complementary_pair_witness :
  feedPool zeroCounters 4 (initArray 4) [3; 12; 1]
  = Some (set_orientationsGivingSubset zeroCounters 1,
          {| array := [3; 12; 0; 0]; used := 2; size_ := 4 |})
  /\ union 3 12 <> complement EMPTY (3 * 4 ÷ 2).
Proof.
  split; [vm_compute; reflexivity|].
  refine (pool_finds_every_complementary_pair 4 4 zeroCounters
            (set_orientationsGivingSubset zeroCounters 1)
            [3; 12; 1]
            {| array := [3; 12; 0; 0]; used := 2; size_ := 4 |}
            _ _ _ 3 12 _ _).
  - lia.
  - intros s [<-|[<-|[<-|[]]]];
      (split; [apply isSubset_spec; vm_compute; reflexivity|discriminate]).
  - vm_compute. reflexivity.
  - simpl. auto.
  - simpl. auto.
Defined.

(** ** The adjacency list after the tests of the suppressed edges *)

Lemma hasEdge_removeEdge (adj : list bitset) (a b u v : Z) :
  0 <= a < Z.of_nat (length adj) -> 0 <= b < Z.of_nat (length adj) ->
  hasEdge (removeEdgeFromAdjList adj a b) u v
  = hasEdge adj u v && negb (samePair u v a b).
Proof.
  intros Ha Hb. unfold hasEdge, removeEdgeFromAdjList, samePair.
  set (adj1 := aset adj a (removeElement (aget EMPTY adj a) b)).
  assert (Hl1 : length adj1 = length adj) by apply length_aset.
  assert (H1 : forall y x,
            contains (aget EMPTY adj1 y) x
            = contains (aget EMPTY adj y) x && negb ((y =? a) && (x =? b))).
  { intros y x. unfold adj1. destruct (Z.eqb_spec y a) as [->|Hne].
    - rewrite aget_aset_eq by lia. rewrite contains_removeElement by lia.
      reflexivity.
    - rewrite aget_aset_ne by congruence. rewrite andb_true_r. reflexivity. }
  destruct (Z.eqb_spec u b) as [->|Hne].
  - rewrite aget_aset_eq by lia. rewrite contains_removeElement by lia.
    rewrite H1. destruct (contains (aget EMPTY adj b) v), (b =? a), (v =? b),
      (v =? a); reflexivity.
  - rewrite aget_aset_ne by congruence. rewrite H1.
    rewrite orb_false_r. reflexivity.
Qed.

Lemma hasEdge_addEdge (adj : list bitset) (a b u v : Z) :
  0 <= a < Z.of_nat (length adj) -> 0 <= b < Z.of_nat (length adj) ->
  hasEdge (addEdgeToAdjList adj a b) u v
  = hasEdge adj u v || samePair u v a b.
Proof.
  intros Ha Hb. unfold hasEdge, addEdgeToAdjList, samePair.
  set (adj1 := aset adj a (add (aget EMPTY adj a) b)).
  assert (Hl1 : length adj1 = length adj) by apply length_aset.
  assert (H1 : forall y x,
            contains (aget EMPTY adj1 y) x
            = contains (aget EMPTY adj y) x || ((y =? a) && (x =? b))).
  { intros y x. unfold adj1. destruct (Z.eqb_spec y a) as [->|Hne].
    - rewrite aget_aset_eq by lia. rewrite contains_add by lia. reflexivity.
    - rewrite aget_aset_ne by congruence. rewrite orb_false_r. reflexivity. }
  destruct (Z.eqb_spec u b) as [->|Hne].
  - rewrite aget_aset_eq by lia. rewrite contains_add by lia.
    rewrite H1. destruct (contains (aget EMPTY adj b) v), (b =? a), (v =? b),
      (v =? a); reflexivity.
  - rewrite aget_aset_ne by congruence. rewrite H1.
    rewrite orb_false_r. reflexivity.
Qed.

Lemma removeEdge_cells_nonneg (adj : list bitset) (a b : Z) :
  (forall w, 0 <= aget EMPTY adj w) ->
  forall w, 0 <= aget EMPTY (removeEdgeFromAdjList adj a b) w.
Proof.
  intros Hnn w. unfold removeEdgeFromAdjList.
  assert (H1 : forall w, 0 <= aget EMPTY
                 (aset adj a (removeElement (aget EMPTY adj a) b)) w).
  { intros x. destruct (aget_aset_cases EMPTY adj a x
                          (removeElement (aget EMPTY adj a) b)) as [E|E];
      rewrite E; [apply removeElement_nonneg|]; apply Hnn. }
  match goal with
  | |- 0 <= aget EMPTY (aset ?l ?i ?x) w =>
    destruct (aget_aset_cases EMPTY l i w x) as [E|E]; rewrite E
  end; [apply removeElement_nonneg|]; apply H1.
Qed.

Lemma addEdge_cells_nonneg (adj : list bitset) (a b : Z) :
  (forall w, 0 <= aget EMPTY adj w) ->
  forall w, 0 <= aget EMPTY (addEdgeToAdjList adj a b) w.
Proof.
  intros Hnn w. unfold addEdgeToAdjList.
  assert (H1 : forall w, 0 <= aget EMPTY
                 (aset adj a (add (aget EMPTY adj a) b)) w).
  { intros x. destruct (aget_aset_cases EMPTY adj a x
                          (add (aget EMPTY adj a) b)) as [E|E];
      rewrite E; [apply add_nonneg|]; apply Hnn. }
  match goal with
  | |- 0 <= aget EMPTY (aset ?l ?i ?x) w =>
    destruct (aget_aset_cases EMPTY l i w x) as [E|E]; rewrite E
  end; [apply add_nonneg|]; apply H1.
Qed.

Lemma length_removeEdge (adj : list bitset) (a b : Z) :
  length (removeEdgeFromAdjList adj a b) = length adj.
Proof. unfold removeEdgeFromAdjList. rewrite !length_aset. reflexivity. Qed.

Lemma length_addEdge (adj : list bitset) (a b : Z) :
  length (addEdgeToAdjList adj a b) = length adj.
Proof. unfold addEdgeToAdjList. rewrite !length_aset. reflexivity. Qed.

Section Restore.

Variable isCyclicallyConnected : list bitset -> Z -> bool.
Variable A : list bitset.
Variable n : Z.
Variable circuitOrientation : list Z.

Hypothesis graph_wf : wfGraph A n.

Hypothesis orientation_edges :
  forall i, 0 <= i < n ->
    aget 0 circuitOrientation i = -1
    \/ hasEdge A i (aget 0 circuitOrientation i) = true.

(** The list [S] has the vertices of [A] and only edges of [A]. *)
Let within (S : list bitset) : Prop :=
  length S = length A
  /\ (forall u, 0 <= aget EMPTY S u)
  /\ forall u v, hasEdge S u v = true -> hasEdge A u v = true.

Let above (X S : list bitset) : Prop :=
  forall u v, hasEdge X u v = true -> hasEdge S u v = true.

Lemma suppressed_edge_range (a b : Z) :
  hasEdge A a b = true ->
  0 <= a < Z.of_nat (length A) /\ 0 <= b < Z.of_nat (length A).
Proof.
  destruct graph_wf as (Hn & Hlen & _ & Hrange & Hsym & _).
  unfold hasEdge. intros H. pose proof (Hrange a b H) as Hb.
  rewrite Hsym in H. pose proof (Hrange b a H) as Ha. lia.
Qed.

Lemma suppressed_edge_sym (a b : Z) : hasEdge A a b = hasEdge A b a.
Proof. destruct graph_wf as (_ & _ & _ & _ & Hsym & _). apply Hsym. Qed.

Lemma within_A : within A.
Proof.
  split; [reflexivity|]. split; [apply graph_wf|auto].
Qed.

Lemma within_remove (S : list bitset) (a b : Z) :
  within S -> hasEdge A a b = true ->
  within (removeEdgeFromAdjList S a b).
Proof.
  intros (Hl & Hnn & Hsub) Hab. destruct (suppressed_edge_range a b Hab) as [Ra Rb].
  split; [rewrite length_removeEdge; exact Hl|].
  split; [apply removeEdge_cells_nonneg; exact Hnn|].
  intros u v. rewrite hasEdge_removeEdge by lia. intros H.
  apply andb_true_iff in H. apply Hsub. tauto.
Qed.

Lemma samePair_edge (u v a b : Z) :
  hasEdge A a b = true -> samePair u v a b = true -> hasEdge A u v = true.
Proof.
  intros Hab H. unfold samePair in H. apply orb_true_iff in H.
  destruct H as [H|H]; apply andb_true_iff in H; destruct H as [H1 H2];
    apply Z.eqb_eq in H1, H2; subst; [exact Hab|].
  rewrite suppressed_edge_sym. exact Hab.
Qed.

(** An edge that was removed is put back, after steps that lost no other
    edge. *)
Lemma within_bracket (S S2 : list bitset) (a b : Z) :
  within S2 -> hasEdge A a b = true ->
  above (removeEdgeFromAdjList S a b) S2 ->
  length S = length A ->
  within (addEdgeToAdjList S2 a b) /\ above S (addEdgeToAdjList S2 a b).
Proof.
  intros (Hl & Hnn & Hsub) Hab Habove HlS.
  destruct (suppressed_edge_range a b Hab) as [Ra Rb].
  split; [split; [|split]|].
  - rewrite length_addEdge. exact Hl.
  - apply addEdge_cells_nonneg. exact Hnn.
  - intros u v. rewrite hasEdge_addEdge by lia. intros H.
    apply orb_true_iff in H. destruct H as [H|H]; [apply Hsub, H|].
    apply (samePair_edge u v a b Hab H).
  - intros u v H. rewrite hasEdge_addEdge by lia.
    destruct (samePair u v a b) eqn:E; [apply orb_true_r|].
    rewrite orb_false_r. apply Habove.
    rewrite hasEdge_removeEdge by lia. rewrite H, E. reflexivity.
Qed.

Lemma above_refl (S : list bitset) : above S S.
Proof. intros u v H. exact H. Qed.

Lemma above_trans (X Y S : list bitset) : above X Y -> above Y S -> above X S.
Proof. intros H1 H2 u v H. apply H2, H1, H. Qed.

Lemma secondEdges_within (js : list Z) :
  (forall j, In j js -> 0 <= j < n) ->
  forall S, within S ->
    within (fst (secondEdges isCyclicallyConnected js n circuitOrientation S))
    /\ above S
         (fst (secondEdges isCyclicallyConnected js n circuitOrientation S)).
Proof.
  induction js as [|j rest IH]; intros Hjs S HS.
  { split; [exact HS|apply above_refl]. }
  cbn [secondEdges].
  assert (Hrest : forall x, In x rest -> 0 <= x < n)
    by (intros x Hx; apply Hjs; right; exact Hx).
  destruct (Z.eqb_spec (aget 0 circuitOrientation j) (-1)) as [Hnone|Hsome].
  { apply IH; assumption. }
  destruct (orientation_edges j (Hjs j (or_introl eq_refl))) as [E|Hedge];
    [contradiction|].
  destruct (within_bracket S
              (removeEdgeFromAdjList S j (aget 0 circuitOrientation j))
              j (aget 0 circuitOrientation j)
              (within_remove S _ _ HS Hedge) Hedge (above_refl _)
              (proj1 HS)) as [Hw Ha].
  destruct (negb (isCyclicallyConnected _ n)); cbn [fst].
  - split; assumption.
  - destruct (IH Hrest _ Hw) as [Hw' Ha'].
    split; [exact Hw'|exact (above_trans _ _ _ Ha Ha')].
Qed.

Lemma firstEdges_within (indices : list Z) :
  (forall i, In i indices -> 0 <= i < n) ->
  forall S, within S ->
    within (fst (firstEdges isCyclicallyConnected indices n
                   circuitOrientation S))
    /\ above S
         (fst (firstEdges isCyclicallyConnected indices n
                 circuitOrientation S)).
Proof.
  induction indices as [|i rest IH]; intros Hidx S HS.
  { split; [exact HS|apply above_refl]. }
  cbn [firstEdges].
  assert (Hrest : forall x, In x rest -> 0 <= x < n)
    by (intros x Hx; apply Hidx; right; exact Hx).
  destruct (Z.eqb_spec (aget 0 circuitOrientation i) (-1)) as [Hnone|Hsome].
  { apply IH; assumption. }
  destruct (orientation_edges i (Hidx i (or_introl eq_refl))) as [E|Hedge];
    [contradiction|].
  pose proof (secondEdges_within
                (List.filter (fun j => i <? j) (vertices n))
                (fun j Hj => proj1 (vertices_spec n j)
                               (proj1 (proj1 (filter_In _ _ _) Hj)))
                _ (within_remove S _ _ HS Hedge)) as [Hw2 Ha2].
  destruct (secondEdges isCyclicallyConnected _ n circuitOrientation _)
    as [S2 has]. cbn [fst] in Hw2, Ha2.
  destruct (within_bracket S S2 i (aget 0 circuitOrientation i) Hw2 Hedge Ha2
              (proj1 HS)) as [Hw Ha].
  destruct has; cbn [fst].
  - split; assumption.
  - destruct (IH Hrest _ Hw) as [Hw' Ha'].
    split; [exact Hw'|exact (above_trans _ _ _ Ha Ha')].
Qed.

Lemma edgeIsStrong2Edge_within (S : list bitset) (endpoint1 endpoint2 : Z) :
  within S -> hasEdge A endpoint1 endpoint2 = true ->
  within (fst (edgeIsStrong2Edge isCyclicallyConnected S n endpoint1
                 endpoint2 circuitOrientation))
  /\ above S
       (fst (edgeIsStrong2Edge isCyclicallyConnected S n endpoint1
               endpoint2 circuitOrientation)).
Proof.
  intros HS Hedge. unfold edgeIsStrong2Edge.
  pose proof (firstEdges_within (vertices n)
                (fun i Hi => proj1 (vertices_spec n i) Hi)
                _ (within_remove S _ _ HS Hedge)) as [Hw1 Ha1].
  destruct (firstEdges isCyclicallyConnected _ n circuitOrientation _)
    as [S1 has]. cbn [fst] in *.
  exact (within_bracket S S1 endpoint1 endpoint2 Hw1 Hedge Ha1 (proj1 HS)).
Qed.

Lemma within_above_eq (S : list bitset) : within S -> above A S -> S = A.
Proof.
  intros (Hl & _ & Hsub) Habove. apply (aget_ext EMPTY); [exact Hl|].
  intros i _. apply bitset_ext. intros v.
  fold (hasEdge S i v). fold (hasEdge A i v).
  destruct (hasEdge S i v) eqn:E1, (hasEdge A i v) eqn:E2; try reflexivity.
  - apply Hsub in E1. congruence.
  - apply Habove in E2. congruence.
Qed.

Lemma removeEdges_within (e1 e2 : Z -> Z) (indices : list Z) :
  (forall i, In i indices -> hasEdge A (e1 i) (e2 i) = true) ->
  forall S, within S ->
    within (fold_left (fun adj i => removeEdgeFromAdjList adj (e1 i) (e2 i))
              indices S)
    /\ forall u v,
         hasEdge (fold_left
                    (fun adj i => removeEdgeFromAdjList adj (e1 i) (e2 i))
                    indices S) u v
         = hasEdge S u v
           && forallb (fun i => negb (samePair u v (e1 i) (e2 i))) indices.
Proof.
  induction indices as [|i rest IH]; intros Hedges S HS.
  { split; [exact HS|]. intros u v. simpl. rewrite andb_true_r. reflexivity. }
  pose proof (Hedges i (or_introl eq_refl)) as Hedge.
  destruct (suppressed_edge_range _ _ Hedge) as [R1 R2].
  destruct (IH (fun x Hx => Hedges x (or_intror Hx)) _
              (within_remove S _ _ HS Hedge)) as [Hw Hf].
  split; [exact Hw|]. intros u v. cbn [fold_left forallb].
  rewrite Hf. rewrite hasEdge_removeEdge by (rewrite (proj1 HS); lia).
  rewrite andb_assoc. reflexivity.
Qed.

Lemma addEdges_within (e1 e2 : Z -> Z) (indices : list Z) :
  (forall i, In i indices -> hasEdge A (e1 i) (e2 i) = true) ->
  forall S, within S ->
    within (fold_left (fun adj i => addEdgeToAdjList adj (e1 i) (e2 i))
              indices S)
    /\ forall u v,
         hasEdge (fold_left
                    (fun adj i => addEdgeToAdjList adj (e1 i) (e2 i))
                    indices S) u v
         = hasEdge S u v
           || existsb (fun i => samePair u v (e1 i) (e2 i)) indices.
Proof.
  induction indices as [|i rest IH]; intros Hedges S HS.
  { split; [exact HS|]. intros u v. simpl. rewrite orb_false_r. reflexivity. }
  pose proof (Hedges i (or_introl eq_refl)) as Hedge.
  destruct (suppressed_edge_range _ _ Hedge) as [R1 R2].
  assert (Hw1 : within (addEdgeToAdjList S (e1 i) (e2 i))).
  { destruct HS as (Hl & Hnn & Hsub). split; [|split].
    - rewrite length_addEdge. exact Hl.
    - apply addEdge_cells_nonneg. exact Hnn.
    - intros u v. rewrite hasEdge_addEdge by lia. intros H.
      apply orb_true_iff in H. destruct H as [H|H]; [apply Hsub, H|].
      apply (samePair_edge u v _ _ Hedge H). }
  destruct (IH (fun x Hx => Hedges x (or_intror Hx)) _ Hw1) as [Hw Hf].
  split; [exact Hw|]. intros u v. cbn [fold_left existsb].
  rewrite Hf. rewrite hasEdge_addEdge by (rewrite (proj1 HS); lia).
  rewrite orb_assoc. reflexivity.
Qed.

Lemma checkSuppressedEdges_within (edgesBetweenCycles : list Z)
    (X0 : list bitset) (indices : list Z) :
  (forall i, In i indices ->
     (exists w, hasEdge X0 (aget 0 edgesBetweenCycles (2 * i)) w = true)
     /\ (exists w,
           hasEdge X0 (aget 0 edgesBetweenCycles (2 * i + 1)) w = true)) ->
  forall S, within S -> above X0 S ->
    within (fst (checkSuppressedEdges isCyclicallyConnected indices n
                   circuitOrientation edgesBetweenCycles S))
    /\ above S
         (fst (checkSuppressedEdges isCyclicallyConnected indices n
                 circuitOrientation edgesBetweenCycles S)).
Proof.
  assert (Hfirst : forall S x w,
            within S -> hasEdge S x w = true ->
            hasEdge A x (next (aget EMPTY S x) (-1)) = true).
  { intros S x w (Hl & Hnn & Hsub) Hw. apply Hsub. unfold hasEdge.
    apply next_contains. apply (next_found _ w); [apply Hnn|exact Hw]. }
  induction indices as [|i rest IH]; intros Hleft S HS Habove.
  { split; [exact HS|apply above_refl]. }
  cbn [checkSuppressedEdges].
  destruct (Hleft i (or_introl eq_refl)) as [[w1 Hw1] [w2 Hw2]].
  pose proof (edgeIsStrong2Edge_within S
                (aget 0 edgesBetweenCycles (2 * i))
                (next (aget EMPTY S (aget 0 edgesBetweenCycles (2 * i))) (-1))
                HS (Hfirst S _ w1 HS (Habove _ _ Hw1))) as [Hwa Haa].
  destruct (edgeIsStrong2Edge isCyclicallyConnected S n _ _ circuitOrientation)
    as [Sa strong]. cbn [fst] in Hwa, Haa.
  destruct strong; cbn [negb fst]; [|split; assumption].
  pose proof (edgeIsStrong2Edge_within Sa
                (aget 0 edgesBetweenCycles (2 * i + 1))
                (next (aget EMPTY Sa (aget 0 edgesBetweenCycles (2 * i + 1)))
                   (-1))
                Hwa (Hfirst Sa _ w2 Hwa (Haa _ _ (Habove _ _ Hw2))))
    as [Hwb Hab].
  destruct (edgeIsStrong2Edge isCyclicallyConnected Sa n _ _
              circuitOrientation) as [Sb strong]. cbn [fst] in Hwb, Hab.
  destruct strong; cbn [negb fst].
  - destruct (IH (fun x Hx => Hleft x (or_intror Hx)) Sb Hwb
                (above_trans _ _ _ Habove (above_trans _ _ _ Haa Hab)))
      as [Hw' Ha'].
    split; [exact Hw'|].
    exact (above_trans _ _ _ Haa (above_trans _ _ _ Hab Ha')).
  - split; [exact Hwb|exact (above_trans _ _ _ Haa Hab)].
Qed.

End Restore.

Lemma existsb_false_forallb {T : Type} (f : T -> bool) (l : list T) :
  existsb f l = false -> forallb (fun x => negb (f x)) l = true.
Proof.
  induction l as [|x l IH]; simpl; [reflexivity|].
  intros H. apply orb_false_iff in H. destruct H as [H1 H2].
  rewrite H1, (IH H2). reflexivity.
Qed.

(** X16. [edgeIsStrong2Edge] leaves the adjacency list as it found it,
    whatever the cyclic connectivity tests answer and wherever its loops
    stop, when the edge that it is called for is an edge of the list and
    every entry of [circuitOrientation] other than -1 is a neighbour of its
    index: every edge that it removes is added again. *)
Theorem edgeIsStrong2Edge_restores
    (isCyclicallyConnected : list bitset -> Z -> bool)
    (adjacencyList : list bitset) (n : Z) (endpoint1 endpoint2 : Z)
    (circuitOrientation : list Z) :
  wfGraph adjacencyList n ->
  (forall i, 0 <= i < n ->
     aget 0 circuitOrientation i = -1
     \/ contains (aget EMPTY adjacencyList i) (aget 0 circuitOrientation i)
        = true) ->
  contains (aget EMPTY adjacencyList endpoint1) endpoint2 = true ->
  fst (edgeIsStrong2Edge isCyclicallyConnected adjacencyList n endpoint1
         endpoint2 circuitOrientation)
  = adjacencyList.
Proof.
  intros Hwf Hco Hedge.
  destruct (edgeIsStrong2Edge_within isCyclicallyConnected adjacencyList n
              circuitOrientation Hwf Hco adjacencyList endpoint1 endpoint2
              (within_A adjacencyList n Hwf) Hedge) as [Hw Ha].
  apply (within_above_eq adjacencyList _ Hw Ha).
Qed.

Lemma edgeIsStrong2Edge_restores_witness :
  fst (edgeIsStrong2Edge (fun adj _ => 2 <=? size (aget EMPTY adj 2)) K4 4
         0 1 [-1; -1; 3; 2])
  = K4.
Proof.
  apply (edgeIsStrong2Edge_restores
           (fun adj _ => 2 <=? size (aget EMPTY adj 2)) K4 4 0 1
           [-1; -1; 3; 2]).
  - apply checkGraph_sound. vm_compute. reflexivity.
  - intros i Hi.
    assert (H : i = 0 \/ i = 1 \/ i = 2 \/ i = 3) by lia.
    destruct H as [-> | [-> | [-> | ->]]];
      [left; reflexivity|left; reflexivity
      |right; vm_compute; reflexivity|right; vm_compute; reflexivity].
  - vm_compute. reflexivity.
Defined.

(** X17. [suppressedEdgesAreDeletable] leaves the adjacency list as it
    found it, also when it stops at the first edge that is not strong. This
    holds when the pairs of [edgesBetweenCycles] are edges of the graph, every
    entry of [circuitOrientation] other than -1 is a neighbour of its index,
    and every end of an edge between the cycles has a neighbour to which no
    edge between the cycles joins it (the edge that is then tested). *)
Theorem suppressedEdgesAreDeletable_restores
    (isCyclicallyConnected : list bitset -> Z -> bool)
    (adjacencyList : list bitset) (n : Z)
    (circuitOrientation edgesBetweenCycles : list Z)
    (numberOfEdgesBetweenCycles : Z) :
  wfGraph adjacencyList n ->
  (forall i, 0 <= i < n ->
     aget 0 circuitOrientation i = -1
     \/ contains (aget EMPTY adjacencyList i) (aget 0 circuitOrientation i)
        = true) ->
  (forall i, 0 <= i < numberOfEdgesBetweenCycles ->
     contains (aget EMPTY adjacencyList (aget 0 edgesBetweenCycles (2 * i)))
       (aget 0 edgesBetweenCycles (2 * i + 1)) = true) ->
  (forall i x, 0 <= i < numberOfEdgesBetweenCycles ->
     x = aget 0 edgesBetweenCycles (2 * i)
     \/ x = aget 0 edgesBetweenCycles (2 * i + 1) ->
     exists w,
       contains (aget EMPTY adjacencyList x) w = true
       /\ forall j, 0 <= j < numberOfEdgesBetweenCycles ->
            samePair x w (aget 0 edgesBetweenCycles (2 * j))
              (aget 0 edgesBetweenCycles (2 * j + 1)) = false) ->
  fst (suppressedEdgesAreDeletable isCyclicallyConnected adjacencyList n
         circuitOrientation edgesBetweenCycles numberOfEdgesBetweenCycles)
  = adjacencyList.
Proof.
  intros Hwf Hco Hedges Hleft. unfold suppressedEdgesAreDeletable.
  set (k := numberOfEdgesBetweenCycles) in *.
  set (e1 := fun i => aget 0 edgesBetweenCycles (2 * i)).
  set (e2 := fun i => aget 0 edgesBetweenCycles (2 * i + 1)).
  assert (Hall : forall i, In i (vertices k) ->
            hasEdge adjacencyList (e1 i) (e2 i) = true)
    by (intros i Hi; apply Hedges, vertices_spec, Hi).
  destruct (removeEdges_within isCyclicallyConnected adjacencyList n Hwf e1
              e2 (vertices k) Hall
              adjacencyList (within_A adjacencyList n Hwf)) as [Hw1 Hf1].
  change (fold_left
            (fun adjacencyList0 i =>
               removeEdgeFromAdjList adjacencyList0
                 (aget 0 edgesBetweenCycles (2 * i))
                 (aget 0 edgesBetweenCycles (2 * i + 1)))
            (vertices k) adjacencyList)
    with (fold_left (fun adj i => removeEdgeFromAdjList adj (e1 i) (e2 i))
            (vertices k) adjacencyList).
  set (S1 := fold_left (fun adj i => removeEdgeFromAdjList adj (e1 i) (e2 i))
               (vertices k) adjacencyList) in *.
  assert (Hremain : forall i x, In i (vertices k) ->
            x = e1 i \/ x = e2 i -> exists w, hasEdge S1 x w = true).
  { intros i x Hi Hx. apply vertices_spec in Hi.
    destruct (Hleft i x Hi Hx) as (w & Hw & Hnot).
    exists w. rewrite Hf1. unfold hasEdge. rewrite Hw. cbn [andb].
    apply forallb_forall. intros j Hj. apply vertices_spec in Hj.
    unfold e1, e2. rewrite (Hnot j Hj). reflexivity. }
  destruct (checkSuppressedEdges_within isCyclicallyConnected adjacencyList n
              circuitOrientation Hwf Hco edgesBetweenCycles S1 (vertices k)
              (fun i Hi => conj (Hremain i (e1 i) Hi (or_introl eq_refl))
                             (Hremain i (e2 i) Hi (or_intror eq_refl)))
              S1 Hw1 (fun u v H => H)) as [Hw2 Ha2].
  destruct (checkSuppressedEdges isCyclicallyConnected (vertices k) n
              circuitOrientation edgesBetweenCycles S1) as [S2 ok].
  cbn [fst] in *.
  destruct (addEdges_within adjacencyList n Hwf e1 e2 (vertices k) Hall
              S2 Hw2) as [Hw3 Hf3].
  apply (within_above_eq adjacencyList _ Hw3).
  intros u v Huv. rewrite Hf3.
  destruct (existsb (fun i => samePair u v (e1 i) (e2 i)) (vertices k))
    eqn:E; [apply orb_true_r|].
  rewrite orb_false_r. apply Ha2. rewrite Hf1, Huv. cbn [andb].
  apply (existsb_false_forallb _ _ E).
Qed.

Lemma suppressedEdgesAreDeletable_restores_witness :
  fst (suppressedEdgesAreDeletable
         (fun adj _ => 2 <=? size (aget EMPTY adj 2)) K4 4 [-1; -1; 3; 2]
         [0; 1] 1)
  = K4.
Proof.
  apply (suppressedEdgesAreDeletable_restores
           (fun adj _ => 2 <=? size (aget EMPTY adj 2)) K4 4 [-1; -1; 3; 2]
           [0; 1] 1).
  - apply checkGraph_sound. vm_compute. reflexivity.
  - intros i Hi.
    assert (H : i = 0 \/ i = 1 \/ i = 2 \/ i = 3) by lia.
    destruct H as [-> | [-> | [-> | ->]]];
      [left; reflexivity|left; reflexivity
      |right; vm_compute; reflexivity|right; vm_compute; reflexivity].
  - intros i Hi. assert (i = 0) by lia. subst i. vm_compute. reflexivity.
  - intros i x Hi Hx. assert (i = 0) by lia. subst i.
    exists 2. destruct Hx as [Hx|Hx]; subst x;
      (split; [vm_compute; reflexivity|]);
      intros j Hj; assert (j = 0) by lia; subst j; vm_compute; reflexivity.
Defined.

(** ** The search in an array *)

Lemma findInArrayFrom_spec (u : Z) (arr : list Z) (len : nat) :
  forall a : nat,
    let r := findInArrayFrom u arr (map Z.of_nat (seq a len)) in
    (r = -1
     /\ forall i, Z.of_nat a <= i < Z.of_nat a + Z.of_nat len ->
                  aget 0 arr i <> u)
    \/ (Z.of_nat a <= r < Z.of_nat a + Z.of_nat len
        /\ aget 0 arr r = u
        /\ forall i, Z.of_nat a <= i < r -> aget 0 arr i <> u).
Proof.
  induction len as [|len IH]; intros a; cbn [seq map findInArrayFrom].
  - left. split; [reflexivity|]. intros i Hi. lia.
  - destruct (Z.eqb_spec (aget 0 arr (Z.of_nat a)) u) as [E|E].
    + right. split; [lia|]. split; [exact E|]. intros i Hi. lia.
    + destruct (IH (S a)) as [[Hr Hall]|(Hr & Hat & Hbefore)].
      * left. split; [exact Hr|]. intros i Hi.
        destruct (Z.eq_dec i (Z.of_nat a)) as [->|Hne]; [exact E|].
        apply Hall. lia.
      * right. split; [lia|]. split; [exact Hat|]. intros i Hi.
        destruct (Z.eq_dec i (Z.of_nat a)) as [->|Hne]; [exact E|].
        apply Hbefore. lia.
Qed.

(** X18. [findInArray] returns the first index below [arrLength] at which
    the array holds [u], and -1 exactly when [u] is at none of these
    indices. *)
Theorem findInArray_first_index (u : Z) (arr : list Z) (arrLength : Z) :
  0 <= arrLength <= Z.of_nat (length arr) ->
  (findInArray u arr arrLength = -1
   /\ forall i, 0 <= i < arrLength -> aget 0 arr i <> u)
  \/ (0 <= findInArray u arr arrLength < arrLength
      /\ aget 0 arr (findInArray u arr arrLength) = u
      /\ forall i, 0 <= i < findInArray u arr arrLength -> aget 0 arr i <> u).
Proof.
  intros Hlen. unfold findInArray, vertices.
  destruct (findInArrayFrom_spec u arr (Z.to_nat arrLength) 0)
    as [[Hr Hall]|(Hr & Hat & Hbefore)].
  - left. split; [exact Hr|]. intros i Hi. apply Hall. lia.
  - right. split; [lia|]. split; [exact Hat|]. intros i Hi.
    apply Hbefore. lia.
Qed.

Lemma findInArray_first_index_witness :
  (findInArray 7 [4; 7; 2; 7] 4 = -1
   /\ forall i, 0 <= i < 4 -> aget 0 [4; 7; 2; 7] i <> 7)
  \/ (0 <= findInArray 7 [4; 7; 2; 7] 4 < 4
      /\ aget 0 [4; 7; 2; 7] (findInArray 7 [4; 7; 2; 7] 4) = 7
      /\ forall i, 0 <= i < findInArray 7 [4; 7; 2; 7] 4 ->
           aget 0 [4; 7; 2; 7] i <> 7).
Proof.
  apply (findInArray_first_index 7 [4; 7; 2; 7] 4). simpl. lia.
Defined.

(** ** The exact procedure returns *)

Section ExactReturns.

Variables (adjacencyList : list bitset) (n : Z) (opts : options).
Hypothesis graph_wf : wfGraph adjacencyList n.
Hypothesis graph_cubic : cubic adjacencyList n.
Hypothesis n_pos : 0 < n.

Let edgeNumbering := numberEdges adjacencyList n (newMatrix n).

Lemma examineOrientation_returns (st : genState) :
  orientationOf adjacencyList n (gsOrientation st) ->
  poolWellFormed (gsPool st) ->
  exists r st',
    examineOrientation adjacencyList opts n edgeNumbering st = Ret (r, st')
    /\ poolWellFormed (gsPool st').
Proof.
  intros (Hn & Hwf & _) Hpool. unfold examineOrientation.
  destruct (isStronglyConnected_decides (gsOrientation st) Hwf
              ltac:(rewrite Hn; exact n_pos)) as (b & Eb & _).
  rewrite Eb. cbn [bind]. destruct b; cbn [negb].
  2:{ eexists _, _. split; [reflexivity|exact Hpool]. }
  destruct (getDeletableEdges_spec (gsOrientation st) edgeNumbering Hwf)
    as (s & Es & _).
  rewrite Hn in Es. rewrite Es. cbn [bind].
  destruct (hasVertexWithoutDeletableEdge _ _ _ _).
  { eexists _, _. split; [reflexivity|exact Hpool]. }
  destruct (bruteForceFlag opts); cbn [negb].
  - destruct (getIntermediateFrankNumber_shape
                (set_generatedOrientations (gsNumberOf st)
                   (ull (generatedOrientations (gsNumberOf st) + 1)))
                n (gsPool st) s Hpool) as (r & c & p & E & _ & Hwfp).
    cbn [gsPool]. rewrite E. cbn [bind].
    eexists _, _. split; [reflexivity|exact Hwfp].
  - destruct (hasComplementaryOrientation_decides adjacencyList n s
                edgeNumbering (emptyGraph n) graph_wf graph_cubic
                (proj2 (numberEdges_invariant adjacencyList n)) n_pos)
      as (b & Eb' & _).
    rewrite Eb'. cbn [bind].
    eexists _, _. split; [reflexivity|exact Hpool].
Qed.

Lemma processOrientations_returns (leaves : list diGraph) :
  (forall d, In d leaves -> orientationOf adjacencyList n d) ->
  forall st,
    poolWellFormed (gsPool st) ->
    exists r st',
      processOrientations
        (processOrientation adjacencyList opts n edgeNumbering) leaves st
      = Ret (r, st')
      /\ poolWellFormed (gsPool st').
Proof.
  induction leaves as [|d rest IH]; intros Hleaves st Hpool.
  { eexists _, _. split; [reflexivity|exact Hpool]. }
  cbn [processOrientations].
  assert (Hleaf : exists r st',
            processOrientation adjacencyList opts n edgeNumbering
              (withOrientation st d) = Ret (r, st')
            /\ poolWellFormed (gsPool st')).
  { unfold processOrientation. destruct (_ && _).
    - eexists _, _. split; [reflexivity|exact Hpool].
    - apply examineOrientation_returns; [|exact Hpool].
      apply Hleaves. left. reflexivity. }
  destruct Hleaf as (r & st1 & E & Hpool1). rewrite E. cbn [bind].
  destruct (negb (r =? 0)).
  - eexists _, _. split; [reflexivity|exact Hpool1].
  - apply IH; [|exact Hpool1]. intros x Hx. apply Hleaves. right. exact Hx.
Qed.

Lemma findFrankNumber_returns (numberOf : counters) :
  0 < sizeOfArray opts ->
  exists r opts' numberOf',
    findFrankNumber adjacencyList n opts numberOf = Ret (r, opts', numberOf').
Proof.
  intros Hsize. unfold findFrankNumber. cbv zeta. fold edgeNumbering.
  rewrite (generateAllOrientations_leaves adjacencyList opts n edgeNumbering
             (mkGenState numberOf (initArray (sizeOfArray opts))
                (emptyGraph n)) graph_wf eq_refl).
  unfold runLeaves.
  destruct (processOrientations_returns
              (leafOrientations (edgeList adjacencyList n) (emptyGraph n))
              (fun d Hd => leafOrientations_orientationOf adjacencyList n d
                             graph_wf Hd)
              (mkGenState numberOf (initArray (sizeOfArray opts))
                 (emptyGraph n)))
    as (r & st' & E & _).
  { unfold poolWellFormed, initArray. cbn [gsPool array used size_].
    rewrite length_replicate. lia. }
  fold edgeNumbering. rewrite E. cbn [bind fst snd].
  destruct (bruteForceFlag opts); eexists _, _, _; reflexivity.
Qed.

End ExactReturns.

(** X19. On every cubic graph with at least one vertex the exact procedure
    returns, with the result 0 or 2: the searches that it runs (strong
    connectivity, deletable edges, the solver for a complementary
    orientation, the pool of [-b] with a positive initial capacity) all
    return, and the process is not ended in between. *)
Theorem exact_procedure_returns (adjacencyList : list bitset) (n : Z)
    (opts : options) (numberOf : counters) :
  wfGraph adjacencyList n -> cubic adjacencyList n -> 0 < n ->
  0 < sizeOfArray opts ->
  exists r opts' numberOf',
    findFrankNumber adjacencyList n opts numberOf = Ret (r, opts', numberOf')
    /\ (r = 0 \/ r = 2).
Proof.
  intros Hg Hcubic Hpos Hsize.
  destruct (findFrankNumber_returns adjacencyList n opts Hg Hcubic Hpos
              numberOf Hsize) as (r & opts' & numberOf' & E).
  exists r, opts', numberOf'. split; [exact E|].
  apply (findFrankNumber_values _ _ _ _ _ _ _ E).
Qed.

Lemma exact_procedure_returns_witness :
  exists r opts' numberOf',
    findFrankNumber K4 4 defaultOptions zeroCounters
    = Ret (r, opts', numberOf')
    /\ (r = 0 \/ r = 2).
Proof.
  apply (exact_procedure_returns K4 4 defaultOptions zeroCounters).
  - apply checkGraph_sound. vm_compute. reflexivity.
  - apply checkCubic_sound. vm_compute. reflexivity.
  - lia.
  - reflexivity.
Defined.

(** ** The exact procedure finds the complementary pairs *)

Lemma processOrientations_hits (leaf : genState -> result (Z * genState))
    (leaves : list diGraph) (d : diGraph) :
  In d leaves ->
  (forall st r st', leaf (withOrientation st d) = Ret (r, st') -> r <> 0) ->
  forall st r st',
    processOrientations leaf leaves st = Ret (r, st') -> r <> 0.
Proof.
  intros Hd Hleaf. induction leaves as [|x rest IH]; [destruct Hd|].
  intros st r st'. cbn [processOrientations].
  destruct (leaf (withOrientation st x)) as [| |[r1 st1]] eqn:E;
    cbn [bind]; try discriminate.
  destruct (Z.eqb_spec r1 0) as [->|Hr1]; cbn [negb].
  - destruct Hd as [->|Hd].
    + destruct (Hleaf _ _ _ E eq_refl).
    + apply IH. exact Hd.
  - intros H. injection H as <- _. exact Hr1.
Qed.

Section ExactComplete.

Variables (adjacencyList : list bitset) (n : Z).
Hypothesis graph_wf : wfGraph adjacencyList n.
Hypothesis graph_cubic : cubic adjacencyList n.
Hypothesis n_pos : 0 < n.

Let edgeNumbering := numberEdges adjacencyList n (newMatrix n).
Let allEdges := complement EMPTY (3 * n ÷ 2).

Lemma outside_no_arcs (D : diGraph) (v : Z) :
  wfDiGraph D -> ~ (0 <= v < numberOfVertices D) ->
  size (outNbrs D v) = 0 /\ size (inNbrs D v) = 0.
Proof.
  intros (Hn & Hlo & Hli & _) Hv. unfold outNbrs, inNbrs.
  rewrite !aget_outside by lia. split; reflexivity.
Qed.

Lemma strong_noThirdArc (D : diGraph) :
  orientationOf adjacencyList n D -> stronglyConnected D -> noThirdArc D.
Proof.
  intros HD Hstrong v.
  pose proof HD as (Hn & Hwf & Hedges & Hall & Hone).
  destruct (Z_lt_le_dec v 0) as [Hneg|Hnn].
  { destruct (outside_no_arcs D v Hwf ltac:(lia)) as [-> ->]. lia. }
  destruct (Z_lt_le_dec v n) as [Hlt|Hge].
  2:{ destruct (outside_no_arcs D v Hwf ltac:(lia)) as [-> ->]. lia. }
  pose proof Hwf as (_ & _ & _ & Hon & Hin & _ & Hm).
  pose proof graph_wf as (_ & _ & Hadj & Hrange & _ & Hloop).
  destruct (size_positive (aget EMPTY adjacencyList v)) as [w Hw].
  { rewrite (graph_cubic v ltac:(lia)). lia. }
  pose proof (Hrange v w Hw) as Hwn.
  assert (Hvw : v <> w) by (intros <-; rewrite Hloop in Hw; discriminate).
  destruct (walk_first _ _ _ _
              (Hstrong v w ltac:(lia) ltac:(lia) Hvw)) as [a Ha].
  destruct (walk_last _ _ _ _
              (Hstrong w v ltac:(lia) ltac:(lia) (not_eq_sym Hvw)))
    as [b Hb].
  pose proof (degree_sum adjacencyList n D graph_wf graph_cubic HD v
                ltac:(lia)) as Hsum.
  pose proof (size_contains (outNbrs D v) a (Hon v) Ha) as H1.
  assert (Hb' : contains (inNbrs D v) b = true) by (rewrite Hm; exact Hb).
  pose proof (size_contains (inNbrs D v) b (Hin v) Hb') as H2.
  lia.
Qed.

Lemma leaf_of_orientation (D : diGraph) :
  orientationOf adjacencyList n D -> noThirdArc D ->
  exists d,
    In d (leafOrientations (edgeList adjacencyList n) (emptyGraph n))
    /\ orientationOf adjacencyList n d
    /\ forall u v, arc d u v <-> arc D u v.
Proof.
  intros HD Hdeg. pose proof graph_wf as (Hn & _).
  pose proof HD as (_ & HwfD & _ & Hall & _).
  destruct (leafOrientations_complete n D (edgeList adjacencyList n) HwfD
              Hdeg (emptyGraph n) (wfDiGraph_emptyGraph n Hn) eq_refl
              (edgesFresh_edgeList adjacencyList n graph_wf)
              (edgesDistinct_edgeList adjacencyList n))
    as (d & Hd & Hext).
  - intros u v H. destruct (arc_emptyGraph n u v H).
  - intros u v Huv. apply Hall.
    apply edgeList_spec in Huv. destruct Huv as (Hu & Hin & _).
    apply elements_contains in Hin. exact Hin.
  - pose proof (leafOrientations_orientationOf adjacencyList n d graph_wf Hd)
      as Hor.
    exists d. split; [exact Hd|]. split; [exact Hor|].
    apply (orientation_extends_same adjacencyList n); assumption.
Qed.

Lemma stronglyConnected_same_arcs (D d : diGraph) :
  numberOfVertices d = numberOfVertices D ->
  (forall u v, arc D u v -> arc d u v) ->
  stronglyConnected D -> stronglyConnected d.
Proof.
  intros Hn Harcs Hstrong u v Hu Hv Huv. rewrite Hn in *.
  apply (walk_same_arcs D d); [exact Harcs|].
  apply Hstrong; assumption.
Qed.

Lemma deletableSet_within (D : diGraph) (s : bitset) :
  orientationOf adjacencyList n D -> isDeletableSet D edgeNumbering s ->
  subsetOf s allEdges.
Proof.
  intros (_ & _ & Hedges & _) Hs e He.
  apply Hs in He. destruct He as (_ & i & nbr & [Harc _] & <-).
  apply (edge_number_range adjacencyList n graph_wf i nbr graph_cubic).
  apply Hedges. exact Harc.
Qed.

Lemma deletableSet_not_all (D : diGraph) (s : bitset) :
  orientationOf adjacencyList n D -> stronglyConnected D ->
  isDeletableSet D edgeNumbering s ->
  s <> allEdges.
Proof.
  intros HD Hstrong Hs Heq.
  destruct (deletable_set_leaves_edge adjacencyList n graph_wf graph_cubic D
              s HD Hstrong Hs 0 ltac:(lia)) as (w & Hw & Hnot).
  pose proof (edge_number_range adjacencyList n graph_wf 0 w graph_cubic Hw)
    as Hin.
  fold edgeNumbering in Hin. fold allEdges in Hin.
  rewrite <- Heq in Hin. unfold edgeNumbering in Hin. congruence.
Qed.

(** A vertex has a deletable edge in [S1] when [S1] and a set that leaves
    an edge at every vertex make up all the edges. *)
Lemma covered_vertices_pass (S1 S2 : bitset) :
  leavesEdgeAtEveryVertex adjacencyList n S2 edgeNumbering ->
  union S1 S2 = allEdges ->
  hasVertexWithoutDeletableEdge adjacencyList n S1 edgeNumbering = false.
Proof.
  intros Hleaves Hunion.
  destruct (hasVertexWithoutDeletableEdge _ _ _ _) eqn:E; [|reflexivity].
  unfold hasVertexWithoutDeletableEdge in E. apply existsb_exists in E.
  destruct E as (v & Hv & Hall). apply vertices_spec in Hv.
  destruct (Hleaves v Hv) as (w & Hw & Hnot).
  pose proof (edge_number_range adjacencyList n graph_wf v w graph_cubic Hw)
    as Hin.
  fold edgeNumbering in Hin. fold allEdges in Hin.
  rewrite <- Hunion, contains_union, Hnot, orb_false_r in Hin.
  rewrite forallb_forall in Hall.
  specialize (Hall w). rewrite Hin in Hall.
  discriminate Hall. apply elements_spec; [apply graph_wf|exact Hw].
Qed.

(** The leaf of the enumeration at a strongly connected orientation with
    the set [s] of deletable edges, when every vertex has a deletable
    edge. *)
Lemma examineOrientation_examined (opts : options) (st : genState)
    (s : bitset) :
  orientationOf adjacencyList n (gsOrientation st) ->
  stronglyConnected (gsOrientation st) ->
  isDeletableSet (gsOrientation st) edgeNumbering s ->
  hasVertexWithoutDeletableEdge adjacencyList n s edgeNumbering = false ->
  examineOrientation adjacencyList opts n edgeNumbering st
  = (let numberOf :=
       set_generatedOrientations (gsNumberOf st)
         (ull (generatedOrientations (gsNumberOf st) + 1)) in
     if negb (bruteForceFlag opts) then
       let* b := hasComplementaryOrientation adjacencyList n s edgeNumbering in
       Ret (if b then 2 else 0,
            mkGenState numberOf (gsPool st) (gsOrientation st))
     else
       let* r := getIntermediateFrankNumber numberOf n (gsPool st) s in
       let '(r, numberOf, pool) := r in
       Ret (r, mkGenState numberOf pool (gsOrientation st))).
Proof.
  intros (Hn & Hwf & _) Hstrong Hs Hpass. unfold examineOrientation.
  destruct (isStronglyConnected_decides (gsOrientation st) Hwf
              ltac:(rewrite Hn; exact n_pos)) as (b & Eb & Hb).
  rewrite Eb. cbn [bind].
  rewrite (proj2 Hb Hstrong). cbn [negb].
  destruct (getDeletableEdges_spec (gsOrientation st) edgeNumbering Hwf)
    as (s' & Es & Hs').
  rewrite Hn in Es. rewrite Es. cbn [bind].
  rewrite (isDeletableSet_unique _ _ _ _ Hs' Hs), Hpass. reflexivity.
Qed.

(** The set of the deletable edges of an orientation without a vertex of
    in- or out-degree three leaves an edge at every vertex. *)
Lemma noThirdArc_leaves_edge (D : diGraph) (deletableEdges : bitset) :
  orientationOf adjacencyList n D -> noThirdArc D ->
  isDeletableSet D edgeNumbering deletableEdges ->
  leavesEdgeAtEveryVertex adjacencyList n deletableEdges edgeNumbering.
Proof.
  intros HD Hdeg HS v Hv.
  pose proof HD as (Hn & Hwf & Hedges & Hall & Hone).
  pose proof Hwf as (_ & _ & _ & Hon & Hin & _ & Hm).
  pose proof (degree_sum adjacencyList n D graph_wf graph_cubic HD v Hv)
    as Hsum.
  destruct (Hdeg v) as [Hout2 Hin2].
  destruct (Z_le_gt_dec (size (outNbrs D v)) 1) as [Hout|Hout].
  - destruct (size_positive (outNbrs D v)) as [a Ha]; [lia|].
    exists a. split; [apply Hedges; exact Ha|].
    destruct (contains deletableEdges (mget edgeNumbering v a)) eqn:E;
      [exfalso|reflexivity].
    destruct (deletableArc_degrees D v a Hwf
                (deletable_number adjacencyList n graph_wf D deletableEdges
                   v a HD HS Ha E)).
    lia.
  - destruct (size_positive (inNbrs D v)) as [b Hb]; [lia|].
    rewrite Hm in Hb.
    exists b. split.
    + apply (edge_sym adjacencyList n graph_wf). apply Hedges. exact Hb.
    + destruct (contains deletableEdges (mget edgeNumbering v b)) eqn:E;
        [exfalso|reflexivity].
      unfold edgeNumbering in E.
      rewrite (edgeNumbering_symmetric adjacencyList n v b) in E.
      destruct (deletableArc_degrees D b v Hwf
                  (deletable_number adjacencyList n graph_wf D deletableEdges
                     b v HD HS Hb E)).
      lia.
Qed.

(** The solver accepts the set of a strongly connected orientation that an
    orientation without a vertex of in- or out-degree three complements. *)
Lemma solver_finds_complement (D1 D2 : diGraph) (S1 S2 : bitset) :
  orientationOf adjacencyList n D1 -> stronglyConnected D1 ->
  isDeletableSet D1 edgeNumbering S1 ->
  orientationOf adjacencyList n D2 -> noThirdArc D2 ->
  isDeletableSet D2 edgeNumbering S2 ->
  union S1 S2 = allEdges ->
  hasComplementaryOrientation adjacencyList n S1 edgeNumbering = Ret true.
Proof.
  intros HD1 Hst1 HS1 HD2 Hdeg HS2 Hunion.
  assert (Hsym : symmetricMatrix edgeNumbering) by apply numberEdges_invariant.
  pose proof (deletable_set_leaves_edge adjacencyList n graph_wf graph_cubic
                D1 S1 HD1 Hst1 HS1) as Hleaves.
  assert (Hcomplete : forall Dstar,
            orientationOf adjacencyList n Dstar -> noThirdArc Dstar ->
            complements n S1 edgeNumbering Dstar ->
            arc Dstar 0 (next (aget EMPTY adjacencyList 0) (-1)) ->
            hasComplementaryOrientation adjacencyList n S1 edgeNumbering
            = Ret true).
  { intros Dstar Hor Hdeg' Hcomp Harc.
    destruct (hasComplementaryOrientation_decides adjacencyList n S1
                edgeNumbering Dstar graph_wf graph_cubic Hsym n_pos)
      as (b & Hb & _ & Hyes).
    rewrite Hb. f_equal. apply Hyes; [|exact Harc].
    split; [|exact Hcomp]. split; [|exact Hleaves].
    apply complements_locallyComplementary; assumption. }
  assert (Hcomp : complements n S1 edgeNumbering D2)
    by (exists S2; split; assumption).
  pose proof HD2 as (_ & Hwf2 & _ & Hall & _).
  destruct (Hall 0 (next (aget EMPTY adjacencyList 0) (-1))
              (first_neighbour adjacencyList n graph_wf graph_cubic n_pos))
    as [H|H].
  - apply (Hcomplete D2); assumption.
  - apply (Hcomplete (reverseDiGraph D2)).
    + apply orientationOf_reverseDiGraph; assumption.
    + apply noThirdArc_reverseDiGraph. exact Hdeg.
    + apply complements_reverseDiGraph; assumption.
    + apply arc_reverseDiGraph; assumption.
Qed.

(** The leaf of the enumeration for a strongly connected orientation. *)
Lemma leaf_of_strong_orientation (D : diGraph) (s : bitset) :
  orientationOf adjacencyList n D -> stronglyConnected D ->
  isDeletableSet D edgeNumbering s ->
  exists d,
    In d (leafOrientations (edgeList adjacencyList n) (emptyGraph n))
    /\ orientationOf adjacencyList n d /\ stronglyConnected d
    /\ isDeletableSet d edgeNumbering s.
Proof.
  intros HD Hstrong Hs.
  destruct (leaf_of_orientation D HD (strong_noThirdArc D HD Hstrong))
    as (d & Hd & Hor & Harcs).
  assert (Hn : numberOfVertices D = numberOfVertices d)
    by (destruct HD as [-> _]; destruct Hor as [-> _]; reflexivity).
  exists d. split; [exact Hd|]. split; [exact Hor|]. split.
  - apply (stronglyConnected_same_arcs D d); [congruence| |exact Hstrong].
    intros u v. apply Harcs.
  - apply (isDeletableSet_same_arcs D d); [exact Hn| |exact Hs].
    intros u v. symmetry. apply Harcs.
Qed.

End ExactComplete.

Section PoolComplete.

Variables (adjacencyList : list bitset) (n : Z) (opts : options).
Hypothesis graph_wf : wfGraph adjacencyList n.
Hypothesis graph_cubic : cubic adjacencyList n.
Hypothesis n_pos : 0 < n.
Hypothesis all_orientations : singleGraphFlag opts = false.

Let edgeNumbering := numberEdges adjacencyList n (newMatrix n).
Let allEdges := complement EMPTY (3 * n ÷ 2).
Let leaf := processOrientation adjacencyList opts n edgeNumbering.

(** The leaf hands the set [s] of the orientation [d] to the solver or to
    the pool. *)
Let examinedSet (d : diGraph) (s : bitset) : Prop :=
  orientationOf adjacencyList n d /\ stronglyConnected d
  /\ isDeletableSet d edgeNumbering s
  /\ hasVertexWithoutDeletableEdge adjacencyList n s edgeNumbering = false.

Let poolInv (pool : Array) : Prop :=
  poolWellFormed pool /\ coverFree allEdges pool /\ cellsWithin allEdges pool.

Lemma leaf_examined (st : genState) (d : diGraph) (s : bitset) :
  examinedSet d s ->
  leaf (withOrientation st d)
  = examineOrientation adjacencyList opts n edgeNumbering
      (mkGenState
         (set_totalOrientationsGenerated (gsNumberOf st)
            (ull (totalOrientationsGenerated (gsNumberOf st) + 1)))
         (gsPool st) d).
Proof.
  intros _. unfold leaf, processOrientation. rewrite all_orientations.
  reflexivity.
Qed.

Lemma leaf_outcome (st : genState) (d : diGraph) (r : Z) (st1 : genState) :
  bruteForceFlag opts = true ->
  orientationOf adjacencyList n d ->
  leaf (withOrientation st d) = Ret (r, st1) ->
  (r = 0 /\ gsPool st1 = gsPool st /\ forall s, ~ examinedSet d s)
  \/ (exists s c c',
        examinedSet d s
        /\ getIntermediateFrankNumber c n (gsPool st) s
           = Ret (r, c', gsPool st1)).
Proof.
  intros Hbrute Hor. pose proof Hor as (Hn & Hwf & _).
  unfold leaf, processOrientation. rewrite all_orientations. cbn [andb].
  unfold examineOrientation. cbn [gsOrientation gsNumberOf gsPool withOrientation].
  destruct (isStronglyConnected_decides d Hwf
              ltac:(rewrite Hn; exact n_pos)) as (b & Eb & Hb).
  rewrite Eb. cbn [bind]. destruct b; cbn [negb].
  2:{ intros H. injection H as <- <-. left. split; [reflexivity|].
      split; [reflexivity|]. intros s (_ & Hstrong & _).
      apply Hb in Hstrong. discriminate. }
  destruct (getDeletableEdges_spec d edgeNumbering Hwf) as (s & Es & Hs).
  rewrite Hn in Es. rewrite Es. cbn [bind].
  destruct (hasVertexWithoutDeletableEdge adjacencyList n s edgeNumbering)
    eqn:Efilter.
  { intros H. injection H as <- <-. left. split; [reflexivity|].
    split; [reflexivity|]. intros s' (_ & _ & Hs' & Hpass).
    rewrite (isDeletableSet_unique _ _ _ _ Hs' Hs) in Hpass. congruence. }
  rewrite Hbrute. cbn [negb].
  destruct (getIntermediateFrankNumber _ n _ s) as [| |[[r' c'] p']] eqn:Eg;
    cbn [bind]; try discriminate.
  intros H. injection H as <- <-. right. exists s. eexists _, c'.
  split; [|exact Eg].
  split; [exact Hor|]. split; [apply Hb; reflexivity|]. split; assumption.
Qed.

Lemma processOrientations_cover_free (leaves : list diGraph) :
  bruteForceFlag opts = true ->
  (forall d, In d leaves -> orientationOf adjacencyList n d) ->
  forall st st',
    poolInv (gsPool st) ->
    processOrientations leaf leaves st = Ret (0, st') ->
    (forall s, dominated (gsPool st) s -> dominated (gsPool st') s)
    /\ (forall s0 d s,
          dominated (gsPool st) s0 -> In d leaves -> examinedSet d s ->
          union s0 s <> allEdges)
    /\ (forall d s d' s',
          In d leaves -> In d' leaves ->
          examinedSet d s -> examinedSet d' s' ->
          union s s' <> allEdges).
Proof.
  intros Hbrute. induction leaves as [|x rest IH]; intros Hleaves st st' Hinv.
  { intros H. injection H as <-. split; [auto|].
    split; [intros s0 d s _ []|intros d s d' s' []]. }
  cbn [processOrientations].
  destruct (leaf (withOrientation st x)) as [| |[r1 st1]] eqn:Eleaf;
    cbn [bind]; try discriminate.
  destruct (Z.eqb_spec r1 0) as [->|Hr1]; cbn [negb].
  2:{ intros H. injection H as H _. contradiction. }
  intros Hrest.
  assert (Hrest_or : forall d, In d rest -> orientationOf adjacencyList n d)
    by (intros d Hd; apply Hleaves; right; exact Hd).
  destruct (leaf_outcome st x 0 st1 Hbrute (Hleaves x (or_introl eq_refl))
              Eleaf) as [(_ & Hsame & Hnot)|(sx & c & c' & Hex & Ecall)].
  - rewrite <- Hsame in Hinv.
    destruct (IH Hrest_or st1 st' Hinv Hrest) as (H1 & H2 & H3).
    rewrite Hsame in H1, H2.
    split; [exact H1|]. split.
    + intros s0 d s Hs0 [<-|Hd] Hd'; [destruct (Hnot s Hd')|].
      apply (H2 s0 d s); assumption.
    + intros d s d' s' [<-|Hd] [<-|Hd'] He He';
        try (destruct (Hnot _ He)); try (destruct (Hnot _ He')).
      apply (H3 d s d' s'); assumption.
  - destruct Hinv as (Hwf & Hfree & Hin).
    pose proof Hex as (Horx & Hstx & Hsx & _).
    pose proof (deletableSet_within adjacencyList n graph_wf graph_cubic x sx
                  Horx Hsx) as Hwithin.
    pose proof (deletableSet_not_all adjacencyList n graph_wf graph_cubic
                  n_pos x sx Horx Hstx Hsx) as Hnotall.
    destruct (getIntermediateFrankNumber_cover_free _ _ _ _ _ _ Hwf Hfree Hin
                Hwithin Hnotall Ecall) as (Hfree' & Hin' & Htested).
    destruct (getIntermediateFrankNumber_dominates _ _ _ _ _ _ Hwf Ecall)
      as [Hdx Hkeep].
    destruct (getIntermediateFrankNumber_shape c n (gsPool st) sx Hwf)
      as (r0 & c0 & p0 & E0 & _ & Hwf').
    rewrite Ecall in E0. injection E0 as _ _ <-.
    destruct (IH Hrest_or st1 st' (conj Hwf' (conj Hfree' Hin')) Hrest)
      as (H1 & H2 & H3).
    assert (Hhead : forall s0, dominated (gsPool st) s0 ->
              union s0 sx <> allEdges).
    { intros s0 (j & Hj & Hsj) Hcover.
      apply (Htested j Hj). rewrite union_comm.
      apply (union_cover _ s0 sx _ Hsj (Hin j Hj) Hwithin Hcover). }
    assert (Hsame : forall s, examinedSet x s -> s = sx).
    { intros s (_ & _ & Hs & _).
      apply (isDeletableSet_unique _ _ _ _ Hs Hsx). }
    split; [intros s Hs; apply H1, Hkeep, Hs|]. split.
    + intros s0 d s Hs0 [<-|Hd] Hd'.
      * rewrite (Hsame s Hd'). apply Hhead, Hs0.
      * apply (H2 s0 d s); [apply Hkeep, Hs0|exact Hd|exact Hd'].
    + intros d s d' s' [<-|Hd] [<-|Hd'] He He'.
      * rewrite (Hsame s He), (Hsame s' He'), union_diag. exact Hnotall.
      * rewrite (Hsame s He). apply (H2 sx d' s'); assumption.
      * rewrite (Hsame s' He'), union_comm. apply (H2 sx d s); assumption.
      * apply (H3 d s d' s'); assumption.
Qed.

End PoolComplete.

Lemma run_of_findFrankNumber (adjacencyList : list bitset) (n : Z)
    (opts : options) (numberOf : counters) (r : Z) (opts' : options)
    (numberOf' : counters) :
  wfGraph adjacencyList n ->
  findFrankNumber adjacencyList n opts numberOf = Ret (r, opts', numberOf') ->
  exists st',
    processOrientations
      (processOrientation adjacencyList opts n
         (numberEdges adjacencyList n (newMatrix n)))
      (leafOrientations (edgeList adjacencyList n) (emptyGraph n))
      (mkGenState numberOf (initArray (sizeOfArray opts)) (emptyGraph n))
    = Ret (r, st').
Proof.
  intros Hg E. unfold findFrankNumber in E. cbv zeta in E.
  rewrite (generateAllOrientations_leaves adjacencyList opts n
             (numberEdges adjacencyList n (newMatrix n))
             (mkGenState numberOf (initArray (sizeOfArray opts))
                (emptyGraph n)) Hg eq_refl) in E.
  unfold runLeaves in E.
  destruct (processOrientations _ _ _) as [| |[r0 st']];
    cbn [bind fst snd] in E; try discriminate.
  exists st'. f_equal. f_equal.
  destruct (bruteForceFlag opts); injection E as E _ _; exact E.
Qed.

(** With the solver: a strongly connected orientation and an orientation
    without a vertex of in- or out-degree three whose sets of deletable
    edges are all the edges make the exact procedure return 2. *)
Lemma solver_mode_complete (adjacencyList : list bitset) (n : Z)
    (opts : options) (numberOf : counters) (D1 D2 : diGraph)
    (S1 S2 : bitset) :
  wfGraph adjacencyList n -> cubic adjacencyList n -> 0 < n ->
  0 < sizeOfArray opts -> singleGraphFlag opts = false ->
  bruteForceFlag opts = false ->
  orientationOf adjacencyList n D1 -> stronglyConnected D1 ->
  isDeletableSet D1 (numberEdges adjacencyList n (newMatrix n)) S1 ->
  orientationOf adjacencyList n D2 -> noThirdArc D2 ->
  isDeletableSet D2 (numberEdges adjacencyList n (newMatrix n)) S2 ->
  union S1 S2 = complement EMPTY (3 * n ÷ 2) ->
  exists opts' numberOf',
    findFrankNumber adjacencyList n opts numberOf = Ret (2, opts', numberOf').
Proof.
  intros Hg Hcubic Hpos Hsize Hall Hbrute HD1 Hst1 HS1 HD2 Hdeg2 HS2 Hunion.
  destruct (findFrankNumber_returns adjacencyList n opts Hg Hcubic Hpos
              numberOf Hsize) as (r & opts' & numberOf' & E).
  destruct (proj1 (findFrankNumber_values _ _ _ _ _ _ _ E)) as [-> | ->];
    [exfalso|exists opts', numberOf'; exact E].
  destruct (leaf_of_strong_orientation adjacencyList n Hg Hcubic D1 S1 HD1
              Hst1 HS1) as (d1 & Hd1 & Hor1 & Hc1 & Hs1).
  assert (Hp1 : hasVertexWithoutDeletableEdge adjacencyList n S1
                  (numberEdges adjacencyList n (newMatrix n)) = false).
  { apply (covered_vertices_pass adjacencyList n Hg Hcubic S1 S2);
      [|exact Hunion].
    apply (noThirdArc_leaves_edge adjacencyList n Hg Hcubic D2 S2);
      assumption. }
  destruct (run_of_findFrankNumber _ _ _ _ _ _ _ Hg E) as (st' & Erun).
  apply (processOrientations_hits _ _ d1 Hd1) in Erun; [congruence|].
  intros st r st1 Hleaf.
  unfold processOrientation in Hleaf. rewrite Hall in Hleaf.
  cbn [andb] in Hleaf.
  cbn [withOrientation gsNumberOf gsPool gsOrientation] in Hleaf.
  rewrite (examineOrientation_examined adjacencyList n Hpos opts
             (mkGenState
                (set_totalOrientationsGenerated (gsNumberOf st)
                   (ull (totalOrientationsGenerated (gsNumberOf st) + 1)))
                (gsPool st) d1)
             S1 Hor1 Hc1 Hs1 Hp1) in Hleaf.
  cbv zeta in Hleaf. rewrite Hbrute in Hleaf. cbn [negb] in Hleaf.
  rewrite (solver_finds_complement adjacencyList n Hg Hcubic Hpos d1 D2
             S1 S2 Hor1 Hc1 Hs1 HD2 Hdeg2 HS2 Hunion) in Hleaf.
  cbn [bind] in Hleaf. injection Hleaf as <- _. discriminate.
Qed.

(** With the pool: two strongly connected orientations whose sets of
    deletable edges are all the edges make the exact procedure return 2. *)
Lemma pool_mode_complete (adjacencyList : list bitset) (n : Z)
    (opts : options) (numberOf : counters) (D1 D2 : diGraph)
    (S1 S2 : bitset) :
  wfGraph adjacencyList n -> cubic adjacencyList n -> 0 < n ->
  0 < sizeOfArray opts -> singleGraphFlag opts = false ->
  bruteForceFlag opts = true ->
  orientationOf adjacencyList n D1 -> stronglyConnected D1 ->
  isDeletableSet D1 (numberEdges adjacencyList n (newMatrix n)) S1 ->
  orientationOf adjacencyList n D2 -> stronglyConnected D2 ->
  isDeletableSet D2 (numberEdges adjacencyList n (newMatrix n)) S2 ->
  union S1 S2 = complement EMPTY (3 * n ÷ 2) ->
  exists opts' numberOf',
    findFrankNumber adjacencyList n opts numberOf = Ret (2, opts', numberOf').
Proof.
  intros Hg Hcubic Hpos Hsize Hall Hbrute HD1 Hst1 HS1 HD2 Hst2 HS2 Hunion.
  destruct (findFrankNumber_returns adjacencyList n opts Hg Hcubic Hpos
              numberOf Hsize) as (r & opts' & numberOf' & E).
  destruct (proj1 (findFrankNumber_values _ _ _ _ _ _ _ E)) as [-> | ->];
    [exfalso|exists opts', numberOf'; exact E].
  destruct (leaf_of_strong_orientation adjacencyList n Hg Hcubic D1 S1 HD1
              Hst1 HS1) as (d1 & Hd1 & Hor1 & Hc1 & Hs1).
  destruct (leaf_of_strong_orientation adjacencyList n Hg Hcubic D2 S2 HD2
              Hst2 HS2) as (d2 & Hd2 & Hor2 & Hc2 & Hs2).
  assert (Hp1 : hasVertexWithoutDeletableEdge adjacencyList n S1
                  (numberEdges adjacencyList n (newMatrix n)) = false).
  { apply (covered_vertices_pass adjacencyList n Hg Hcubic S1 S2);
      [|exact Hunion].
    apply (deletable_set_leaves_edge adjacencyList n Hg Hcubic D2 S2);
      assumption. }
  assert (Hp2 : hasVertexWithoutDeletableEdge adjacencyList n S2
                  (numberEdges adjacencyList n (newMatrix n)) = false).
  { apply (covered_vertices_pass adjacencyList n Hg Hcubic S2 S1);
      [|rewrite union_comm; exact Hunion].
    apply (deletable_set_leaves_edge adjacencyList n Hg Hcubic D1 S1);
      assumption. }
  destruct (run_of_findFrankNumber _ _ _ _ _ _ _ Hg E) as (st' & Erun).
  assert (Hinv0 : poolWellFormed (initArray (sizeOfArray opts))
                  /\ coverFree (complement EMPTY (3 * n ÷ 2))
                       (initArray (sizeOfArray opts))
                  /\ cellsWithin (complement EMPTY (3 * n ÷ 2))
                       (initArray (sizeOfArray opts))).
  { split; [|split].
    - unfold poolWellFormed, initArray. cbn [array used size_].
      rewrite length_replicate. lia.
    - intros i j Hi. cbn [initArray used] in Hi. lia.
    - intros i Hi. cbn [initArray used] in Hi. lia. }
  destruct (processOrientations_cover_free adjacencyList n opts Hg Hcubic
              Hpos Hall _ Hbrute
              (fun d Hd => leafOrientations_orientationOf adjacencyList n d
                             Hg Hd)
              (mkGenState numberOf (initArray (sizeOfArray opts))
                 (emptyGraph n)) st' Hinv0 Erun) as (_ & _ & Hpairs).
  apply (Hpairs d1 S1 d2 S2 Hd1 Hd2); [| |exact Hunion];
    (split; [assumption|]; split; [assumption|]; split; assumption).
Qed.

(** Two strongly connected orientations whose sets of deletable edges are
    all the edges make the exact procedure return 2. *)
Lemma findFrankNumber_complete (adjacencyList : list bitset) (n : Z)
    (opts : options) (numberOf : counters) (D1 D2 : diGraph)
    (S1 S2 : bitset) :
  wfGraph adjacencyList n -> cubic adjacencyList n -> 0 < n ->
  0 < sizeOfArray opts -> singleGraphFlag opts = false ->
  orientationOf adjacencyList n D1 -> stronglyConnected D1 ->
  isDeletableSet D1 (numberEdges adjacencyList n (newMatrix n)) S1 ->
  orientationOf adjacencyList n D2 -> stronglyConnected D2 ->
  isDeletableSet D2 (numberEdges adjacencyList n (newMatrix n)) S2 ->
  union S1 S2 = complement EMPTY (3 * n ÷ 2) ->
  exists opts' numberOf',
    findFrankNumber adjacencyList n opts numberOf = Ret (2, opts', numberOf').
Proof.
  intros Hg Hcubic Hpos Hsize Hall HD1 Hst1 HS1 HD2 Hst2 HS2 Hunion.
  destruct (bruteForceFlag opts) eqn:Hbrute.
  - apply (pool_mode_complete adjacencyList n opts numberOf D1 D2 S1 S2);
      assumption.
  - apply (solver_mode_complete adjacencyList n opts numberOf D1 D2 S1 S2);
      try assumption.
    apply (strong_noThirdArc adjacencyList n Hg Hcubic D2); assumption.
Qed.

(** X20. The exact procedure finds every complementary pair. On a cubic
    graph, without [-s], when two strongly connected orientations of the
    graph have sets of deletable edges that together are all the edges, the
    exact procedure returns 2, with the solver as with the pool of [-b]. *)
Theorem exact_procedure_complete (adjacencyList : list bitset) (n : Z)
    (opts : options) (numberOf : counters) (D1 D2 : diGraph)
    (S1 S2 : bitset) :
  wfGraph adjacencyList n -> cubic adjacencyList n -> 0 < n ->
  0 < sizeOfArray opts -> singleGraphFlag opts = false ->
  orientationOf adjacencyList n D1 -> stronglyConnected D1 ->
  isDeletableSet D1 (numberEdges adjacencyList n (newMatrix n)) S1 ->
  orientationOf adjacencyList n D2 -> stronglyConnected D2 ->
  isDeletableSet D2 (numberEdges adjacencyList n (newMatrix n)) S2 ->
  union S1 S2 = complement EMPTY (3 * n ÷ 2) ->
  exists opts' numberOf',
    findFrankNumber adjacencyList n opts numberOf = Ret (2, opts', numberOf').
Proof. apply findFrankNumber_complete. Qed.

Lemma exact_procedure_complete_witness :
  exists opts' numberOf',
    findFrankNumber K4 4 defaultOptions zeroCounters
    = Ret (2, opts', numberOf').
Proof.
  assert (Hg : wfGraph K4 4) by (apply checkGraph_sound; vm_compute; reflexivity).
  assert (HD1 : orientationOf K4 4 K4_cyclic)
    by (apply checkOrientation_sound; [exact Hg | vm_compute; reflexivity]).
  assert (HD2 : orientationOf K4 4 K4_complementary)
    by (apply checkOrientation_sound; [exact Hg | vm_compute; reflexivity]).
  apply (exact_procedure_complete K4 4 defaultOptions zeroCounters K4_cyclic
           K4_complementary 50 13).
  - exact Hg.
  - apply checkCubic_sound. vm_compute. reflexivity.
  - lia.
  - reflexivity.
  - reflexivity.
  - exact HD1.
  - apply checkStronglyConnected_sound; [apply HD1 | vm_compute; reflexivity].
  - destruct (getDeletableEdges_spec K4_cyclic (numberEdges K4 4 (newMatrix 4))
                (proj1 (proj2 HD1))) as (s & Hrun & Hs).
    assert (Hc : getDeletableEdges K4_cyclic (numberOfVertices K4_cyclic)
                   (numberEdges K4 4 (newMatrix 4))
                 = Ret (50, K4_cyclic))
      by (vm_compute; reflexivity).
    rewrite Hc in Hrun. injection Hrun as <-. exact Hs.
  - exact HD2.
  - apply checkStronglyConnected_sound; [apply HD2 | vm_compute; reflexivity].
  - destruct (getDeletableEdges_spec K4_complementary
                (numberEdges K4 4 (newMatrix 4)) (proj1 (proj2 HD2)))
      as (s & Hrun & Hs).
    assert (Hc : getDeletableEdges K4_complementary
                   (numberOfVertices K4_complementary)
                   (numberEdges K4 4 (newMatrix 4))
                 = Ret (13, K4_complementary))
      by (vm_compute; reflexivity).
    rewrite Hc in Hrun. injection Hrun as <-. exact Hs.
  - vm_compute. reflexivity.
Defined.

(** ** The filter in exact mode *)

(** X21. The driver in exact mode ([-e], without [-2] and [-s]) on a line
    that holds a cubic graph within the bounds: the line is processed, the
    result is 0 or 2, and the line is written to stdout exactly when the
    result is 0 (with [-c]: exactly when it is 2). If the result is 0, no
    two strongly connected orientations of the graph have sets of deletable
    edges that together are all the edges; if it is 2, two orientations of
    the graph have such sets. *)
Theorem exact_mode_filter (MAXVERTICES : Z)
    (configurationTest :
       list bitset -> Z -> options -> counters -> list Z ->
       result (bool * counters))
    (st : driverState) (graphString : cstring) (n : Z)
    (adjacencyList : list bitset) :
  lineIsRead st = true ->
  oddCyclesHeuristicFlag (dsOptions st) = false ->
  exhaustiveCheckFlag (dsOptions st) = true ->
  singleGraphFlag (dsOptions st) = false ->
  0 < sizeOfArray (dsOptions st) ->
  getNumberOfVertices graphString = ([], n) ->
  0 < n -> n <= MAXVERTICES -> n * 3 ÷ 2 <= MAXVERTICES ->
  loadGraph MAXVERTICES graphString n = (0, adjacencyList) ->
  wfGraph adjacencyList n -> cubic adjacencyList n ->
  exists frankNumber st',
    processLine MAXVERTICES configurationTest st graphString
    = Ret (Processed adjacencyList frankNumber, st')
    /\ (frankNumber = 0 \/ frankNumber = 2)
    /\ stdout st'
       = stdout st
         ++ (if emitsGraph (dsOptions st) frankNumber
             then [graphString] else [])
    /\ (frankNumber = 0 ->
        ~ coveredByStrongPair adjacencyList n
            (numberEdges adjacencyList n (newMatrix n)))
    /\ (frankNumber = 2 ->
        coveredByTwo adjacencyList n
          (numberEdges adjacencyList n (newMatrix n))).
Proof.
  intros Hread Hheur Hexact Hall Hsize Hnum Hpos Hmax Hmax' Hload Hg Hcubic.
  unfold lineIsRead in Hread. apply andb_true_iff in Hread.
  destruct Hread as [H1 H2]. apply negb_true_iff in H1, H2.
  set (opts := dsOptions st) in *.
  destruct (findFrankNumber_returns adjacencyList n opts Hg Hcubic Hpos
              (freshCounters (dsNumberOf st)) Hsize)
    as (f & opts' & numberOf' & E).
  destruct (findFrankNumber_sound adjacencyList opts n Hg Hpos _ _ _ _ E)
    as [Hvalues Hsound].
  destruct (findFrankNumber_values _ _ _ _ _ _ _ E) as [_ Hflag].
  assert (Hrun : computeFrankNumber configurationTest adjacencyList n opts
                   (freshCounters (dsNumberOf st))
                 = Ret (f, opts', numberOf')).
  { unfold computeFrankNumber. rewrite Hheur. cbn [bind].
    rewrite Hexact. cbn [andb Z.eqb]. exact E. }
  assert (Hline : exists st',
            processLine MAXVERTICES configurationTest st graphString
            = Ret (Processed adjacencyList f, st')
            /\ stdout st'
               = stdout st
                 ++ (if emitsGraph opts' f then [graphString] else [])).
  { unfold processLine. fold opts. fold (freshCounters (dsNumberOf st)).
    rewrite H1, H2, Hnum.
    replace (n =? -1) with false by (symmetry; apply Z.eqb_neq; lia).
    replace (MAXVERTICES <? n) with false by (symmetry; apply Z.ltb_ge; lia).
    cbn [orb].
    replace (MAXVERTICES <? n * 3 ÷ 2) with false
      by (symmetry; apply Z.ltb_ge; lia).
    rewrite Hload. cbv beta iota. cbn [Z.eqb]. rewrite Hrun. cbn [bind].
    rewrite app_nil_r.
    destruct (emitsGraph opts' f); eexists; (split; [reflexivity|]);
      cbn [stdout]; rewrite ?app_nil_r; reflexivity. }
  destruct Hline as (st' & Hline & Hout).
  exists f, st'. split; [exact Hline|]. split; [exact Hvalues|]. split.
  - rewrite Hout. unfold emitsGraph. rewrite Hflag. reflexivity.
  - split; [|exact Hsound].
    intros -> (D1 & D2 & S1 & S2 & HD1 & Hst1 & HS1 & HD2 & Hst2 & HS2 & HU).
    destruct (findFrankNumber_complete adjacencyList n opts
                (freshCounters (dsNumberOf st)) D1 D2 S1 S2 Hg Hcubic Hpos
                Hsize Hall HD1 Hst1 HS1 HD2 Hst2 HS2 HU)
      as (o & c & E').
    rewrite E in E'. discriminate.
Qed.

Lemma exact_mode_filter_witness :
  exists frankNumber st',
    processLine 64 rejectConfiguration
      (startState
         (mkOptions false false false true false false false false 1 0 100000))
      [67; 126; 10]
    = Ret (Processed K4 frankNumber, st')
    /\ (frankNumber = 0 \/ frankNumber = 2)
    /\ stdout st'
       = stdout
           (startState
              (mkOptions false false false true false false false false 1 0
                 100000))
         ++ (if emitsGraph
                  (dsOptions
                     (startState
                        (mkOptions false false false true false false false
                           false 1 0 100000)))
                  frankNumber
             then [[67; 126; 10]] else [])
    /\ (frankNumber = 0 ->
        ~ coveredByStrongPair K4 4 (numberEdges K4 4 (newMatrix 4)))
    /\ (frankNumber = 2 ->
        coveredByTwo K4 4 (numberEdges K4 4 (newMatrix 4))).
Proof.
  apply (exact_mode_filter 64 rejectConfiguration
           (startState
              (mkOptions false false false true false false false false 1 0
                 100000))
           [67; 126; 10] 4 K4).
  - reflexivity.
  - reflexivity.
  - reflexivity.
  - reflexivity.
  - reflexivity.
  - reflexivity.
  - lia.
  - lia.
  - vm_compute. discriminate.
  - vm_compute. reflexivity.
  - apply checkGraph_sound. vm_compute. reflexivity.
  - apply checkCubic_sound. vm_compute. reflexivity.
Defined.

(** ** What the two modes of the exact procedure decide *)

Lemma processOrientations_result (leaf : genState -> result (Z * genState))
    (J : genState -> Prop) (C : Prop) (leaves : list diGraph) :
  (forall st d r st',
     In d leaves -> J st -> leaf (withOrientation st d) = Ret (r, st') ->
     J st' /\ (r <> 0 -> C)) ->
  forall st r st',
    J st -> processOrientations leaf leaves st = Ret (r, st') -> r <> 0 -> C.
Proof.
  induction leaves as [|x rest IH]; intros Hleaf st r st' HJ;
    cbn [processOrientations].
  { intros H Hr. injection H as <- _. contradiction. }
  destruct (leaf (withOrientation st x)) as [| |[r1 st1]] eqn:E;
    cbn [bind]; try discriminate.
  destruct (Hleaf st x r1 st1 (or_introl eq_refl) HJ E) as [HJ1 HC].
  destruct (Z.eqb_spec r1 0) as [->|Hr1]; cbn [negb].
  - apply IH; [|exact HJ1].
    intros st0 d r0 st0' Hd. apply Hleaf. right. exact Hd.
  - intros H _. apply HC. exact Hr1.
Qed.

Section ModeSound.

Variables (adjacencyList : list bitset) (n : Z) (opts : options).
Hypothesis graph_wf : wfGraph adjacencyList n.
Hypothesis graph_cubic : cubic adjacencyList n.
Hypothesis n_pos : 0 < n.

Let edgeNumbering := numberEdges adjacencyList n (newMatrix n).

(** The sets of deletable edges of the strongly connected orientations. *)
Let strongSet (s : bitset) : Prop :=
  exists o, orientationOf adjacencyList n o /\ stronglyConnected o
            /\ isDeletableSet o edgeNumbering s.

Lemma pool_leaf_sound (st : genState) (d : diGraph) (r : Z)
    (st' : genState) :
  bruteForceFlag opts = true ->
  orientationOf adjacencyList n d ->
  cellsSatisfy strongSet (array (gsPool st)) ->
  processOrientation adjacencyList opts n edgeNumbering (withOrientation st d)
  = Ret (r, st') ->
  cellsSatisfy strongSet (array (gsPool st'))
  /\ (r <> 0 -> coveredByStrongPair adjacencyList n edgeNumbering).
Proof.
  intros Hbrute Hor Hpool. pose proof Hor as (Hn & Hwf & _).
  unfold processOrientation.
  cbn [withOrientation gsNumberOf gsPool gsOrientation].
  destruct (_ && _).
  { intros H. injection H as <- <-. split; [exact Hpool|]. congruence. }
  unfold examineOrientation. cbn [gsNumberOf gsPool gsOrientation].
  destruct (isStronglyConnected_decides d Hwf
              ltac:(rewrite Hn; exact n_pos)) as (b & Eb & Hb).
  rewrite Eb. cbn [bind]. destruct b; cbn [negb].
  2:{ intros H. injection H as <- <-. split; [exact Hpool|]. congruence. }
  destruct (getDeletableEdges_spec d edgeNumbering Hwf) as (T & Es & HT).
  rewrite Hn in Es. rewrite Es. cbn [bind].
  assert (HPT : strongSet T).
  { exists d. split; [exact Hor|]. split; [apply Hb; reflexivity|exact HT]. }
  destruct (hasVertexWithoutDeletableEdge _ _ _ _).
  { intros H. injection H as <- <-. split; [exact Hpool|]. congruence. }
  rewrite Hbrute. cbn [negb gsPool].
  destruct (getIntermediateFrankNumber _ n _ T) as [| |[[r0 c0] p0]] eqn:E;
    cbn [bind]; try discriminate.
  intros H. injection H as <- <-. cbn [gsPool].
  destruct (getIntermediateFrankNumber_sound strongSet _ _ _ _ _ _ _ HPT Hpool
              E) as (Hp0 & Hr0 & Htwo).
  split; [exact Hp0|]. intros Hr.
  destruct Hr0 as [->| ->]; [contradiction|].
  destruct (Htwo eq_refl) as (s & (o & Ho & Hso & Hs) & Hu).
  exists d, o, T, s.
  split; [exact Hor|]. split; [apply Hb; reflexivity|]. split; [exact HT|].
  split; [exact Ho|]. split; [exact Hso|]. split; [exact Hs|exact Hu].
Qed.

Lemma solver_leaf_sound (st : genState) (d : diGraph) (r : Z)
    (st' : genState) :
  bruteForceFlag opts = false ->
  orientationOf adjacencyList n d ->
  processOrientation adjacencyList opts n edgeNumbering (withOrientation st d)
  = Ret (r, st') ->
  r <> 0 -> coveredBySolverPair adjacencyList n edgeNumbering.
Proof.
  intros Hbrute Hor. pose proof Hor as (Hn & Hwf & _).
  unfold processOrientation.
  cbn [withOrientation gsNumberOf gsPool gsOrientation].
  destruct (_ && _).
  { intros H. injection H as <- _. congruence. }
  unfold examineOrientation. cbn [gsNumberOf gsPool gsOrientation].
  destruct (isStronglyConnected_decides d Hwf
              ltac:(rewrite Hn; exact n_pos)) as (b & Eb & Hb).
  rewrite Eb. cbn [bind]. destruct b; cbn [negb].
  2:{ intros H. injection H as <- _. congruence. }
  destruct (getDeletableEdges_spec d edgeNumbering Hwf) as (T & Es & HT).
  rewrite Hn in Es. rewrite Es. cbn [bind].
  destruct (hasVertexWithoutDeletableEdge _ _ _ _).
  { intros H. injection H as <- _. congruence. }
  rewrite Hbrute. cbn [negb].
  destruct (hasComplementaryOrientation_decides adjacencyList n T
              edgeNumbering (emptyGraph n) graph_wf graph_cubic
              (proj2 (numberEdges_invariant adjacencyList n)) n_pos)
    as (b & Eb' & Hfound & _).
  rewrite Eb'. cbn [bind]. destruct b.
  2:{ intros H. injection H as <- _. congruence. }
  intros _ _. destruct (Hfound eq_refl) as (o' & Ho' & Hdeg & T' & HT' & Hu).
  exists d, o', T, T'.
  split; [exact Hor|]. split; [apply Hb; reflexivity|]. split; [exact HT|].
  split; [exact Ho'|]. split; [exact Hdeg|]. split; [exact HT'|exact Hu].
Qed.

End ModeSound.

Lemma cellsSatisfy_empty_pool (P : bitset -> Prop) (size : Z) :
  cellsSatisfy P (array (initArray size)).
Proof.
  intros i Hi. exfalso. apply Hi. unfold initArray. cbn [array].
  apply aget_replicate.
Qed.

(** X22. With the pool of [-b] the exact procedure decides whether two
    strongly connected orientations cover the graph. On a cubic graph,
    without [-s], [findFrankNumber] under [-b] returns 2 if two strongly
    connected orientations of the graph have sets of deletable edges that
    together are all the edges, and 0 if there are no two such
    orientations. *)
Theorem pool_mode_decides (adjacencyList : list bitset) (n : Z)
    (opts : options) (numberOf : counters) :
  wfGraph adjacencyList n -> cubic adjacencyList n -> 0 < n ->
  0 < sizeOfArray opts -> singleGraphFlag opts = false ->
  bruteForceFlag opts = true ->
  exists r opts' numberOf',
    findFrankNumber adjacencyList n opts numberOf = Ret (r, opts', numberOf')
    /\ (r = 0 \/ r = 2)
    /\ (r = 2 <->
        coveredByStrongPair adjacencyList n
          (numberEdges adjacencyList n (newMatrix n))).
Proof.
  intros Hg Hcubic Hpos Hsize Hall Hbrute.
  destruct (findFrankNumber_returns adjacencyList n opts Hg Hcubic Hpos
              numberOf Hsize) as (r & opts' & numberOf' & E).
  exists r, opts', numberOf'. split; [exact E|].
  split; [apply (findFrankNumber_values _ _ _ _ _ _ _ E)|]. split.
  - intros ->.
    destruct (run_of_findFrankNumber _ _ _ _ _ _ _ Hg E) as (st' & Erun).
    apply (processOrientations_result _
             (fun st =>
                cellsSatisfy
                  (fun s =>
                     exists o,
                       orientationOf adjacencyList n o /\ stronglyConnected o
                       /\ isDeletableSet o
                            (numberEdges adjacencyList n (newMatrix n)) s)
                  (array (gsPool st)))
             _ _
             (fun st d r st1 Hd HJ Hleaf =>
                pool_leaf_sound adjacencyList n opts Hpos st d r st1 Hbrute
                  (leafOrientations_orientationOf adjacencyList n d Hg Hd)
                  HJ Hleaf)
             (mkGenState numberOf (initArray (sizeOfArray opts))
                (emptyGraph n)) 2 st'
             (cellsSatisfy_empty_pool _ _) Erun).
    discriminate.
  - intros (D1 & D2 & S1 & S2 & HD1 & Hst1 & HS1 & HD2 & Hst2 & HS2 & HU).
    destruct (pool_mode_complete adjacencyList n opts numberOf D1 D2 S1 S2
                Hg Hcubic Hpos Hsize Hall Hbrute HD1 Hst1 HS1 HD2 Hst2 HS2 HU)
      as (o & c & E').
    rewrite E in E'. injection E' as -> _ _. reflexivity.
Qed.

Lemma pool_mode_decides_witness :
  exists r opts' numberOf',
    findFrankNumber K4 4
      (mkOptions true false false true true false false false 1 0 16)
      zeroCounters
    = Ret (r, opts', numberOf')
    /\ (r = 0 \/ r = 2)
    /\ (r = 2 <->
        coveredByStrongPair K4 4 (numberEdges K4 4 (newMatrix 4))).
Proof.
  apply (pool_mode_decides K4 4
           (mkOptions true false false true true false false false 1 0 16)
           zeroCounters).
  - apply checkGraph_sound. vm_compute. reflexivity.
  - apply checkCubic_sound. vm_compute. reflexivity.
  - lia.
  - reflexivity.
  - reflexivity.
  - reflexivity.
Defined.

(** X23. With the solver (the default) the exact procedure decides whether
    a strongly connected orientation is complemented by an orientation
    without a vertex of in- or out-degree three. On a cubic graph, without
    [-s] and [-b], [findFrankNumber] returns 2 if the graph has a strongly
    connected orientation and an orientation in which no vertex has three
    outgoing or three incoming arcs whose sets of deletable edges together
    are all the edges, and 0 otherwise; the second orientation does not have
    to be strongly connected. *)
Theorem solver_mode_decides (adjacencyList : list bitset) (n : Z)
    (opts : options) (numberOf : counters) :
  wfGraph adjacencyList n -> cubic adjacencyList n -> 0 < n ->
  0 < sizeOfArray opts -> singleGraphFlag opts = false ->
  bruteForceFlag opts = false ->
  exists r opts' numberOf',
    findFrankNumber adjacencyList n opts numberOf = Ret (r, opts', numberOf')
    /\ (r = 0 \/ r = 2)
    /\ (r = 2 <->
        coveredBySolverPair adjacencyList n
          (numberEdges adjacencyList n (newMatrix n))).
Proof.
  intros Hg Hcubic Hpos Hsize Hall Hbrute.
  destruct (findFrankNumber_returns adjacencyList n opts Hg Hcubic Hpos
              numberOf Hsize) as (r & opts' & numberOf' & E).
  exists r, opts', numberOf'. split; [exact E|].
  split; [apply (findFrankNumber_values _ _ _ _ _ _ _ E)|]. split.
  - intros ->.
    destruct (run_of_findFrankNumber _ _ _ _ _ _ _ Hg E) as (st' & Erun).
    apply (processOrientations_result _ (fun _ => True) _ _
             (fun st d r st1 Hd HJ Hleaf =>
                conj I
                  (solver_leaf_sound adjacencyList n opts Hg Hcubic Hpos st d
                     r st1 Hbrute
                     (leafOrientations_orientationOf adjacencyList n d Hg Hd)
                     Hleaf))
             (mkGenState numberOf (initArray (sizeOfArray opts))
                (emptyGraph n)) 2 st' I Erun).
    discriminate.
  - intros (D1 & D2 & S1 & S2 & HD1 & Hst1 & HS1 & HD2 & Hdeg2 & HS2 & HU).
    destruct (solver_mode_complete adjacencyList n opts numberOf D1 D2 S1 S2
                Hg Hcubic Hpos Hsize Hall Hbrute HD1 Hst1 HS1 HD2 Hdeg2 HS2
                HU) as (o & c & E').
    rewrite E in E'. injection E' as -> _ _. reflexivity.
Qed.

Lemma solver_mode_decides_witness :
  exists r opts' numberOf',
    findFrankNumber K4 4 defaultOptions zeroCounters
    = Ret (r, opts', numberOf')
    /\ (r = 0 \/ r = 2)
    /\ (r = 2 <->
        coveredBySolverPair K4 4 (numberEdges K4 4 (newMatrix 4))).
Proof.
  apply (solver_mode_decides K4 4 defaultOptions zeroCounters).
  - apply checkGraph_sound. vm_compute. reflexivity.
  - apply checkCubic_sound. vm_compute. reflexivity.
  - lia.
  - reflexivity.
  - reflexivity.
  - reflexivity.
Defined.

(** ** The digraph6 reader *)

Lemma decodedArcs_skip (n : Z) (body : cstring) (q q' : Z)
    (adj : list bitset) :
  decodedArcs n body q adj -> q <= q' ->
  (forall p, q <= p < q' -> graph6Bit body p = false) ->
  decodedArcs n body q' adj.
Proof.
  intros (Hlen & Hnn & Hadj) Hq Hzero.
  split; [exact Hlen|]. split; [exact Hnn|].
  intros u v. rewrite Hadj. split; intros (p & Hp & Hbit & He).
  - exists p. split; [lia|]. split; assumption.
  - exists p. split; [|split; assumption].
    destruct (Z_lt_le_dec p q); [lia|].
    rewrite Hzero in Hbit by lia. discriminate.
Qed.

(** The body of the inner loop of [loadDiGraph] for a set bit: the arc of
    the bit is written. *)
Lemma loadDiBit_spec (n : Z) (body : cstring) (offset i : Z)
    (adj : list bitset) :
  0 < n ->
  decodedArcs n body (5 - i + offset * 6) adj ->
  graph6Bit body (5 - i + offset * 6) = true ->
  5 - i + offset * 6 < n * n ->
  decodedArcs n body (5 - i + offset * 6 + 1) (loadDiBit n offset i adj).
Proof.
  intros Hn (Hlen & Hnn & Hadj) Hbit Hin.
  unfold loadDiBit. set (p := 5 - i + offset * 6) in *.
  assert (Hpnn : 0 <= p).
  { unfold graph6Bit in Hbit. apply andb_true_iff in Hbit.
    destruct Hbit as [Hbit _]. apply andb_true_iff in Hbit.
    destruct Hbit as [Hbit _]. apply Z.leb_le in Hbit. exact Hbit. }
  cbv zeta. rewrite Z.quot_div_nonneg, Z.rem_mod_nonneg by lia.
  assert (Hu : 0 <= p / n < n).
  { split; [apply Z.div_pos; lia|apply Z.div_lt_upper_bound; lia]. }
  pose proof (Z.mod_pos_bound p n Hn) as Hv.
  split; [rewrite length_aset; exact Hlen|]. split.
  - intros v. destruct (aget_aset_cases EMPTY adj (p / n) v
                          (add (aget EMPTY adj (p / n)) (p mod n))) as [E|E];
      rewrite E; [apply add_nonneg|]; apply Hnn.
  - intros u v.
    assert (Hnew : contains
                     (aget EMPTY
                        (aset adj (p / n)
                           (add (aget EMPTY adj (p / n)) (p mod n))) u) v
                   = contains (aget EMPTY adj u) v
                     || ((u =? p / n) && (v =? p mod n))).
    { destruct (Z.eqb_spec u (p / n)) as [->|Hne].
      - rewrite aget_aset_eq by lia. rewrite contains_add by lia.
        reflexivity.
      - rewrite aget_aset_ne by congruence. rewrite orb_false_r.
        reflexivity. }
    rewrite Hnew, orb_true_iff, andb_true_iff, !Z.eqb_eq, Hadj. split.
    + intros [(p0 & Hp0 & Hb0 & He0)|[-> ->]].
      * exists p0. split; [lia|]. split; assumption.
      * exists p. split; [lia|]. split; [exact Hbit|]. split; reflexivity.
    + intros (p0 & Hp0 & Hb0 & -> & ->).
      destruct (Z.eq_dec p0 p) as [->|Hne]; [right; split; reflexivity|].
      left. exists p0. split; [lia|]. split; [exact Hb0|].
      split; reflexivity.
Qed.

(** The inner loop of [loadDiGraph]: the set bits of one character. *)
Lemma loadDiChar_spec (n : Z) (body : cstring) (offset : Z) :
  0 < n -> 0 <= offset < Z.of_nat (length body) ->
  (forall p, graph6Bit body p = true -> p < n * n) ->
  forall (fuel : nat) (i : Z) (adj : list bitset),
    -1 <= i <= 5 ->
    (0 <= i -> Z.testbit (charAt body offset - 63) i = true) ->
    i + 1 < Z.of_nat fuel ->
    decodedArcs n body (offset * 6 + 5 - i) adj ->
    decodedArcs n body (offset * 6 + 6)
      (loadDiChar fuel n (charAt body offset - 63) offset i adj).
Proof.
  intros Hn Ho Hin.
  induction fuel as [|f IH]; intros i adj Hi Hset Hfuel Hdec; [lia|].
  cbn [loadDiChar]. destruct (Z.eqb_spec i (-1)) as [->|Hne].
  { replace (offset * 6 + 6) with (offset * 6 + 5 - -1) by lia. exact Hdec. }
  assert (Hi0 : 0 <= i <= 5) by lia.
  assert (Hbit : graph6Bit body (5 - i + offset * 6) = true).
  { replace (5 - i + offset * 6) with (offset * 6 + 5 - i) by lia.
    rewrite graph6Bit_at by assumption. apply Hset. lia. }
  replace (offset * 6 + 5 - i) with (5 - i + offset * 6) in Hdec by lia.
  pose proof (loadDiBit_spec n body offset i adj Hn Hdec Hbit (Hin _ Hbit))
    as Hdec'.
  destruct (prev_spec (charAt body offset - 63) i ltac:(lia))
    as (Hr & Hrset & Hrzero).
  apply IH; [lia|exact Hrset|lia|].
  apply (decodedArcs_skip n body (5 - i + offset * 6 + 1));
    [exact Hdec'|lia|].
  intros p Hp.
  replace p with (offset * 6 + 5 - (offset * 6 + 5 - p)) by lia.
  rewrite graph6Bit_at by lia. apply Hrzero. lia.
Qed.

(** The outer loop of [loadDiGraph] over the characters before the
    newline. *)
Lemma loadDiChars_spec (n : Z) (body tail : cstring) :
  0 < n ->
  (forall p, graph6Bit body p = true -> p < n * n) ->
  forall (rest done : cstring) (finalChar : Z) (adj : list bitset),
    body = done ++ rest ->
    Forall (fun c => 63 <= c <= 126) rest ->
    finalChar <> 0 ->
    decodedArcs n body (6 * Z.of_nat (length done)) adj ->
    exists adj' finalChar',
      loadDiChars n (rest ++ 10 :: tail) (Z.of_nat (length done)) finalChar
        adj
      = (adj', finalChar')
      /\ finalChar' <> 0
      /\ decodedArcs n body (6 * Z.of_nat (length body)) adj'.
Proof.
  intros Hn Hin.
  induction rest as [|c rest IH]; intros done fc adj Hbody Hvalid Hfc Hdec.
  { exists adj, fc. cbn [app loadDiChars]. rewrite Z.eqb_refl.
    split; [reflexivity|]. split; [exact Hfc|].
    rewrite app_nil_r in Hbody. rewrite <- Hbody in Hdec. exact Hdec. }
  apply Forall_cons in Hvalid. destruct Hvalid as [Hc Hvalid].
  cbn [app loadDiChars].
  destruct (Z.eqb_spec c 10); [lia|]. destruct (Z.eqb_spec c 0); [lia|].
  assert (Hchar : charAt body (Z.of_nat (length done)) = c)
    by (rewrite Hbody; apply charAt_app).
  assert (Ho : 0 <= Z.of_nat (length done) < Z.of_nat (length body))
    by (rewrite Hbody, length_app; cbn [length]; lia).
  destruct (prev_spec (c - 63) 6 ltac:(lia)) as (Hr & Hrset & Hrzero).
  assert (Hdec1 : decodedArcs n body (Z.of_nat (length done) * 6 + 6)
            (loadDiChar 7 n (c - 63) (Z.of_nat (length done))
               (prev (c - 63) 6) adj)).
  { rewrite <- Hchar. apply loadDiChar_spec; try assumption.
    - rewrite Hchar. lia.
    - rewrite Hchar. exact Hrset.
    - rewrite Hchar. simpl. lia.
    - rewrite Hchar.
      apply (decodedArcs_skip n body (6 * Z.of_nat (length done)));
        [exact Hdec|lia|].
      intros p Hp.
      replace p with (Z.of_nat (length done) * 6 + 5
                      - (Z.of_nat (length done) * 6 + 5 - p)) by lia.
      rewrite graph6Bit_at by lia. rewrite Hchar. apply Hrzero. lia. }
  destruct (IH (done ++ [c]) c
              (loadDiChar 7 n (c - 63) (Z.of_nat (length done))
                 (prev (c - 63) 6) adj))
    as (adj' & fc' & E & Hfc' & Hdec').
  - rewrite Hbody, <- app_assoc. reflexivity.
  - exact Hvalid.
  - lia.
  - rewrite length_app. cbn [length].
    replace (6 * Z.of_nat (length done + 1))
      with (Z.of_nat (length done) * 6 + 6) by lia.
    exact Hdec1.
  - exists adj', fc'. rewrite length_app in E. cbn [length] in E.
    replace (Z.of_nat (length done + 1)) with (Z.of_nat (length done) + 1)
      in E by lia.
    split; [exact E|]. split; assumption.
Qed.

(** X24. [loadDiGraph] decodes the digraph6 data row by row. For a line
    made of ['&'], the size prefix, data characters between 63 and 126 and a
    newline, in which no bit is set beyond the [n * n] bits of the matrix, it
    returns 0 and an adjacency list with one cell per vertex in which [v] is
    an out-neighbour of [u] exactly when bit [u * n + v] of the data is
    set. *)
Theorem loadDiGraph_decodes (MAXVERTICES : Z) (prefix body tail : cstring)
    (n : Z) :
  0 < n -> n <= 62 \/ n <= MAXVERTICES ->
  Z.of_nat (length prefix)
  = 1 + (if charAt prefix 1 =? 62 then 12 else 0)
    + (if n <=? 62 then 1 else 4) ->
  Forall (fun c => 63 <= c <= 126) body ->
  (forall p, graph6Bit body p = true -> p < n * n) ->
  exists adjacencyList,
    loadDiGraph MAXVERTICES (prefix ++ body ++ 10 :: tail) n
    = (0, adjacencyList)
    /\ length adjacencyList = Z.to_nat n
    /\ forall u v, 0 <= u < n -> 0 <= v < n ->
         contains (aget EMPTY adjacencyList u) v
         = graph6Bit body (u * n + v).
Proof.
  intros Hn Hmax Hprefix Hvalid Hin.
  destruct (loadDiChars_spec n body tail Hn Hin body [] 10
              (replicate (Z.to_nat n) EMPTY))
    as (adj & fc' & E & Hfc & Hlen & Hnn & Hadj);
    [reflexivity|exact Hvalid|lia| |].
  { split; [apply length_replicate|]. split.
    - intros v. rewrite aget_replicate. unfold EMPTY. lia.
    - intros u v. rewrite aget_replicate, contains_EMPTY.
      split; [discriminate|]. intros (p & Hp & _). cbn [length] in Hp. lia. }
  cbn [length] in E. change (Z.of_nat 0) with 0 in E.
  exists adj. split; [|split; [exact Hlen|]].
  - assert (H1 : charAt (prefix ++ body ++ 10 :: tail) 1 = charAt prefix 1).
    { unfold charAt. apply aget_app_l.
      destruct (charAt prefix 1 =? 62), (n <=? 62); lia. }
    unfold loadDiGraph. cbv zeta. rewrite H1.
    assert (Hdrop : forall k, k = Z.of_nat (length prefix) ->
              drop (Z.to_nat k) (prefix ++ body ++ 10 :: tail)
              = body ++ 10 :: tail).
    { intros k ->. rewrite Nat2Z.id. apply drop_app_length. }
    destruct (Z.leb_spec n 62) as [Hsmall|Hbig].
    + rewrite Hdrop by (destruct (charAt prefix 1 =? 62); lia).
      rewrite E. destruct (Z.eqb_spec fc' 0); [contradiction|reflexivity].
    + destruct (Z.leb_spec n MAXVERTICES); [|lia].
      rewrite Hdrop by (destruct (charAt prefix 1 =? 62); lia).
      rewrite E. destruct (Z.eqb_spec fc' 0); [contradiction|reflexivity].
  - intros u v Hu Hv. apply eq_true_iff_eq. rewrite Hadj. split.
    + intros (p & Hp & Hbit & -> & ->).
      replace (p / n * n + p mod n) with p; [exact Hbit|].
      rewrite (Z.div_mod p n) at 1 by lia. lia.
    + intros Hbit. exists (u * n + v).
      assert (Hguard : 0 <= u * n + v < 6 * Z.of_nat (length body)).
      { unfold graph6Bit in Hbit. apply andb_true_iff in Hbit.
        destruct Hbit as [Hbit _]. apply andb_true_iff in Hbit.
        destruct Hbit as [H1 H2]. apply Z.leb_le in H1. apply Z.ltb_lt in H2.
        lia. }
      split; [exact Hguard|]. split; [exact Hbit|]. split.
      * apply (Z.div_unique_pos _ n u v); lia.
      * apply (Z.mod_unique_pos _ n u v); lia.
Qed.

Lemma loadDiGraph_decodes_witness :
  exists adjacencyList,
    loadDiGraph 64 ([38; 65] ++ [87] ++ 10 :: []) 2 = (0, adjacencyList)
    /\ length adjacencyList = Z.to_nat 2
    /\ forall u v, 0 <= u < 2 -> 0 <= v < 2 ->
         contains (aget EMPTY adjacencyList u) v
         = graph6Bit [87] (u * 2 + v).
Proof.
  apply (loadDiGraph_decodes 64 [38; 65] [87] [] 2).
  - lia.
  - left. lia.
  - reflexivity.
  - repeat constructor; lia.
  - intros p Hp.
    assert (H : p < 0 \/ p = 0 \/ p = 1 \/ p = 2 \/ p = 3 \/ 4 <= p) by lia.
    destruct H as [H|[H|[H|[H|[H|H]]]]]; try lia.
    unfold graph6Bit in Hp. apply andb_true_iff in Hp. destruct Hp as [Hp Hb].
    apply andb_true_iff in Hp. destruct Hp as [_ Hp]. apply Z.ltb_lt in Hp.
    cbn [length] in Hp.
    assert (H' : p = 4 \/ p = 5) by lia.
    destruct H' as [-> | ->]; vm_compute in Hb; discriminate.
Defined.
